(** * count_distinct: the sorted-array distinct accumulator

    A shallow embedding of [count_distinct.c] (the PostgreSQL extension
    [count_distinct]) and the properties of its accumulator: compaction,
    append, finalisation, serialisation and combination of partial states,
    the transition and final functions of the array aggregates, and, at the
    end, the older version of the module that the source tree keeps.

    The embedding follows the C source function by function.  Memory is a
    list of bytes per allocation, pointers into an allocation are byte
    offsets, [uint32] arithmetic is written with its wrap-around, and every
    function returns an [outcome]: a value, an [elog(ERROR)], a failed
    [Assert], or undefined behaviour (an access outside an allocation). *)

From Stdlib Require Import String.
From Stdlib Require Import Strings.Byte.
From Stdlib Require Import ZArith List Lia Bool.
From Stdlib Require Import Sorting.Sorted Sorting.Permutation.
Import ListNotations.
Local Open Scope Z_scope.

(* ================================================================== *)
(** * Outcomes *)
(* ================================================================== *)

(** What a call of one of the C functions can end in. *)
Inductive outcome (A : Type) : Type :=
| Ok (a : A)            (* normal return *)
| Elog (msg : string)   (* elog(ERROR, msg): the query is aborted *)
| Trap                  (* a failed Assert (assert-enabled builds) *)
| Fault.                (* undefined behaviour: access outside an
                           allocation, division by zero, a loop that
                           overruns its zones *)

Arguments Ok {A} a.
Arguments Elog {A} msg.
Arguments Trap {A}.
Arguments Fault {A}.

Definition bind {A B : Type} (c : outcome A) (k : A -> outcome B) : outcome B :=
  match c with
  | Ok a => k a
  | Elog m => Elog m
  | Trap => Trap
  | Fault => Fault
  end.

Declare Scope outcome_scope.
Delimit Scope outcome_scope with outcome.
Notation "x <- c ;; k" := (bind c (fun x => k))
  (at level 61, c at next level, right associativity) : outcome_scope.
Notation "' pat <- c ;; k" := (bind c (fun x => match x with pat => k end))
  (at level 61, pat pattern, c at next level, right associativity) : outcome_scope.
Notation "c ;;; k" := (bind c (fun _ => k))
  (at level 61, right associativity) : outcome_scope.
Local Open Scope outcome_scope.

(** [for (i = lo; i < hi; i++) body], for a body that changes neither [i]
    nor [hi]. *)
Definition range (lo hi : Z) : list Z :=
  map (fun k => lo + Z.of_nat k) (seq 0 (Z.to_nat (hi - lo))).

Fixpoint for_each {S : Type} (idx : list Z) (body : Z -> S -> outcome S) (s : S)
  : outcome S :=
  match idx with
  | [] => Ok s
  | i :: idx' => s' <- body i s ;; for_each idx' body s'
  end.

(* ================================================================== *)
(** * Machine integers *)
(* ================================================================== *)

(** [uint32] arithmetic: every result is taken modulo 2^32. *)
Definition wrap32 (x : Z) : Z := x mod 4294967296.

(** [Size] (a 64-bit [size_t]) arithmetic. *)
Definition wrap64 (x : Z) : Z := x mod 18446744073709551616.

(* ================================================================== *)
(** * Memory: allocations as byte lists *)
(* ================================================================== *)

Definition bytes : Type := list byte.

Definition size (p : bytes) : Z := Z.of_nat (length p).

(** The [n] bytes at [p + off]. *)
Definition load (p : bytes) (off n : Z) : outcome bytes :=
  if (0 <=? off) && (0 <=? n) && (off + n <=? size p)
  then Ok (firstn (Z.to_nat n) (skipn (Z.to_nat off) p))
  else Fault.

(** Overwrite the bytes at [p + off] with [src]. *)
Definition store (p : bytes) (off : Z) (src : bytes) : outcome bytes :=
  if (0 <=? off) && (off + size src <=? size p)
  then Ok (firstn (Z.to_nat off) p ++ src ++ skipn (Z.to_nat off + length src) p)
  else Fault.

(** [memcpy(dst + doff, src + soff, n)]. *)
Definition memcpy (dst : bytes) (doff : Z) (src : bytes) (soff n : Z)
  : outcome bytes :=
  s <- load src soff n ;; store dst doff s.

(** [memcmp] on two byte strings of one length: the sign of the first
    difference, bytes compared as [unsigned char]. *)
Fixpoint memcmp (a b : bytes) : comparison :=
  match a, b with
  | x :: a', y :: b' =>
      match N.compare (Byte.to_N x) (Byte.to_N y) with
      | Eq => memcmp a' b'
      | c => c
      end
  | _, _ => Eq
  end.

(** [memcmp(p + poff, q + qoff, n)]. *)
Definition memcmp_at (p : bytes) (poff : Z) (q : bytes) (qoff n : Z)
  : outcome comparison :=
  a <- load p poff n ;; b <- load q qoff n ;; Ok (memcmp a b).

Definition is_eq (c : comparison) : bool :=
  match c with Eq => true | _ => false end.

(** Native (little-endian) image of an unsigned integer on [n] bytes. *)
Definition byte_of_Z (z : Z) : byte :=
  match Byte.of_N (Z.to_N (z mod 256)) with
  | Some b => b
  | None => x00
  end.

Fixpoint encode_le (n : nat) (z : Z) : bytes :=
  match n with
  | O => []
  | S n' => byte_of_Z z :: encode_le n' (z / 256)
  end.

Fixpoint decode_le (bs : bytes) : Z :=
  match bs with
  | [] => 0
  | b :: bs' => Z.of_N (Byte.to_N b) + 256 * decode_le bs'
  end.

(** The first [n] records of [sz] bytes found at [p + off]. *)
Definition slot (p : bytes) (off sz i : nat) : bytes :=
  firstn sz (skipn (off + i * sz) p).

Definition slots (p : bytes) (off sz n : nat) : list bytes :=
  map (slot p off sz) (seq 0 n).

(* ================================================================== *)
(** * The accumulator *)
(* ================================================================== *)

(** [element_set_t].  The four counters are [uint32]; [aggctx] is a
    pointer, kept as an opaque 64-bit number; [data] is the allocation the
    [data] pointer refers to (its length is the allocated size, which the
    struct records in [nbytes]). *)
Record element_set_t : Type := mk_element_set {
  item_size : Z;
  nsorted : Z;
  nall : Z;
  nbytes : Z;
  typalign : byte;
  aggctx : Z;
  data : bytes
}.

Definition set_nsorted (e : element_set_t) (v : Z) : element_set_t :=
  mk_element_set (item_size e) v (nall e) (nbytes e) (typalign e) (aggctx e) (data e).
Definition set_nall (e : element_set_t) (v : Z) : element_set_t :=
  mk_element_set (item_size e) (nsorted e) v (nbytes e) (typalign e) (aggctx e) (data e).
Definition set_nbytes (e : element_set_t) (v : Z) : element_set_t :=
  mk_element_set (item_size e) (nsorted e) (nall e) v (typalign e) (aggctx e) (data e).
Definition set_data (e : element_set_t) (v : bytes) : element_set_t :=
  mk_element_set (item_size e) (nsorted e) (nall e) (nbytes e) (typalign e) (aggctx e) v.

(** [#define ARRAY_INIT_SIZE 32] *)
Definition ARRAY_INIT_SIZE : Z := 32.

(** PostgreSQL's [ALLOCSET_SEPARATE_THRESHOLD] (utils/memutils.h). *)
Definition ALLOCSET_SEPARATE_THRESHOLD : Z := 8192.

(** PostgreSQL's [MaxAllocSize] (utils/memutils.h): [palloc] and
    [repalloc] refuse larger requests. *)
Definition MaxAllocSize : Z := 1073741823.

(** [VARHDRSZ], the length word of a [bytea]. *)
Definition VARHDRSZ : Z := 4.

(** [sizeof(Datum)]. *)
Definition SIZEOF_DATUM : Z := 8.

(** [offsetof(element_set_t, data)] on an LP64 target: the four [uint32]
    counters at 0, 4, 8 and 12, [typalign] at 16, seven bytes of padding,
    the [aggctx] pointer at 24, and [data] at 32. *)
Definition OFFSETOF_DATA : Z := 32.

(** The records an accumulator stores, as the code addresses them: record
    [i] is the [item_size] bytes at [data + i * item_size]. *)
Definition records (e : element_set_t) : list bytes :=
  slots (data e) 0 (Z.to_nat (item_size e)) (Z.to_nat (nall e)).

Definition sorted_zone (e : element_set_t) : list bytes :=
  firstn (Z.to_nat (nsorted e)) (records e).

Definition pending_zone (e : element_set_t) : list bytes :=
  skipn (Z.to_nat (nsorted e)) (records e).

(** [qsort_arg] with [compare_items]: the order is [memcmp] over the record
    width, under which equal means identical, so every correct sort returns
    the same array; insertion sort stands for it. *)
Fixpoint insert_record (r : bytes) (l : list bytes) : list bytes :=
  match l with
  | [] => [r]
  | x :: l' =>
      match memcmp r x with
      | Gt => x :: insert_record r l'
      | _ => r :: l
      end
  end.

Definition sort_records (l : list bytes) : list bytes :=
  fold_right insert_record [] l.

Definition qsort_arg (p : bytes) (off nel elsize : Z) : outcome bytes :=
  region <- load p off (nel * elsize) ;;
  store p off
    (concat (sort_records (slots region 0 (Z.to_nat elsize) (Z.to_nat nel)))).

Section CountDistinct.

(** Whether the build has [USE_ASSERT_CHECKING]: only then does [Assert]
    test anything. *)
Variable USE_ASSERT_CHECKING : bool.

(** The contents of memory that nothing has written yet: byte [i] of a
    fresh allocation. *)
Variable uninit : nat -> byte.

Definition Assert (c : bool) : outcome unit :=
  if USE_ASSERT_CHECKING && negb c then Trap else Ok tt.

Definition palloc (n : Z) : outcome bytes :=
  if n <=? MaxAllocSize
  then Ok (map uninit (seq 0 (Z.to_nat n)))
  else Elog "invalid memory alloc request size".

(** [repalloc(p, n)]: the old contents are kept, the new tail is
    unwritten. *)
Definition repalloc (p : bytes) (n : Z) : outcome bytes :=
  if n <=? MaxAllocSize
  then Ok (firstn (Z.to_nat n) p
           ++ map uninit (seq (length p) (Z.to_nat n - length p)))
  else Elog "invalid memory alloc request size".

(** [GET_AGG_CONTEXT] and [CHECK_AGG_CONTEXT]: the call's aggregate memory
    context, [None] outside an aggregate. *)
Definition GET_AGG_CONTEXT (fname : string) (context : option Z) : outcome Z :=
  match context with
  | Some ctx => Ok ctx
  | None => Elog (fname ++ " called in non-aggregate context")
  end.

Definition CHECK_AGG_CONTEXT (fname : string) (context : option Z) : outcome unit :=
  match context with
  | Some _ => Ok tt
  | None => Elog (fname ++ " called in non-aggregate context")
  end.

(** ** init_set *)

Definition init_set (item_size : Z) (typalign : byte) (ctx : Z)
  : outcome element_set_t :=
  d <- palloc ARRAY_INIT_SIZE ;;
  Ok (mk_element_set (wrap32 item_size) 0 0 ARRAY_INIT_SIZE typalign ctx d).

(** ** compact_set *)

(** The body of the loop that removes duplicates from the sorted pending
    zone; the state is the array, [last] and [cnt]. *)
Definition dedup_body (eset : element_set_t) (base : Z) (i : Z)
    (st : bytes * Z * Z) : outcome (bytes * Z * Z) :=
  let '(d, last, cnt) := st in
  let curr := base + wrap32 (i * item_size eset) in
  r <- memcmp_at d last d curr (item_size eset) ;;
  if negb (is_eq r) then
    let last := last + item_size eset in
    let cnt := cnt + 1 in
    d <- (if negb (last =? curr)
          then memcpy d last d curr (item_size eset)
          else Ok d) ;;
    Ok (d, last, cnt)
  else Ok (d, last, cnt).

(** The [while (true)] loop that merges the sorted zone [a .. a_max) and
    the deduplicated pending zone [b .. b_max) of [src] into [dst].  Each
    turn moves [a] or [b] forward, so [fuel] turns are enough when [fuel]
    is the number of records; running out of it means the loop has left
    its zones. *)
Fixpoint merge_loop (fuel : nat) (sz : Z) (src : bytes) (a a_max b b_max : Z)
    (dst : bytes) (ptr : Z) : outcome (bytes * Z) :=
  match fuel with
  | O => Fault
  | S fuel' =>
      r <- memcmp_at src a src b sz ;;
      '(dst, a, b) <-
        match r with
        | Eq => d <- memcpy dst ptr src a sz ;; Ok (d, a + sz, b + sz)
        | Lt => d <- memcpy dst ptr src a sz ;; Ok (d, a + sz, b)
        | Gt => d <- memcpy dst ptr src b sz ;; Ok (d, a, b + sz)
        end ;;
      let ptr := ptr + sz in
      if (a =? a_max) || (b =? b_max) then
        if negb (a =? a_max) then
          d <- memcpy dst ptr src a (a_max - a) ;; Ok (d, ptr + (a_max - a))
        else if negb (b =? b_max) then
          d <- memcpy dst ptr src b (b_max - b) ;; Ok (d, ptr + (b_max - b))
        else Ok (dst, ptr)
      else merge_loop fuel' sz src a a_max b b_max dst ptr
  end.

(** The growth test and the new size are written in C with [double]:
    [free_fract = (nbytes - nall * item_size) * 1.0 / nbytes],
    [free_fract < 0.2], [nbytes / 0.8 < ALLOCSET_SEPARATE_THRESHOLD] and
    [nbytes /= 0.8].  On [uint32] operands these are exact integer
    conditions.  The double nearest 0.2 is 0.2 * (1 + 2^-54) and the one
    nearest 0.8 is 0.8 * (1 + 2^-54).  A quotient f/n with n < 2^32 is
    either 1/5 or at least 1/(5n) > 2^-35 away from it, so the rounded
    quotient is below the double 0.2 exactly when 5 f < n.  The quotient
    n / 0.8 rounds to 5n/4 exactly (5n/4 has at most 35 significant bits
    and the relative error 2^-54 is below half a unit in the last place),
    so the test reads 5n < 4 * 8192 and the assignment stores the integer
    part of 5n/4. *)
Definition free_fract_below_ARRAY_FREE_FRACT (eset : element_set_t) : bool :=
  5 * wrap32 (nbytes eset - wrap32 (nall eset * item_size eset)) <? nbytes eset.

Definition grown_nbytes (n : Z) : outcome Z :=
  if 5 * n <? 4 * ALLOCSET_SEPARATE_THRESHOLD
  then Ok (wrap32 (n * 2))
  else if 5 * n / 4 <? 4294967296 then Ok (5 * n / 4) else Fault.

Definition compact_set (eset : element_set_t) (need_space : bool)
  : outcome element_set_t :=
  let base := wrap32 (nsorted eset * item_size eset) in
  Assert (0 <? nall eset) ;;;
  Assert (nsorted eset <=? nall eset) ;;;
  Assert (wrap32 (nall eset * item_size eset) <=? nbytes eset) ;;;
  eset <-
    (if nsorted eset <? nall eset then
       d <- qsort_arg (data eset) base
              (wrap32 (nall eset - nsorted eset)) (item_size eset) ;;
       '(d, _, cnt) <-
          for_each (range 1 (wrap32 (nall eset - nsorted eset)))
                   (dedup_body eset base) (d, base, 1) ;;
       let eset := set_data (set_nall eset (wrap32 (nsorted eset + cnt))) d in
       let eset := if nsorted eset =? 0
                   then set_nsorted eset (nall eset) else eset in
       if nsorted eset <? nall eset then
         new <- palloc (nbytes eset) ;;
         let a_max := wrap32 (nsorted eset * item_size eset) in
         let b_max := wrap32 (nall eset * item_size eset) in
         '(new, ptr) <-
            merge_loop (Z.to_nat (nall eset)) (item_size eset) (data eset)
                       0 a_max a_max b_max new 0 ;;
         Assert (ptr <=? wrap32 (nall eset * item_size eset)) ;;;
         if item_size eset =? 0 then Fault
         else
           let n := wrap32 (Z.quot ptr (item_size eset)) in
           Ok (set_data (set_nall (set_nsorted eset n) n) new)
       else Ok eset
     else Ok eset) ;;
  Assert (nall eset =? nsorted eset) ;;;
  if need_space && free_fract_below_ARRAY_FREE_FRACT eset then
    nb <- grown_nbytes (nbytes eset) ;;
    d <- repalloc (data eset) nb ;;
    Ok (set_data (set_nbytes eset nb) d)
  else Ok eset.

(** ** add_element *)

Definition add_element (eset : element_set_t) (value : bytes)
  : outcome element_set_t :=
  eset <- (if wrap32 (item_size eset * wrap32 (nall eset + 1)) >? nbytes eset
           then compact_set eset true else Ok eset) ;;
  Assert (nbytes eset >=? wrap32 (item_size eset * wrap32 (nall eset + 1))) ;;;
  d <- memcpy (data eset) (wrap32 (item_size eset * nall eset))
              value 0 (item_size eset) ;;
  Ok (set_data (set_nall eset (wrap32 (nall eset + 1))) d).

(** ** count_distinct_append *)

(** What [get_typlenbyvalalign] reports for the element type. *)
Record type_info : Type := mk_type_info {
  typlen : Z;
  typbyval : bool;
  typalign_of : byte
}.

(** The transition function.  [arg0] is the state, [arg1] the value, each
    [None] when SQL NULL; a value is the [sizeof(Datum)] bytes of the local
    variable [element], of which [add_element] copies the first
    [item_size]. *)
Definition count_distinct_append (context : option Z) (ty : type_info)
    (arg0 : option element_set_t) (arg1 : option bytes)
  : outcome (option element_set_t) :=
  match arg1 with
  | None => Ok arg0
  | Some element =>
      aggcontext <- GET_AGG_CONTEXT "count_distinct_append" context ;;
      eset <- match arg0 with
              | None =>
                  if (typlen ty <? 0) || negb (typbyval ty)
                  then Elog "count_distinct handles only fixed-length types passed by value"
                  else init_set (typlen ty) (typalign_of ty) aggcontext
              | Some eset => Ok eset
              end ;;
      eset <- add_element eset element ;;
      Ok (Some eset)
  end.

(** ** count_distinct *)

(** The final function: the state as the call leaves it, and the returned
    count ([None] for SQL NULL). *)
Definition count_distinct (context : option Z) (arg0 : option element_set_t)
  : outcome (option element_set_t * option Z) :=
  CHECK_AGG_CONTEXT "count_distinct" context ;;;
  match arg0 with
  | None => Ok (None, None)
  | Some eset =>
      eset <- compact_set eset false ;;
      Ok (Some eset, Some (nall eset))
  end.

(** ** count_distinct_serial and count_distinct_deserial *)

(** The first [OFFSETOF_DATA] bytes of the struct as they lie in memory:
    the counters, [typalign], the padding (which nothing writes) and the
    [aggctx] pointer. *)
Definition struct_head (eset : element_set_t) : bytes :=
  encode_le 4 (item_size eset) ++ encode_le 4 (nsorted eset)
  ++ encode_le 4 (nall eset) ++ encode_le 4 (nbytes eset)
  ++ [typalign eset] ++ map uninit (seq 17 7) ++ encode_le 8 (aggctx eset).

(** The struct a header image decodes to; [data] is set by the caller. *)
Definition struct_of_head (h : bytes) (d : bytes) : element_set_t :=
  mk_element_set
    (decode_le (firstn 4 h))
    (decode_le (firstn 4 (skipn 4 h)))
    (decode_le (firstn 4 (skipn 8 h)))
    (decode_le (firstn 4 (skipn 12 h)))
    (nth 16 h x00)
    (decode_le (firstn 8 (skipn 24 h)))
    d.

(** The serialisation function: the state as the call leaves it, and the
    contents of the returned [bytea] (what follows its length word). *)
Definition count_distinct_serial (context : option Z) (eset : element_set_t)
  : outcome (element_set_t * bytes) :=
  let hlen := OFFSETOF_DATA in
  CHECK_AGG_CONTEXT "count_distinct_serial" context ;;;
  eset <- compact_set eset false ;;
  Assert (0 <? nall eset) ;;;
  Assert (nall eset =? nsorted eset) ;;;
  let dlen := wrap32 (nall eset * item_size eset) in
  out <- palloc (VARHDRSZ + dlen + hlen) ;;
  let out := skipn (Z.to_nat VARHDRSZ) out in
  out <- memcpy out 0 (struct_head eset) 0 hlen ;;
  out <- memcpy out hlen (data eset) 0 dlen ;;
  Ok (eset, out).

(** The deserialisation function, on the contents of a [bytea]. *)
Definition count_distinct_deserial (context : option Z) (state : bytes)
  : outcome element_set_t :=
  let len := size state in
  CHECK_AGG_CONTEXT "count_distinct_deserial" context ;;;
  Assert (0 <? len) ;;;
  Assert (0 <? wrap64 (len - OFFSETOF_DATA)) ;;;
  h <- load state 0 OFFSETOF_DATA ;;
  let eset := struct_of_head h [] in
  Assert ((0 <? nall eset) && (nall eset =? nsorted eset)) ;;;
  Assert (len =? OFFSETOF_DATA + wrap32 (nall eset * item_size eset)) ;;;
  d <- palloc (wrap32 (nall eset * item_size eset)) ;;
  let eset := set_nbytes eset (wrap32 (nall eset * item_size eset)) in
  d <- memcpy d 0 state OFFSETOF_DATA (wrap32 (nall eset * item_size eset)) ;;
  Ok (set_data eset d).

(** ** count_distinct_combine *)

(** The body of the merging [for] loop.  The state is the output array,
    [tmp], [ptr1], [ptr2] and [prev] (offsets into the output array and the
    two operands); [element] is a pointer into one of the operands. *)
Definition combine_body (eset1 eset2 : element_set_t) (i : Z)
    (st : bytes * Z * Z * Z * Z) : outcome (bytes * Z * Z * Z * Z) :=
  let '(d, tmp, ptr1, ptr2, prev) := st in
  Assert (ptr1 <=? nbytes eset1) ;;;
  Assert (ptr2 <=? nbytes eset2) ;;;
  '(element, ptr1, ptr2) <-
    (if (ptr1 <? nbytes eset1) && (ptr2 <? nbytes eset2) then
       r <- memcmp_at (data eset1) ptr1 (data eset2) ptr2 (item_size eset1) ;;
       match r with
       | Gt => Ok ((data eset2, ptr2), ptr1, ptr2 + item_size eset1)
       | _ => Ok ((data eset1, ptr1), ptr1 + item_size eset1, ptr2)
       end
     else if ptr1 <? nbytes eset1 then
       Ok ((data eset1, ptr1), ptr1 + item_size eset1, ptr2)
     else if ptr2 <? nbytes eset2 then
       Ok ((data eset2, ptr2), ptr1, ptr2 + item_size eset2)
     else Elog "unexpected") ;;
  let '(src, off) := element in
  if tmp =? 0 then
    d <- memcpy d tmp src off (item_size eset1) ;;
    Ok (d, tmp + item_size eset1, ptr1, ptr2, tmp)
  else
    r <- memcmp_at d prev src off (item_size eset1) ;;
    if negb (is_eq r) then
      Assert (match r with Lt => true | _ => false end) ;;;
      d <- memcpy d tmp src off (item_size eset1) ;;
      Ok (d, tmp + item_size eset1, ptr1, ptr2, tmp)
    else Ok (d, tmp, ptr1, ptr2, prev).

(** The combine function; an operand is [None] when SQL NULL.  The result
    is the state the returned pointer refers to. *)
Definition count_distinct_combine (context : option Z)
    (arg0 arg1 : option element_set_t) : outcome (option element_set_t) :=
  agg_context <- GET_AGG_CONTEXT "count_distinct_combine" context ;;
  match arg1 with
  | None => Ok arg0
  | Some eset2 =>
      match arg0 with
      | None =>
          d <- palloc (nbytes eset2) ;;
          d <- memcpy d 0 (data eset2) 0 (nbytes eset2) ;;
          Ok (Some (mk_element_set (item_size eset2) (nsorted eset2)
                      (nall eset2) (nbytes eset2)
                      (uninit 16) (decode_le (map uninit (seq 24 8))) d))
      | Some eset1 =>
          Assert ((0 <? item_size eset1)
                  && (item_size eset1 =? item_size eset2)) ;;;
          eset1 <- compact_set eset1 false ;;
          eset2 <- compact_set eset2 false ;;
          d <- palloc (wrap32 (nbytes eset1 + nbytes eset2)) ;;
          '(d, tmp, ptr1, ptr2, _) <-
             for_each (range 0 (wrap32 (nall eset1 + nall eset2)))
                      (combine_body eset1 eset2) (d, 0, 0, 0, 0) ;;
          Assert (ptr1 =? wrap32 (nall eset1 * item_size eset1)) ;;;
          Assert (ptr2 =? wrap32 (nall eset2 * item_size eset2)) ;;;
          Assert (tmp <=? wrap32 (wrap32 (nall eset1 + nall eset2)
                                  * item_size eset1)) ;;;
          let eset1 := set_nbytes (set_data eset1 d) (wrap32 tmp) in
          if item_size eset1 =? 0 then Fault
          else
            let eset1 := set_nall eset1 (nbytes eset1 / item_size eset1) in
            Ok (Some (set_nsorted eset1 (nall eset1)))
      end
  end.

(** ** compare_items *)

(** [compare_items(a, b, size)], the comparator handed to [qsort_arg]:
    [memcmp] over [*size] bytes of the two items. *)
Definition compare_items (a b : bytes) (size : Z) : comparison :=
  memcmp (firstn (Z.to_nat size) a) (firstn (Z.to_nat size) b).

(** ** count_distinct_elements_append *)

(** What the transition function for arrays reads of its [anyarray]
    argument: [nitems = ArrayGetNItems(ARR_NDIM(input), ARR_DIMS(input))],
    [ARR_NULLBITMAP(input)] ([None] for the NULL pointer of an array
    without null elements), the address [ARR_DATA_PTR(input)] and the
    bytes found from there to the end of the array. *)
Record ArrayType : Type := mk_array {
  arr_nitems : Z;
  arr_nullbitmap : option bytes;
  arr_addr : Z;
  arr_data : bytes
}.

(** [Int32GetDatum], [Int16GetDatum] and [CharGetDatum] widen a value to
    the eight bytes of a Datum: the upper bytes are either the sign
    extension of the operand, as the plain cast [(Datum) (X)] gives, or
    zero, as the mask [SET_4_BYTES(X)] gives, depending on the PostgreSQL
    headers the module is built with. *)
Variable sign_extend_datum : bool.

Definition widen (bs : bytes) : bytes :=
  let fill :=
    if sign_extend_datum && (128 <=? Z.of_N (Byte.to_N (last bs x00)))
    then xff else x00 in
  bs ++ repeat fill (Z.to_nat SIZEOF_DATUM - length bs).

(** [fetch_att(T, true, attlen)] (tupmacs.h, for [SIZEOF_DATUM == 8]): the
    Datum of the by-value attribute of width [attlen] at [p + off]. *)
Definition fetch_att (p : bytes) (off attlen : Z) : outcome bytes :=
  if attlen =? SIZEOF_DATUM then load p off SIZEOF_DATUM
  else if attlen =? 4 then b <- load p off 4 ;; Ok (widen b)
  else if attlen =? 2 then b <- load p off 2 ;; Ok (widen b)
  else Assert (attlen =? 1) ;;; b <- load p off 1 ;; Ok (widen b).

(** [strlen(p + off)]; reading on past the allocation is undefined. *)
Fixpoint strlen (p : bytes) : outcome Z :=
  match p with
  | [] => Fault
  | b :: p' => if Byte.eqb b x00 then Ok 0 else n <- strlen p' ;; Ok (n + 1)
  end.

(** [att_addlength_pointer(cur_offset, attlen, attptr)] for an [attlen]
    of type [uint32], as [eset->item_size] is: a positive width is added;
    the width 0 is neither -1 (a varlena) nor -2, so the assertion of the
    last arm fails and the arm reads a C string. *)
Definition att_addlength_pointer (cur_offset attlen : Z) (p : bytes)
  : outcome Z :=
  if 0 <? attlen then Ok (cur_offset + attlen)
  else
    Assert (attlen =? wrap32 (-2)) ;;;
    n <- strlen (skipn (Z.to_nat cur_offset) p) ;;
    Ok (cur_offset + (n + 1)).

(** [TYPEALIGN(ALIGNVAL, LEN)] (c.h), on 64-bit addresses. *)
Definition TYPEALIGN (alignval len : Z) : Z :=
  Z.land (wrap64 (len + (alignval - 1))) (wrap64 (Z.lnot (alignval - 1))).

(** [att_align_nominal(cur_offset, attalign)], with [ALIGNOF_SHORT = 2],
    [ALIGNOF_INT = 4] and [ALIGNOF_DOUBLE = 8]. *)
Definition att_align_nominal (cur_offset : Z) (attalign : byte)
  : outcome Z :=
  if Byte.eqb attalign "i"%byte then Ok (TYPEALIGN 4 cur_offset)
  else if Byte.eqb attalign "c"%byte then Ok cur_offset
  else if Byte.eqb attalign "d"%byte then Ok (TYPEALIGN 8 cur_offset)
  else Assert (Byte.eqb attalign "s"%byte) ;;; Ok (TYPEALIGN 2 cur_offset).

(** The body of the loop over the array elements.  The state is the local
    [eset] ([None] for NULL) and [arr_ptr], an offset from
    [ARR_DATA_PTR(input)]. *)
Definition elements_body (aggcontext : Z) (ty : type_info)
    (arg0 : option element_set_t) (input : ArrayType) (i : Z)
    (st : option element_set_t * Z) : outcome (option element_set_t * Z) :=
  let '(eset, arr_ptr) := st in
  isnull <-
    match arr_nullbitmap input with
    | Some null_bitmap =>
        b <- load null_bitmap (Z.quot i 8) 1 ;;
        Ok (Z.land (decode_le b) (Z.shiftl 1 (Z.rem i 8)) =? 0)
    | None => Ok false
    end ;;
  if isnull then Ok (eset, arr_ptr)
  else
    eset <-
      match eset with
      | Some eset => Ok eset
      | None =>
          match arg0 with
          | None =>
              if (typlen ty <? 0) || negb (typbyval ty)
              then Elog "count_distinct_elements handles only arrays of fixed-length types passed by value"
              else init_set (typlen ty) (typalign_of ty) aggcontext
          | Some eset => Ok eset
          end
      end ;;
    element <- fetch_att (arr_data input) arr_ptr (item_size eset) ;;
    eset <- add_element eset element ;;
    arr_ptr <- att_addlength_pointer arr_ptr (item_size eset)
                 (arr_data input) ;;
    aligned <- att_align_nominal (wrap64 (arr_addr input + arr_ptr))
                 (typalign eset) ;;
    Ok (Some eset, aligned - arr_addr input).

(** The transition function for arrays.  [arg0] is the state, [arg1] the
    array, each [None] when SQL NULL; [ty] is what [get_typlenbyvalalign]
    reports for the element type of the array. *)
Definition count_distinct_elements_append (context : option Z)
    (ty : type_info) (arg0 : option element_set_t) (arg1 : option ArrayType)
  : outcome (option element_set_t) :=
  match arg1 with
  | None => Ok arg0
  | Some input =>
      aggcontext <-
        GET_AGG_CONTEXT "count_distinct_elements_append" context ;;
      '(eset, _) <-
        for_each (range 0 (arr_nitems input))
                 (elements_body aggcontext ty arg0 input) (None, 0) ;;
      Ok eset
  end.

(** ** build_array and the array final functions *)

(** [palloc0]: the allocation is zeroed. *)
Definition palloc0 (n : Z) : outcome bytes :=
  if n <=? MaxAllocSize
  then Ok (repeat x00 (Z.to_nat n))
  else Elog "invalid memory alloc request size".

(** What the final functions for arrays return: the array that
    [construct_empty_array(element_type)] or
    [construct_array(elems, nelems, element_type, typlen, typbyval,
    typalign)] builds, given by the arguments of the call, [elems] being
    the [nelems] Datums found at the pointer. *)
Inductive array_value : Type :=
| construct_empty_array (element_type : type_info)
| construct_array (elems : list bytes) (nelems : Z)
                  (element_type : type_info).

(** [build_array]: the state as the call leaves it, and the array. *)
Definition build_array (eset : element_set_t) (element_type : type_info)
  : outcome (element_set_t * array_value) :=
  eset <- compact_set eset false ;;
  array_of_datums <- palloc0 (wrap64 (nsorted eset * SIZEOF_DATUM)) ;;
  array_of_datums <-
    for_each (range 0 (nsorted eset))
      (fun i d =>
         memcpy d (i * SIZEOF_DATUM) (data eset)
                (wrap32 (item_size eset * i)) (item_size eset))
      array_of_datums ;;
  Ok (eset,
      construct_array
        (slots array_of_datums 0 (Z.to_nat SIZEOF_DATUM)
               (Z.to_nat (nsorted eset)))
        (nsorted eset) element_type).

(** The final function of [array_agg_distinct(anynonarray)];
    [element_type] is the type of the dummy second parameter.  The error
    message names [count_distinct], as in the source. *)
Definition array_agg_distinct_type_by_element (context : option Z)
    (element_type : type_info) (arg0 : option element_set_t)
  : outcome (option element_set_t * array_value) :=
  CHECK_AGG_CONTEXT "count_distinct" context ;;;
  match arg0 with
  | None => Ok (None, construct_empty_array element_type)
  | Some eset =>
      '(eset, a) <- build_array eset element_type ;; Ok (Some eset, a)
  end.

(** The final function of [array_agg_distinct_elements(anyarray)];
    [element_type] is [get_element_type] of the type of the dummy second
    parameter. *)
Definition array_agg_distinct_type_by_array (context : option Z)
    (element_type : type_info) (arg0 : option element_set_t)
  : outcome (option element_set_t * array_value) :=
  CHECK_AGG_CONTEXT "count_distinct" context ;;;
  match arg0 with
  | None => Ok (None, construct_empty_array element_type)
  | Some eset =>
      '(eset, a) <- build_array eset element_type ;; Ok (Some eset, a)
  end.


(* ================================================================== *)
(** * Byte order on records *)
(* ================================================================== *)

Set Implicit Arguments.

Lemma to_N_inj (x y : byte) : Byte.to_N x = Byte.to_N y -> x = y.
Proof.
  intros H. pose proof (Byte.of_to_N x) as Hx.
  rewrite H, Byte.of_to_N in Hx. congruence.
Qed.

Lemma memcmp_refl (a : bytes) : memcmp a a = Eq.
Proof.
  induction a as [|x a IH]; simpl; [reflexivity|].
  rewrite N.compare_refl. exact IH.
Qed.

Lemma memcmp_eq (a b : bytes) :
  length a = length b -> memcmp a b = Eq -> a = b.
Proof.
  revert b; induction a as [|x a IH]; intros [|y b] Hl H; simpl in *;
    try discriminate; [reflexivity|].
  destruct (N.compare_spec (Byte.to_N x) (Byte.to_N y)) as [E|E|E];
    try discriminate.
  apply to_N_inj in E. subst y. f_equal. apply IH; [lia | exact H].
Qed.

Lemma memcmp_antisym (a b : bytes) : memcmp b a = CompOpp (memcmp a b).
Proof.
  revert b; induction a as [|x a IH]; intros [|y b]; simpl; try reflexivity.
  rewrite (N.compare_antisym (Byte.to_N x) (Byte.to_N y)).
  destruct (Byte.to_N x ?= Byte.to_N y)%N; simpl; auto.
Qed.

Lemma memcmp_lt_trans (a b c : bytes) :
  memcmp a b = Lt -> memcmp b c = Lt -> memcmp a c = Lt.
Proof.
  revert b c; induction a as [|x a IH]; intros [|y b] [|z c]; simpl;
    try discriminate.
  destruct (N.compare_spec (Byte.to_N x) (Byte.to_N y)) as [E1|E1|E1];
    destruct (N.compare_spec (Byte.to_N y) (Byte.to_N z)) as [E2|E2|E2];
    try discriminate; intros H1 H2.
  - rewrite E1, E2, N.compare_refl. eapply IH; eassumption.
  - rewrite E1. apply N.compare_lt_iff in E2. rewrite E2. reflexivity.
  - rewrite <- E2. apply N.compare_lt_iff in E1. rewrite E1. reflexivity.
  - assert (Byte.to_N x < Byte.to_N z)%N as E by lia.
    apply N.compare_lt_iff in E. rewrite E. reflexivity.
Qed.

Lemma memcmp_lt_irrefl (a : bytes) : memcmp a a <> Lt.
Proof. rewrite memcmp_refl. discriminate. Qed.

Lemma memcmp_gt_lt (a b : bytes) : memcmp a b = Gt -> memcmp b a = Lt.
Proof. intros H. rewrite memcmp_antisym, H. reflexivity. Qed.

Lemma memcmp_lt_gt (a b : bytes) : memcmp a b = Lt -> memcmp b a = Gt.
Proof. intros H. rewrite memcmp_antisym, H. reflexivity. Qed.

(** Records of one width. *)
Definition uniform (sz : nat) (rs : list bytes) : Prop :=
  Forall (fun r => length r = sz) rs.

(** Strictly increasing under [memcmp]. *)
Definition rec_lt (a b : bytes) : Prop := memcmp a b = Lt.
Definition rec_le (a b : bytes) : Prop := memcmp a b <> Gt.

Definition StrictSorted (l : list bytes) : Prop := StronglySorted rec_lt l.

Lemma rec_le_lt_trans sz a b c :
  length a = sz -> length b = sz ->
  rec_le a b -> rec_lt b c -> rec_lt a c.
Proof.
  unfold rec_le, rec_lt. intros La Lb H1 H2.
  destruct (memcmp a b) eqn:E; try congruence.
  - apply memcmp_eq in E; [subst; auto | congruence].
  - eapply memcmp_lt_trans; eassumption.
Qed.

Lemma rec_le_trans sz a b c :
  length a = sz -> length b = sz -> length c = sz ->
  rec_le a b -> rec_le b c -> rec_le a c.
Proof.
  unfold rec_le. intros La Lb Lc H1 H2.
  destruct (memcmp b c) eqn:E.
  - apply memcmp_eq in E; [subst; auto | congruence].
  - pose proof (@rec_le_lt_trans sz a b c La Lb H1 E) as H.
    unfold rec_lt in H. rewrite H. discriminate.
  - exfalso. apply H2. reflexivity.
Qed.

Lemma StrictSorted_In_lt (x : bytes) (l : list bytes) :
  StrictSorted (x :: l) -> forall y, In y l -> rec_lt x y.
Proof.
  intros H y Hy. apply StronglySorted_inv in H as [_ H].
  rewrite Forall_forall in H. auto.
Qed.

(** Two strictly increasing sequences with the same members are the same
    sequence. *)
Lemma StrictSorted_unique (l1 l2 : list bytes) :
  StrictSorted l1 -> StrictSorted l2 ->
  (forall x, In x l1 <-> In x l2) -> l1 = l2.
Proof.
  revert l2; induction l1 as [|a l1 IH]; intros l2 S1 S2 H.
  - destruct l2 as [|b l2]; [reflexivity|].
    exfalso. apply (proj2 (H b)). left; reflexivity.
  - destruct l2 as [|b l2].
    { exfalso. apply (proj1 (H a)). left; reflexivity. }
    pose proof (StrictSorted_In_lt S1) as A.
    pose proof (StrictSorted_In_lt S2) as B.
    assert (a = b) as ->.
    { destruct (proj1 (H a) (or_introl eq_refl)) as [E|Ia]; [auto|].
      destruct (proj2 (H b) (or_introl eq_refl)) as [E|Ib]; [auto|].
      apply B in Ia. apply A in Ib.
      exfalso. eapply memcmp_lt_irrefl, memcmp_lt_trans; eassumption. }
    f_equal. apply IH.
    + apply StronglySorted_inv in S1; tauto.
    + apply StronglySorted_inv in S2; tauto.
    + intros x; split; intros Hx.
      * destruct (proj1 (H x) (or_intror Hx)) as [E|I]; [|exact I].
        subst x. apply A in Hx. exfalso. eapply memcmp_lt_irrefl; eassumption.
      * destruct (proj2 (H x) (or_intror Hx)) as [E|I]; [|exact I].
        subst x. apply B in Hx. exfalso. eapply memcmp_lt_irrefl; eassumption.
Qed.

Lemma StrictSorted_NoDup (l : list bytes) : StrictSorted l -> NoDup l.
Proof.
  induction 1 as [|a l S IH F]; constructor; [|exact IH].
  intros I. rewrite Forall_forall in F. apply F in I.
  eapply memcmp_lt_irrefl; eassumption.
Qed.

Lemma StrictSorted_snoc (l : list bytes) (x : bytes) :
  StrictSorted l -> (forall y, In y l -> rec_lt y x) -> StrictSorted (l ++ [x]).
Proof.
  induction 1 as [|a l S IH F]; intros H; simpl.
  - constructor; constructor.
  - constructor.
    + apply IH. intros y Hy. apply H. right; exact Hy.
    + apply Forall_app; split; [exact F|].
      constructor; [|constructor]. apply H. left; reflexivity.
Qed.

(** ** The sort *)

Lemma insert_record_perm (r : bytes) (l : list bytes) :
  Permutation (r :: l) (insert_record r l).
Proof.
  induction l as [|x l IH]; simpl; [reflexivity|].
  destruct (memcmp r x); try reflexivity.
  rewrite perm_swap. constructor. exact IH.
Qed.

Lemma sort_records_perm (l : list bytes) : Permutation l (sort_records l).
Proof.
  induction l as [|x l IH]; simpl; [reflexivity|].
  rewrite <- insert_record_perm. constructor. exact IH.
Qed.

Lemma insert_record_sorted sz (r : bytes) (l : list bytes) :
  length r = sz -> uniform sz l ->
  StronglySorted rec_le l -> StronglySorted rec_le (insert_record r l).
Proof.
  intros Lr U S. induction S as [|x l S IH F]; simpl.
  - constructor; constructor.
  - apply Forall_cons_iff in U as [Lx U].
    destruct (memcmp r x) eqn:E.
    + constructor; [constructor; assumption|].
      assert (rec_le r x) as Hrx by (unfold rec_le; congruence).
      constructor; [exact Hrx|].
      rewrite Forall_forall in *. intros y Hy.
      eapply rec_le_trans with (b := x); eauto.
    + constructor; [constructor; assumption|].
      assert (rec_le r x) as Hrx by (unfold rec_le; congruence).
      constructor; [exact Hrx|].
      rewrite Forall_forall in *. intros y Hy.
      eapply rec_le_trans with (b := x); eauto.
    + constructor; [apply IH; exact U|].
      rewrite Forall_forall in *. intros y Hy.
      apply (Permutation_in _ (Permutation_sym (insert_record_perm r l))) in Hy.
      destruct Hy as [<-|Hy]; [|auto].
      apply memcmp_gt_lt in E. unfold rec_le. rewrite E. discriminate.
Qed.

Lemma uniform_perm sz (l l' : list bytes) :
  Permutation l l' -> uniform sz l -> uniform sz l'.
Proof. intros P U. eapply Permutation_Forall; eassumption. Qed.

Lemma sort_records_uniform sz (l : list bytes) :
  uniform sz l -> uniform sz (sort_records l).
Proof. apply uniform_perm, sort_records_perm. Qed.

Lemma sort_records_sorted sz (l : list bytes) :
  uniform sz l -> StronglySorted rec_le (sort_records l).
Proof.
  induction 1 as [|x l Lx U IH]; simpl; [constructor|].
  eapply insert_record_sorted; eauto. apply sort_records_uniform; exact U.
Qed.

(* ================================================================== *)
(** * Loads and stores on a decomposed allocation *)
(* ================================================================== *)

Lemma wrap32_small (x : Z) : 0 <= x < 4294967296 -> wrap32 x = x.
Proof. intros H. unfold wrap32. apply Z.mod_small. exact H. Qed.

Lemma size_app (p q : bytes) : size (p ++ q) = size p + size q.
Proof. unfold size. rewrite length_app. lia. Qed.

Lemma size_nonneg (p : bytes) : 0 <= size p.
Proof. unfold size. lia. Qed.

Lemma load_at (X r Y : bytes) (off n : Z) :
  off = size X -> n = size r -> load (X ++ r ++ Y) off n = Ok r.
Proof.
  intros -> ->. unfold load. rewrite !size_app.
  pose proof (size_nonneg X). pose proof (size_nonneg r).
  pose proof (size_nonneg Y).
  replace ((0 <=? size X) && (0 <=? size r)
           && (size X + size r <=? size X + (size r + size Y))) with true
    by (symmetry; rewrite !andb_true_iff, !Z.leb_le; lia).
  unfold size. rewrite !Nat2Z.id.
  rewrite skipn_app, skipn_all, Nat.sub_diag. simpl.
  rewrite firstn_app, firstn_all, Nat.sub_diag. simpl.
  rewrite app_nil_r. reflexivity.
Qed.

Lemma store_at (O J r : bytes) (off : Z) :
  off = size O -> (length r <= length J)%nat ->
  store (O ++ J) off r = Ok (O ++ r ++ skipn (length r) J).
Proof.
  intros -> H. unfold store. rewrite !size_app.
  pose proof (size_nonneg O).
  replace ((0 <=? size O) && (size O + size r <=? size O + size J)) with true
    by (symmetry; rewrite !andb_true_iff, !Z.leb_le; unfold size; lia).
  unfold size. rewrite !Nat2Z.id.
  rewrite firstn_app, firstn_all, Nat.sub_diag. simpl. rewrite app_nil_r.
  rewrite skipn_app.
  replace (length O + length r - length O)%nat with (length r) by lia.
  rewrite (skipn_all2 O) by lia. reflexivity.
Qed.

Lemma memcpy_at (O J X r Y : bytes) (doff soff n : Z) :
  doff = size O -> soff = size X -> n = size r ->
  (length r <= length J)%nat ->
  memcpy (O ++ J) doff (X ++ r ++ Y) soff n
  = Ok (O ++ r ++ skipn (length r) J).
Proof.
  intros Hd Hs Hn Hl. unfold memcpy.
  rewrite (load_at X r Y Hs Hn). simpl. apply store_at; assumption.
Qed.

Lemma load_length (p : bytes) (off n : Z) (r : bytes) :
  load p off n = Ok r -> size r = n.
Proof.
  unfold load. destruct (_ && _) eqn:E; [|discriminate].
  rewrite !andb_true_iff, !Z.leb_le in E. intros [= <-].
  unfold size in *. rewrite length_firstn, length_skipn. lia.
Qed.

Lemma store_length (p : bytes) (off : Z) (r q : bytes) :
  store p off r = Ok q -> length q = length p.
Proof.
  unfold store. destruct (_ && _) eqn:E; [|discriminate].
  rewrite !andb_true_iff, !Z.leb_le in E. intros [= <-].
  unfold size in *. rewrite !length_app, length_firstn, length_skipn. lia.
Qed.

(** ** Arrays of records *)

Lemma length_concat_uniform sz (rs : list bytes) :
  uniform sz rs -> length (concat rs) = (length rs * sz)%nat.
Proof.
  induction 1 as [|r rs Lr U IH]; simpl; [reflexivity|].
  rewrite length_app, IH, Lr. reflexivity.
Qed.

Lemma size_concat_uniform sz (rs : list bytes) :
  uniform sz rs -> size (concat rs) = Z.of_nat (length rs) * Z.of_nat sz.
Proof. intros U. unfold size. rewrite (length_concat_uniform U). lia. Qed.

Lemma uniform_app sz (l1 l2 : list bytes) :
  uniform sz (l1 ++ l2) <-> uniform sz l1 /\ uniform sz l2.
Proof. apply Forall_app. Qed.

Lemma slots_S (p : bytes) (off sz n : nat) :
  slots p off sz (S n) = firstn sz (skipn off p) :: slots p (off + sz) sz n.
Proof.
  unfold slots. simpl. f_equal.
  - unfold slot. f_equal. f_equal. lia.
  - rewrite <- seq_shift, map_map. apply map_ext. intros i.
    unfold slot. f_equal. f_equal. lia.
Qed.

Lemma slots_length (p : bytes) (off sz n : nat) :
  length (slots p off sz n) = n.
Proof. unfold slots. rewrite length_map, length_seq. reflexivity. Qed.

Lemma slots_app (p : bytes) (off sz a b : nat) :
  slots p off sz (a + b) = slots p off sz a ++ slots p (off + a * sz) sz b.
Proof.
  revert off; induction a as [|a IH]; intros off.
  - simpl. f_equal. lia.
  - change (S a + b)%nat with (S (a + b)). rewrite !slots_S.
    rewrite <- app_comm_cons. f_equal. rewrite IH. f_equal. f_equal. lia.
Qed.

Lemma slots_concat (pre : bytes) (rs : list bytes) (post : bytes) sz :
  uniform sz rs ->
  slots (pre ++ concat rs ++ post) (length pre) sz (length rs) = rs.
Proof.
  intros U. revert pre. induction U as [|r rs Lr U IH]; intros pre.
  - reflexivity.
  - simpl length. rewrite slots_S. f_equal.
    + rewrite skipn_app, skipn_all, Nat.sub_diag. simpl.
      rewrite <- app_assoc, firstn_app, <- Lr, firstn_all, Nat.sub_diag.
      simpl. apply app_nil_r.
    + specialize (IH (pre ++ r)). rewrite length_app, Lr in IH.
      simpl concat. rewrite <- !app_assoc in *. exact IH.
Qed.

Lemma slots_uniform (p : bytes) (off sz n : nat) :
  (off + n * sz <= length p)%nat -> uniform sz (slots p off sz n).
Proof.
  revert off; induction n as [|n IH]; intros off H.
  - constructor.
  - rewrite slots_S. constructor.
    + rewrite length_firstn, length_skipn. lia.
    + apply IH. lia.
Qed.

Lemma firstn_add (A : Type) (a b : nat) (l : list A) :
  firstn (a + b) l = firstn a l ++ firstn b (skipn a l).
Proof.
  revert l; induction a as [|a IH]; intros [|x l]; simpl;
    try reflexivity.
  - rewrite firstn_nil. reflexivity.
  - f_equal. apply IH.
Qed.

Lemma concat_slots (p : bytes) (off sz n : nat) :
  concat (slots p off sz n) = firstn (n * sz) (skipn off p).
Proof.
  revert off; induction n as [|n IH]; intros off.
  - reflexivity.
  - rewrite slots_S. simpl concat. rewrite IH.
    change (S n * sz)%nat with (sz + n * sz)%nat.
    rewrite firstn_add, skipn_skipn. f_equal. f_equal. f_equal. lia.
Qed.

(** An allocation that holds [n] records is those records followed by the
    rest of the allocation. *)
Lemma slots_decomp (p : bytes) (sz n : nat) :
  (n * sz <= length p)%nat ->
  p = concat (slots p 0 sz n) ++ skipn (n * sz) p.
Proof.
  intros H. rewrite concat_slots. simpl skipn.
  symmetry. apply firstn_skipn.
Qed.

Lemma slots_prefix (p q : bytes) (off sz n : nat) :
  (off + n * sz <= length p)%nat ->
  slots (p ++ q) off sz n = slots p off sz n.
Proof.
  revert off; induction n as [|n IH]; intros off H.
  - reflexivity.
  - rewrite !slots_S. f_equal.
    + rewrite skipn_app, firstn_app, length_skipn.
      replace (sz - (length p - off))%nat with 0%nat by lia.
      simpl. apply app_nil_r.
    + apply IH. lia.
Qed.

Lemma firstn_slots (p : bytes) (off sz n k : nat) :
  (k <= n)%nat -> firstn k (slots p off sz n) = slots p off sz k.
Proof.
  intros H. replace n with (k + (n - k))%nat by lia.
  rewrite slots_app, firstn_app, slots_length, Nat.sub_diag. simpl.
  rewrite app_nil_r, <- (slots_length p off sz k) at 1. apply firstn_all.
Qed.

Lemma skipn_slots (p : bytes) (off sz n k : nat) :
  (k <= n)%nat ->
  skipn k (slots p off sz n) = slots p (off + k * sz) sz (n - k).
Proof.
  intros H. replace n with (k + (n - k))%nat at 1 by lia.
  rewrite slots_app, skipn_app, slots_length, Nat.sub_diag. simpl.
  rewrite <- (slots_length p off sz k) at 1. rewrite skipn_all. reflexivity.
Qed.

(* ================================================================== *)
(** * Loops *)
(* ================================================================== *)

Lemma range_nil (lo hi : Z) : hi <= lo -> range lo hi = [].
Proof.
  intros H. unfold range. replace (Z.to_nat (hi - lo)) with 0%nat by lia.
  reflexivity.
Qed.

Lemma range_cons (lo hi : Z) : lo < hi -> range lo hi = lo :: range (lo + 1) hi.
Proof.
  intros H. unfold range.
  replace (Z.to_nat (hi - lo)) with (S (Z.to_nat (hi - (lo + 1)))) by lia.
  simpl. f_equal; [lia|].
  rewrite <- seq_shift, map_map. apply map_ext. intros k. lia.
Qed.

(** The invariant rule for a [for] loop: an invariant that holds at entry
    and that every turn keeps (each turn returning) holds at exit, and the
    loop returns. *)
Lemma for_each_range_inv (S : Type) (Inv : Z -> S -> Prop)
    (body : Z -> S -> outcome S) (lo hi : Z) (s : S) :
  lo <= hi -> Inv lo s ->
  (forall i s, lo <= i < hi -> Inv i s ->
     exists s', body i s = Ok s' /\ Inv (i + 1) s') ->
  exists s', for_each (range lo hi) body s = Ok s' /\ Inv hi s'.
Proof.
  intros Hle H0 Hstep.
  remember (Z.to_nat (hi - lo)) as n eqn:En.
  revert lo s Hle H0 Hstep En.
  induction n as [|n IH]; intros lo s Hle H0 Hstep En.
  - assert (lo = hi) as -> by lia. rewrite range_nil by lia.
    exists s. split; [reflexivity | exact H0].
  - rewrite range_cons by lia. simpl.
    destruct (Hstep lo s) as (s1 & E1 & I1); [lia | exact H0 |].
    rewrite E1. simpl. apply IH; [lia | exact I1 | | lia].
    intros i s2 Hi. apply Hstep. lia.
Qed.

(** ** The merge loop of compact_set *)

Lemma load_in (p X r Y : bytes) (off n : Z) :
  p = X ++ r ++ Y -> off = size X -> n = size r -> load p off n = Ok r.
Proof. intros ->. apply load_at. Qed.

Lemma memcpy_in (O J X r Y src : bytes) (doff soff n : Z) :
  src = X ++ r ++ Y -> doff = size O -> soff = size X -> n = size r ->
  (length r <= length J)%nat ->
  memcpy (O ++ J) doff src soff n = Ok (O ++ r ++ skipn (length r) J).
Proof. intros ->. apply memcpy_at. Qed.

Lemma memcpy_into (O J X r Y dst src : bytes) (doff soff n : Z) :
  dst = O ++ J -> src = X ++ r ++ Y ->
  doff = size O -> soff = size X -> n = size r ->
  (length r <= length J)%nat ->
  memcpy dst doff src soff n = Ok (O ++ r ++ skipn (length r) J).
Proof. intros -> ->. apply memcpy_at. Qed.

Lemma concat_nil_uniform sz (rs : list bytes) :
  (0 < sz)%nat -> uniform sz rs -> size (concat rs) = 0 -> rs = [].
Proof.
  intros Hsz U H. destruct U as [|r rs Lr U]; [reflexivity|].
  exfalso. unfold size in H. simpl in H. rewrite length_app in H. lia.
Qed.

(** The part of a turn of [merge_loop] after the comparison and the copy
    of one record. *)
Definition merge_rest (fuel : nat) (sz : Z) (src : bytes) (a a_max b b_max : Z)
    (dst : bytes) (ptr : Z) : outcome (bytes * Z) :=
  if (a =? a_max) || (b =? b_max) then
    if negb (a =? a_max) then
      d <- memcpy dst ptr src a (a_max - a) ;; Ok (d, ptr + (a_max - a))
    else if negb (b =? b_max) then
      d <- memcpy dst ptr src b (b_max - b) ;; Ok (d, ptr + (b_max - b))
    else Ok (dst, ptr)
  else merge_loop fuel sz src a a_max b b_max dst ptr.

Lemma merge_loop_S (fuel : nat) (sz : Z) (src : bytes) (a a_max b b_max : Z)
    (dst : bytes) (ptr : Z) :
  merge_loop (S fuel) sz src a a_max b b_max dst ptr =
  (r <- memcmp_at src a src b sz ;;
   '(dst, a, b) <-
     match r with
     | Eq => d <- memcpy dst ptr src a sz ;; Ok (d, a + sz, b + sz)
     | Lt => d <- memcpy dst ptr src a sz ;; Ok (d, a + sz, b)
     | Gt => d <- memcpy dst ptr src b sz ;; Ok (d, a, b + sz)
     end ;;
   merge_rest fuel sz src a a_max b b_max dst (ptr + sz)).
Proof. reflexivity. Qed.

(** What the merge of two record arrays must return: [M] written at the
    output position, and [M] the strictly increasing sequence of the
    members of both. *)
Definition merged (sz : nat) (As Bs M : list bytes) : Prop :=
  uniform sz M /\ StrictSorted M /\
  (forall x, In x M <-> In x As \/ In x Bs) /\
  (length M <= length As + length Bs)%nat.

Definition merge_loop_post (sz : nat) (res : outcome (bytes * Z))
    (As Bs : list bytes) (O J : bytes) : Prop :=
  exists M,
    res = Ok (O ++ concat M ++ skipn (length (concat M)) J,
              size O + size (concat M))
    /\ merged sz As Bs M.

Definition merge_loop_pre (sz : nat) (As Bs : list bytes) (J : bytes) : Prop :=
  uniform sz As /\ uniform sz Bs /\ StrictSorted As /\ StrictSorted Bs /\
  (length (concat As) + length (concat Bs) <= length J)%nat.

Lemma StrictSorted_tail (x : bytes) (l : list bytes) :
  StrictSorted (x :: l) -> StrictSorted l.
Proof. intros H. apply StronglySorted_inv in H. tauto. Qed.

Lemma merged_nil_l sz (Bs : list bytes) :
  uniform sz Bs -> StrictSorted Bs -> merged sz [] Bs Bs.
Proof.
  intros U S. split; [exact U|]. split; [exact S|]. split.
  - intros x. simpl. tauto.
  - simpl. lia.
Qed.

Lemma merged_nil_r sz (As : list bytes) :
  uniform sz As -> StrictSorted As -> merged sz As [] As.
Proof.
  intros U S. split; [exact U|]. split; [exact S|]. split.
  - intros x. simpl. tauto.
  - simpl. lia.
Qed.

(** The two zones being merged, what is left of them ([As], [Bs]), and the
    output written so far ([O]) in front of the unwritten rest ([J]). *)
Definition merge_cfg (src : bytes) (a a_max b b_max : Z) (dst : bytes) (ptr : Z)
    (As Bs : list bytes) (O J : bytes) : Prop :=
  exists X Y Zs : bytes,
    src = X ++ concat As ++ Y ++ concat Bs ++ Zs /\
    a = size X /\ a_max = a + size (concat As) /\
    b = a_max + size Y /\ b_max = b + size (concat Bs) /\
    dst = O ++ J /\ ptr = size O.

Lemma merge_rest_spec (sz : nat) (fuel : nat) :
  (0 < sz)%nat ->
  (forall src a a_max b b_max dst ptr As Bs O J,
      merge_cfg src a a_max b b_max dst ptr As Bs O J ->
      As <> [] -> Bs <> [] -> merge_loop_pre sz As Bs J ->
      (length As + length Bs <= fuel)%nat ->
      merge_loop_post sz
        (merge_loop fuel (Z.of_nat sz) src a a_max b b_max dst ptr)
        As Bs O J) ->
  forall src a a_max b b_max dst ptr As Bs O J,
    merge_cfg src a a_max b b_max dst ptr As Bs O J ->
    merge_loop_pre sz As Bs J ->
    (length As + length Bs <= fuel)%nat ->
    merge_loop_post sz
      (merge_rest fuel (Z.of_nat sz) src a a_max b b_max dst ptr) As Bs O J.
Proof.
  intros Hsz IH src a a_max b b_max dst ptr As Bs O J Hc Hp Hf.
  pose proof Hc as (X & Y & Zs & -> & Ha & Hamax & Hb & Hbmax & -> & Hptr).
  pose proof Hp as (UA & UB & SA & SB & HJ).
  unfold merge_rest.
  destruct (Z.eqb_spec a a_max) as [Ea|Ea];
    destruct (Z.eqb_spec b b_max) as [Eb|Eb]; cbn [orb negb].
  - (* both zones end together *)
    assert (As = []) as -> by (apply (concat_nil_uniform Hsz UA); lia).
    assert (Bs = []) as -> by (apply (concat_nil_uniform Hsz UB); lia).
    exists []. split.
    + simpl. rewrite Z.add_0_r, Hptr. reflexivity.
    + apply merged_nil_l; assumption.
  - (* the sorted zone is exhausted: copy the rest of the pending zone *)
    assert (As = []) as -> by (apply (concat_nil_uniform Hsz UA); lia).
    rewrite (@memcpy_in O J (X ++ Y) (concat Bs) Zs);
      [ | simpl; rewrite <- !app_assoc; reflexivity | exact Hptr
        | rewrite size_app; change (size (concat [])) with 0 in Hamax; lia
        | lia | unfold size in *; lia ].
    cbn [bind]. exists Bs. split.
    + f_equal. f_equal. lia.
    + apply merged_nil_l; assumption.
  - (* the pending zone is exhausted: copy the rest of the sorted zone *)
    assert (Bs = []) as -> by (apply (concat_nil_uniform Hsz UB); lia).
    rewrite (@memcpy_in O J X (concat As) (Y ++ concat [] ++ Zs));
      [ | reflexivity | exact Hptr | exact Ha | lia
        | unfold size in *; simpl in HJ; lia ].
    cbn [bind]. exists As. split.
    + f_equal. f_equal. lia.
    + apply merged_nil_r; assumption.
  - apply IH; try assumption.
    + intros ->. apply Ea. change (size (concat [])) with 0 in Hamax. lia.
    + intros ->. apply Eb. change (size (concat [])) with 0 in Hbmax. lia.
Qed.

Lemma memcmp_at_in (p q a b : bytes) (poff qoff n : Z) :
  load p poff n = Ok a -> load q qoff n = Ok b ->
  memcmp_at p poff q qoff n = Ok (memcmp a b).
Proof. intros Ha Hb. unfold memcmp_at. rewrite Ha, Hb. reflexivity. Qed.

Lemma merge_loop_post_cons (sz : nat) (res : outcome (bytes * Z))
    (As Bs As' Bs' : list bytes) (e O J : bytes) :
  merge_loop_post sz res As' Bs' (O ++ e) (skipn (length e) J) ->
  length e = sz ->
  (forall y, In y As' \/ In y Bs' -> rec_lt e y) ->
  (forall x, (e = x \/ In x As' \/ In x Bs') <-> (In x As \/ In x Bs)) ->
  (length As' + length Bs' + 1 <= length As + length Bs)%nat ->
  merge_loop_post sz res As Bs O J.
Proof.
  intros (M & -> & UM & SM & IM & LM) Le Hlt Hin Hlen.
  exists (e :: M). split.
  - simpl concat. rewrite <- !app_assoc, skipn_skipn, !size_app, length_app.
    rewrite (Nat.add_comm (length (concat M)) (length e)), Z.add_assoc.
    reflexivity.
  - split; [constructor; assumption|]. split; [|split].
    + constructor; [exact SM|]. apply Forall_forall. intros y Hy.
      apply Hlt. apply IM. exact Hy.
    + intros x. rewrite <- Hin. simpl. rewrite IM. tauto.
    + simpl. lia.
Qed.

Lemma merge_loop_spec (sz : nat) :
  (0 < sz)%nat ->
  forall fuel src a a_max b b_max dst ptr As Bs O J,
    merge_cfg src a a_max b b_max dst ptr As Bs O J ->
    As <> [] -> Bs <> [] -> merge_loop_pre sz As Bs J ->
    (length As + length Bs <= fuel)%nat ->
    merge_loop_post sz
      (merge_loop fuel (Z.of_nat sz) src a a_max b b_max dst ptr) As Bs O J.
Proof.
  intros Hsz. induction fuel as [|fuel IH];
    intros src a a_max b b_max dst ptr As Bs O J Hc HA HB Hp Hf.
  { destruct As; [congruence | simpl in Hf; lia]. }
  destruct As as [|a0 As']; [congruence|].
  destruct Bs as [|b0 Bs']; [congruence|].
  destruct Hc as (X & Y & Zs & Hsrc & Ha & Hamax & Hb & Hbmax & Hdst & Hptr).
  destruct Hp as (UA & UB & SA & SB & HJ).
  pose proof (Forall_inv UA) as La0. pose proof (Forall_inv_tail UA) as UA'.
  pose proof (Forall_inv UB) as Lb0. pose proof (Forall_inv_tail UB) as UB'.
  cbv beta in La0, Lb0. fold (uniform sz As') in UA'. fold (uniform sz Bs') in UB'.
  pose proof (StrictSorted_tail SA) as SA'.
  pose proof (StrictSorted_tail SB) as SB'.
  pose proof (StrictSorted_In_lt SA) as LtA.
  pose proof (StrictSorted_In_lt SB) as LtB.
  simpl concat in *. rewrite !size_app in *. rewrite !length_app in HJ.
  assert (size a0 = Z.of_nat sz) as Sa0 by (unfold size; lia).
  assert (size b0 = Z.of_nat sz) as Sb0 by (unfold size; lia).
  assert (load src a (Z.of_nat sz) = Ok a0) as Hla.
  { apply (@load_in src X a0 (concat As' ++ Y ++ (b0 ++ concat Bs') ++ Zs));
      [ rewrite Hsrc, <- !app_assoc; reflexivity | exact Ha | lia ]. }
  assert (load src b (Z.of_nat sz) = Ok b0) as Hlb.
  { apply (@load_in src (X ++ (a0 ++ concat As') ++ Y) b0 (concat Bs' ++ Zs));
      [ rewrite Hsrc, <- !app_assoc; reflexivity
      | rewrite !size_app; lia | lia ]. }
  rewrite merge_loop_S, (@memcmp_at_in _ _ _ _ _ _ _ Hla Hlb). cbn [bind].
  assert (memcpy dst ptr src a (Z.of_nat sz)
          = Ok ((O ++ a0) ++ skipn (length a0) J)) as Hca.
  { rewrite Hdst, <- app_assoc.
    apply (@memcpy_in O J X a0 (concat As' ++ Y ++ (b0 ++ concat Bs') ++ Zs));
      [ rewrite Hsrc, <- !app_assoc; reflexivity | exact Hptr | exact Ha
      | lia | lia ]. }
  assert (memcpy dst ptr src b (Z.of_nat sz)
          = Ok ((O ++ b0) ++ skipn (length b0) J)) as Hcb.
  { rewrite Hdst, <- app_assoc.
    apply (@memcpy_in O J (X ++ (a0 ++ concat As') ++ Y) b0 (concat Bs' ++ Zs));
      [ rewrite Hsrc, <- !app_assoc; reflexivity | exact Hptr
      | rewrite !size_app; lia | lia | lia ]. }
  destruct (memcmp a0 b0) eqn:E.
  - (* equal heads: one copy, both advance *)
    assert (a0 = b0) as <- by (apply memcmp_eq; [congruence | exact E]).
    rewrite Hca. cbn [bind].
    eapply merge_loop_post_cons with (As' := As') (Bs' := Bs') (e := a0).
    + apply merge_rest_spec; [exact Hsz | exact IH | | | simpl in Hf; lia].
      * exists (X ++ a0), (Y ++ a0), Zs. rewrite !size_app.
        repeat split; try lia.
        rewrite Hsrc, <- !app_assoc. reflexivity.
      * repeat split; try assumption. rewrite length_skipn. lia.
    + exact La0.
    + intros y [Hy|Hy]; auto.
    + intros x. simpl. tauto.
    + simpl. lia.
  - (* the sorted zone's head is smaller *)
    rewrite Hca. cbn [bind].
    eapply merge_loop_post_cons with (As' := As') (Bs' := b0 :: Bs') (e := a0).
    + apply merge_rest_spec; [exact Hsz | exact IH | | | simpl in Hf |- *; lia].
      * exists (X ++ a0), Y, Zs. simpl concat. rewrite !size_app.
        repeat split; try lia.
        rewrite Hsrc, <- !app_assoc. reflexivity.
      * repeat split; try assumption. simpl concat.
        rewrite length_skipn, length_app. lia.
    + exact La0.
    + intros y [Hy|[<-|Hy]]; auto.
      eapply memcmp_lt_trans; [exact E | apply LtB; exact Hy].
    + intros x. simpl. tauto.
    + simpl. lia.
  - (* the pending zone's head is smaller *)
    rewrite Hcb. cbn [bind].
    apply memcmp_gt_lt in E.
    eapply merge_loop_post_cons with (As' := a0 :: As') (Bs' := Bs') (e := b0).
    + apply merge_rest_spec; [exact Hsz | exact IH | | | simpl in Hf |- *; lia].
      * exists X, (Y ++ b0), Zs. simpl concat. rewrite !size_app.
        repeat split; try lia.
        rewrite Hsrc, <- !app_assoc. reflexivity.
      * repeat split; try assumption. simpl concat.
        rewrite length_skipn, length_app. lia.
    + exact Lb0.
    + intros y [[<-|Hy]|Hy]; auto.
      eapply memcmp_lt_trans; [exact E | apply LtA; exact Hy].
    + intros x. simpl. tauto.
    + simpl. lia.
Qed.

(** ** The duplicate-removing loop of compact_set *)

Lemma StrictSorted_app_lt (l1 l2 : list bytes) :
  StrictSorted (l1 ++ l2) ->
  forall x y, In x l1 -> In y l2 -> rec_lt x y.
Proof.
  induction l1 as [|a l1 IH]; intros S x y Hx Hy; [destruct Hx|].
  simpl in S. destruct Hx as [<-|Hx].
  - apply (StrictSorted_In_lt S). apply in_or_app. right. exact Hy.
  - apply IH; [exact (StrictSorted_tail S) | exact Hx | exact Hy].
Qed.

Ltac dedup_fin :=
  first
    [ solve [constructor]
    | solve [apply uniform_app; split;
             [assumption | constructor; [assumption | constructor]]]
    | solve [match goal with H : forall x, _ <-> _ |- _ =>
               intros; apply H; assumption end] ].

(** The invariant of the loop at index [i]: the kept records [K0 ++ [l]]
    (strictly increasing, [l] the last kept), then the slots already
    scanned and not kept, then the sorted records still to scan. *)
Definition dedup_inv (sz : nat) (P Q : bytes) (S : list bytes) (i : Z)
    (st : bytes * Z * Z) : Prop :=
  let '(d, last, cnt) := st in
  exists (K0 : list bytes) (l : bytes) (Gs Rest : list bytes),
    d = P ++ concat K0 ++ l ++ concat Gs ++ concat Rest ++ Q /\
    last = size P + size (concat K0) /\
    cnt = Z.of_nat (length K0) + 1 /\
    Z.of_nat (length Gs) = i - cnt /\
    Z.of_nat (length Rest) = Z.of_nat (length S) - i /\
    uniform sz K0 /\ length l = sz /\ uniform sz Gs /\ uniform sz Rest /\
    StrictSorted (K0 ++ [l]) /\
    StronglySorted rec_le (l :: Rest) /\
    (forall x, In x (K0 ++ [l]) \/ In x Rest <-> In x S).

Lemma dedup_body_spec (sz : nat) (eset : element_set_t) (P Q : bytes)
    (S : list bytes) (i : Z) (st : bytes * Z * Z) :
  (0 < sz)%nat -> item_size eset = Z.of_nat sz ->
  Z.of_nat (length S) * Z.of_nat sz < 4294967296 ->
  1 <= i < Z.of_nat (length S) ->
  dedup_inv sz P Q S i st ->
  exists st', dedup_body eset (size P) i st = Ok st'
              /\ dedup_inv sz P Q S (i + 1) st'.
Proof.
  intros Hsz Hisz Hbound Hi.
  destruct st as [[d last] cnt].
  intros (K0 & l & Gs & Rest & Hd & Hlast & Hcnt & HG & HR & UK & Ll & UG & UR
          & SK & SR & Hin).
  destruct Rest as [|c Rest']; [simpl in HR; lia|].
  pose proof (Forall_inv UR) as Lc. cbv beta in Lc.
  pose proof (Forall_inv_tail UR) as UR'. fold (uniform sz Rest') in UR'.
  assert (size l = Z.of_nat sz) as Sl by (unfold size; lia).
  assert (size c = Z.of_nat sz) as Sc by (unfold size; lia).
  pose proof (size_concat_uniform UK) as SzK.
  pose proof (size_concat_uniform UG) as SzG.
  assert (wrap32 (i * item_size eset) = i * Z.of_nat sz) as Hw.
  { rewrite Hisz. apply wrap32_small. nia. }
  unfold dedup_body. rewrite Hw, Hisz.
  assert (size P + i * Z.of_nat sz
          = size (P ++ concat K0 ++ l ++ concat Gs)) as Hcurr.
  { rewrite !size_app, SzK, SzG. nia. }
  assert (load d last (Z.of_nat sz) = Ok l) as Hll.
  { apply (@load_in d (P ++ concat K0) l (concat Gs ++ concat (c :: Rest') ++ Q));
      [ rewrite Hd, <- !app_assoc; reflexivity
      | rewrite size_app; exact Hlast | lia ]. }
  assert (load d (size P + i * Z.of_nat sz) (Z.of_nat sz) = Ok c) as Hlc.
  { apply (@load_in d (P ++ concat K0 ++ l ++ concat Gs) c (concat Rest' ++ Q));
      [ rewrite Hd; simpl concat; rewrite <- !app_assoc; reflexivity
      | exact Hcurr | lia ]. }
  rewrite (@memcmp_at_in _ _ _ _ _ _ _ Hll Hlc). cbn [bind].
  assert (rec_le l c) as Hle.
  { apply StronglySorted_inv in SR as [_ F]. apply (Forall_inv F). }
  destruct (memcmp l c) eqn:E; cbn [is_eq negb].
  - (* a duplicate of the last kept record: skipped *)
    assert (l = c) as <- by (apply memcmp_eq; [congruence | exact E]).
    eexists. split; [reflexivity|].
    exists K0, l, (Gs ++ [l]), Rest'.
    rewrite length_app. simpl length in *.
    split.
    { rewrite Hd, concat_app. simpl concat. rewrite <- !app_assoc.
      reflexivity. }
    assert (StronglySorted rec_le (l :: Rest')).
    { apply StronglySorted_inv in SR as [SR' F]. constructor.
      - apply StronglySorted_inv in SR'. tauto.
      - apply Forall_inv_tail in F. exact F. }
    assert (forall x, In x (K0 ++ [l]) \/ In x Rest' <-> In x S).
    { intros x. rewrite <- Hin, !in_app_iff. simpl. tauto. }
    repeat split; try assumption; try lia; dedup_fin.
  - (* a new record: kept, moved down when there is a gap *)
    assert (StrictSorted ((K0 ++ [l]) ++ [c])) as SK'.
    { apply StrictSorted_snoc; [exact SK|].
      intros y Hy. apply in_app_or in Hy as [Hy|[<-|[]]]; [|exact E].
      eapply memcmp_lt_trans; [|exact E].
      apply (StrictSorted_app_lt _ _ SK); [exact Hy | left; reflexivity]. }
    assert (StronglySorted rec_le (c :: Rest')) as SR'.
    { apply StronglySorted_inv in SR. tauto. }
    assert (forall x, In x ((K0 ++ [l]) ++ [c]) \/ In x Rest' <-> In x S) as Hin'.
    { intros x. rewrite <- Hin, !in_app_iff. simpl. tauto. }
    assert (last + Z.of_nat sz = size P + size (concat (K0 ++ [l]))) as Hlast'.
    { rewrite concat_app, size_app. simpl concat. rewrite app_nil_r. lia. }
    destruct Gs as [|g Gs'].
    + (* no gap: the record is already in place *)
      simpl in HG.
      replace (last + Z.of_nat sz =? size P + i * Z.of_nat sz) with true
        by (symmetry; apply Z.eqb_eq; rewrite Hcurr, !size_app; simpl concat;
            change (size []) with 0; lia).
      cbn [negb bind]. eexists. split; [reflexivity|].
      exists (K0 ++ [l]), c, [], Rest'.
      rewrite length_app. simpl length in *.
      split.
      { rewrite Hd, concat_app. simpl concat. rewrite <- !app_assoc.
        reflexivity. }
      repeat split; try assumption; try lia; dedup_fin.
    + pose proof (Forall_inv UG) as Lg. cbv beta in Lg.
      pose proof (Forall_inv_tail UG) as UG'. fold (uniform sz Gs') in UG'.
      assert (size g = Z.of_nat sz) as Sg by (unfold size; lia).
      replace (last + Z.of_nat sz =? size P + i * Z.of_nat sz) with false
        by (symmetry; apply Z.eqb_neq; rewrite Hcurr, !size_app; simpl concat;
            rewrite size_app; pose proof (size_nonneg (concat Gs')); lia).
      cbn [negb].
      rewrite (@memcpy_into (P ++ concat K0 ++ l)
                 (g ++ concat Gs' ++ concat (c :: Rest') ++ Q)
                 (P ++ concat K0 ++ l ++ concat (g :: Gs')) c
                 (concat Rest' ++ Q));
        [ | rewrite Hd; simpl concat; rewrite <- !app_assoc; reflexivity
          | rewrite Hd; simpl concat; rewrite <- !app_assoc; reflexivity
          | rewrite !size_app; lia | exact Hcurr | lia
          | rewrite length_app; lia ].
      cbn [bind]. eexists. split; [reflexivity|].
      exists (K0 ++ [l]), c, (Gs' ++ [c]), Rest'.
      rewrite !length_app. simpl length in *.
      split.
      { rewrite skipn_app, Lc, <- Lg, skipn_all, Nat.sub_diag.
        cbn [skipn app]. rewrite !concat_app. cbn [concat].
        rewrite !app_nil_r, <- !app_assoc. reflexivity. }
      repeat split; try assumption; try lia; dedup_fin.
  - exfalso. apply Hle. exact E.
Qed.

Lemma dedup_loop_spec (sz : nat) (eset : element_set_t) (P Q : bytes)
    (S : list bytes) :
  (0 < sz)%nat -> item_size eset = Z.of_nat sz ->
  S <> [] -> uniform sz S -> StronglySorted rec_le S ->
  Z.of_nat (length S) * Z.of_nat sz < 4294967296 ->
  exists (K Gs : list bytes) (last : Z),
    for_each (range 1 (Z.of_nat (length S))) (dedup_body eset (size P))
             (P ++ concat S ++ Q, size P, 1)
    = Ok (P ++ concat K ++ concat Gs ++ Q, last, Z.of_nat (length K))
    /\ uniform sz K /\ uniform sz Gs
    /\ (length K + length Gs = length S)%nat
    /\ StrictSorted K /\ K <> []
    /\ (forall x, In x K <-> In x S).
Proof.
  intros Hsz Hisz HS US SS Hb.
  destruct S as [|s0 S']; [congruence|].
  pose proof (Forall_inv US) as Ls0. cbv beta in Ls0.
  pose proof (Forall_inv_tail US) as US'. fold (uniform sz S') in US'.
  destruct (@for_each_range_inv _ (dedup_inv sz P Q (s0 :: S'))
              (dedup_body eset (size P)) 1 (Z.of_nat (length (s0 :: S')))
              (P ++ concat (s0 :: S') ++ Q, size P, 1))
    as ([[d last] cnt] & Hrun & Hinv).
  - simpl length. lia.
  - exists [], s0, [], S'. simpl length.
    split; [simpl concat; rewrite <- !app_assoc; reflexivity|].
    split; [simpl; change (size []) with 0; lia|].
    repeat split; try assumption; try lia; try solve [constructor].
    + constructor; constructor.
    + intros [[H|[]]|H]; [left; exact H | right; exact H].
    + intros [H|H]; [left; left; exact H | right; exact H].
  - intros i st Hi Hinv. apply dedup_body_spec; assumption.
  - destruct Hinv as (K0 & l & Gs & Rest & Hd & Hlast & Hcnt & HG & HR & UK
                      & Ll & UG & UR & SK & SR & Hin).
    destruct Rest as [|? ?]; [|simpl length in HR; lia].
    exists (K0 ++ [l]), Gs, last. split.
    + rewrite Hrun, Hd. f_equal. f_equal; [f_equal|].
      * rewrite concat_app. simpl concat.
        rewrite !app_nil_r, <- !app_assoc. reflexivity.
      * rewrite length_app. simpl length. lia.
    + split; [apply uniform_app; split;
              [exact UK | constructor; [exact Ll | constructor]]|].
      split; [exact UG|].
      split; [rewrite length_app; simpl length in *; lia|].
      split; [exact SK|].
      split; [destruct K0; discriminate|].
      intros x. rewrite <- Hin. simpl. tauto.
Qed.

(** ** qsort_arg on a decomposed allocation *)

Lemma qsort_arg_spec (sz : nat) (P Q : bytes) (Pn : list bytes) :
  uniform sz Pn ->
  qsort_arg (P ++ concat Pn ++ Q) (size P) (Z.of_nat (length Pn)) (Z.of_nat sz)
  = Ok (P ++ concat (sort_records Pn) ++ Q).
Proof.
  intros U. unfold qsort_arg.
  rewrite (@load_in _ P (concat Pn) Q);
    [ | reflexivity | reflexivity | rewrite (size_concat_uniform U); lia ].
  cbn [bind]. rewrite !Nat2Z.id.
  pose proof (@slots_concat [] Pn [] sz U) as Hs.
  simpl in Hs. rewrite app_nil_r in Hs. rewrite Hs.
  rewrite store_at; [ | reflexivity | ].
  - f_equal. f_equal. f_equal.
    rewrite (length_concat_uniform (sort_records_uniform U)).
    rewrite <- (Permutation_length (sort_records_perm Pn)).
    rewrite <- (length_concat_uniform U).
    rewrite skipn_app, skipn_all, Nat.sub_diag. reflexivity.
  - rewrite length_app, (length_concat_uniform (sort_records_uniform U)).
    rewrite <- (Permutation_length (sort_records_perm Pn)).
    rewrite (length_concat_uniform U). lia.
Qed.

(* ================================================================== *)
(** * Well-formed accumulators *)
(* ================================================================== *)

Fixpoint strictly_increasing (l : list bytes) : bool :=
  match l with
  | x :: (y :: _) as t =>
      match memcmp x y with Lt => strictly_increasing t | _ => false end
  | _ => true
  end.

Lemma strictly_increasing_spec (l : list bytes) :
  strictly_increasing l = true <-> StrictSorted l.
Proof.
  induction l as [|x [|y l] IH].
  - split; [constructor | reflexivity].
  - split; [repeat constructor | reflexivity].
  - change (strictly_increasing (x :: y :: l))
      with (match memcmp x y with
            | Lt => strictly_increasing (y :: l) | _ => false end).
    split.
    + destruct (memcmp x y) eqn:E; try discriminate. intros H.
      apply IH in H. constructor; [exact H|].
      constructor; [exact E|].
      apply Forall_forall. intros z Hz.
      eapply memcmp_lt_trans; [exact E|]. apply (StrictSorted_In_lt H _ Hz).
    + intros H. pose proof (StrictSorted_In_lt H y (or_introl eq_refl)) as E.
      unfold rec_lt in E. rewrite E. apply IH. exact (StrictSorted_tail H).
Qed.

(** The invariants of the data model, as a test: a positive record width,
    [nsorted <= nall], [nall * item_size <= nbytes], the capacity within the
    allocation, and a strictly increasing sorted zone. *)
Definition wf (e : element_set_t) : bool :=
  (0 <? item_size e) && (0 <=? nsorted e) && (nsorted e <=? nall e)
  && (nall e * item_size e <=? nbytes e) && (nbytes e <=? MaxAllocSize)
  && (nbytes e <=? size (data e))
  && strictly_increasing (sorted_zone e).

Lemma wf_facts (e : element_set_t) :
  wf e = true ->
  0 < item_size e /\ 0 <= nsorted e <= nall e /\
  nall e * item_size e <= nbytes e /\ nbytes e <= MaxAllocSize /\
  nbytes e <= size (data e) /\ StrictSorted (sorted_zone e).
Proof.
  unfold wf. rewrite !andb_true_iff, !Z.leb_le, Z.ltb_lt.
  rewrite strictly_increasing_spec. tauto.
Qed.

Lemma wf_intro (e : element_set_t) :
  0 < item_size e -> 0 <= nsorted e <= nall e ->
  nall e * item_size e <= nbytes e -> nbytes e <= MaxAllocSize ->
  nbytes e <= size (data e) -> StrictSorted (sorted_zone e) ->
  wf e = true.
Proof.
  intros. unfold wf. rewrite !andb_true_iff, !Z.leb_le, Z.ltb_lt.
  rewrite strictly_increasing_spec. tauto.
Qed.

(* ================================================================== *)
(** * compact_set *)
(* ================================================================== *)

Unset Implicit Arguments.

Lemma Assert_ok (c : bool) : c = true -> Assert c = Ok tt.
Proof. intros ->. unfold Assert. rewrite andb_false_r. reflexivity. Qed.

Lemma palloc_ok (n : Z) :
  n <= MaxAllocSize -> palloc n = Ok (map uninit (seq 0 (Z.to_nat n))).
Proof.
  intros H. unfold palloc.
  replace (n <=? MaxAllocSize) with true by (symmetry; apply Z.leb_le; lia).
  reflexivity.
Qed.

(** The three stages of [compact_set], named so that each can be specified
    on its own: the merge of the two zones, the whole of the sorting branch,
    and the growth of the array. *)
Definition compact_merge (eset : element_set_t) : outcome element_set_t :=
  if nsorted eset <? nall eset then
    new <- palloc (nbytes eset) ;;
    let a_max := wrap32 (nsorted eset * item_size eset) in
    let b_max := wrap32 (nall eset * item_size eset) in
    '(new, ptr) <-
       merge_loop (Z.to_nat (nall eset)) (item_size eset) (data eset)
                  0 a_max a_max b_max new 0 ;;
    Assert (ptr <=? wrap32 (nall eset * item_size eset)) ;;;
    if item_size eset =? 0 then Fault
    else
      let n := wrap32 (Z.quot ptr (item_size eset)) in
      Ok (set_data (set_nall (set_nsorted eset n) n) new)
  else Ok eset.

Definition compact_core (eset : element_set_t) : outcome element_set_t :=
  let base := wrap32 (nsorted eset * item_size eset) in
  if nsorted eset <? nall eset then
    d <- qsort_arg (data eset) base
           (wrap32 (nall eset - nsorted eset)) (item_size eset) ;;
    '(d, _, cnt) <-
       for_each (range 1 (wrap32 (nall eset - nsorted eset)))
                (dedup_body eset base) (d, base, 1) ;;
    let eset := set_data (set_nall eset (wrap32 (nsorted eset + cnt))) d in
    let eset := if nsorted eset =? 0
                then set_nsorted eset (nall eset) else eset in
    compact_merge eset
  else Ok eset.

Definition compact_grow (eset : element_set_t) (need_space : bool)
  : outcome element_set_t :=
  if need_space && free_fract_below_ARRAY_FREE_FRACT eset then
    nb <- grown_nbytes (nbytes eset) ;;
    d <- repalloc (data eset) nb ;;
    Ok (set_data (set_nbytes eset nb) d)
  else Ok eset.

Lemma compact_set_stages (eset : element_set_t) (need_space : bool) :
  compact_set eset need_space =
  (Assert (0 <? nall eset) ;;;
   Assert (nsorted eset <=? nall eset) ;;;
   Assert (wrap32 (nall eset * item_size eset) <=? nbytes eset) ;;;
   eset <- compact_core eset ;;
   Assert (nall eset =? nsorted eset) ;;;
   compact_grow eset need_space).
Proof. reflexivity. Qed.

(** An accumulator whose array starts with the records [rs]. *)
Lemma records_of_concat (e : element_set_t) (sz : nat) (rs : list bytes)
    (rest : bytes) :
  item_size e = Z.of_nat sz -> nall e = Z.of_nat (length rs) ->
  uniform sz rs -> data e = concat rs ++ rest ->
  records e = rs.
Proof.
  intros Hsz Hn U Hd. unfold records. rewrite Hsz, Hn, !Nat2Z.id, Hd.
  apply (@slots_concat [] rs rest sz U).
Qed.

Lemma compact_merge_spec (e : element_set_t) (sz : nat)
    (A K : list bytes) (rest : bytes) :
  (0 < sz)%nat -> item_size e = Z.of_nat sz ->
  data e = concat A ++ concat K ++ rest ->
  nsorted e = Z.of_nat (length A) ->
  nall e = Z.of_nat (length A + length K) ->
  A <> [] -> K <> [] ->
  uniform sz A -> uniform sz K -> StrictSorted A -> StrictSorted K ->
  nall e * item_size e <= nbytes e -> nbytes e <= MaxAllocSize ->
  exists (M : list bytes) (rest' : bytes),
    compact_merge e
    = Ok (mk_element_set (item_size e) (Z.of_nat (length M))
            (Z.of_nat (length M)) (nbytes e) (typalign e) (aggctx e)
            (concat M ++ rest'))
    /\ merged sz A K M /\ M <> []
    /\ size (concat M ++ rest') = nbytes e.
Proof.
  intros Hsz Hisz Hd Hns Hna HA HK UA UK SA SK Hcap Hmax.
  assert (MaxAllocSize = 1073741823) as HM by reflexivity.
  pose proof (size_concat_uniform UA) as SzA.
  pose proof (size_concat_uniform UK) as SzK.
  assert (length A <> 0%nat) as HA' by (destruct A; simpl; congruence).
  assert (length K <> 0%nat) as HK' by (destruct K; simpl; congruence).
  assert (nsorted e * item_size e = size (concat A)) as E1
    by (rewrite SzA, Hns, Hisz; reflexivity).
  assert (nall e * item_size e = size (concat A) + size (concat K)) as E2
    by (rewrite SzA, SzK, Hna, Hisz; lia).
  pose proof (size_nonneg (concat A)). pose proof (size_nonneg (concat K)).
  unfold compact_merge.
  replace (nsorted e <? nall e) with true by (symmetry; apply Z.ltb_lt; lia).
  rewrite palloc_ok by exact Hmax. cbn [bind].
  rewrite E1, E2, !wrap32_small by lia.
  set (J := map uninit (seq 0 (Z.to_nat (nbytes e)))).
  assert (length J = Z.to_nat (nbytes e)) as LJ
    by (unfold J; rewrite length_map, length_seq; reflexivity).
  destruct (@merge_loop_spec sz Hsz (Z.to_nat (nall e)) (data e)
              0 (size (concat A)) (size (concat A))
              (size (concat A) + size (concat K)) J 0 A K [] J)
    as (M & Hrun & HM').
  - exists [], [], rest. simpl app. change (size []) with 0.
    repeat split; try lia. exact Hd.
  - exact HA.
  - exact HK.
  - repeat split; try assumption. unfold size in *. lia.
  - lia.
  - rewrite Hisz, Hrun. cbn [bind].
    pose proof HM' as (UM & SM & IM & LM).
    pose proof (size_concat_uniform UM) as SzM.
    change (size []) with 0. simpl app.
    rewrite Assert_ok by (apply Z.leb_le; nia). cbn [bind].
    replace (Z.of_nat sz =? 0) with false by (symmetry; apply Z.eqb_neq; lia).
    rewrite Z.add_0_l, SzM, Z.quot_mul by lia.
    rewrite wrap32_small by nia.
    exists M, (skipn (length (concat M)) J).
    split; [unfold set_data, set_nall, set_nsorted; simpl;
            rewrite ?Hisz; reflexivity|].
    split; [exact HM'|]. split.
    + intros ->. destruct A as [|a A']; [congruence|].
      apply (proj2 (IM a)). left. left. reflexivity.
    + rewrite size_app. unfold size in *. rewrite length_skipn. nia.
Qed.

Ltac simpl_eset :=
  unfold set_data, set_nall, set_nsorted, set_nbytes;
  cbn [item_size nsorted nall nbytes typalign aggctx data].

(** Replace the computation at the head of a bind by its known result. *)
Ltac bind_rw H :=
  match goal with
  | |- context [bind ?c _] =>
      match type of H with
      | _ = ?v => replace c with v by (symmetry; exact H)
      end
  end.

(** The decomposition of a well-formed accumulator's array into its sorted
    zone, its pending zone and the rest of the allocation. *)
Lemma wf_decomp (e : element_set_t) :
  wf e = true ->
  exists (sz : nat) (rest : bytes),
    (0 < sz)%nat /\ item_size e = Z.of_nat sz /\
    data e = concat (sorted_zone e) ++ concat (pending_zone e) ++ rest /\
    records e = sorted_zone e ++ pending_zone e /\
    nsorted e = Z.of_nat (length (sorted_zone e)) /\
    nall e = Z.of_nat (length (sorted_zone e) + length (pending_zone e)) /\
    uniform sz (sorted_zone e) /\ uniform sz (pending_zone e).
Proof.
  intros H. destruct (wf_facts e H) as (Hisz & Hns & Hcap & Hmax & Hlen & HS).
  exists (Z.to_nat (item_size e)),
         (skipn (Z.to_nat (nall e) * Z.to_nat (item_size e)) (data e)).
  assert ((Z.to_nat (nall e) * Z.to_nat (item_size e) <= length (data e))%nat)
    as Hfit by (unfold size in Hlen; nia).
  assert (length (records e) = Z.to_nat (nall e)) as Lr
    by (unfold records; apply slots_length).
  assert (uniform (Z.to_nat (item_size e)) (records e)) as Ur
    by (unfold records; apply slots_uniform; simpl; exact Hfit).
  assert (records e = sorted_zone e ++ pending_zone e) as Hr
    by (unfold sorted_zone, pending_zone; symmetry; apply firstn_skipn).
  assert (length (sorted_zone e) = Z.to_nat (nsorted e)) as La
    by (unfold sorted_zone; rewrite length_firstn; lia).
  assert (length (pending_zone e) = (Z.to_nat (nall e) - Z.to_nat (nsorted e))%nat)
    as Lp by (unfold pending_zone; rewrite length_skipn; lia).
  rewrite Hr in Ur. apply uniform_app in Ur as [Ua Up].
  repeat split; try assumption; try lia.
  etransitivity; [apply (@slots_decomp _ _ _ Hfit)|].
  change (slots (data e) 0 (Z.to_nat (item_size e)) (Z.to_nat (nall e)))
    with (records e).
  rewrite Hr, concat_app, <- app_assoc. reflexivity.
Qed.

Lemma compact_core_spec (e : element_set_t) :
  wf e = true -> 0 < nall e ->
  exists e1,
    compact_core e = Ok e1 /\ wf e1 = true /\
    item_size e1 = item_size e /\ nbytes e1 = nbytes e /\
    typalign e1 = typalign e /\ aggctx e1 = aggctx e /\
    nsorted e1 = nall e1 /\ 0 < nall e1 <= nall e /\
    (forall x, In x (records e1) <-> In x (records e)) /\
    (nsorted e = nall e -> e1 = e).
Proof.
  intros Hwf Hpos.
  destruct (wf_facts e Hwf) as (Hisz & Hns & Hcap & Hmax & Hlen & HS).
  destruct (wf_decomp e Hwf)
    as (sz & rest & Hsz & Esz & Hd & Hr & Ens & Ena & Ua & Up).
  assert (MaxAllocSize = 1073741823) as HM by reflexivity.
  unfold compact_core.
  destruct (Z.ltb_spec (nsorted e) (nall e)) as [Hlt|Hge].
  2:{ exists e. repeat split; try assumption; try lia; tauto. }
  set (A := sorted_zone e) in *. set (Pn := pending_zone e) in *.
  pose proof (size_concat_uniform Ua) as SzA.
  assert (nsorted e * item_size e = size (concat A)) as E1
    by (rewrite SzA, Ens, Esz; reflexivity).
  assert (nall e - nsorted e = Z.of_nat (length Pn)) as E2 by lia.
  assert (Z.of_nat (length Pn) * Z.of_nat sz <= nbytes e) as Hp by nia.
  pose proof (size_nonneg (concat A)).
  assert (size (concat A) <= nbytes e) as HA by nia.
  rewrite E1, E2, !wrap32_small by lia.
  rewrite Hd, Esz, (qsort_arg_spec (concat A) rest Up). cbn [bind].
  set (S := sort_records Pn).
  assert (length S = length Pn) as LS
    by (symmetry; apply Permutation_length, sort_records_perm).
  destruct (@dedup_loop_spec sz e (concat A) rest S Hsz Esz)
    as (K & Gs & last & Hrun & UK & UG & LK & SK & HK & IK).
  { intros E. rewrite E in LS. simpl in LS. lia. }
  { apply sort_records_uniform. exact Up. }
  { apply (sort_records_sorted Up). }
  { rewrite LS. lia. }
  rewrite LS in Hrun. bind_rw Hrun. cbn [bind].
  assert (length K <> 0%nat) as HK' by (destruct K; simpl; congruence).
  assert (forall x, In x K <-> In x Pn) as IK'.
  { intros x. rewrite IK. split; apply Permutation_in;
      [apply Permutation_sym|]; apply sort_records_perm. }
  simpl_eset.
  assert (nall e <= nbytes e) as Hnb by nia.
  rewrite !wrap32_small by lia.
  destruct (Z.eqb_spec (nsorted e) 0) as [Ez|Enz].
  - (* the first sorted part: it becomes the sorted zone *)
    assert (A = []) as EA by (destruct A; [reflexivity | simpl in Ens; lia]).
    unfold compact_merge. simpl_eset.
    rewrite Z.ltb_irrefl. eexists. split; [reflexivity|].
    rewrite EA in *. simpl app in *. simpl length in *.
    set (e1 := mk_element_set _ _ _ _ _ _ _).
    assert (records e1 = K) as Hrec.
    { apply (@records_of_concat e1 sz K (concat Gs ++ rest));
        [exact Esz | simpl; lia | exact UK | reflexivity]. }
    assert (sorted_zone e1 = K) as Hsz1.
    { unfold sorted_zone. rewrite Hrec. simpl.
      replace (Z.to_nat (nsorted e + Z.of_nat (length K))) with (length K)
        by lia.
      apply firstn_all. }
    split.
    { apply wf_intro; simpl; rewrite ?Hsz1, ?Esz; try assumption; try lia;
        try nia; [idtac].
      rewrite Hd in Hlen. rewrite !size_app in *.
      rewrite (size_concat_uniform UK), (size_concat_uniform UG).
      rewrite (size_concat_uniform Up) in Hlen. nia. }
    repeat split; try reflexivity; simpl; try lia.
    + rewrite Hrec, Hr. apply IK'.
    + rewrite Hrec, Hr. apply IK'.
  - (* merge the deduplicated pending zone into the sorted zone *)
    set (e0 := mk_element_set _ _ _ _ _ _ _).
    destruct (@compact_merge_spec e0 sz A K (concat Gs ++ rest))
      as (M & rest' & Hm & (UM & SM & IM & LM) & HMne & Hsize);
      try assumption; try reflexivity.
    { simpl. lia. }
    { intros E. rewrite E in Ens. simpl in Ens. lia. }
    { simpl. rewrite Esz. nia. }
    rewrite Hm. eexists. split; [reflexivity|].
    set (e1 := mk_element_set _ _ _ _ _ _ _).
    assert (length M <> 0%nat) as HM' by (destruct M; simpl; congruence).
    assert (records e1 = M) as Hrec.
    { apply (@records_of_concat e1 sz M rest');
        [exact Esz | reflexivity | exact UM | reflexivity]. }
    assert (sorted_zone e1 = M) as Hsz1.
    { unfold sorted_zone. rewrite Hrec. simpl. rewrite Nat2Z.id.
      apply firstn_all. }
    split.
    { assert (Z.of_nat (length M) * Z.of_nat sz <= nall e * Z.of_nat sz)
        by (apply Z.mul_le_mono_nonneg_r; lia).
      rewrite Esz in Hcap.
      apply wf_intro; simpl; rewrite ?Hsz1, ?Esz; try assumption; try lia.
      rewrite Hsize. simpl. lia. }
    repeat split; try reflexivity; simpl; try lia.
    + rewrite Hrec, Hr. intros Hx. apply IM in Hx. apply in_or_app.
      rewrite <- IK'. exact Hx.
    + rewrite Hrec, Hr. intros Hx. apply IM. apply in_app_or in Hx.
      rewrite IK'. exact Hx.
Qed.

(** What compaction leaves: a well-formed accumulator of the same width
    whose records are all sorted, and are the members of the old one. *)
Definition compacted (e e1 : element_set_t) : Prop :=
  wf e1 = true /\ item_size e1 = item_size e /\
  typalign e1 = typalign e /\ aggctx e1 = aggctx e /\
  nsorted e1 = nall e1 /\ 0 < nall e1 <= nall e /\
  (forall x, In x (records e1) <-> In x (records e)).

(** The accumulator after its array has been reallocated to [nb] bytes. *)
Definition grown (e : element_set_t) (nb : Z) : element_set_t :=
  set_data (set_nbytes e nb)
    (firstn (Z.to_nat nb) (data e)
     ++ map uninit (seq (length (data e)) (Z.to_nat nb - length (data e)))).

Lemma slots_firstn (p : bytes) (sz n k : nat) :
  (n * sz <= k)%nat -> (n * sz <= length p)%nat ->
  slots (firstn k p) 0 sz n = slots p 0 sz n.
Proof.
  intros H1 H2. rewrite <- (firstn_skipn k p) at 2.
  symmetry. apply slots_prefix. rewrite length_firstn. simpl. lia.
Qed.

Lemma grown_spec (e : element_set_t) (nb : Z) :
  wf e = true -> nbytes e <= nb <= MaxAllocSize ->
  wf (grown e nb) = true /\ records (grown e nb) = records e /\
  sorted_zone (grown e nb) = sorted_zone e.
Proof.
  intros Hwf Hnb.
  destruct (wf_facts e Hwf) as (Hisz & Hns & Hcap & Hmax & Hlen & HS).
  assert ((Z.to_nat (nall e) * Z.to_nat (item_size e) <= length (data e))%nat)
    as Hfit by (unfold size in Hlen; nia).
  assert ((Z.to_nat (nall e) * Z.to_nat (item_size e) <= Z.to_nat nb)%nat)
    as Hfit' by nia.
  assert (records (grown e nb) = records e) as Hrec.
  { unfold records, grown. simpl_eset.
    rewrite slots_prefix by (rewrite length_firstn; simpl; lia).
    apply slots_firstn; assumption. }
  assert (sorted_zone (grown e nb) = sorted_zone e) as Hsz
    by (unfold sorted_zone; rewrite Hrec; reflexivity).
  split; [|split; assumption].
  apply wf_intro; try (rewrite Hsz; exact HS); unfold grown; simpl_eset;
    try lia.
  unfold size. rewrite length_app, length_firstn, length_map, length_seq.
  lia.
Qed.

Lemma compact_grow_keep (e : element_set_t) (need_space : bool) :
  wf e = true ->
  need_space = false \/ nbytes e <= 5 * (nbytes e - nall e * item_size e) ->
  compact_grow e need_space = Ok e.
Proof.
  intros Hwf H.
  destruct (wf_facts e Hwf) as (Hisz & Hns & Hcap & Hmax & Hlen & HS).
  assert (MaxAllocSize = 1073741823) as HM by reflexivity.
  unfold compact_grow. destruct H as [->|H]; [reflexivity|].
  unfold free_fract_below_ARRAY_FREE_FRACT.
  assert (0 <= nall e * item_size e) by nia.
  rewrite (@wrap32_small (nall e * item_size e)) by lia.
  rewrite wrap32_small by lia.
  replace (5 * (nbytes e - nall e * item_size e) <? nbytes e) with false
    by (symmetry; apply Z.ltb_ge; lia).
  rewrite andb_false_r. reflexivity.
Qed.

Lemma compact_grow_grow (e : element_set_t) :
  wf e = true -> 0 < nall e ->
  5 * (nbytes e - nall e * item_size e) < nbytes e ->
  exists nb,
    (nb = 2 * nbytes e \/ (6554 <= nbytes e /\ nb = 5 * nbytes e / 4)) /\
    nbytes e < nb <= 2 * nbytes e /\
    (nb <= MaxAllocSize -> compact_grow e true = Ok (grown e nb)) /\
    (MaxAllocSize < nb ->
     compact_grow e true = Elog "invalid memory alloc request size").
Proof.
  intros Hwf Hpos H.
  destruct (wf_facts e Hwf) as (Hisz & Hns & Hcap & Hmax & Hlen & HS).
  assert (MaxAllocSize = 1073741823) as HM by reflexivity.
  assert (0 < nall e * item_size e) by nia.
  unfold compact_grow, free_fract_below_ARRAY_FREE_FRACT.
  rewrite (@wrap32_small (nall e * item_size e)) by lia.
  rewrite wrap32_small by lia.
  replace (5 * (nbytes e - nall e * item_size e) <? nbytes e) with true
    by (symmetry; apply Z.ltb_lt; lia).
  cbn [andb]. unfold grown_nbytes.
  change (4 * ALLOCSET_SEPARATE_THRESHOLD) with 32768.
  destruct (Z.ltb_spec (5 * nbytes e) 32768) as [Hs|Hl].
  - exists (2 * nbytes e). rewrite wrap32_small by lia. cbn [bind].
    replace (nbytes e * 2) with (2 * nbytes e) by lia.
    split; [left; reflexivity|]. split; [lia|].
    unfold repalloc. split; intros Hnb.
    + replace (2 * nbytes e <=? MaxAllocSize) with true
        by (symmetry; apply Z.leb_le; lia).
      reflexivity.
    + replace (2 * nbytes e <=? MaxAllocSize) with false
        by (symmetry; apply Z.leb_gt; lia).
      reflexivity.
  - exists (5 * nbytes e / 4).
    pose proof (Z.div_mod (5 * nbytes e) 4 ltac:(lia)) as Hdm.
    pose proof (Z.mod_pos_bound (5 * nbytes e) 4 ltac:(lia)) as Hmb.
    assert (5 * nbytes e / 4 < 4294967296) as Hq by lia.
    replace (5 * nbytes e / 4 <? 4294967296) with true
      by (symmetry; apply Z.ltb_lt; exact Hq).
    cbn [bind].
    assert (nbytes e < 5 * nbytes e / 4 <= 2 * nbytes e) as Hb by lia.
    split; [right; split; [lia | reflexivity]|]. split; [exact Hb|].
    unfold repalloc. split; intros Hnb.
    + replace (5 * nbytes e / 4 <=? MaxAllocSize) with true
        by (symmetry; apply Z.leb_le; lia).
      reflexivity.
    + replace (5 * nbytes e / 4 <=? MaxAllocSize) with false
        by (symmetry; apply Z.leb_gt; lia).
      reflexivity.
Qed.

(** [compact_set] is its sorting branch followed by the growth step; on a
    well-formed, non-empty accumulator the sorting branch returns. *)
Lemma compact_set_spec (e : element_set_t) (need_space : bool) :
  wf e = true -> 0 < nall e ->
  exists e1,
    compact_set e need_space = compact_grow e1 need_space /\
    compacted e e1 /\ nbytes e1 = nbytes e /\
    (nsorted e = nall e -> e1 = e).
Proof.
  intros Hwf Hpos.
  destruct (wf_facts e Hwf) as (Hisz & Hns & Hcap & Hmax & Hlen & HS).
  assert (MaxAllocSize = 1073741823) as HM by reflexivity.
  destruct (compact_core_spec e Hwf Hpos)
    as (e1 & Hc & Hwf1 & E1 & E2 & E3 & E4 & E5 & E6 & E7 & E8).
  exists e1. split; [|repeat split; try assumption; try lia; apply E7].
  rewrite compact_set_stages.
  assert (0 <= nall e * item_size e) by nia.
  rewrite (Assert_ok (0 <? nall e)) by (apply Z.ltb_lt; lia).
  cbn [bind].
  rewrite (Assert_ok (nsorted e <=? nall e)) by (apply Z.leb_le; lia).
  cbn [bind].
  rewrite Assert_ok by (rewrite wrap32_small by lia; apply Z.leb_le; lia).
  cbn [bind]. rewrite Hc. cbn [bind].
  rewrite Assert_ok by (apply Z.eqb_eq; lia). reflexivity.
Qed.

Lemma compact_set_false_spec (e : element_set_t) :
  wf e = true -> 0 < nall e ->
  exists e1,
    compact_set e false = Ok e1 /\ compacted e e1 /\
    nbytes e1 = nbytes e /\ (nsorted e = nall e -> e1 = e).
Proof.
  intros Hwf Hpos.
  destruct (compact_set_spec e false Hwf Hpos) as (e1 & Hc & Hcomp & Hn & He).
  exists e1. rewrite Hc. repeat split; try assumption; try apply Hcomp.
Qed.

(** How the capacity changes across a compaction: kept, or enlarged because
    less than a fifth of it was free. *)
Definition capacity_step (need_space : bool) (e e2 : element_set_t) : Prop :=
  (nbytes e2 = nbytes e /\
   (need_space = false
    \/ nbytes e <= 5 * (nbytes e - nall e2 * item_size e2)))
  \/ (need_space = true /\
      5 * (nbytes e - nall e2 * item_size e2) < nbytes e /\
      (nbytes e2 = 2 * nbytes e
       \/ (6554 <= nbytes e /\ nbytes e2 = 5 * nbytes e / 4)) /\
      nbytes e < nbytes e2 <= MaxAllocSize).

Lemma compacted_grown (e e1 : element_set_t) (nb : Z) :
  compacted e e1 -> nbytes e1 <= nb <= MaxAllocSize ->
  compacted e (grown e1 nb).
Proof.
  intros (Hwf & H1 & H2 & H3 & H4 & H5 & H6) Hnb.
  destruct (grown_spec e1 nb Hwf Hnb) as (Hwf' & Hrec & Hsz).
  unfold compacted. rewrite Hrec.
  repeat split; try assumption; try apply H6; unfold grown; simpl_eset; lia.
Qed.

Lemma compact_set_inv (e : element_set_t) (need_space : bool)
    (e2 : element_set_t) :
  wf e = true -> 0 < nall e -> compact_set e need_space = Ok e2 ->
  compacted e e2 /\ capacity_step need_space e e2 /\
  (nsorted e = nall e -> records e2 = records e) /\
  (nsorted e = nall e -> need_space = false -> e2 = e).
Proof.
  intros Hwf Hpos Hrun.
  destruct (compact_set_spec e need_space Hwf Hpos)
    as (e1 & Hc & Hcomp & Hn & He).
  rewrite Hc in Hrun. clear Hc.
  pose proof Hcomp as (Hwf1 & H1 & H2 & H3 & H4 & H5 & H6).
  destruct (wf_facts e1 Hwf1) as (Hisz & Hns & Hcap & Hmax & Hlen & HS).
  assert (need_space = false
          \/ nbytes e1 <= 5 * (nbytes e1 - nall e1 * item_size e1)
          \/ (need_space = true
              /\ 5 * (nbytes e1 - nall e1 * item_size e1) < nbytes e1))
    as [Hk|[Hk|[Hns' Hg]]] by (destruct need_space; lia).
  - rewrite (compact_grow_keep e1 need_space Hwf1 (or_introl Hk)) in Hrun.
    injection Hrun as <-. split; [exact Hcomp|]. split.
    + left. split; [exact Hn | left; exact Hk].
    + split; [intros E; rewrite (He E); reflexivity | intros E _; exact (He E)].
  - rewrite (compact_grow_keep e1 need_space Hwf1 (or_intror Hk)) in Hrun.
    injection Hrun as <-. split; [exact Hcomp|]. split.
    + left. split; [exact Hn | right; rewrite <- Hn; exact Hk].
    + split; [intros E; rewrite (He E); reflexivity|].
      intros E _. exact (He E).
  - subst need_space.
    destruct (compact_grow_grow e1 Hwf1 ltac:(lia) Hg)
      as (nb & Hnb & Hrange & Hok & Herr).
    destruct (Z.le_gt_cases nb MaxAllocSize) as [Hle|Hgt].
    2:{ rewrite (Herr Hgt) in Hrun. discriminate. }
    rewrite (Hok Hle) in Hrun. injection Hrun as <-.
    destruct (grown_spec e1 nb Hwf1 (conj (Z.lt_le_incl _ _ (proj1 Hrange)) Hle))
      as (Hwf' & Hrec & Hsz).
    split; [apply compacted_grown; [exact Hcomp | lia]|]. split.
    + right. unfold grown. simpl_eset. rewrite <- Hn.
      repeat split; try assumption; lia.
    + split; [intros E; rewrite Hrec, (He E); reflexivity|].
      intros _ E. discriminate.
Qed.

Lemma compact_set_total (e : element_set_t) (need_space : bool) :
  wf e = true -> 0 < nall e ->
  need_space = false \/ 2 * nbytes e <= MaxAllocSize ->
  exists e2, compact_set e need_space = Ok e2.
Proof.
  intros Hwf Hpos Hmem.
  destruct (compact_set_spec e need_space Hwf Hpos)
    as (e1 & Hc & Hcomp & Hn & He).
  rewrite Hc.
  pose proof Hcomp as (Hwf1 & H1 & H2 & H3 & H4 & H5 & H6).
  assert (need_space = false
          \/ nbytes e1 <= 5 * (nbytes e1 - nall e1 * item_size e1)
          \/ (need_space = true
              /\ 5 * (nbytes e1 - nall e1 * item_size e1) < nbytes e1))
    as [Hk|[Hk|[Hns' Hg]]] by (destruct need_space; lia).
  - exists e1. apply compact_grow_keep; [exact Hwf1 | left; exact Hk].
  - exists e1. apply compact_grow_keep; [exact Hwf1 | right; exact Hk].
  - subst need_space.
    destruct (compact_grow_grow e1 Hwf1 ltac:(lia) Hg)
      as (nb & Hnb & Hrange & Hok & Herr).
    exists (grown e1 nb). apply Hok.
    destruct Hmem as [Hf|Hm]; [discriminate | lia].
Qed.

(** Strict increase, as the distinctness invariant words it: each record
    of the sorted zone is below the next one. *)
Definition adjacent_increasing (l : list bytes) : Prop :=
  forall i : nat, (i + 1 < length l)%nat ->
    memcmp (nth i l []) (nth (i + 1) l []) = Lt.

Lemma StrictSorted_adjacent (l : list bytes) :
  StrictSorted l -> adjacent_increasing l.
Proof.
  intros H. unfold adjacent_increasing.
  induction H as [|x l S IH F]; intros i Hi; [simpl in Hi; lia|].
  destruct i as [|i].
  - destruct l as [|y l]; [simpl in Hi; lia|]. simpl.
    apply (Forall_inv F).
  - simpl. apply IH. simpl in Hi. lia.
Qed.

Lemma compacted_sorted (e e1 : element_set_t) :
  compacted e e1 -> StrictSorted (records e1) /\ sorted_zone e1 = records e1.
Proof.
  intros (Hwf & H1 & H2 & H3 & H4 & H5 & H6).
  destruct (wf_facts e1 Hwf) as (Hisz & Hns & Hcap & Hmax & Hlen & HS).
  assert (sorted_zone e1 = records e1) as E.
  { unfold sorted_zone. rewrite H4. apply firstn_all2.
    unfold records. rewrite slots_length. lia. }
  split; [rewrite <- E; exact HS | exact E].
Qed.

(* ================================================================== *)
(** * add_element and the transition function *)
(* ================================================================== *)

(** The capacities the append path produces: the initial 32 bytes doubled
    any number of times, or a size reached by the slower growth. *)
Definition capacity_ok (n : Z) : Prop :=
  32 <= n /\ (n mod 8 = 0 \/ 40 <= n).

Lemma load_prefix (p : bytes) (n : Z) :
  0 <= n <= size p -> load p 0 n = Ok (firstn (Z.to_nat n) p).
Proof.
  intros H. unfold load.
  replace ((0 <=? 0) && (0 <=? n) && (0 + n <=? size p)) with true
    by (symmetry; rewrite !andb_true_iff, !Z.leb_le; lia).
  reflexivity.
Qed.

Lemma store_in (O J r dst : bytes) (off : Z) :
  dst = O ++ J -> off = size O -> (length r <= length J)%nat ->
  store dst off r = Ok (O ++ r ++ skipn (length r) J).
Proof. intros ->. apply store_at. Qed.

Lemma add_element_spec (e : element_set_t) (value : bytes) :
  wf e = true -> 0 < item_size e <= 8 -> capacity_ok (nbytes e) ->
  2 * nbytes e <= MaxAllocSize -> item_size e <= size value ->
  exists e',
    add_element e value = Ok e' /\ wf e' = true /\
    item_size e' = item_size e /\ typalign e' = typalign e /\
    aggctx e' = aggctx e /\ capacity_ok (nbytes e') /\
    0 < nall e' <= nall e + 1 /\
    (forall x, In x (records e')
               <-> In x (records e)
                   \/ x = firstn (Z.to_nat (item_size e)) value) /\
    (nbytes e' = nbytes e \/ 2 * nbytes e' < 5 * (nall e' * item_size e')).
Proof.
  intros Hwf Hisz [Hc32 Hc8] Hmem Hval.
  destruct (wf_facts e Hwf) as (_ & Hns & Hcap & Hmax & Hlen & HS).
  assert (MaxAllocSize = 1073741823) as HM by reflexivity.
  assert (0 <= nall e * item_size e) as Hu by nia.
  assert (nall e <= nall e * item_size e) as Hna by nia.
  (* the state the copy starts from *)
  assert (exists e2,
            (if wrap32 (item_size e * wrap32 (nall e + 1)) >? nbytes e
             then compact_set e true else Ok e) = Ok e2
            /\ wf e2 = true /\ item_size e2 = item_size e
            /\ typalign e2 = typalign e /\ aggctx e2 = aggctx e
            /\ capacity_ok (nbytes e2) /\ 0 <= nall e2 <= nall e
            /\ (forall x, In x (records e2) <-> In x (records e))
            /\ (nall e2 + 1) * item_size e2 <= nbytes e2
            /\ (nbytes e2 = nbytes e
                \/ 2 * nbytes e2 < 5 * (nall e2 * item_size e2)))
    as (e2 & Hrun & Hwf2 & E1 & E2 & E3 & Hc2 & Hn2 & Hin2 & Hroom & Hgrow).
  { rewrite (@wrap32_small (nall e + 1)) by lia.
    rewrite wrap32_small by nia.
    destruct (Z.gtb_spec (item_size e * (nall e + 1)) (nbytes e)) as [Hfull|Hfree].
    - assert (0 < nall e) as Hpos by nia.
      destruct (compact_set_total e true Hwf Hpos (or_intror Hmem))
        as (e2 & Hrun).
      destruct (compact_set_inv e true e2 Hwf Hpos Hrun)
        as ((Hwf2 & E1 & E2 & E3 & E4 & E5 & E6) & Hstep & _).
      destruct (wf_facts e2 Hwf2) as (_ & _ & Hcap2 & _ & _ & _).
      exists e2. rewrite E1 in *.
      assert (0 <= nall e2 * item_size e) as Hu2 by nia.
      assert (nall e2 * item_size e <= nall e * item_size e) as Hmono
        by (apply Z.mul_le_mono_nonneg_r; lia).
      pose proof (Z.div_mod (nbytes e) 8 ltac:(lia)) as Hdm.
      pose proof (Z.div_mod (5 * nbytes e) 4 ltac:(lia)) as Hdm'.
      pose proof (Z.mod_pos_bound (5 * nbytes e) 4 ltac:(lia)) as Hmb'.
      assert (capacity_ok (nbytes e2)
              /\ (nall e2 + 1) * item_size e <= nbytes e2
              /\ (nbytes e2 = nbytes e
                  \/ 2 * nbytes e2 < 5 * (nall e2 * item_size e)))
        as (Hc2 & Hroom & Hgrow).
      { unfold capacity_ok.
        destruct Hstep as [[En [Hf|Hk]]|(_ & Hg & Hnb & Hr)];
          [discriminate | | ].
        - (* enough was freed: the capacity is kept *)
          rewrite En. split; [split; assumption|].
          split; [|left; reflexivity].
          destruct Hc8 as [Hm8|H40]; [|lia].
          rewrite Hm8 in Hdm.
          assert (item_size e = 8 \/ item_size e <= 7) as [E8|E7] by lia;
            [rewrite E8 in *; lia | lia].
        - (* the array was enlarged *)
          destruct Hnb as [Ed|[H6 Ed]]; rewrite Ed.
          + split; [|split; [lia | right; lia]].
            split; [lia|].
            destruct Hc8 as [Hm8|H40]; [left|right; lia].
            rewrite Hm8 in Hdm.
            replace (2 * nbytes e) with ((nbytes e / 8 * 2) * 8) by lia.
            apply Z.mod_mul. lia.
          + split; [split; [lia | right; lia]|].
            split; [lia | right; lia]. }
      repeat split; try assumption; try lia; try apply E6;
        try apply Hc2.
    - exists e. unfold capacity_ok.
      repeat split; try assumption; try lia; try tauto. }
  unfold add_element. rewrite Hrun. cbn [bind].
  destruct (wf_facts e2 Hwf2) as (_ & Hns2 & Hcap2 & Hmax2 & Hlen2 & HS2).
  rewrite E1 in Hcap2, Hroom, Hgrow |- *.
  assert (0 <= nall e2 * item_size e) as Hu2 by nia.
  assert (nall e2 <= nall e2 * item_size e) as Hna2 by nia.
  rewrite (@wrap32_small (nall e2 + 1)) by lia.
  rewrite (@wrap32_small (item_size e * (nall e2 + 1))) by lia.
  rewrite Assert_ok by (apply Z.geb_le; lia). cbn [bind].
  replace (item_size e * nall e2) with (nall e2 * item_size e) by lia.
  rewrite wrap32_small by lia.
  (* the array as its records followed by the free space *)
  set (sz := Z.to_nat (item_size e)).
  assert ((Z.to_nat (nall e2) * sz <= length (data e2))%nat) as Hfit
    by (unfold size in Hlen2; nia).
  pose proof (@slots_decomp _ _ _ Hfit) as Hdec.
  pose proof (@slots_uniform (data e2) 0 sz (Z.to_nat (nall e2)) Hfit) as Urec.
  change (slots (data e2) 0 sz (Z.to_nat (nall e2))) with
    (slots (data e2) 0 (Z.to_nat (item_size e)) (Z.to_nat (nall e2))) in *.
  rewrite <- E1 in Hdec, Urec. fold (records e2) in Hdec, Urec.
  set (rest := skipn (Z.to_nat (nall e2) * sz) (data e2)) in *.
  set (r := firstn sz value).
  assert (length r = sz) as Lr
    by (unfold r; rewrite length_firstn; unfold size in Hval; lia).
  assert (length (records e2) = Z.to_nat (nall e2)) as Lrec
    by (unfold records; apply slots_length).
  assert ((sz <= length rest)%nat) as Hrest.
  { unfold rest. rewrite length_skipn. unfold size in Hlen2. nia. }
  unfold memcpy. rewrite load_prefix by (pose proof (size_nonneg value); lia).
  cbn [bind]. fold sz. fold r.
  rewrite (store_in (concat (records e2)) rest r (data e2) _ Hdec);
    [ | rewrite (size_concat_uniform Urec), Lrec; unfold sz; lia | lia ].
  cbn [bind].
  eexists. split; [reflexivity|].
  set (e' := set_data _ _).
  assert (data e' = concat (records e2 ++ [r]) ++ skipn (length r) rest) as Hd'.
  { unfold e'. simpl_eset. rewrite concat_app. simpl concat.
    rewrite app_nil_r, <- app_assoc. reflexivity. }
  assert (uniform sz (records e2 ++ [r])) as U'.
  { apply uniform_app. split; [exact Urec|]. constructor; [exact Lr|constructor]. }
  assert (records e' = records e2 ++ [r]) as Hrec'.
  { apply (records_of_concat e' sz (records e2 ++ [r])
             (skipn (length r) rest)); [ | | exact U' | exact Hd'].
    - unfold e'. simpl_eset. unfold sz. lia.
    - unfold e'. simpl_eset. rewrite length_app, Lrec. simpl. lia. }
  assert (sorted_zone e' = sorted_zone e2) as Hsz'.
  { unfold sorted_zone. rewrite Hrec'.
    replace (nsorted e') with (nsorted e2) by reflexivity.
    rewrite firstn_app.
    replace (Z.to_nat (nsorted e2) - length (records e2))%nat with 0%nat
      by lia.
    simpl. apply app_nil_r. }
  split.
  { apply wf_intro; try (rewrite Hsz'; exact HS2); unfold e'; simpl_eset;
      try lia.
    pose proof (f_equal (@length byte) Hdec) as HL.
    rewrite length_app in HL.
    unfold size in *. rewrite !length_app, length_skipn. lia. }
  assert (item_size e' = item_size e2 /\ typalign e' = typalign e2
          /\ aggctx e' = aggctx e2 /\ nbytes e' = nbytes e2
          /\ nall e' = nall e2 + 1) as (P1 & P2 & P3 & P4 & P5)
    by (repeat split).
  rewrite P1, P2, P3, P4, P5, E1.
  repeat split; try assumption; try lia; try apply Hc2.
  - rewrite Hrec', in_app_iff, Hin2. simpl. intros [H|[H|[]]]; auto.
  - rewrite Hrec', in_app_iff, Hin2. simpl. intros [H|H]; auto.
Qed.

(** The aggregate's transition phase: the transition function called on
    each input value in turn, the state threaded through. *)
Fixpoint append_all (context : option Z) (ty : type_info)
    (state : option element_set_t) (values : list bytes)
  : outcome (option element_set_t) :=
  match values with
  | [] => Ok state
  | v :: vs =>
      state' <- count_distinct_append context ty state (Some v) ;;
      append_all context ty state' vs
  end.

Definition bytes_eq_dec : forall a b : bytes, {a = b} + {a <> b} :=
  list_eq_dec Byte.byte_eq_dec.

(** The number of distinct records among the first [sz] bytes of the
    values. *)
Definition distinct_count (sz : nat) (values : list bytes) : Z :=
  Z.of_nat (length (nodup bytes_eq_dec (map (firstn sz) values))).

Lemma distinct_count_perm (sz : nat) (l l' : list bytes) :
  Permutation l l' -> distinct_count sz l = distinct_count sz l'.
Proof.
  intros P. unfold distinct_count. f_equal.
  apply Permutation_length, NoDup_Permutation; try apply NoDup_nodup.
  intros x. rewrite !nodup_In. split; apply Permutation_in.
  - apply Permutation_map. exact P.
  - apply Permutation_map, Permutation_sym. exact P.
Qed.

Lemma NoDup_distinct_count (sz : nat) (l : list bytes) (values : list bytes) :
  NoDup l -> (forall x, In x l <-> In x (map (firstn sz) values)) ->
  Z.of_nat (length l) = distinct_count sz values.
Proof.
  intros N H. unfold distinct_count. f_equal.
  apply Permutation_length, NoDup_Permutation;
    [exact N | apply NoDup_nodup |].
  intros x. rewrite nodup_In. apply H.
Qed.

(** The invariant of the transition phase after the values [seen]. *)
Definition append_inv (ty : type_info) (seen : list bytes)
    (e : element_set_t) : Prop :=
  wf e = true /\ item_size e = typlen ty /\ capacity_ok (nbytes e) /\
  0 < nall e <= Z.of_nat (length seen) /\
  (forall x, In x (records e)
             <-> In x (map (firstn (Z.to_nat (typlen ty))) seen)) /\
  (nbytes e = 32 \/ 2 * nbytes e < 5 * (Z.of_nat (length seen) * typlen ty)).

Lemma append_step (ctx : Z) (ty : type_info) (seen : list bytes)
    (e : element_set_t) (v : bytes) :
  0 < typlen ty <= 8 -> typlen ty <= size v ->
  2 * nbytes e <= MaxAllocSize ->
  append_inv ty seen e ->
  exists e',
    count_distinct_append (Some ctx) ty (Some e) (Some v) = Ok (Some e')
    /\ append_inv ty (seen ++ [v]) e'.
Proof.
  intros Hty Hv Hmem (Hwf & Hisz & Hcap & Hn & Hin & Hb).
  assert (MaxAllocSize = 1073741823) as HM by reflexivity.
  destruct (add_element_spec e v Hwf) as
    (e' & Hrun & Hwf' & E1 & E2 & E3 & Hcap' & Hn' & Hin' & Hb');
    try (rewrite Hisz; assumption); try assumption.
  exists e'. unfold count_distinct_append. cbn [GET_AGG_CONTEXT bind].
  rewrite Hrun. cbn [bind]. split; [reflexivity|].
  unfold append_inv. rewrite length_app. simpl length.
  assert (nall e' * typlen ty
          <= Z.of_nat (length seen + 1) * typlen ty) as Hmono
    by (apply Z.mul_le_mono_nonneg_r; lia).
  rewrite E1, Hisz in *.
  repeat split; try assumption; try lia; try apply Hcap'.
  - rewrite Hin', Hin, map_app, in_app_iff. simpl.
    intros [H|H]; [left; exact H | right; left; symmetry; exact H].
  - rewrite Hin', Hin, map_app, in_app_iff. simpl.
    intros [H|[H|[]]]; [left; exact H | right; symmetry; exact H].
Qed.

(** ** The capacity follows the distinct records *)

Lemma distinct_count_app_le (sz : nat) (seen rest : list bytes) :
  distinct_count sz seen <= distinct_count sz (seen ++ rest).
Proof.
  unfold distinct_count. apply inj_le. apply NoDup_incl_length.
  - apply NoDup_nodup.
  - intros x. rewrite !nodup_In, map_app, in_app_iff.
    intros H. left. exact H.
Qed.

Lemma distinct_count_le_length (sz : nat) (l : list bytes) :
  distinct_count sz l <= Z.of_nat (length l).
Proof.
  unfold distinct_count. apply inj_le.
  apply (Nat.le_trans _ (length (map (firstn sz) l))).
  - apply NoDup_incl_length; [apply NoDup_nodup|].
    intros x Hx. apply nodup_In in Hx. exact Hx.
  - rewrite length_map. apply Nat.le_refl.
Qed.

Lemma distinct_count_app_le_r (sz : nat) (seen rest : list bytes) :
  distinct_count sz rest <= distinct_count sz (seen ++ rest).
Proof.
  unfold distinct_count. apply inj_le. apply NoDup_incl_length.
  - apply NoDup_nodup.
  - intros x. rewrite !nodup_In, map_app, in_app_iff.
    intros H. right. exact H.
Qed.

(** The number of records a compaction leaves. *)
Lemma compacted_nall (e e1 : element_set_t) :
  compacted e e1 ->
  nall e1 = Z.of_nat (length (nodup bytes_eq_dec (records e))).
Proof.
  intros Hcomp. destruct (compacted_sorted e e1 Hcomp) as (HS & _).
  destruct Hcomp as (_ & _ & _ & _ & _ & Hn & Hin).
  assert (nall e1 = Z.of_nat (length (records e1))) as ->
    by (unfold records; rewrite slots_length; lia).
  f_equal. apply Permutation_length, NoDup_Permutation;
    [apply StrictSorted_NoDup; exact HS | apply NoDup_nodup |].
  intros x. rewrite nodup_In. apply Hin.
Qed.

Lemma compacted_nall_distinct (sz : nat) (seen : list bytes)
    (e e1 : element_set_t) :
  (forall x, In x (records e) <-> In x (map (firstn sz) seen)) ->
  compacted e e1 -> nall e1 = distinct_count sz seen.
Proof.
  intros Hin Hcomp.
  rewrite (compacted_nall e e1 Hcomp). unfold distinct_count. f_equal.
  apply Permutation_length, NoDup_Permutation; try apply NoDup_nodup.
  intros x. rewrite !nodup_In. apply Hin.
Qed.

(** A call of [add_element] changes the capacity only through a
    compaction that left less than a fifth of the array free, and then at
    most doubles it. *)
Lemma add_element_growth (e : element_set_t) (value : bytes)
    (e' : element_set_t) :
  wf e = true -> 0 < nall e -> add_element e value = Ok e' ->
  nbytes e' = nbytes e
  \/ exists e2,
       compacted e e2 /\
       5 * (nbytes e - nall e2 * item_size e2) < nbytes e /\
       nbytes e' <= 2 * nbytes e.
Proof.
  intros Hwf Hpos H. unfold add_element in H.
  destruct (if wrap32 (item_size e * wrap32 (nall e + 1)) >? nbytes e
            then compact_set e true else Ok e) as [e2| | |] eqn:Hc;
    cbn [bind] in H; try discriminate H.
  assert (nbytes e' = nbytes e2) as ->.
  { destruct (Assert _); cbn [bind] in H; try discriminate H.
    destruct (memcpy _ _ _ _ _); cbn [bind] in H; try discriminate H.
    injection H as <-. reflexivity. }
  clear H.
  destruct (wrap32 (item_size e * wrap32 (nall e + 1)) >? nbytes e);
    [|injection Hc as <-; left; reflexivity].
  destruct (compact_set_inv e true e2 Hwf Hpos Hc) as (Hcomp & Hstep & _).
  destruct (wf_facts e Hwf) as (Hisz & _ & Hcap & _ & _ & _).
  destruct Hstep as [[En _]|(_ & Hg & Hnb & _)]; [left; exact En | right].
  exists e2. split; [exact Hcomp|]. split; [exact Hg|].
  destruct Hnb as [Ed|[_ Ed]]; rewrite Ed; [lia|].
  pose proof (Z.div_mod (5 * nbytes e) 4 ltac:(lia)) as Hdm.
  pose proof (Z.mod_pos_bound (5 * nbytes e) 4 ltac:(lia)) as Hmb.
  assert (0 <= nall e * item_size e) by nia. lia.
Qed.

(** The bound on the capacity after the values [seen]: the initial 32
    bytes, or less than two and a half times the bytes of the distinct
    records. *)
Definition capacity_bound (ty : type_info) (seen : list bytes)
    (e : element_set_t) : Prop :=
  nbytes e = 32
  \/ 2 * nbytes e
     < 5 * (distinct_count (Z.to_nat (typlen ty)) seen * typlen ty).

Lemma append_step_bound (ctx : Z) (ty : type_info) (seen : list bytes)
    (e e' : element_set_t) (v : bytes) :
  0 < typlen ty <= 8 ->
  append_inv ty seen e -> capacity_bound ty seen e ->
  count_distinct_append (Some ctx) ty (Some e) (Some v) = Ok (Some e') ->
  capacity_bound ty (seen ++ [v]) e'.
Proof.
  intros Hty Hinv Hb H.
  pose proof Hinv as (Hwf & Hisz & Hcap & Hn & Hin & _).
  unfold count_distinct_append in H. cbn [GET_AGG_CONTEXT bind] in H.
  destruct (add_element e v) as [e1| | |] eqn:Hadd; cbn [bind] in H;
    try discriminate H.
  injection H as <-.
  pose proof (distinct_count_app_le (Z.to_nat (typlen ty)) seen [v]) as Hmono.
  assert (distinct_count (Z.to_nat (typlen ty)) seen * typlen ty
          <= distinct_count (Z.to_nat (typlen ty)) (seen ++ [v]) * typlen ty)
    as Hmono' by (apply Z.mul_le_mono_nonneg_r; lia).
  unfold capacity_bound in *.
  destruct (add_element_growth e v e1 Hwf ltac:(lia) Hadd)
    as [En|(e2 & Hcomp & Hg & Hle)].
  - rewrite En. destruct Hb as [Hb|Hb]; [left; exact Hb | right; lia].
  - right.
    pose proof (compacted_nall_distinct _ seen e e2 Hin Hcomp) as En2.
    destruct Hcomp as (_ & Ei & _).
    rewrite Ei, Hisz, En2 in Hg. lia.
Qed.

(** The capacity is unchanged by a compaction that was not asked for
    room. *)
Lemma capacity_bound_compacted (ty : type_info) (seen : list bytes)
    (e e1 : element_set_t) :
  capacity_bound ty seen e -> nbytes e1 = nbytes e ->
  capacity_bound ty seen e1.
Proof. unfold capacity_bound. intros H ->. exact H. Qed.

(** The room the allocator is asked for stays within its limit while the
    distinct records do. *)
Lemma capacity_bound_room (ty : type_info) (seen : list bytes)
    (e : element_set_t) :
  5 * (distinct_count (Z.to_nat (typlen ty)) seen * typlen ty)
  <= MaxAllocSize ->
  capacity_bound ty seen e -> 2 * nbytes e <= MaxAllocSize.
Proof.
  assert (MaxAllocSize = 1073741823) as HM by reflexivity.
  unfold capacity_bound. intros Hmem [E|H]; lia.
Qed.

Lemma append_all_spec (ctx : Z) (ty : type_info) :
  0 < typlen ty <= 8 ->
  forall (rest seen : list bytes) (e : element_set_t),
    Forall (fun v => typlen ty <= size v) rest ->
    5 * (distinct_count (Z.to_nat (typlen ty)) (seen ++ rest) * typlen ty)
    <= MaxAllocSize ->
    append_inv ty seen e -> capacity_bound ty seen e ->
    exists e',
      append_all (Some ctx) ty (Some e) rest = Ok (Some e')
      /\ append_inv ty (seen ++ rest) e'
      /\ capacity_bound ty (seen ++ rest) e'.
Proof.
  intros Hty. induction rest as [|v rest IH]; intros seen e Hv Hmem Hinv Hb.
  - exists e. rewrite app_nil_r.
    split; [reflexivity|]. split; [exact Hinv | exact Hb].
  - pose proof (Forall_inv Hv) as Hv1. cbv beta in Hv1.
    pose proof (Forall_inv_tail Hv) as Hvs.
    pose proof (distinct_count_app_le (Z.to_nat (typlen ty)) seen (v :: rest))
      as Hmono.
    assert (5 * (distinct_count (Z.to_nat (typlen ty)) seen * typlen ty)
            <= MaxAllocSize) as Hmem0.
    { assert (distinct_count (Z.to_nat (typlen ty)) seen * typlen ty
              <= distinct_count (Z.to_nat (typlen ty)) (seen ++ v :: rest)
                 * typlen ty)
        by (apply Z.mul_le_mono_nonneg_r; lia).
      lia. }
    destruct (append_step ctx ty seen e v Hty Hv1) as (e1 & Hrun & Hinv1);
      [exact (capacity_bound_room ty seen e Hmem0 Hb) | exact Hinv |].
    pose proof (append_step_bound ctx ty seen e e1 v Hty Hinv Hb Hrun) as Hb1.
    destruct (IH (seen ++ [v]) e1 Hvs) as (e' & Hrun' & Hinv' & Hb');
      [rewrite <- app_assoc; exact Hmem | exact Hinv1 | exact Hb1 |].
    exists e'. cbn [append_all]. rewrite Hrun. cbn [bind].
    rewrite <- app_assoc in Hinv', Hb'.
    split; [exact Hrun'|]. split; [exact Hinv' | exact Hb'].
Qed.

Lemma append_first (ctx : Z) (ty : type_info) (v : bytes) :
  0 < typlen ty <= 8 -> typbyval ty = true -> typlen ty <= size v ->
  exists e,
    count_distinct_append (Some ctx) ty None (Some v) = Ok (Some e)
    /\ append_inv ty [v] e.
Proof.
  intros Hty Hbv Hv.
  assert (MaxAllocSize = 1073741823) as HM by reflexivity.
  unfold count_distinct_append. cbn [GET_AGG_CONTEXT bind].
  replace (typlen ty <? 0) with false by (symmetry; apply Z.ltb_ge; lia).
  rewrite Hbv. cbn [negb orb]. unfold init_set.
  rewrite palloc_ok by (unfold ARRAY_INIT_SIZE; lia). cbn [bind].
  rewrite wrap32_small by lia.
  set (e0 := mk_element_set _ _ _ _ _ _ _).
  assert (wf e0 = true) as Hwf0.
  { apply wf_intro; unfold e0; simpl_eset; unfold ARRAY_INIT_SIZE; try lia.
    - unfold size. rewrite length_map, length_seq. lia.
    - unfold sorted_zone. simpl. constructor. }
  destruct (add_element_spec e0 v Hwf0) as
    (e' & Hrun & Hwf' & E1 & E2 & E3 & Hcap' & Hn' & Hin' & Hb');
    try (unfold e0; simpl_eset; unfold ARRAY_INIT_SIZE; lia).
  { unfold capacity_ok, e0. simpl_eset. unfold ARRAY_INIT_SIZE.
    split; [lia | left; reflexivity]. }
  exists e'. rewrite Hrun. cbn [bind]. split; [reflexivity|].
  unfold append_inv. simpl length.
  replace (item_size e0) with (typlen ty) in * by reflexivity.
  replace (nall e0) with 0 in * by reflexivity.
  replace (nbytes e0) with 32 in * by reflexivity.
  assert (nall e' * typlen ty <= 1 * typlen ty) as Hmono
    by (apply Z.mul_le_mono_nonneg_r; lia).
  rewrite E1 in *.
  repeat split; try assumption; try lia; try apply Hcap'.
  - rewrite Hin'. simpl. intros [[]|H]. left. symmetry. exact H.
  - rewrite Hin'. simpl. intros [H|[]]. right. symmetry. exact H.
Qed.

(** After the first value the array is the initial one. *)
Lemma append_first_bound (ty : type_info) (v : bytes) (e : element_set_t) :
  0 < typlen ty <= 8 -> append_inv ty [v] e -> capacity_bound ty [v] e.
Proof.
  intros Hty (_ & _ & (Hc32 & _) & _ & _ & Hb).
  left. simpl length in Hb. lia.
Qed.

(* ================================================================== *)
(** * Count correctness *)
(* ================================================================== *)

(** C1.  For every finite, non-empty multiset [values] of non-null input
    values of a by-value type ([0 < typlen <= 8], each value the 8 bytes of
    a Datum), and for every order [order] in which they arrive, calling the
    transition function [count_distinct_append] on each in turn and then
    the final function [count_distinct] returns, and the count returned is
    the number of distinct records (the first [typlen] bytes of each
    value), whatever compactions the full buffer triggered on the way and
    however often each value is repeated.  Only the distinct records are
    bounded: five times their bytes are within PostgreSQL's allocation
    limit, beyond which [repalloc] may refuse to enlarge the array. *)
Theorem count_distinct_counts_distinct (ctx : Z) (ty : type_info)
    (values : list bytes) :
  0 < typlen ty <= 8 -> typbyval ty = true -> values <> [] ->
  Forall (fun v => size v = SIZEOF_DATUM) values ->
  5 * (distinct_count (Z.to_nat (typlen ty)) values * typlen ty)
  <= MaxAllocSize ->
  forall order : list bytes, Permutation values order ->
  exists e e1 : element_set_t,
    append_all (Some ctx) ty None order = Ok (Some e) /\
    count_distinct (Some ctx) (Some e)
    = Ok (Some e1, Some (distinct_count (Z.to_nat (typlen ty)) values)).
Proof.
  intros Hty Hbv Hne Hsize Hmem order Hperm.
  rewrite (distinct_count_perm (Z.to_nat (typlen ty)) _ _ Hperm) in Hmem |- *.
  assert (Forall (fun v => typlen ty <= size v) order) as Hv.
  { apply (Permutation_Forall Hperm) in Hsize.
    eapply Forall_impl; [|exact Hsize].
    intros v E. cbv beta in E. rewrite E. unfold SIZEOF_DATUM. lia. }
  destruct order as [|v rest].
  { apply Permutation_sym, Permutation_nil in Hperm. congruence. }
  pose proof (Forall_inv Hv) as Hv1. cbv beta in Hv1.
  pose proof (Forall_inv_tail Hv) as Hvs.
  destruct (append_first ctx ty v Hty Hbv Hv1) as (e0 & Hrun0 & Hinv0).
  destruct (append_all_spec ctx ty Hty rest [v] e0 Hvs Hmem Hinv0
              (append_first_bound ty v e0 Hty Hinv0))
    as (e & Hrun & (Hwf & Hisz & Hcap & Hn & Hin & Hb) & _).
  exists e.
  destruct (compact_set_false_spec e Hwf ltac:(lia))
    as (e1 & Hc & Hcomp & _).
  exists e1. split.
  - cbn [append_all]. rewrite Hrun0. cbn [bind]. exact Hrun.
  - unfold count_distinct. cbn [CHECK_AGG_CONTEXT bind]. rewrite Hc.
    cbn [bind]. f_equal. f_equal. f_equal.
    destruct (compacted_sorted e e1 Hcomp) as (HS & _).
    destruct Hcomp as (Hwf1 & _ & _ & _ & _ & Hn1 & Hin1).
    rewrite <- (NoDup_distinct_count _ (records e1) (v :: rest)).
    + unfold records. rewrite slots_length. lia.
    + apply StrictSorted_NoDup. exact HS.
    + intros x. rewrite Hin1. apply Hin.
Qed.

(* ================================================================== *)
(** * Serialisation *)
(* ================================================================== *)

Lemma byte_of_Z_to_N (z : Z) : Z.of_N (Byte.to_N (byte_of_Z z)) = z mod 256.
Proof.
  unfold byte_of_Z. pose proof (Z.mod_pos_bound z 256 ltac:(lia)) as Hb.
  destruct (Byte.of_N (Z.to_N (z mod 256))) eqn:E.
  - apply Byte.to_of_N in E. rewrite E. lia.
  - apply Byte.of_N_None_iff in E. lia.
Qed.

Lemma decode_encode_le (n : nat) (z : Z) :
  decode_le (encode_le n z) = z mod 256 ^ Z.of_nat n.
Proof.
  revert z; induction n as [|n IH]; intros z.
  - simpl. rewrite Z.mod_1_r. reflexivity.
  - cbn [encode_le decode_le]. rewrite byte_of_Z_to_N, IH.
    rewrite Nat2Z.inj_succ, Z.pow_succ_r by lia.
    symmetry. apply Z.rem_mul_r; [lia|]. apply Z.pow_pos_nonneg; lia.
Qed.

Lemma length_encode_le (n : nat) (z : Z) : length (encode_le n z) = n.
Proof.
  revert z; induction n as [|n IH]; intros z; simpl; [reflexivity|].
  rewrite IH. reflexivity.
Qed.

Lemma length_struct_head (e : element_set_t) :
  length (struct_head e) = 32%nat.
Proof.
  unfold struct_head.
  rewrite !length_app, !length_encode_le, length_map, length_seq.
  reflexivity.
Qed.

(** Decoding a header image gives the struct back, each counter reduced to
    its 32 bits and the pointer to its 64. *)
Lemma struct_of_head_head (e : element_set_t) (tail d : bytes) :
  struct_of_head (struct_head e ++ tail) d
  = mk_element_set (wrap32 (item_size e)) (wrap32 (nsorted e))
      (wrap32 (nall e)) (wrap32 (nbytes e)) (typalign e)
      (wrap64 (aggctx e)) d.
Proof.
  unfold struct_of_head, struct_head, wrap32, wrap64.
  cbn [encode_le app map seq firstn skipn nth].
  f_equal.
  - exact (decode_encode_le 4 (item_size e)).
  - exact (decode_encode_le 4 (nsorted e)).
  - exact (decode_encode_le 4 (nall e)).
  - exact (decode_encode_le 4 (nbytes e)).
  - exact (decode_encode_le 8 (aggctx e)).
Qed.

(** The serialised form of a compacted accumulator: the header image, then
    the records. *)
Lemma count_distinct_serial_spec (ctx : Z) (e : element_set_t) :
  wf e = true -> 0 < nall e -> nbytes e + 36 <= MaxAllocSize ->
  exists e1,
    compact_set e false = Ok e1 /\ compacted e e1 /\ nbytes e1 = nbytes e /\
    count_distinct_serial (Some ctx) e
    = Ok (e1, struct_head e1 ++ concat (records e1)).
Proof.
  intros Hwf Hpos Hmem.
  assert (MaxAllocSize = 1073741823) as HM by reflexivity.
  destruct (compact_set_false_spec e Hwf Hpos) as (e1 & Hc & Hcomp & Hn & _).
  exists e1. split; [exact Hc|]. split; [exact Hcomp|]. split; [exact Hn|].
  pose proof Hcomp as (Hwf1 & E1 & E2 & E3 & E4 & E5 & E6).
  destruct (wf_facts e1 Hwf1) as (Hisz & Hns & Hcap & Hmax & Hlen & HS).
  assert (0 <= nall e1 * item_size e1) as Hu by nia.
  unfold count_distinct_serial. cbn [CHECK_AGG_CONTEXT bind].
  rewrite Hc. cbn [bind].
  rewrite (Assert_ok (0 <? nall e1)) by (apply Z.ltb_lt; lia). cbn [bind].
  rewrite Assert_ok by (apply Z.eqb_eq; lia). cbn [bind].
  rewrite wrap32_small by lia.
  unfold VARHDRSZ, OFFSETOF_DATA.
  rewrite palloc_ok by lia. cbn [bind].
  set (J := skipn (Z.to_nat 4) (map uninit (seq 0 _))).
  assert (length J = (32 + Z.to_nat (nall e1 * item_size e1))%nat) as LJ.
  { unfold J. rewrite length_skipn, length_map, length_seq. lia. }
  pose proof (length_struct_head e1) as LH.
  (* the header *)
  rewrite (memcpy_into [] J [] (struct_head e1) []);
    [ | reflexivity | rewrite app_nil_r; reflexivity | reflexivity
      | reflexivity | unfold size; rewrite LH; reflexivity | lia ].
  cbn [bind app]. rewrite LH.
  (* the records *)
  assert ((Z.to_nat (nall e1) * Z.to_nat (item_size e1) <= length (data e1))%nat)
    as Hfit by (unfold size in Hlen; nia).
  pose proof (@slots_decomp _ _ _ Hfit) as Hdec.
  pose proof (@slots_uniform (data e1) 0 _ _ Hfit) as Urec.
  fold (records e1) in Hdec, Urec.
  assert (length (concat (records e1))
          = Z.to_nat (nall e1 * item_size e1)) as Lc.
  { rewrite (length_concat_uniform Urec). unfold records.
    rewrite slots_length. nia. }
  rewrite (memcpy_into (struct_head e1) (skipn 32 J) []
             (concat (records e1))
             (skipn (Z.to_nat (nall e1) * Z.to_nat (item_size e1)) (data e1)));
    [ | reflexivity | exact Hdec | unfold size; rewrite LH; reflexivity
      | reflexivity | unfold size; rewrite Lc; lia
      | rewrite length_skipn; lia ].
  cbn [bind]. f_equal. f_equal. f_equal.
  rewrite skipn_skipn. rewrite <- app_nil_r. f_equal.
  apply skipn_all2. lia.
Qed.

Lemma struct_of_head_exact (e : element_set_t) (d : bytes) :
  struct_of_head (struct_head e) d
  = mk_element_set (wrap32 (item_size e)) (wrap32 (nsorted e))
      (wrap32 (nall e)) (wrap32 (nbytes e)) (typalign e)
      (wrap64 (aggctx e)) d.
Proof.
  rewrite <- (app_nil_r (struct_head e)). apply struct_of_head_head.
Qed.

(** The accumulator that the serialised form of [e1] deserialises to: the
    same counters and records, the capacity cut down to the records. *)
Definition deserialised (e1 : element_set_t) : element_set_t :=
  mk_element_set (item_size e1) (nsorted e1) (nall e1)
    (nall e1 * item_size e1) (typalign e1) (wrap64 (aggctx e1))
    (concat (records e1)).

Lemma count_distinct_deserial_spec (ctx : Z) (e1 : element_set_t) :
  wf e1 = true -> nsorted e1 = nall e1 -> 0 < nall e1 ->
  count_distinct_deserial (Some ctx) (struct_head e1 ++ concat (records e1))
  = Ok (deserialised e1).
Proof.
  intros Hwf1 E4 Hpos.
  assert (MaxAllocSize = 1073741823) as HM by reflexivity.
  destruct (wf_facts e1 Hwf1) as (Hisz & Hns & Hcap & Hmax & Hlen & HS).
  assert (0 < nall e1 * item_size e1) as Hu by nia.
  assert (nall e1 <= nall e1 * item_size e1) as Hna by nia.
  assert (item_size e1 <= nall e1 * item_size e1) as Hia by nia.
  assert ((Z.to_nat (nall e1) * Z.to_nat (item_size e1) <= length (data e1))%nat)
    as Hfit by (unfold size in Hlen; nia).
  pose proof (@slots_uniform (data e1) 0 _ _ Hfit) as Urec.
  fold (records e1) in Urec.
  assert (size (concat (records e1)) = nall e1 * item_size e1) as Sc.
  { rewrite (size_concat_uniform Urec). unfold records.
    rewrite slots_length. nia. }
  pose proof (length_struct_head e1) as LH.
  assert (size (struct_head e1) = 32) as SH by (unfold size; rewrite LH; lia).
  unfold count_distinct_deserial. cbn [CHECK_AGG_CONTEXT bind].
  unfold OFFSETOF_DATA. rewrite size_app, SH, Sc.
  rewrite (Assert_ok (0 <? 32 + nall e1 * item_size e1))
    by (apply Z.ltb_lt; lia).
  cbn [bind].
  replace (32 + nall e1 * item_size e1 - 32) with (nall e1 * item_size e1)
    by lia.
  rewrite Assert_ok
    by (apply Z.ltb_lt; unfold wrap64; rewrite Z.mod_small; lia).
  cbn [bind].
  rewrite (@load_in (struct_head e1 ++ concat (records e1)) []
             (struct_head e1) (concat (records e1)) 0 32);
    [ | reflexivity | reflexivity | exact (eq_sym SH) ].
  cbn [bind]. rewrite struct_of_head_exact. simpl_eset.
  rewrite (@wrap32_small (item_size e1)) by lia.
  rewrite (@wrap32_small (nsorted e1)) by lia.
  rewrite (@wrap32_small (nall e1)) by lia.
  rewrite (@wrap32_small (nall e1 * item_size e1)) by lia.
  rewrite Assert_ok
    by (apply andb_true_iff; split; [apply Z.ltb_lt | apply Z.eqb_eq]; lia).
  cbn [bind].
  rewrite Assert_ok by (apply Z.eqb_eq; lia). cbn [bind].
  rewrite palloc_ok by lia. cbn [bind].
  set (J := map uninit (seq 0 _)).
  assert (length J = Z.to_nat (nall e1 * item_size e1)) as LJ
    by (unfold J; rewrite length_map, length_seq; reflexivity).
  rewrite (memcpy_into [] J (struct_head e1) (concat (records e1)) []);
    [ | reflexivity | rewrite app_nil_r; reflexivity | reflexivity
      | exact (eq_sym SH) | exact (eq_sym Sc) | unfold size in Sc; lia ].
  cbn [bind app]. unfold deserialised. f_equal. f_equal.
  rewrite <- app_nil_r. f_equal. apply skipn_all2. unfold size in Sc. lia.
Qed.

Lemma deserialised_spec (e1 : element_set_t) :
  wf e1 = true -> nsorted e1 = nall e1 ->
  wf (deserialised e1) = true /\ records (deserialised e1) = records e1.
Proof.
  intros Hwf1 E4.
  destruct (wf_facts e1 Hwf1) as (Hisz & Hns & Hcap & Hmax & Hlen & HS).
  assert ((Z.to_nat (nall e1) * Z.to_nat (item_size e1) <= length (data e1))%nat)
    as Hfit by (unfold size in Hlen; nia).
  pose proof (@slots_uniform (data e1) 0 _ _ Hfit) as Urec.
  fold (records e1) in Urec.
  assert (length (records e1) = Z.to_nat (nall e1)) as Lr
    by (unfold records; apply slots_length).
  assert (records (deserialised e1) = records e1) as Hrec.
  { apply (records_of_concat (deserialised e1) (Z.to_nat (item_size e1))
             (records e1) []).
    - simpl. lia.
    - simpl. lia.
    - exact Urec.
    - simpl. rewrite app_nil_r. reflexivity. }
  split; [|exact Hrec].
  assert (sorted_zone (deserialised e1) = sorted_zone e1) as Hsz
    by (unfold sorted_zone; rewrite Hrec; reflexivity).
  apply wf_intro; try (rewrite Hsz; exact HS); simpl; try lia.
  rewrite (size_concat_uniform Urec), Lr. nia.
Qed.

(** C3.  For every well-formed, non-empty accumulator (small enough for the
    [bytea] to be allocated), [count_distinct_serial] returns a stream that
    [count_distinct_deserial] accepts, and the accumulator it rebuilds
    finalises as the original does: [count_distinct] returns the same
    count, and leaves the same strictly increasing sequence of records. *)
Theorem serial_deserial_roundtrip (ctx : Z) (e : element_set_t) :
  wf e = true -> 0 < nall e -> nbytes e + 36 <= MaxAllocSize ->
  exists (e1 : element_set_t) (stream : bytes) (e2 f f2 : element_set_t)
         (n : Z),
    count_distinct_serial (Some ctx) e = Ok (e1, stream) /\
    count_distinct_deserial (Some ctx) stream = Ok e2 /\
    count_distinct (Some ctx) (Some e) = Ok (Some f, Some n) /\
    count_distinct (Some ctx) (Some e2) = Ok (Some f2, Some n) /\
    nall f2 = nall f /\ nsorted f2 = nsorted f /\
    records f2 = records f /\ adjacent_increasing (records f).
Proof.
  intros Hwf Hpos Hmem.
  destruct (count_distinct_serial_spec ctx e Hwf Hpos Hmem)
    as (e1 & Hc & Hcomp & Hn & Hser).
  pose proof Hcomp as (Hwf1 & E1 & E2 & E3 & E4 & E5 & E6).
  destruct (deserialised_spec e1 Hwf1 E4) as (Hwf2 & Hrec2).
  destruct (compact_set_false_spec (deserialised e1) Hwf2 ltac:(simpl; lia))
    as (f2 & Hc2 & _ & _ & Hsame).
  rewrite (Hsame E4) in Hc2. clear Hsame f2.
  exists e1, (struct_head e1 ++ concat (records e1)), (deserialised e1),
         e1, (deserialised e1), (nall e1).
  split; [exact Hser|].
  split; [apply count_distinct_deserial_spec; [exact Hwf1 | exact E4 | lia]|].
  split; [unfold count_distinct; cbn [CHECK_AGG_CONTEXT bind]; rewrite Hc;
          reflexivity|].
  split; [unfold count_distinct; cbn [CHECK_AGG_CONTEXT bind]; rewrite Hc2;
          reflexivity|].
  split; [reflexivity|]. split; [reflexivity|]. split; [exact Hrec2|].
  apply StrictSorted_adjacent. apply (compacted_sorted e e1 Hcomp).
Qed.

(** The stream as the specification words its layout: the four counters,
    immediately followed by the record data. *)
Definition claimed_stream (e1 : element_set_t) : bytes :=
  encode_le 4 (item_size e1) ++ encode_le 4 (nsorted e1)
  ++ encode_le 4 (nall e1) ++ encode_le 4 (nbytes e1)
  ++ concat (records e1).

(** C4, amended.  For every well-formed, non-empty accumulator (small
    enough for the [bytea] to be allocated) the stream [count_distinct_serial]
    emits is the first [offsetof(element_set_t, data)] = 32 bytes of the
    struct, that is the four [uint32] counters, then [typalign], seven
    padding bytes and the eight bytes of the [aggctx] pointer, followed by
    exactly [nall * item_size] bytes holding the records in strictly
    increasing order. *)
Theorem serial_layout (ctx : Z) (e : element_set_t) :
  wf e = true -> 0 < nall e -> nbytes e + 36 <= MaxAllocSize ->
  exists e1 : element_set_t,
    count_distinct_serial (Some ctx) e
    = Ok (e1,
          encode_le 4 (item_size e1) ++ encode_le 4 (nsorted e1)
          ++ encode_le 4 (nall e1) ++ encode_le 4 (nbytes e1)
          ++ [typalign e1] ++ map uninit (seq 17 7)
          ++ encode_le 8 (aggctx e1)
          ++ concat (records e1)) /\
    nsorted e1 = nall e1 /\
    size (concat (records e1)) = nall e1 * item_size e1 /\
    adjacent_increasing (records e1) /\
    (forall x, In x (records e1) <-> In x (records e)).
Proof.
  intros Hwf Hpos Hmem.
  destruct (count_distinct_serial_spec ctx e Hwf Hpos Hmem)
    as (e1 & Hc & Hcomp & Hn & Hser).
  pose proof Hcomp as (Hwf1 & E1 & E2 & E3 & E4 & E5 & E6).
  destruct (wf_facts e1 Hwf1) as (Hisz & Hns & Hcap & Hmax & Hlen & HS).
  exists e1. split.
  - rewrite Hser. unfold struct_head. rewrite <- !app_assoc. reflexivity.
  - split; [exact E4|]. split; [|split; [|exact E6]].
    + assert ((Z.to_nat (nall e1) * Z.to_nat (item_size e1)
               <= length (data e1))%nat)
        as Hfit by (unfold size in Hlen; nia).
      pose proof (@slots_uniform (data e1) 0 _ _ Hfit) as Urec.
      fold (records e1) in Urec.
      rewrite (size_concat_uniform Urec). unfold records.
      rewrite slots_length. nia.
    + apply StrictSorted_adjacent. apply (compacted_sorted e e1 Hcomp).
Qed.

(** What the header of a stream declares. *)
Definition declared_item_size (stream : bytes) : Z :=
  decode_le (firstn 4 stream).
Definition declared_sorted_count (stream : bytes) : Z :=
  decode_le (firstn 4 (skipn 4 stream)).
Definition declared_total_count (stream : bytes) : Z :=
  decode_le (firstn 4 (skipn 8 stream)).

Lemma struct_of_head_declared (stream : bytes) :
  (32 <= length stream)%nat ->
  item_size (struct_of_head (firstn 32 stream) []) = declared_item_size stream
  /\ nsorted (struct_of_head (firstn 32 stream) [])
     = declared_sorted_count stream
  /\ nall (struct_of_head (firstn 32 stream) [])
     = declared_total_count stream.
Proof.
  intros H. unfold struct_of_head, declared_item_size, declared_sorted_count,
    declared_total_count. simpl_eset.
  rewrite firstn_firstn.
  rewrite <- (firstn_skipn_comm 28 4 stream : _ = skipn 4 (firstn 32 stream)).
  rewrite <- (firstn_skipn_comm 24 8 stream : _ = skipn 8 (firstn 32 stream)).
  rewrite !firstn_firstn. repeat split.
Qed.


(** C9, amended.  In a build with assertion checking, for every pair of
    present accumulators of different [item_size], [count_distinct_combine]
    stops on the failed assertion and produces no merged accumulator. *)
Theorem combine_rejects_width_mismatch_when_asserting (ctx : Z)
    (eset1 eset2 : element_set_t) :
  USE_ASSERT_CHECKING = true ->
  item_size eset1 <> item_size eset2 ->
  count_distinct_combine (Some ctx) (Some eset1) (Some eset2) = Trap.
Proof.
  intros Hac Hne. unfold count_distinct_combine, Assert.
  cbn [GET_AGG_CONTEXT bind]. rewrite Hac.
  replace (item_size eset1 =? item_size eset2) with false
    by (symmetry; apply Z.eqb_neq; exact Hne).
  rewrite andb_false_r. reflexivity.
Qed.

(* ================================================================== *)
(** * count_distinct_combine *)
(* ================================================================== *)

(** The two halves of a turn of the merging loop: the choice of the next
    element and the advance of the operand pointers, and the comparison of
    the element with the last one written. *)
Definition combine_pick (eset1 eset2 : element_set_t) (ptr1 ptr2 : Z)
  : outcome ((bytes * Z) * Z * Z) :=
  if (ptr1 <? nbytes eset1) && (ptr2 <? nbytes eset2) then
    r <- memcmp_at (data eset1) ptr1 (data eset2) ptr2 (item_size eset1) ;;
    match r with
    | Gt => Ok ((data eset2, ptr2), ptr1, ptr2 + item_size eset1)
    | _ => Ok ((data eset1, ptr1), ptr1 + item_size eset1, ptr2)
    end
  else if ptr1 <? nbytes eset1 then
    Ok ((data eset1, ptr1), ptr1 + item_size eset1, ptr2)
  else if ptr2 <? nbytes eset2 then
    Ok ((data eset2, ptr2), ptr1, ptr2 + item_size eset2)
  else Elog "unexpected".

Definition combine_emit (eset1 : element_set_t) (d : bytes) (tmp prev : Z)
    (element : bytes * Z) (ptr1 ptr2 : Z)
  : outcome (bytes * Z * Z * Z * Z) :=
  let '(src, off) := element in
  if tmp =? 0 then
    d <- memcpy d tmp src off (item_size eset1) ;;
    Ok (d, tmp + item_size eset1, ptr1, ptr2, tmp)
  else
    r <- memcmp_at d prev src off (item_size eset1) ;;
    if negb (is_eq r) then
      Assert (match r with Lt => true | _ => false end) ;;;
      d <- memcpy d tmp src off (item_size eset1) ;;
      Ok (d, tmp + item_size eset1, ptr1, ptr2, tmp)
    else Ok (d, tmp, ptr1, ptr2, prev).

Lemma combine_body_halves (eset1 eset2 : element_set_t) (i : Z)
    (d : bytes) (tmp ptr1 ptr2 prev : Z) :
  combine_body eset1 eset2 i (d, tmp, ptr1, ptr2, prev) =
  (Assert (ptr1 <=? nbytes eset1) ;;;
   Assert (ptr2 <=? nbytes eset2) ;;;
   '(element, ptr1, ptr2) <- combine_pick eset1 eset2 ptr1 ptr2 ;;
   combine_emit eset1 d tmp prev element ptr1 ptr2).
Proof. reflexivity. Qed.

Lemma StrictSorted_app_r (l1 l2 : list bytes) :
  StrictSorted (l1 ++ l2) -> StrictSorted l2.
Proof.
  induction l1 as [|a l1 IH]; intros H; [exact H|].
  apply IH. exact (StrictSorted_tail H).
Qed.

Lemma rec_lt_le (a b : bytes) : rec_lt a b -> rec_le a b.
Proof. unfold rec_lt, rec_le. intros ->. discriminate. Qed.

Lemma rec_le_refl (a : bytes) : rec_le a a.
Proof. unfold rec_le. rewrite memcmp_refl. discriminate. Qed.

(** What the last record written means for the comparison with the next
    element [x]: nothing is written yet, or the last one is [l], found at
    [prev], and is not above [x]. *)
Definition emitted (sz : nat) (O : list bytes) (prev : Z) (x : bytes) : Prop :=
  O = [] \/
  exists (O0 : list bytes) (l : bytes),
    O = O0 ++ [l] /\ prev = size (concat O0) /\ rec_le l x.

Lemma combine_emit_spec (sz : nat) (eset1 : element_set_t)
    (O : list bytes) (J src : bytes) (off : Z) (x : bytes)
    (prev ptr1 ptr2 : Z) :
  (0 < sz)%nat -> item_size eset1 = Z.of_nat sz ->
  uniform sz O -> StrictSorted O -> length x = sz ->
  (sz <= length J)%nat -> load src off (Z.of_nat sz) = Ok x ->
  emitted sz O prev x ->
  exists (O' : list bytes) (J' : bytes) (prev' : Z),
    combine_emit eset1 (concat O ++ J) (size (concat O)) prev
                 (src, off) ptr1 ptr2
    = Ok (concat O' ++ J', size (concat O'), ptr1, ptr2, prev')
    /\ uniform sz O' /\ StrictSorted O'
    /\ (forall y, In y O' <-> In y O \/ y = x)
    /\ (length J <= length J' + sz)%nat
    /\ (length O' <= length O + 1)%nat
    /\ exists O0', O' = O0' ++ [x] /\ prev' = size (concat O0').
Proof.
  intros Hsz Hisz UO SO Lx HJ Hload Hem.
  assert (size x = Z.of_nat sz) as Sx by (unfold size; lia).
  unfold combine_emit. rewrite Hisz.
  assert (memcpy (concat O ++ J) (size (concat O)) src off (Z.of_nat sz)
          = Ok (concat (O ++ [x]) ++ skipn sz J)) as Hcpy.
  { unfold memcpy. rewrite Hload. cbn [bind].
    rewrite store_at by (try reflexivity; lia).
    rewrite concat_app. simpl concat.
    rewrite app_nil_r, <- app_assoc, Lx. reflexivity. }
  assert (size (concat (O ++ [x])) = size (concat O) + Z.of_nat sz) as Sz'.
  { rewrite concat_app, size_app. simpl concat. rewrite app_nil_r. lia. }
  assert (uniform sz (O ++ [x])) as U'.
  { apply uniform_app. split; [exact UO|]. constructor; [exact Lx|constructor]. }
  destruct Hem as [->|(O0 & l & -> & Hprev & Hle)].
  - (* the first value *)
    simpl concat. change (size []) with 0. cbn [Z.eqb].
    simpl concat in Hcpy. change (size []) with 0 in Hcpy.
    rewrite Hcpy. cbn [bind].
    exists [x], (skipn sz J), 0. simpl app. simpl concat in *.
    split; [rewrite Sz'; reflexivity|].
    split; [exact U'|]. split; [repeat constructor|].
    split; [intros y; simpl; intuition congruence|].
    split; [rewrite length_skipn; lia|]. split; [simpl; lia|].
    exists []. split; reflexivity.
  - apply uniform_app in UO as [UO0 Ul].
    pose proof (Forall_inv Ul) as Ll. cbv beta in Ll.
    assert (size l = Z.of_nat sz) as Sl by (unfold size; lia).
    assert (size (concat (O0 ++ [l])) <> 0) as Hnz.
    { rewrite concat_app, size_app. simpl concat. rewrite app_nil_r.
      pose proof (size_nonneg (concat O0)). lia. }
    replace (size (concat (O0 ++ [l])) =? 0) with false
      by (symmetry; apply Z.eqb_neq; exact Hnz).
    rewrite (@memcmp_at_in _ _ l x _ _ _); [ | | exact Hload].
    2:{ apply (@load_in _ (concat O0) l J);
          [ rewrite concat_app; simpl concat;
            rewrite app_nil_r, <- app_assoc; reflexivity
          | exact Hprev | lia ]. }
    cbn [bind]. destruct (memcmp l x) eqn:E; cbn [is_eq negb].
    + (* equal to the last one: dropped *)
      assert (l = x) as <- by (apply memcmp_eq; [congruence | exact E]).
      exists (O0 ++ [l]), J, prev.
      split; [reflexivity|].
      split; [apply uniform_app; split; assumption|]. split; [exact SO|].
      split; [intros y; rewrite in_app_iff; simpl; intuition congruence|].
      split; [lia|]. split; [lia|].
      exists O0. split; [reflexivity | exact Hprev].
    + (* above the last one: written *)
      rewrite Assert_ok by reflexivity. cbn [bind].
      rewrite Hcpy. cbn [bind].
      exists ((O0 ++ [l]) ++ [x]), (skipn sz J), (size (concat (O0 ++ [l]))).
      split; [rewrite Sz'; reflexivity|]. split; [exact U'|]. split.
      { apply StrictSorted_snoc; [exact SO|].
        intros y Hy. apply in_app_or in Hy as [Hy|[<-|[]]]; [|exact E].
        eapply memcmp_lt_trans; [|exact E].
        apply (StrictSorted_app_lt _ _ SO); [exact Hy | left; reflexivity]. }
      split; [intros y; rewrite !in_app_iff; simpl; intuition congruence|].
      split; [rewrite length_skipn; lia|].
      split; [rewrite !length_app; simpl; lia|].
      exists (O0 ++ [l]). split; reflexivity.
    + exfalso. apply Hle. exact E.
Qed.

(** The invariant of the merging loop on operands whose arrays hold exactly
    the records [A] and [B]: the parts [A1], [B1] already consumed, the
    output [O] (their distinct members, strictly increasing), and the last
    record written not above anything still to come. *)
Definition combine_inv (sz : nat) (A B : list bytes) (i : Z)
    (st : bytes * Z * Z * Z * Z) : Prop :=
  let '(d, tmp, ptr1, ptr2, prev) := st in
  exists (A1 A2 B1 B2 O : list bytes) (J : bytes),
    A = A1 ++ A2 /\ B = B1 ++ B2 /\
    i = Z.of_nat (length A1 + length B1) /\
    d = concat O ++ J /\ tmp = size (concat O) /\
    ptr1 = size (concat A1) /\ ptr2 = size (concat B1) /\
    uniform sz O /\ StrictSorted O /\
    (forall x, In x O <-> In x A1 \/ In x B1) /\
    (length (concat A2) + length (concat B2) <= length J)%nat /\
    (length O <= length A1 + length B1)%nat /\
    (forall x, In x A2 \/ In x B2 -> emitted sz O prev x).

Lemma combine_step_finish (sz : nat) (eset1 : element_set_t)
    (A B A1 A2 B1 B2 A1' A2' B1' B2' O : list bytes) (J src : bytes)
    (off prev p1 p2 : Z) (x : bytes) :
  (0 < sz)%nat -> item_size eset1 = Z.of_nat sz ->
  p1 = size (concat A1') -> p2 = size (concat B1') ->
  uniform sz O -> StrictSorted O ->
  (forall y, In y O <-> In y A1 \/ In y B1) ->
  (length (concat A2) + length (concat B2) <= length J)%nat ->
  (length O <= length A1 + length B1)%nat ->
  emitted sz O prev x ->
  A = A1' ++ A2' -> B = B1' ++ B2' ->
  (length A1' + length B1' = length A1 + length B1 + 1)%nat ->
  (forall y, In y A1' \/ In y B1' <-> (In y A1 \/ In y B1) \/ y = x) ->
  (length (concat A2') + length (concat B2') + sz
   = length (concat A2) + length (concat B2))%nat ->
  (forall y, In y A2' \/ In y B2' -> rec_le x y) ->
  load src off (Z.of_nat sz) = Ok x -> length x = sz ->
  exists st',
    combine_emit eset1 (concat O ++ J) (size (concat O)) prev (src, off)
                 p1 p2 = Ok st'
    /\ combine_inv sz A B (Z.of_nat (length A1 + length B1) + 1) st'.
Proof.
  intros Hsz Hisz -> -> UO SO IO HJ LO Hem HA HB Hlen Hin Hroom Hle Hload Lx.
  destruct (combine_emit_spec sz eset1 O J src off x prev
              (size (concat A1')) (size (concat B1'))
              Hsz Hisz UO SO Lx ltac:(lia) Hload Hem)
    as (O' & J' & prev' & Hrun & UO' & SO' & IO' & HJ' & LO'
        & O0' & EO' & Eprev').
  eexists. split; [exact Hrun|].
  exists A1', A2', B1', B2', O', J'.
  repeat split; try assumption; try lia.
  - intros Hy. apply Hin. apply IO' in Hy. rewrite IO in Hy. exact Hy.
  - intros Hy. apply IO'. rewrite IO. apply Hin. exact Hy.
  - intros y Hy. right. exists O0', x.
    split; [exact EO'|]. split; [exact Eprev' | apply Hle; exact Hy].
Qed.

(** The operands of the merging loop: compacted, and with a capacity that
    is exactly the size of their records. *)
Definition exact_operand (sz : nat) (e : element_set_t) (A : list bytes)
    (rest : bytes) : Prop :=
  item_size e = Z.of_nat sz /\ data e = concat A ++ rest /\
  nbytes e = size (concat A) /\ uniform sz A /\ StrictSorted A.

Lemma size_concat_pos (sz : nat) (a : bytes) (l : list bytes) :
  (0 < sz)%nat -> uniform sz (a :: l) -> 0 < size (concat (a :: l)).
Proof.
  intros Hsz U. pose proof (Forall_inv U) as La. cbv beta in La.
  simpl concat. rewrite size_app. pose proof (size_nonneg (concat l)).
  unfold size in *. lia.
Qed.

Lemma combine_body_spec (sz : nat) (eset1 eset2 : element_set_t)
    (A B : list bytes) (restA restB : bytes) (i : Z)
    (st : bytes * Z * Z * Z * Z) :
  (0 < sz)%nat ->
  exact_operand sz eset1 A restA -> exact_operand sz eset2 B restB ->
  0 <= i < Z.of_nat (length A + length B) ->
  combine_inv sz A B i st ->
  exists st', combine_body eset1 eset2 i st = Ok st'
              /\ combine_inv sz A B (i + 1) st'.
Proof.
  intros Hsz (Hi1 & Hd1 & Hn1 & UA & SA) (Hi2 & Hd2 & Hn2 & UB & SB) Hi.
  destruct st as [[[[d tmp] ptr1] ptr2] prev].
  intros (A1 & A2 & B1 & B2 & O & J & HA & HB & Ei & Hd & Htmp & Hp1 & Hp2
          & UO & SO & IO & HJ & LO & Hem).
  rewrite combine_body_halves.
  assert (size (concat A) = size (concat A1) + size (concat A2)) as SA'
    by (rewrite HA, concat_app, size_app; reflexivity).
  assert (size (concat B) = size (concat B1) + size (concat B2)) as SB'
    by (rewrite HB, concat_app, size_app; reflexivity).
  pose proof (size_nonneg (concat A2)). pose proof (size_nonneg (concat B2)).
  rewrite (Assert_ok (ptr1 <=? nbytes eset1)) by (apply Z.leb_le; lia).
  cbn [bind].
  rewrite Assert_ok by (apply Z.leb_le; lia). cbn [bind].
  pose proof UA as UA'. rewrite HA in UA'. apply uniform_app in UA' as [UA1 UA2].
  pose proof UB as UB'. rewrite HB in UB'. apply uniform_app in UB' as [UB1 UB2].
  pose proof SA as SA2. rewrite HA in SA2. apply StrictSorted_app_r in SA2.
  pose proof SB as SB2. rewrite HB in SB2. apply StrictSorted_app_r in SB2.
  subst d tmp i. unfold combine_pick. rewrite Hi1, Hi2, Hn1, Hn2, Hd1, Hd2.
  destruct A2 as [|a0 A2']; destruct B2 as [|b0 B2'].
  - (* nothing left: the loop would have ended *)
    rewrite HA, HB, !length_app in Hi. simpl length in Hi. lia.
  - (* only the second operand has records left *)
    pose proof (size_concat_pos sz b0 B2' Hsz UB2) as Hb.
    change (size (concat [])) with 0 in SA'.
    replace (ptr1 <? size (concat A)) with false
      by (symmetry; apply Z.ltb_ge; lia).
    replace (ptr2 <? size (concat B)) with true
      by (symmetry; apply Z.ltb_lt; lia).
    cbn [andb bind].
    pose proof (Forall_inv UB2) as Lb0. cbv beta in Lb0.
    apply (combine_step_finish sz eset1 A B A1 [] B1 (b0 :: B2')
             A1 [] (B1 ++ [b0]) B2' O J _ _ prev _ _ b0);
      try assumption.
    + rewrite concat_app, size_app; simpl concat; rewrite app_nil_r;
        unfold size in *; lia.
    + apply Hem. right. left. reflexivity.
    + rewrite <- app_assoc. exact HB.
    + rewrite !length_app. simpl. lia.
    + intros y. rewrite !in_app_iff. simpl. intuition congruence.
    + simpl concat. rewrite length_app. simpl. lia.
    + intros y [[]|Hy]. apply rec_lt_le.
      apply (StrictSorted_In_lt SB2). exact Hy.
    + apply (@load_in _ (concat B1) b0 (concat B2' ++ restB));
        [ rewrite HB, concat_app; simpl concat; rewrite <- !app_assoc;
          reflexivity | exact Hp2 | unfold size; lia ].
  - (* only the first operand has records left *)
    pose proof (size_concat_pos sz a0 A2' Hsz UA2) as Ha.
    change (size (concat [])) with 0 in SB'.
    replace (ptr1 <? size (concat A)) with true
      by (symmetry; apply Z.ltb_lt; lia).
    replace (ptr2 <? size (concat B)) with false
      by (symmetry; apply Z.ltb_ge; lia).
    cbn [andb bind].
    pose proof (Forall_inv UA2) as La0. cbv beta in La0.
    apply (combine_step_finish sz eset1 A B A1 (a0 :: A2') B1 []
             (A1 ++ [a0]) A2' B1 [] O J _ _ prev _ _ a0);
      try assumption.
    + rewrite concat_app, size_app; simpl concat; rewrite app_nil_r;
        unfold size in *; lia.
    + apply Hem. left. left. reflexivity.
    + rewrite <- app_assoc. exact HA.
    + rewrite !length_app. simpl. lia.
    + intros y. rewrite !in_app_iff. simpl. intuition congruence.
    + simpl concat. rewrite length_app. simpl. lia.
    + intros y [Hy|[]]. apply rec_lt_le.
      apply (StrictSorted_In_lt SA2). exact Hy.
    + apply (@load_in _ (concat A1) a0 (concat A2' ++ restA));
        [ rewrite HA, concat_app; simpl concat; rewrite <- !app_assoc;
          reflexivity | exact Hp1 | unfold size; lia ].
  - (* both have records left: the smaller head is taken *)
    pose proof (size_concat_pos sz a0 A2' Hsz UA2) as Ha.
    pose proof (size_concat_pos sz b0 B2' Hsz UB2) as Hb.
    replace (ptr1 <? size (concat A)) with true
      by (symmetry; apply Z.ltb_lt; lia).
    replace (ptr2 <? size (concat B)) with true
      by (symmetry; apply Z.ltb_lt; lia).
    cbn [andb].
    pose proof (Forall_inv UA2) as La0. cbv beta in La0.
    pose proof (Forall_inv UB2) as Lb0. cbv beta in Lb0.
    assert (load (concat A ++ restA) ptr1 (Z.of_nat sz) = Ok a0) as Hla.
    { apply (@load_in _ (concat A1) a0 (concat A2' ++ restA));
        [ rewrite HA, concat_app; simpl concat; rewrite <- !app_assoc;
          reflexivity | exact Hp1 | unfold size; lia ]. }
    assert (load (concat B ++ restB) ptr2 (Z.of_nat sz) = Ok b0) as Hlb.
    { apply (@load_in _ (concat B1) b0 (concat B2' ++ restB));
        [ rewrite HB, concat_app; simpl concat; rewrite <- !app_assoc;
          reflexivity | exact Hp2 | unfold size; lia ]. }
    rewrite (@memcmp_at_in _ _ _ _ _ _ _ Hla Hlb). cbn [bind].
    assert (memcmp a0 b0 <> Gt ->
            exists st',
              combine_emit eset1 (concat O ++ J) (size (concat O)) prev
                (concat A ++ restA, ptr1) (ptr1 + Z.of_nat sz) ptr2 = Ok st'
              /\ combine_inv sz A B
                   (Z.of_nat (length A1 + length B1) + 1) st') as Htake1.
    { intros Hle.
      apply (combine_step_finish sz eset1 A B A1 (a0 :: A2') B1 (b0 :: B2')
               (A1 ++ [a0]) A2' B1 (b0 :: B2') O J _ _ prev _ _ a0);
        try assumption.
      - rewrite concat_app, size_app; simpl concat; rewrite app_nil_r;
          unfold size in *; lia.
      - apply Hem. left. left. reflexivity.
      - rewrite <- app_assoc. exact HA.
      - rewrite !length_app. simpl. lia.
      - intros y. rewrite !in_app_iff. simpl. intuition congruence.
      - simpl concat. rewrite !length_app. simpl. lia.
      - intros y [Hy|[<-|Hy]].
        + apply rec_lt_le. apply (StrictSorted_In_lt SA2). exact Hy.
        + exact Hle.
        + apply rec_lt_le.
          apply (@rec_le_lt_trans sz a0 b0 y La0 Lb0 Hle).
          apply (StrictSorted_In_lt SB2). exact Hy. }
    assert (memcmp a0 b0 = Gt ->
            exists st',
              combine_emit eset1 (concat O ++ J) (size (concat O)) prev
                (concat B ++ restB, ptr2) ptr1 (ptr2 + Z.of_nat sz) = Ok st'
              /\ combine_inv sz A B
                   (Z.of_nat (length A1 + length B1) + 1) st') as Htake2.
    { intros Hgt. apply memcmp_gt_lt in Hgt.
      apply (combine_step_finish sz eset1 A B A1 (a0 :: A2') B1 (b0 :: B2')
               A1 (a0 :: A2') (B1 ++ [b0]) B2' O J _ _ prev _ _ b0);
        try assumption.
      - rewrite concat_app, size_app; simpl concat; rewrite app_nil_r;
          unfold size in *; lia.
      - apply Hem. right. left. reflexivity.
      - rewrite <- app_assoc. exact HB.
      - rewrite !length_app. simpl. lia.
      - intros y. rewrite !in_app_iff. simpl. intuition congruence.
      - simpl concat. rewrite !length_app. simpl. lia.
      - intros y [[<-|Hy]|Hy].
        + apply rec_lt_le. exact Hgt.
        + apply rec_lt_le. eapply memcmp_lt_trans; [exact Hgt|].
          apply (StrictSorted_In_lt SA2). exact Hy.
        + apply rec_lt_le. apply (StrictSorted_In_lt SB2). exact Hy. }
    destruct (memcmp a0 b0); cbn [bind];
      [ apply Htake1; discriminate | apply Htake1; discriminate
      | apply Htake2; reflexivity ].
Qed.

(** No slack: every record is sorted and the capacity is exactly the size
    of the records, as in what [count_distinct_deserial] and a merging
    [count_distinct_combine] build. *)
Definition exact_capacity (e : element_set_t) : bool :=
  (nsorted e =? nall e) && (nbytes e =? nall e * item_size e).

Lemma exact_operand_of (e : element_set_t) :
  wf e = true -> exact_capacity e = true ->
  exists (sz : nat) (rest : bytes),
    (0 < sz)%nat /\ exact_operand sz e (records e) rest /\
    nall e = Z.of_nat (length (records e)).
Proof.
  intros Hwf Hex. apply andb_true_iff in Hex as [E1 E2].
  apply Z.eqb_eq in E1. apply Z.eqb_eq in E2.
  destruct (wf_facts e Hwf) as (Hisz & Hns & Hcap & Hmax & Hlen & HS).
  assert ((Z.to_nat (nall e) * Z.to_nat (item_size e) <= length (data e))%nat)
    as Hfit by (unfold size in Hlen; nia).
  pose proof (@slots_decomp _ _ _ Hfit) as Hdec.
  pose proof (@slots_uniform (data e) 0 _ _ Hfit) as Urec.
  fold (records e) in Hdec, Urec.
  assert (length (records e) = Z.to_nat (nall e)) as Lr
    by (unfold records; apply slots_length).
  exists (Z.to_nat (item_size e)),
    (skipn (Z.to_nat (nall e) * Z.to_nat (item_size e)) (data e)).
  split; [lia|]. split; [|lia].
  split; [lia|]. split; [exact Hdec|]. split.
  - rewrite (size_concat_uniform Urec), Lr, E2. nia.
  - split; [exact Urec|].
    replace (records e) with (sorted_zone e); [exact HS|].
    unfold sorted_zone. apply firstn_all2. lia.
Qed.

Lemma app_length_eq_nil (A1 A2 B1 B2 : list bytes) :
  (length A1 + length B1 = length (A1 ++ A2) + length (B1 ++ B2))%nat ->
  A2 = [] /\ B2 = [].
Proof.
  rewrite !length_app. intros H.
  split; [destruct A2 | destruct B2]; simpl in H; try reflexivity; lia.
Qed.

Lemma combine_exact_spec (ctx : Z) (a b : element_set_t) :
  wf a = true -> wf b = true -> 0 < nall a -> 0 < nall b ->
  item_size a = item_size b ->
  exact_capacity a = true -> exact_capacity b = true ->
  nbytes a + nbytes b <= MaxAllocSize ->
  exists r,
    count_distinct_combine (Some ctx) (Some a) (Some b) = Ok (Some r) /\
    wf r = true /\ exact_capacity r = true /\
    item_size r = item_size a /\ typalign r = typalign a /\
    aggctx r = aggctx a /\ 0 < nall r /\
    nbytes r <= nbytes a + nbytes b /\
    StrictSorted (records r) /\
    (forall x, In x (records r) <-> In x (records a) \/ In x (records b)).
Proof.
  intros Hwfa Hwfb Hposa Hposb Hisz Hexa Hexb Hmem.
  assert (MaxAllocSize = 1073741823) as HM by reflexivity.
  destruct (exact_operand_of a Hwfa Hexa) as (sz & restA & Hsz & HopA & LA).
  destruct (exact_operand_of b Hwfb Hexb) as (sz' & restB & _ & HopB & LB).
  assert (sz' = sz) as ->.
  { destruct HopA as (Ea & _). destruct HopB as (Eb & _). lia. }
  pose proof Hexa as Hexa'. apply andb_true_iff in Hexa' as [Ea1 Ea2].
  pose proof Hexb as Hexb'. apply andb_true_iff in Hexb' as [Eb1 Eb2].
  apply Z.eqb_eq in Ea1, Ea2, Eb1, Eb2.
  destruct (wf_facts a Hwfa) as (Hia & _ & _ & Hmaxa & _ & _).
  destruct (wf_facts b Hwfb) as (Hib & _ & _ & Hmaxb & _ & _).
  destruct (compact_set_false_spec a Hwfa Hposa) as (a' & Hca & _ & _ & Hsa).
  rewrite (Hsa Ea1) in Hca. clear Hsa a'.
  destruct (compact_set_false_spec b Hwfb Hposb) as (b' & Hcb & _ & _ & Hsb).
  rewrite (Hsb Eb1) in Hcb. clear Hsb b'.
  set (A := records a) in *. set (B := records b) in *.
  pose proof HopA as (EszA & HdA & HnA & UA & SA).
  pose proof HopB as (EszB & HdB & HnB & UB & SB).
  pose proof (size_concat_uniform UA) as SzA.
  pose proof (size_concat_uniform UB) as SzB.
  unfold count_distinct_combine. cbn [GET_AGG_CONTEXT bind].
  rewrite Assert_ok
    by (apply andb_true_iff; split; [apply Z.ltb_lt | apply Z.eqb_eq]; lia).
  cbn [bind]. rewrite Hca. cbn [bind]. rewrite Hcb. cbn [bind].
  rewrite (@wrap32_small (nbytes a + nbytes b)) by lia.
  rewrite palloc_ok by lia. cbn [bind].
  set (J0 := map uninit (seq 0 _)).
  assert (length J0 = Z.to_nat (nbytes a + nbytes b)) as LJ0
    by (unfold J0; rewrite length_map, length_seq; reflexivity).
  assert (nall a <= nbytes a) as Hnaa by nia.
  assert (nall b <= nbytes b) as Hnab by nia.
  rewrite (@wrap32_small (nall a + nall b)) by lia.
  destruct (@for_each_range_inv _ (combine_inv sz A B) (combine_body a b)
              0 (nall a + nall b) (J0, 0, 0, 0, 0))
    as ([[[[d tmp] ptr1] ptr2] prev] & Hrun & Hinv).
  - lia.
  - exists [], A, [], B, [], J0. simpl app. simpl concat.
    change (size []) with 0. simpl length.
    do 7 (split; [reflexivity|]).
    split; [constructor|]. split; [constructor|].
    split; [intros x; simpl; tauto|].
    split; [unfold size in *; lia|]. split; [lia|].
    intros x _. left. reflexivity.
  - intros i st Hi Hinv.
    apply (combine_body_spec sz a b A B restA restB i st Hsz HopA HopB);
      [lia | exact Hinv].
  - bind_rw Hrun. cbn [bind].
    destruct Hinv as (A1 & A2 & B1 & B2 & O & J & HA & HB & Ei & Hd & Htmp
                      & Hp1 & Hp2 & UO & SO & IO & HJ & LO & Hem).
    destruct (app_length_eq_nil A1 A2 B1 B2) as [-> ->];
      [rewrite <- HA, <- HB; lia|].
    rewrite app_nil_r in HA, HB. subst A1 B1.
    pose proof (size_concat_uniform UO) as SzO.
    assert (Z.of_nat (length O) * Z.of_nat sz
            <= Z.of_nat (length A + length B) * Z.of_nat sz) as HOb
      by (apply Z.mul_le_mono_nonneg_r; lia).
    rewrite (Assert_ok (ptr1 =? _))
      by (apply Z.eqb_eq; rewrite wrap32_small by lia; lia).
    cbn [bind].
    rewrite (Assert_ok (ptr2 =? _))
      by (apply Z.eqb_eq; rewrite wrap32_small by lia; lia).
    cbn [bind].
    rewrite Assert_ok
      by (apply Z.leb_le; rewrite wrap32_small by nia; nia).
    cbn [bind]. simpl_eset.
    replace (item_size a =? 0) with false by (symmetry; apply Z.eqb_neq; lia).
    rewrite wrap32_small by nia.
    rewrite Htmp, SzO, EszA, Z.div_mul by lia.
    eexists. split; [reflexivity|].
    set (r := mk_element_set _ _ _ _ _ _ _).
    assert (records r = O) as Hrec.
    { apply (records_of_concat r sz O J);
        [reflexivity | reflexivity | exact UO | exact Hd]. }
    assert (O <> []) as HOne.
    { intros ->. destruct A as [|x A']; [simpl in LA; lia|].
      apply (proj2 (IO x)). left. left. reflexivity. }
    assert (length O <> 0%nat) as HOl by (destruct O; simpl; congruence).
    assert (sorted_zone r = O) as Hszr.
    { unfold sorted_zone. rewrite Hrec. simpl. rewrite Nat2Z.id.
      apply firstn_all. }
    split.
    { apply wf_intro; try (rewrite Hszr; exact SO); simpl; [lia .. |].
      rewrite Hd, size_app, SzO. pose proof (size_nonneg J). lia. }
    split.
    { unfold exact_capacity. simpl. rewrite !Z.eqb_refl. reflexivity. }
    rewrite Hrec. simpl.
    split; [reflexivity|]. split; [reflexivity|]. split; [reflexivity|].
    split; [lia|]. split; [lia|]. split; [exact SO | exact IO].
Qed.

(* ================================================================== *)
(** * The distinctness invariant and the idempotence of compaction *)
(* ================================================================== *)

Lemma compacted_adjacent (e e1 : element_set_t) :
  compacted e e1 -> adjacent_increasing (sorted_zone e1).
Proof.
  intros H. destruct (compacted_sorted e e1 H) as (HS & E).
  rewrite E. apply StrictSorted_adjacent. exact HS.
Qed.

(** X1.  For every well-formed, non-empty accumulator, every call
    of [compact_set] that returns leaves all records in the sorted zone and
    the sorted zone strictly increasing under [memcmp]: each record is
    below the next one.  [compact_set] returns whenever it is not asked to
    make room; so the same holds for the state that [count_distinct]
    leaves, for the state that [count_distinct_serial] leaves (when its
    [bytea] can be allocated), and, since the merging
    [count_distinct_combine] compacts both operands first, for each operand
    of a combination; the merged array itself is strictly increasing when
    neither operand has slack capacity. *)
Theorem sorted_zone_strictly_increasing (ctx : Z) (e : element_set_t) :
  wf e = true -> 0 < nall e ->
  (forall need_space e1,
      compact_set e need_space = Ok e1 ->
      nsorted e1 = nall e1 /\ adjacent_increasing (sorted_zone e1)) /\
  (exists e1, compact_set e false = Ok e1) /\
  (exists e1 n,
      count_distinct (Some ctx) (Some e) = Ok (Some e1, Some n) /\
      adjacent_increasing (sorted_zone e1)) /\
  (nbytes e + 36 <= MaxAllocSize ->
   exists e1 out,
      count_distinct_serial (Some ctx) e = Ok (e1, out) /\
      adjacent_increasing (sorted_zone e1)) /\
  (forall b,
      wf b = true -> 0 < nall b -> item_size e = item_size b ->
      exact_capacity e = true -> exact_capacity b = true ->
      nbytes e + nbytes b <= MaxAllocSize ->
      exists r,
        count_distinct_combine (Some ctx) (Some e) (Some b) = Ok (Some r) /\
        nsorted r = nall r /\ adjacent_increasing (sorted_zone r)).
Proof.
  intros Hwf Hpos.
  destruct (compact_set_false_spec e Hwf Hpos) as (e1 & Hc & Hcomp & Hn & _).
  split; [|split; [|split; [|split]]].
  - intros need_space e2 Hrun.
    destruct (compact_set_inv e need_space e2 Hwf Hpos Hrun) as (Hcomp2 & _).
    split; [apply Hcomp2 | apply (compacted_adjacent e e2 Hcomp2)].
  - exists e1. exact Hc.
  - exists e1, (nall e1). split.
    + unfold count_distinct. cbn [CHECK_AGG_CONTEXT bind]. rewrite Hc.
      reflexivity.
    + apply (compacted_adjacent e e1 Hcomp).
  - intros Hmem.
    destruct (count_distinct_serial_spec ctx e Hwf Hpos Hmem)
      as (e1' & Hc' & Hcomp' & _ & Hser).
    exists e1', (struct_head e1' ++ concat (records e1')).
    split; [exact Hser | apply (compacted_adjacent e e1' Hcomp')].
  - intros b Hwfb Hposb Hisz Hexa Hexb Hmem.
    destruct (combine_exact_spec ctx e b Hwf Hwfb Hpos Hposb Hisz Hexa Hexb
                Hmem)
      as (r & Hrun & Hwfr & Hexr & _ & _ & _ & Hposr & _ & HS & _).
    exists r. split; [exact Hrun|].
    apply andb_true_iff in Hexr as [E1 _]. apply Z.eqb_eq in E1.
    split; [exact E1|].
    replace (sorted_zone r) with (records r);
      [apply StrictSorted_adjacent; exact HS|].
    unfold sorted_zone. symmetry. apply firstn_all2.
    unfold records. rewrite slots_length. lia.
Qed.

(** C8.  For every well-formed accumulator with at least one record (and
    small enough for the array to be enlarged twice when room is asked
    for), [compact_set] called twice in a row with the same [need_space]
    returns both times, and the second call leaves [nsorted], [nall] and
    the records as the first call left them. *)
Theorem compact_set_idempotent (e : element_set_t) (need_space : bool) :
  wf e = true -> 0 < nall e ->
  need_space = false \/ 4 * nbytes e <= MaxAllocSize ->
  exists e1 e2,
    compact_set e need_space = Ok e1 /\
    compact_set e1 need_space = Ok e2 /\
    nsorted e2 = nsorted e1 /\ nall e2 = nall e1 /\
    records e2 = records e1.
Proof.
  intros Hwf Hpos Hmem.
  assert (MaxAllocSize = 1073741823) as HM by reflexivity.
  destruct (compact_set_total e need_space Hwf Hpos) as (e1 & Hrun1);
    [destruct Hmem; [left; assumption | right; lia]|].
  destruct (compact_set_inv e need_space e1 Hwf Hpos Hrun1)
    as ((Hwf1 & _ & _ & _ & E4 & E5 & _) & Hstep & _).
  assert (need_space = false \/ 2 * nbytes e1 <= MaxAllocSize) as Hmem1.
  { destruct Hmem as [Hf|Hm]; [left; exact Hf|]. right.
    destruct Hstep as [[En _]|(_ & _ & Hnb & Hr)]; [lia|].
    pose proof (Z.div_mod (5 * nbytes e) 4 ltac:(lia)) as Hdm.
    pose proof (Z.mod_pos_bound (5 * nbytes e) 4 ltac:(lia)) as Hmb.
    destruct Hnb as [Ed|[_ Ed]]; rewrite Ed; lia. }
  destruct (compact_set_total e1 need_space Hwf1 ltac:(lia) Hmem1)
    as (e2 & Hrun2).
  destruct (compact_set_inv e1 need_space e2 Hwf1 ltac:(lia) Hrun2)
    as ((Hwf2 & _ & _ & _ & F4 & F5 & _) & _ & Hrec & _).
  exists e1, e2. split; [exact Hrun1|]. split; [exact Hrun2|].
  specialize (Hrec E4).
  assert (nall e2 = nall e1) as En.
  { pose proof (f_equal (@length bytes) Hrec) as HL. unfold records in HL.
    rewrite !slots_length in HL. lia. }
  split; [lia|]. split; [exact En | exact Hrec].
Qed.

(* ================================================================== *)
(** * What combine and deserialise return, whatever the operands *)
(* ================================================================== *)

Lemma bind_Ok_inv (A B : Type) (c : outcome A) (k : A -> outcome B) (v : B) :
  bind c k = Ok v -> exists a, c = Ok a /\ k a = Ok v.
Proof.
  destruct c as [a| | |]; simpl; intros H; try discriminate.
  exists a. split; [reflexivity | exact H].
Qed.

Ltac inv_bind H :=
  let x := fresh "x" in
  let Hx := fresh "Hx" in
  apply bind_Ok_inv in H as (x & Hx & H).

(** The partial-correctness rule for a [for] loop: an invariant kept by
    every turn that returns holds when the loop returns. *)
Lemma for_each_range_partial (S : Type) (Inv : Z -> S -> Prop)
    (body : Z -> S -> outcome S) (lo hi : Z) (s s' : S) :
  lo <= hi -> Inv lo s ->
  (forall i s s', lo <= i < hi -> Inv i s -> body i s = Ok s' ->
                  Inv (i + 1) s') ->
  for_each (range lo hi) body s = Ok s' -> Inv hi s'.
Proof.
  intros Hle H0 Hstep.
  remember (Z.to_nat (hi - lo)) as n eqn:En.
  revert lo s Hle H0 Hstep En.
  induction n as [|n IH]; intros lo s Hle H0 Hstep En Hrun.
  - assert (lo = hi) as -> by lia. rewrite range_nil in Hrun by lia.
    simpl in Hrun. injection Hrun as <-. exact H0.
  - rewrite range_cons in Hrun by lia. simpl in Hrun.
    inv_bind Hrun.
    apply (IH (lo + 1) x); [lia | | | lia | exact Hrun].
    + apply (Hstep lo s x); [lia | exact H0 | exact Hx].
    + intros i s1 s2 Hi. apply Hstep. lia.
Qed.

Lemma combine_body_tmp (eset1 eset2 : element_set_t) (i : Z)
    (d d' : bytes) (tmp ptr1 ptr2 prev tmp' ptr1' ptr2' prev' : Z) :
  combine_body eset1 eset2 i (d, tmp, ptr1, ptr2, prev)
  = Ok (d', tmp', ptr1', ptr2', prev') ->
  tmp' = tmp \/ tmp' = tmp + item_size eset1.
Proof.
  rewrite combine_body_halves. intros H.
  inv_bind H. inv_bind H. inv_bind H.
  destruct x1 as [[[src off] p1] p2]. unfold combine_emit in H.
  destruct (tmp =? 0).
  - inv_bind H. injection H as _ <- _ _ _. right. reflexivity.
  - inv_bind H. destruct (negb (is_eq x1)).
    + inv_bind H. inv_bind H. injection H as _ <- _ _ _. right. reflexivity.
    + injection H as _ <- _ _ _. left. reflexivity.
Qed.

Lemma combine_result_exact (ctx : Z) (a b r : element_set_t) :
  wf a = true -> wf b = true -> 0 < nall a -> 0 < nall b ->
  item_size a = item_size b ->
  count_distinct_combine (Some ctx) (Some a) (Some b) = Ok (Some r) ->
  nsorted r = nall r /\ nbytes r = nall r * item_size r.
Proof.
  intros Hwfa Hwfb Hposa Hposb Hisz H.
  assert (MaxAllocSize = 1073741823) as HM by reflexivity.
  unfold count_distinct_combine in H. cbn [GET_AGG_CONTEXT bind] in H.
  inv_bind H. inv_bind H. inv_bind H. inv_bind H. inv_bind H.
  rename x0 into a1, x1 into b1, x2 into d0.
  destruct x3 as [[[[d tmp] ptr1] ptr2] prev].
  inv_bind H. inv_bind H. inv_bind H.
  destruct (compact_set_inv a false a1 Hwfa Hposa Hx0)
    as ((Hwfa1 & Eia & _ & _ & _ & Hna1 & _) & Hsa & _).
  destruct (compact_set_inv b false b1 Hwfb Hposb Hx1)
    as ((Hwfb1 & Eib & _ & _ & _ & Hnb1 & _) & Hsb & _).
  destruct (wf_facts a1 Hwfa1) as (Hia1 & _ & Hcapa & Hmaxa & _ & _).
  destruct (wf_facts b1 Hwfb1) as (Hib1 & _ & Hcapb & Hmaxb & _ & _).
  assert (item_size b1 = item_size a1) as Eab by lia.
  rewrite Eab in Hcapb.
  assert (nall a1 <= nall a1 * item_size a1) as Hn1 by nia.
  assert (nall b1 <= nall b1 * item_size a1) as Hn2 by nia.
  rewrite (@wrap32_small (nall a1 + nall b1)) in Hx3 by lia.
  assert (exists k, 0 <= k <= nall a1 + nall b1 /\ tmp = k * item_size a1)
    as (k & Hk & Etmp).
  { apply (for_each_range_partial _
             (fun i st => let '(_, tmp, _, _, _) := st in
                          exists k, 0 <= k <= i /\ tmp = k * item_size a1)
             (combine_body a1 b1) 0 (nall a1 + nall b1) (d0, 0, 0, 0, 0)
             (d, tmp, ptr1, ptr2, prev)); [lia | | | exact Hx3].
    - exists 0. split; lia.
    - intros i [[[[d1 t1] p1] q1] r1] [[[[d2 t2] p2] q2] r2] Hi (k & Hk & Et)
        Hb.
      apply combine_body_tmp in Hb as [->| ->].
      + exists k. split; [lia | exact Et].
      + exists (k + 1). split; [lia | rewrite Et; lia]. }
  revert H. simpl_eset.
  destruct (Z.eqb_spec (item_size a1) 0) as [Ez|Enz]; [discriminate|].
  intros H. injection H as <-. simpl_eset.
  assert (k * item_size a1 <= (nall a1 + nall b1) * item_size a1) as Hkb
    by (apply Z.mul_le_mono_nonneg_r; lia).
  rewrite Etmp, wrap32_small by nia.
  rewrite Z.div_mul by lia. split; reflexivity.
Qed.

Lemma deserial_result_exact (ctx : Z) (stream : bytes) (e : element_set_t) :
  count_distinct_deserial (Some ctx) stream = Ok e ->
  nbytes e = wrap32 (nall e * item_size e)
  /\ size (data e) = nbytes e.
Proof.
  unfold count_distinct_deserial. cbn [CHECK_AGG_CONTEXT bind]. intros H.
  inv_bind H. inv_bind H. inv_bind H. inv_bind H. inv_bind H. inv_bind H.
  destruct (struct_of_head x1 []) as [isz ns na nb ta ag d0].
  revert H Hx4. simpl_eset. intros H Hx4.
  inv_bind H. injection H as <-. simpl_eset. split; [reflexivity|].
  unfold memcpy in Hx5. inv_bind Hx5.
  apply store_length in Hx5. unfold size. rewrite Hx5.
  unfold palloc in Hx4. destruct (_ <=? MaxAllocSize); [|discriminate].
  injection Hx4 as <-. rewrite length_map, length_seq.
  unfold wrap32.
  pose proof (Z.mod_pos_bound (na * isz) 4294967296 ltac:(lia)). lia.
Qed.

(** ** An absent operand *)

Lemma combine_absent_second (ctx : Z) (arg0 : option element_set_t) :
  count_distinct_combine (Some ctx) arg0 None = Ok arg0.
Proof. reflexivity. Qed.

Lemma combine_absent_first (ctx : Z) (b : element_set_t) :
  nbytes b <= MaxAllocSize -> nbytes b <= size (data b) -> 0 <= nbytes b ->
  exists r,
    count_distinct_combine (Some ctx) None (Some b) = Ok (Some r) /\
    item_size r = item_size b /\ nsorted r = nsorted b /\
    nall r = nall b /\ nbytes r = nbytes b /\
    data r = firstn (Z.to_nat (nbytes b)) (data b).
Proof.
  intros Hmax Hlen Hnn. unfold count_distinct_combine.
  cbn [GET_AGG_CONTEXT bind]. rewrite palloc_ok by exact Hmax. cbn [bind].
  unfold memcpy. rewrite load_prefix by lia. cbn [bind].
  set (J := map uninit (seq 0 _)).
  assert (length J = Z.to_nat (nbytes b)) as LJ
    by (unfold J; rewrite length_map, length_seq; reflexivity).
  rewrite (store_in [] J (firstn (Z.to_nat (nbytes b)) (data b)) J 0);
    [ | reflexivity | reflexivity
      | rewrite length_firstn; unfold size in Hlen; lia ].
  cbn [bind app]. eexists. split; [reflexivity|]. simpl_eset.
  repeat split.
  rewrite <- app_nil_r. f_equal. apply skipn_all2.
  rewrite length_firstn. unfold size in Hlen. lia.
Qed.

Lemma decode_le_nonneg (bs : bytes) : 0 <= decode_le bs.
Proof.
  induction bs as [|b bs IH]; cbn [decode_le]; [lia|].
  pose proof (N2Z.is_nonneg (Byte.to_N b)). lia.
Qed.

Lemma deserial_result_nonneg (ctx : Z) (stream : bytes) (e : element_set_t) :
  count_distinct_deserial (Some ctx) stream = Ok e ->
  0 <= nall e /\ 0 <= item_size e.
Proof.
  unfold count_distinct_deserial. cbn [CHECK_AGG_CONTEXT bind]. intros H.
  inv_bind H. inv_bind H. inv_bind H. inv_bind H. inv_bind H. inv_bind H.
  inv_bind H. injection H as <-. unfold struct_of_head. simpl_eset.
  split; apply decode_le_nonneg.
Qed.

(** C10.  Every accumulator [count_distinct_deserial] returns has
    [nbytes == nall * item_size] (the [uint32] product the code stores, which
    is the exact product whenever that fits 32 bits), and what it rebuilds
    from a stream of [count_distinct_serial] has no slack at all; every
    accumulator a merging [count_distinct_combine] returns has
    [nbytes = nall * item_size]; and when both operands have no slack the
    merge returns the strictly increasing sequence of the records of both.
    (What the loop does with an operand that has slack is shown by
    [combine_reads_slack_as_records].) *)
Theorem no_slack_after_deserial_and_combine (ctx : Z) (a b : element_set_t) :
  wf a = true -> wf b = true -> 0 < nall a -> 0 < nall b ->
  item_size a = item_size b ->
  (forall stream e,
      count_distinct_deserial (Some ctx) stream = Ok e ->
      nbytes e = wrap32 (nall e * item_size e) /\
      (nall e * item_size e < 4294967296 ->
       nbytes e = nall e * item_size e)) /\
  (nbytes a + 36 <= MaxAllocSize ->
   exists a1 stream a2,
      count_distinct_serial (Some ctx) a = Ok (a1, stream) /\
      count_distinct_deserial (Some ctx) stream = Ok a2 /\
      exact_capacity a2 = true) /\
  (forall r,
      count_distinct_combine (Some ctx) (Some a) (Some b) = Ok (Some r) ->
      nsorted r = nall r /\ nbytes r = nall r * item_size r) /\
  (exact_capacity a = true -> exact_capacity b = true ->
   nbytes a + nbytes b <= MaxAllocSize ->
   exists r,
      count_distinct_combine (Some ctx) (Some a) (Some b) = Ok (Some r) /\
      exact_capacity r = true /\
      adjacent_increasing (records r) /\
      (forall x, In x (records r) <-> In x (records a) \/ In x (records b))).
Proof.
  intros Hwfa Hwfb Hposa Hposb Hisz.
  split; [|split; [|split]].
  - intros stream e H.
    destruct (deserial_result_exact ctx stream e H) as (E & _).
    destruct (deserial_result_nonneg ctx stream e H) as (Hn & Hi).
    split; [exact E|]. intros Hlt. rewrite E. apply wrap32_small. nia.
  - intros Hmem.
    destruct (count_distinct_serial_spec ctx a Hwfa Hposa Hmem)
      as (a1 & Hc & Hcomp & Hn & Hser).
    pose proof Hcomp as (Hwf1 & E1 & E2 & E3 & E4 & E5 & E6).
    exists a1, (struct_head a1 ++ concat (records a1)), (deserialised a1).
    split; [exact Hser|].
    split; [apply count_distinct_deserial_spec; [exact Hwf1 | exact E4 | lia]|].
    unfold exact_capacity, deserialised. simpl_eset.
    rewrite E4, !Z.eqb_refl. reflexivity.
  - intros r H.
    apply (combine_result_exact ctx a b r Hwfa Hwfb Hposa Hposb Hisz H).
  - intros Hexa Hexb Hmem.
    destruct (combine_exact_spec ctx a b Hwfa Hwfb Hposa Hposb Hisz Hexa Hexb
                Hmem)
      as (r & Hrun & _ & Hexr & _ & _ & _ & _ & _ & HS & Hin).
    exists r. split; [exact Hrun|]. split; [exact Hexr|].
    split; [apply StrictSorted_adjacent; exact HS | exact Hin].
Qed.

(* ================================================================== *)
(** * Further properties of compaction and of the transition function *)
(* ================================================================== *)

(** X2.  A call of [compact_set] on a well-formed, non-empty accumulator
    that returns keeps the set of records: a record is stored afterwards
    exactly when it was stored before, and none is stored twice.  The
    width, [typalign] and [aggctx] are kept, the count does not grow, and
    the capacity [nbytes] never shrinks; it is unchanged when no room was
    asked for. *)
Theorem compact_set_keeps_records (e : element_set_t) (need_space : bool)
    (e1 : element_set_t) :
  wf e = true -> 0 < nall e -> compact_set e need_space = Ok e1 ->
  wf e1 = true /\
  item_size e1 = item_size e /\ typalign e1 = typalign e /\
  aggctx e1 = aggctx e /\
  0 < nall e1 <= nall e /\
  (forall x, In x (records e1) <-> In x (records e)) /\
  NoDup (records e1) /\
  nbytes e <= nbytes e1 /\
  (need_space = false -> nbytes e1 = nbytes e).
Proof.
  intros Hwf Hpos Hrun.
  destruct (compact_set_inv e need_space e1 Hwf Hpos Hrun)
    as (Hcomp & Hstep & _).
  destruct (compacted_sorted e e1 Hcomp) as (HS & _).
  destruct Hcomp as (Hwf1 & E1 & E2 & E3 & E4 & Hn & Hin).
  split; [exact Hwf1|]. split; [exact E1|]. split; [exact E2|].
  split; [exact E3|]. split; [exact Hn|]. split; [exact Hin|].
  split; [apply StrictSorted_NoDup; exact HS|].
  destruct Hstep as [(En & _)|(Hns & _ & _ & Hlt)].
  - split; [lia | intros _; exact En].
  - split; [lia | intros Hf; congruence].
Qed.

(** X3.  On a well-formed, non-empty accumulator [compact_set] never fails
    an assertion and never reads or writes outside its arrays: it returns,
    or, when room was asked for and twice the capacity exceeds
    [MaxAllocSize], [repalloc] may refuse the enlarged array. *)
Theorem compact_set_returns_or_reports_allocation (e : element_set_t)
    (need_space : bool) :
  wf e = true -> 0 < nall e ->
  (exists e1, compact_set e need_space = Ok e1)
  \/ (need_space = true /\ MaxAllocSize < 2 * nbytes e /\
      compact_set e need_space = Elog "invalid memory alloc request size").
Proof.
  intros Hwf Hpos.
  destruct (compact_set_spec e need_space Hwf Hpos)
    as (e1 & Hc & Hcomp & Hn & He).
  rewrite Hc.
  pose proof Hcomp as (Hwf1 & H1 & H2 & H3 & H4 & H5 & H6).
  assert (need_space = false
          \/ nbytes e1 <= 5 * (nbytes e1 - nall e1 * item_size e1)
          \/ (need_space = true
              /\ 5 * (nbytes e1 - nall e1 * item_size e1) < nbytes e1))
    as [Hk|[Hk|[Hns' Hg]]] by (destruct need_space; lia).
  - left. exists e1. apply compact_grow_keep; [exact Hwf1 | left; exact Hk].
  - left. exists e1. apply compact_grow_keep; [exact Hwf1 | right; exact Hk].
  - subst need_space.
    destruct (compact_grow_grow e1 Hwf1 ltac:(lia) Hg)
      as (nb & Hnb & Hrange & Hok & Herr).
    destruct (Z.le_gt_cases nb MaxAllocSize) as [Hle|Hgt].
    + left. exists (grown e1 nb). apply Hok. exact Hle.
    + right. split; [reflexivity|]. split; [lia | apply Herr; lia].
Qed.

(** X4.  [add_element] on a well-formed accumulator of a by-value width
    (at most 8 bytes) whose capacity is one the append path produces
    returns, so its assertion that room was made holds and its copy stays
    inside the array; the records stored afterwards are those stored
    before and the first [item_size] bytes of the value. *)
Theorem add_element_adds_record (e : element_set_t) (value : bytes) :
  wf e = true -> 0 < item_size e <= 8 -> capacity_ok (nbytes e) ->
  2 * nbytes e <= MaxAllocSize -> item_size e <= size value ->
  exists e',
    add_element e value = Ok e' /\ wf e' = true /\
    item_size e' = item_size e /\ capacity_ok (nbytes e') /\
    0 < nall e' <= nall e + 1 /\
    (forall x, In x (records e')
               <-> In x (records e)
                   \/ x = firstn (Z.to_nat (item_size e)) value).
Proof.
  intros Hwf Hisz Hcap Hmem Hval.
  destruct (add_element_spec e value Hwf Hisz Hcap Hmem Hval)
    as (e' & Hrun & Hwf' & E1 & _ & _ & Hcap' & Hn & Hin & _).
  exists e'. split; [exact Hrun|]. split; [exact Hwf'|].
  split; [exact E1|]. split; [exact Hcap'|]. split; [exact Hn | exact Hin].
Qed.

Lemma append_all_builds (ctx : Z) (ty : type_info) (values : list bytes) :
  0 < typlen ty <= 8 -> typbyval ty = true -> values <> [] ->
  Forall (fun v => size v = SIZEOF_DATUM) values ->
  5 * (distinct_count (Z.to_nat (typlen ty)) values * typlen ty)
  <= MaxAllocSize ->
  exists e : element_set_t,
    append_all (Some ctx) ty None values = Ok (Some e) /\
    wf e = true /\ item_size e = typlen ty /\
    0 < nall e <= Z.of_nat (length values) /\
    (forall x, In x (records e)
               <-> In x (map (firstn (Z.to_nat (typlen ty))) values)) /\
    (nbytes e = 32
     \/ 2 * nbytes e < 5 * (Z.of_nat (length values) * typlen ty)) /\
    capacity_bound ty values e.
Proof.
  intros Hty Hbv Hne Hsize Hmem.
  assert (Forall (fun v => typlen ty <= size v) values) as Hv.
  { eapply Forall_impl; [|exact Hsize].
    intros v E. cbv beta in E. rewrite E. unfold SIZEOF_DATUM. lia. }
  destruct values as [|v rest]; [congruence|].
  pose proof (Forall_inv Hv) as Hv1. cbv beta in Hv1.
  pose proof (Forall_inv_tail Hv) as Hvs.
  destruct (append_first ctx ty v Hty Hbv Hv1) as (e0 & Hrun0 & Hinv0).
  destruct (append_all_spec ctx ty Hty rest [v] e0 Hvs Hmem Hinv0
              (append_first_bound ty v e0 Hty Hinv0))
    as (e & Hrun & (Hwf & Hisz & Hcap & Hn & Hin & Hb) & Hcb).
  exists e. split.
  - cbn [append_all]. rewrite Hrun0. cbn [bind]. exact Hrun.
  - split; [exact Hwf|]. split; [exact Hisz|]. split; [exact Hn|].
    split; [exact Hin|]. split; [exact Hb | exact Hcb].
Qed.

(** X5.  The state the transition function builds from a non-empty list
    of values of a by-value type is well formed, stores exactly the
    records of the values seen, and its array holds 32 bytes or less than
    two and a half times the bytes of the values appended.  The list may
    be of any length; five times the bytes of its distinct records are
    within the allocation limit. *)
Theorem append_all_state (ctx : Z) (ty : type_info) (values : list bytes) :
  0 < typlen ty <= 8 -> typbyval ty = true -> values <> [] ->
  Forall (fun v => size v = SIZEOF_DATUM) values ->
  5 * (distinct_count (Z.to_nat (typlen ty)) values * typlen ty)
  <= MaxAllocSize ->
  exists e : element_set_t,
    append_all (Some ctx) ty None values = Ok (Some e) /\
    wf e = true /\ item_size e = typlen ty /\
    0 < nall e <= Z.of_nat (length values) /\
    (forall x, In x (records e)
               <-> In x (map (firstn (Z.to_nat (typlen ty))) values)) /\
    (nbytes e = 32
     \/ 2 * nbytes e < 5 * (Z.of_nat (length values) * typlen ty)).
Proof.
  intros Hty Hbv Hne Hsize Hmem.
  destruct (append_all_builds ctx ty values Hty Hbv Hne Hsize Hmem)
    as (e & Hrun & Hwf & Hisz & Hn & Hin & Hb & _).
  exists e. split; [exact Hrun|]. split; [exact Hwf|].
  split; [exact Hisz|]. split; [exact Hn|]. split; [exact Hin | exact Hb].
Qed.

(** The transition function called on a list of inputs of which some are
    SQL NULL. *)
Fixpoint transition_all (context : option Z) (ty : type_info)
    (state : option element_set_t) (inputs : list (option bytes))
  : outcome (option element_set_t) :=
  match inputs with
  | [] => Ok state
  | v :: vs =>
      state' <- count_distinct_append context ty state v ;;
      transition_all context ty state' vs
  end.

Definition non_null (inputs : list (option bytes)) : list bytes :=
  flat_map (fun v => match v with Some b => [b] | None => [] end) inputs.

(** X6.  NULL inputs are skipped: the transition function run over a list
    of inputs ends as it does over the non-NULL inputs alone, in every
    calling context and from every state, be it a result or an error. *)
Theorem null_values_are_skipped (context : option Z) (ty : type_info)
    (inputs : list (option bytes)) (state : option element_set_t) :
  transition_all context ty state inputs
  = append_all context ty state (non_null inputs).
Proof.
  revert state. induction inputs as [|v vs IH]; intros state.
  - reflexivity.
  - destruct v as [b|].
    + cbn [transition_all non_null flat_map app append_all].
      destruct (count_distinct_append context ty state (Some b));
        cbn [bind]; try reflexivity.
      apply IH.
    + cbn [transition_all non_null flat_map app].
      change (count_distinct_append context ty state None) with (Ok state).
      cbn [bind]. apply IH.
Qed.

Lemma grown_nbytes_cases (n nb : Z) :
  0 <= n < 4294967296 -> grown_nbytes n = Ok nb ->
  (n < 6554 /\ nb = 2 * n) \/ (6554 <= n /\ nb = 5 * n / 4).
Proof.
  intros Hn. unfold grown_nbytes, ALLOCSET_SEPARATE_THRESHOLD.
  destruct (Z.ltb_spec (5 * n) (4 * 8192)) as [Hlt|Hge].
  - intros H. injection H as <-. left. split; [lia|].
    rewrite Z.mul_comm. apply wrap32_small. lia.
  - destruct (5 * n / 4 <? 4294967296); [|discriminate].
    intros H. injection H as <-. right. split; [lia | reflexivity].
Qed.

(** X18.  The growth policy.  A call of [compact_set] on a well-formed,
    non-empty accumulator changes the capacity only when room was asked
    for and less than a fifth of the array is free once the records are
    compacted; the array then grows to twice its size while it is below
    6554 bytes (where [nbytes / 0.8] reaches [ALLOCSET_SEPARATE_THRESHOLD])
    and to five quarters of its size, rounded down, from there on. *)
Theorem compact_set_growth_policy (e : element_set_t) (need_space : bool)
    (e1 : element_set_t) :
  wf e = true -> 0 < nall e -> compact_set e need_space = Ok e1 ->
  let free := nbytes e - nall e1 * item_size e1 in
  (nbytes e1 = nbytes e /\ (need_space = false \/ nbytes e <= 5 * free))
  \/ (need_space = true /\ 5 * free < nbytes e /\
      ((nbytes e < 6554 /\ nbytes e1 = 2 * nbytes e)
       \/ (6554 <= nbytes e /\ nbytes e1 = 5 * nbytes e / 4))).
Proof.
  intros Hwf Hpos Hrun free. unfold free. clear free.
  destruct (compact_set_spec e need_space Hwf Hpos)
    as (c & Hc & Hcomp & Hn & He).
  rewrite Hc in Hrun. clear Hc.
  pose proof Hcomp as (Hwfc & H1 & H2 & H3 & H4 & H5 & H6).
  destruct (wf_facts c Hwfc) as (Hisz & Hns & Hcap & Hmax & Hlen & HS).
  assert (MaxAllocSize = 1073741823) as HM by reflexivity.
  assert (0 <= nall c * item_size c) as Hnn by nia.
  assert (need_space = false
          \/ nbytes c <= 5 * (nbytes c - nall c * item_size c)
          \/ (need_space = true
              /\ 5 * (nbytes c - nall c * item_size c) < nbytes c))
    as [Hk|[Hk|[Hns' Hg]]] by (destruct need_space; lia).
  - rewrite (compact_grow_keep c need_space Hwfc (or_introl Hk)) in Hrun.
    injection Hrun as <-. left. split; [exact Hn | left; exact Hk].
  - rewrite (compact_grow_keep c need_space Hwfc (or_intror Hk)) in Hrun.
    injection Hrun as <-. left. split; [exact Hn | right; lia].
  - subst need_space. unfold compact_grow in Hrun.
    unfold free_fract_below_ARRAY_FREE_FRACT in Hrun.
    rewrite (@wrap32_small (nall c * item_size c)) in Hrun by lia.
    rewrite wrap32_small in Hrun by lia.
    replace (5 * (nbytes c - nall c * item_size c) <? nbytes c) with true
      in Hrun by (symmetry; apply Z.ltb_lt; lia).
    cbn [andb] in Hrun. inv_bind Hrun. inv_bind Hrun.
    injection Hrun as <-. simpl_eset.
    apply grown_nbytes_cases in Hx; [|lia].
    right. split; [reflexivity|]. split; [lia|]. rewrite <- Hn. exact Hx.
Qed.

(* ================================================================== *)
(** * Parallel aggregation: serialise, deserialise, combine *)
(* ================================================================== *)

(** The first call of the combine function in a group, with no state yet:
    the copy it returns is well formed and stores the operand's records. *)
Lemma combine_first_call (ctx : Z) (b : element_set_t) :
  wf b = true ->
  exists r,
    count_distinct_combine (Some ctx) None (Some b) = Ok (Some r) /\
    wf r = true /\ item_size r = item_size b /\ nsorted r = nsorted b /\
    nall r = nall b /\ nbytes r = nbytes b /\ records r = records b.
Proof.
  intros Hwf.
  destruct (wf_facts b Hwf) as (Hisz & Hns & Hcap & Hmax & Hlen & HS).
  assert (0 <= nall b * item_size b) as Hnn by nia.
  destruct (combine_absent_first ctx b Hmax Hlen ltac:(lia))
    as (r & Hrun & E1 & E2 & E3 & E4 & E5).
  assert (records r = records b) as Hrec.
  { unfold records. rewrite E1, E3, E5. apply slots_firstn.
    - nia.
    - unfold size in Hlen. nia. }
  exists r. split; [exact Hrun|].
  split; [|split; [exact E1|split; [exact E2|split; [exact E3|
           split; [exact E4 | exact Hrec]]]]].
  apply wf_intro.
  - lia.
  - lia.
  - rewrite E3, E1, E4. exact Hcap.
  - lia.
  - rewrite E4, E5. unfold size in *. rewrite length_firstn. lia.
  - unfold sorted_zone. rewrite Hrec, E2. exact HS.
Qed.

(** What a worker's state becomes on its way to the leader: serialised,
    then deserialised. *)
Lemma shipped_state (ctx : Z) (a : element_set_t) :
  wf a = true -> 0 < nall a -> nbytes a + 36 <= MaxAllocSize ->
  exists (a1 : element_set_t) (stream : bytes) (a2 : element_set_t),
    count_distinct_serial (Some ctx) a = Ok (a1, stream) /\
    count_distinct_deserial (Some ctx) stream = Ok a2 /\
    wf a2 = true /\ exact_capacity a2 = true /\
    item_size a2 = item_size a /\ 0 < nall a2 /\ nbytes a2 <= nbytes a /\
    StrictSorted (records a2) /\
    (forall x, In x (records a2) <-> In x (records a)).
Proof.
  intros Hwf Hpos Hmem.
  destruct (count_distinct_serial_spec ctx a Hwf Hpos Hmem)
    as (a1 & Hc & Hcomp & Hn & Hser).
  pose proof Hcomp as (Hwf1 & E1 & E2 & E3 & E4 & E5 & E6).
  destruct (wf_facts a1 Hwf1) as (Hisz & Hns & Hcap & Hmax & Hlen & HS).
  destruct (deserialised_spec a1 Hwf1 E4) as (Hwf2 & Hrec2).
  destruct (compacted_sorted a a1 Hcomp) as (HS1 & _).
  exists a1, (struct_head a1 ++ concat (records a1)), (deserialised a1).
  split; [exact Hser|].
  split; [apply count_distinct_deserial_spec; [exact Hwf1 | exact E4 | lia]|].
  split; [exact Hwf2|].
  split.
  { unfold exact_capacity, deserialised. simpl_eset.
    rewrite E4, !Z.eqb_refl. reflexivity. }
  split; [exact E1|]. split; [simpl; lia|]. split; [simpl; lia|].
  rewrite Hrec2. split; [exact HS1 | exact E6].
Qed.

(** The number of distinct records among those of two accumulators. *)
Definition union_count (a b : element_set_t) : Z :=
  Z.of_nat (length (nodup bytes_eq_dec (records a ++ records b))).

(** The states of two workers, shipped to the leader and combined there
    as PostgreSQL does it: the first combine call finds no state, the
    second merges. *)
Lemma shipped_states_combine (ctx : Z) (a b : element_set_t) :
  wf a = true -> wf b = true -> 0 < nall a -> 0 < nall b ->
  item_size a = item_size b ->
  nbytes a + nbytes b + 36 <= MaxAllocSize ->
  exists (a1 b1 : element_set_t) (sa sb : bytes)
         (a2 b2 s1 r : element_set_t),
    count_distinct_serial (Some ctx) a = Ok (a1, sa) /\
    count_distinct_serial (Some ctx) b = Ok (b1, sb) /\
    count_distinct_deserial (Some ctx) sa = Ok a2 /\
    count_distinct_deserial (Some ctx) sb = Ok b2 /\
    count_distinct_combine (Some ctx) None (Some a2) = Ok (Some s1) /\
    count_distinct_combine (Some ctx) (Some s1) (Some b2) = Ok (Some r) /\
    count_distinct (Some ctx) (Some r) = Ok (Some r, Some (union_count a b)) /\
    StrictSorted (records r) /\
    (forall x, In x (records r) <-> In x (records a) \/ In x (records b)).
Proof.
  intros Hwfa Hwfb Hposa Hposb Hisz Hmem.
  destruct (wf_facts a Hwfa) as (_ & _ & _ & _ & Hlena & _).
  destruct (wf_facts b Hwfb) as (Hib & _ & Hcapb & _ & Hlenb & _).
  assert (0 <= nbytes a /\ 0 <= nbytes b) as [Hna Hnb].
  { destruct (wf_facts a Hwfa) as (Hia & _ & Hcapa & _).
    split; nia. }
  destruct (shipped_state ctx a Hwfa Hposa ltac:(lia))
    as (a1 & sa & a2 & Hsa & Hda & Hwf2a & Hexa & Eia & Hpa & Hba & HSa & Hina).
  destruct (shipped_state ctx b Hwfb Hposb ltac:(lia))
    as (b1 & sb & b2 & Hsb & Hdb & Hwf2b & Hexb & Eib & Hpb & Hbb & HSb & Hinb).
  destruct (combine_first_call ctx a2 Hwf2a)
    as (s1 & Hc1 & Hwfs & Es1 & Es2 & Es3 & Es4 & Es5).
  assert (exact_capacity s1 = true) as Hexs.
  { unfold exact_capacity in *. rewrite Es2, Es3, Es4, Es1. exact Hexa. }
  destruct (combine_exact_spec ctx s1 b2 Hwfs Hwf2b ltac:(lia) Hpb
              ltac:(lia) Hexs Hexb ltac:(lia))
    as (r & Hrun & Hwfr & Hexr & Eir & _ & _ & Hpr & Hbr & HSr & Hinr).
  exists a1, b1, sa, sb, a2, b2, s1, r.
  split; [exact Hsa|]. split; [exact Hsb|]. split; [exact Hda|].
  split; [exact Hdb|]. split; [exact Hc1|]. split; [exact Hrun|].
  assert (forall x, In x (records r) <-> In x (records a) \/ In x (records b))
    as Hin.
  { intros x. rewrite Hinr, Es5, Hina, Hinb. reflexivity. }
  split; [|split; [exact HSr | exact Hin]].
  apply andb_true_iff in Hexr as [Er1 _]. apply Z.eqb_eq in Er1.
  destruct (compact_set_false_spec r Hwfr Hpr) as (r' & Hc & _ & _ & Hsame).
  rewrite (Hsame Er1) in Hc.
  unfold count_distinct. cbn [CHECK_AGG_CONTEXT bind]. rewrite Hc.
  cbn [bind]. f_equal. f_equal. f_equal.
  unfold union_count.
  transitivity (Z.of_nat (length (records r))).
  { unfold records. rewrite slots_length. lia. }
  f_equal. apply Permutation_length, NoDup_Permutation.
  - apply StrictSorted_NoDup. exact HSr.
  - apply NoDup_nodup.
  - intros x. rewrite nodup_In, in_app_iff. apply Hin.
Qed.

(** X7.  Parallel aggregation of two partial states.  Two well-formed,
    non-empty accumulators of one width, each serialised by its worker and
    deserialised by the leader, then combined there (the first combine
    call with no state, the second merging), give the strictly increasing
    sequence of the records of both, and the final function returns the
    number of distinct records among them. *)
Theorem parallel_states_are_united (ctx : Z) (a b : element_set_t) :
  wf a = true -> wf b = true -> 0 < nall a -> 0 < nall b ->
  item_size a = item_size b ->
  nbytes a + nbytes b + 36 <= MaxAllocSize ->
  exists (a1 b1 : element_set_t) (sa sb : bytes)
         (a2 b2 s1 r : element_set_t),
    count_distinct_serial (Some ctx) a = Ok (a1, sa) /\
    count_distinct_serial (Some ctx) b = Ok (b1, sb) /\
    count_distinct_deserial (Some ctx) sa = Ok a2 /\
    count_distinct_deserial (Some ctx) sb = Ok b2 /\
    count_distinct_combine (Some ctx) None (Some a2) = Ok (Some s1) /\
    count_distinct_combine (Some ctx) (Some s1) (Some b2) = Ok (Some r) /\
    count_distinct (Some ctx) (Some r) = Ok (Some r, Some (union_count a b)) /\
    adjacent_increasing (records r) /\
    (forall x, In x (records r) <-> In x (records a) \/ In x (records b)).
Proof.
  intros Hwfa Hwfb Hposa Hposb Hisz Hmem.
  destruct (shipped_states_combine ctx a b Hwfa Hwfb Hposa Hposb Hisz Hmem)
    as (a1 & b1 & sa & sb & a2 & b2 & s1 & r & H1 & H2 & H3 & H4 & H5 & H6
        & H7 & HS & Hin).
  exists a1, b1, sa, sb, a2, b2, s1, r.
  repeat (split; [assumption|]).
  split; [apply StrictSorted_adjacent; exact HS | exact Hin].
Qed.

(** The final count of a state whose records are all sorted. *)
Lemma count_of_sorted (ctx : Z) (r : element_set_t) (l : list bytes) :
  wf r = true -> nsorted r = nall r -> 0 < nall r ->
  (forall x, In x (records r) <-> In x l) ->
  count_distinct (Some ctx) (Some r)
  = Ok (Some r, Some (Z.of_nat (length (nodup bytes_eq_dec l)))).
Proof.
  intros Hwf Hn Hpos Hin.
  destruct (compact_set_false_spec r Hwf Hpos) as (r' & Hc & Hcomp & _ & Hsame).
  rewrite (Hsame Hn) in Hc, Hcomp.
  destruct (compacted_sorted r r Hcomp) as (HS & _).
  unfold count_distinct. cbn [CHECK_AGG_CONTEXT bind]. rewrite Hc.
  cbn [bind]. f_equal. f_equal. f_equal.
  transitivity (Z.of_nat (length (records r))).
  { unfold records. rewrite slots_length. lia. }
  f_equal. apply Permutation_length, NoDup_Permutation.
  - apply StrictSorted_NoDup. exact HS.
  - apply NoDup_nodup.
  - intros x. rewrite nodup_In. apply Hin.
Qed.

(** A partial state on its way from a worker to the leader; the serial
    and deserial functions are strict, so a NULL state is passed as it
    is. *)
Definition ship (context : option Z) (state : option element_set_t)
  : outcome (option element_set_t) :=
  match state with
  | None => Ok None
  | Some e =>
      '(_, stream) <- count_distinct_serial context e ;;
      e2 <- count_distinct_deserial context stream ;;
      Ok (Some e2)
  end.

(** The count a parallel plan with two workers computes: each worker runs
    the transition function over its share of the values and ships its
    state, the leader combines the states in turn, starting from no state,
    and calls the final function.  [count_distinct_combine] returns with
    [PG_RETURN_POINTER], never SQL NULL: the NULL pointer it returns for
    two NULL operands is read as NULL by the next combine call, which
    tests the pointer, but not by [count_distinct], which tests
    [PG_ARGISNULL] and then dereferences it. *)
Definition parallel_count (context : option Z) (ty : type_info)
    (va vb : list bytes) : outcome (option Z) :=
  a <- append_all context ty None va ;;
  b <- append_all context ty None vb ;;
  a2 <- ship context a ;;
  b2 <- ship context b ;;
  s1 <- count_distinct_combine context None a2 ;;
  r <- count_distinct_combine context s1 b2 ;;
  match r with
  | None => Fault
  | Some _ => '(_, n) <- count_distinct context r ;; Ok n
  end.

Lemma ship_built (ctx : Z) (ty : type_info) (values : list bytes) :
  0 < typlen ty <= 8 -> typbyval ty = true -> values <> [] ->
  Forall (fun v => size v = SIZEOF_DATUM) values ->
  5 * (distinct_count (Z.to_nat (typlen ty)) values * typlen ty)
  <= MaxAllocSize ->
  exists a a2 : element_set_t,
    append_all (Some ctx) ty None values = Ok (Some a) /\
    ship (Some ctx) (Some a) = Ok (Some a2) /\
    wf a2 = true /\ exact_capacity a2 = true /\
    item_size a2 = typlen ty /\ 0 < nall a2 /\
    (nbytes a2 <= 32
     \/ 2 * nbytes a2
        < 5 * (distinct_count (Z.to_nat (typlen ty)) values * typlen ty)) /\
    (forall x, In x (records a2)
               <-> In x (map (firstn (Z.to_nat (typlen ty))) values)).
Proof.
  intros Hty Hbv Hne Hsize Hmem.
  assert (MaxAllocSize = 1073741823) as HM by reflexivity.
  destruct (append_all_builds ctx ty values Hty Hbv Hne Hsize Hmem)
    as (a & Hrun & Hwf & Hisz & Hn & Hin & _ & Hb).
  unfold capacity_bound in Hb.
  destruct (shipped_state ctx a Hwf ltac:(lia) ltac:(lia))
    as (a1 & sa & a2 & Hsa & Hda & Hwf2 & Hex & Ei & Hp & Hbn & HS & Hin2).
  exists a, a2. split; [exact Hrun|].
  split.
  { unfold ship. rewrite Hsa. cbn [bind]. rewrite Hda. reflexivity. }
  split; [exact Hwf2|]. split; [exact Hex|]. split; [lia|].
  split; [exact Hp|]. split; [lia|].
  intros x. rewrite Hin2. apply Hin.
Qed.

(** X8.  Parallel counting is correct.  When the values are split between
    two workers (either share may be empty, not both), each worker's state
    is shipped through [count_distinct_serial] and
    [count_distinct_deserial], and the leader combines the states and
    calls [count_distinct], the count returned is the number of distinct
    records among all the values.  The shares may be of any length; five
    times the bytes of the distinct records of all the values are within
    the allocation limit. *)
Theorem parallel_count_is_distinct_count (ctx : Z) (ty : type_info)
    (va vb : list bytes) :
  0 < typlen ty <= 8 -> typbyval ty = true -> va ++ vb <> [] ->
  Forall (fun v => size v = SIZEOF_DATUM) (va ++ vb) ->
  5 * (distinct_count (Z.to_nat (typlen ty)) (va ++ vb) * typlen ty)
  <= MaxAllocSize ->
  parallel_count (Some ctx) ty va vb
  = Ok (Some (distinct_count (Z.to_nat (typlen ty)) (va ++ vb))).
Proof.
  intros Hty Hbv Hne Hsize Hmem.
  assert (MaxAllocSize = 1073741823) as HM by reflexivity.
  apply Forall_app in Hsize as [Hsa Hsb].
  assert (5 * (distinct_count (Z.to_nat (typlen ty)) va * typlen ty)
          <= MaxAllocSize) as Hmema.
  { pose proof (distinct_count_app_le (Z.to_nat (typlen ty)) va vb).
    assert (distinct_count (Z.to_nat (typlen ty)) va * typlen ty
            <= distinct_count (Z.to_nat (typlen ty)) (va ++ vb) * typlen ty)
      by (apply Z.mul_le_mono_nonneg_r; lia).
    lia. }
  assert (5 * (distinct_count (Z.to_nat (typlen ty)) vb * typlen ty)
          <= MaxAllocSize) as Hmemb.
  { pose proof (distinct_count_app_le_r (Z.to_nat (typlen ty)) va vb).
    assert (distinct_count (Z.to_nat (typlen ty)) vb * typlen ty
            <= distinct_count (Z.to_nat (typlen ty)) (va ++ vb) * typlen ty)
      by (apply Z.mul_le_mono_nonneg_r; lia).
    lia. }
  clear Hmem.
  unfold parallel_count, distinct_count.
  destruct va as [|v va'].
  - (* the first worker saw no value *)
    destruct vb as [|w vb']; [exfalso; apply Hne; reflexivity|].
    destruct (ship_built ctx ty (w :: vb') Hty Hbv ltac:(discriminate) Hsb
                Hmemb)
      as (b & b2 & Hrun & Hship & Hwf2 & Hex & Ei & Hp & _ & Hin).
    rewrite Hrun. cbn [append_all bind].
    change (ship (Some ctx) None) with (@Ok (option element_set_t) None).
    cbn [bind]. rewrite Hship. cbn [bind].
    change (count_distinct_combine (Some ctx) None None) with
      (@Ok (option element_set_t) None).
    cbn [bind].
    destruct (combine_first_call ctx b2 Hwf2)
      as (r & Hc & Hwfr & E1 & E2 & E3 & E4 & E5).
    rewrite Hc. cbn [bind].
    apply andb_true_iff in Hex as [Ex1 _]. apply Z.eqb_eq in Ex1.
    rewrite (count_of_sorted ctx r
               (map (firstn (Z.to_nat (typlen ty))) (w :: vb')) Hwfr);
      [reflexivity | lia | lia |].
    intros x. rewrite E5. apply Hin.
  - destruct (ship_built ctx ty (v :: va') Hty Hbv ltac:(discriminate) Hsa
                Hmema)
      as (a & a2 & Hruna & Hshipa & Hwfa & Hexa & Eia & Hpa & Hba & Hina).
    rewrite Hruna. cbn [bind].
    destruct vb as [|w vb'].
    + (* the second worker saw no value *)
      cbn [append_all bind]. rewrite Hshipa. cbn [bind].
      change (ship (Some ctx) None) with (@Ok (option element_set_t) None).
      cbn [bind].
      destruct (combine_first_call ctx a2 Hwfa)
        as (r & Hc & Hwfr & E1 & E2 & E3 & E4 & E5).
      rewrite Hc. cbn [bind].
      change (count_distinct_combine (Some ctx) (Some r) None) with
        (@Ok (option element_set_t) (Some r)).
      cbn [bind].
      apply andb_true_iff in Hexa as [Ex1 _]. apply Z.eqb_eq in Ex1.
      rewrite app_nil_r.
      rewrite (count_of_sorted ctx r
                 (map (firstn (Z.to_nat (typlen ty))) (v :: va')) Hwfr);
        [reflexivity | lia | lia |].
      intros x. rewrite E5. apply Hina.
    + destruct (ship_built ctx ty (w :: vb') Hty Hbv ltac:(discriminate) Hsb
                  Hmemb)
        as (b & b2 & Hrunb & Hshipb & Hwfb & Hexb & Eib & Hpb & Hbb & Hinb).
      rewrite Hrunb. cbn [bind]. rewrite Hshipa. cbn [bind].
      rewrite Hshipb. cbn [bind].
      destruct (combine_first_call ctx a2 Hwfa)
        as (s1 & Hc1 & Hwfs & Es1 & Es2 & Es3 & Es4 & Es5).
      rewrite Hc1. cbn [bind].
      assert (exact_capacity s1 = true) as Hexs.
      { unfold exact_capacity in *. rewrite Es2, Es3, Es4, Es1. exact Hexa. }
      destruct (combine_exact_spec ctx s1 b2 Hwfs Hwfb ltac:(lia) Hpb
                  ltac:(lia) Hexs Hexb ltac:(lia))
        as (r & Hrun & Hwfr & Hexr & Eir & _ & _ & Hpr & Hbr & HSr & Hinr).
      rewrite Hrun. cbn [bind].
      apply andb_true_iff in Hexr as [Er1 _]. apply Z.eqb_eq in Er1.
      rewrite (count_of_sorted ctx r
                 (map (firstn (Z.to_nat (typlen ty)))
                      ((v :: va') ++ w :: vb')) Hwfr);
        [reflexivity | exact Er1 | exact Hpr |].
      intros x. rewrite Hinr, Es5, Hina, Hinb, map_app, in_app_iff.
      reflexivity.
Qed.

(** The count of an accumulator without slack is the length of its record
    sequence. *)
Lemma exact_nall (e : element_set_t) :
  wf e = true -> nall e = Z.of_nat (length (records e)).
Proof.
  intros Hwf. destruct (wf_facts e Hwf) as (_ & Hns & _).
  unfold records. rewrite slots_length. lia.
Qed.

(** X9.  On operands without slack (as deserialised and merged states
    are) the merging combine function is commutative and associative:
    whatever the order and the grouping of three well-formed, non-empty
    accumulators of one width, the merges return, and with the same count
    and the same sequence of records. *)
Theorem combine_without_slack_commutes_and_associates (ctx : Z)
    (a b c : element_set_t) :
  wf a = true -> wf b = true -> wf c = true ->
  0 < nall a -> 0 < nall b -> 0 < nall c ->
  item_size a = item_size b -> item_size b = item_size c ->
  exact_capacity a = true -> exact_capacity b = true ->
  exact_capacity c = true ->
  nbytes a + nbytes b + nbytes c <= MaxAllocSize ->
  exists ab ba bc l r : element_set_t,
    count_distinct_combine (Some ctx) (Some a) (Some b) = Ok (Some ab) /\
    count_distinct_combine (Some ctx) (Some b) (Some a) = Ok (Some ba) /\
    nall ab = nall ba /\ records ab = records ba /\
    count_distinct_combine (Some ctx) (Some b) (Some c) = Ok (Some bc) /\
    count_distinct_combine (Some ctx) (Some ab) (Some c) = Ok (Some l) /\
    count_distinct_combine (Some ctx) (Some a) (Some bc) = Ok (Some r) /\
    nall l = nall r /\ records l = records r.
Proof.
  intros Hwfa Hwfb Hwfc Hpa Hpb Hpc Eab Ebc Hexa Hexb Hexc Hmem.
  assert (0 <= nbytes a /\ 0 <= nbytes b /\ 0 <= nbytes c) as (Hna & Hnb & Hnc).
  { destruct (wf_facts a Hwfa) as (? & _ & ? & _).
    destruct (wf_facts b Hwfb) as (? & _ & ? & _).
    destruct (wf_facts c Hwfc) as (? & _ & ? & _).
    repeat split; nia. }
  destruct (combine_exact_spec ctx a b Hwfa Hwfb Hpa Hpb Eab Hexa Hexb
              ltac:(lia))
    as (ab & Hab & Hwfab & Hexab & Eiab & _ & _ & Hpab & Hbab & HSab & Hinab).
  destruct (combine_exact_spec ctx b a Hwfb Hwfa Hpb Hpa ltac:(lia) Hexb Hexa
              ltac:(lia))
    as (ba & Hba & Hwfba & _ & _ & _ & _ & _ & _ & HSba & Hinba).
  destruct (combine_exact_spec ctx b c Hwfb Hwfc Hpb Hpc Ebc Hexb Hexc
              ltac:(lia))
    as (bc & Hbc & Hwfbc & Hexbc & Eibc & _ & _ & Hpbc & Hbbc & HSbc & Hinbc).
  destruct (combine_exact_spec ctx ab c Hwfab Hwfc Hpab Hpc ltac:(lia)
              Hexab Hexc ltac:(lia))
    as (l & Hl & Hwfl & _ & _ & _ & _ & _ & _ & HSl & Hinl).
  destruct (combine_exact_spec ctx a bc Hwfa Hwfbc Hpa Hpbc ltac:(lia)
              Hexa Hexbc ltac:(lia))
    as (r & Hr & Hwfr & _ & _ & _ & _ & _ & _ & HSr & Hinr).
  assert (records ab = records ba) as E1.
  { apply StrictSorted_unique; [exact HSab | exact HSba |].
    intros x. rewrite Hinab, Hinba. tauto. }
  assert (records l = records r) as E2.
  { apply StrictSorted_unique; [exact HSl | exact HSr |].
    intros x. rewrite Hinl, Hinr, Hinab, Hinbc. tauto. }
  exists ab, ba, bc, l, r.
  split; [exact Hab|]. split; [exact Hba|].
  split; [rewrite (exact_nall ab Hwfab), (exact_nall ba Hwfba), E1;
          reflexivity|].
  split; [exact E1|]. split; [exact Hbc|]. split; [exact Hl|].
  split; [exact Hr|].
  split; [rewrite (exact_nall l Hwfl), (exact_nall r Hwfr), E2; reflexivity
         | exact E2].
Qed.

(* ================================================================== *)
(** * The comparator and the sort *)
(* ================================================================== *)

Lemma compare_items_records (sz : nat) (a b : bytes) :
  length a = sz -> length b = sz ->
  compare_items a b (Z.of_nat sz) = memcmp a b.
Proof.
  intros La Lb. unfold compare_items.
  rewrite Nat2Z.id, !firstn_all2 by lia. reflexivity.
Qed.

Lemma sorted_le_strongly (sz : nat) (l : list bytes) :
  uniform sz l -> Sorted rec_le l -> StronglySorted rec_le l.
Proof.
  intros U S. induction S as [|x l S IH Hd]; [constructor|].
  apply Forall_cons_iff in U as [Lx U].
  specialize (IH U). constructor; [exact IH|].
  destruct Hd as [|y l Hxy]; [constructor|].
  apply Forall_cons_iff in U as [Ly U].
  apply StronglySorted_inv in IH as [_ F].
  constructor; [exact Hxy|].
  rewrite Forall_forall in *. intros z Hz.
  apply (@rec_le_trans sz x y z Lx Ly (U z Hz) Hxy (F z Hz)).
Qed.

Lemma sorted_le_perm_unique (sz : nat) (l1 l2 : list bytes) :
  uniform sz l1 -> StronglySorted rec_le l1 -> StronglySorted rec_le l2 ->
  Permutation l1 l2 -> l1 = l2.
Proof.
  revert l2. induction l1 as [|x t1 IH]; intros l2 U S1 S2 P.
  - apply Permutation_nil in P. symmetry. exact P.
  - destruct l2 as [|y t2].
    { apply Permutation_sym, Permutation_nil in P. discriminate. }
    pose proof (uniform_perm P U) as U2.
    apply Forall_cons_iff in U as [Lx U].
    apply Forall_cons_iff in U2 as [Ly U2].
    apply StronglySorted_inv in S1 as [S1 F1].
    apply StronglySorted_inv in S2 as [S2 F2].
    rewrite Forall_forall in F1, F2.
    assert (x = y) as ->.
    { assert (In x (y :: t2)) as Hx
        by (apply (Permutation_in _ P); left; reflexivity).
      assert (In y (x :: t1)) as Hy
        by (apply (Permutation_in _ (Permutation_sym P)); left; reflexivity).
      destruct Hx as [Hx|Hx]; [symmetry; exact Hx|].
      destruct Hy as [Hy|Hy]; [exact Hy|].
      specialize (F1 y Hy). specialize (F2 x Hx).
      unfold rec_le in F1, F2.
      destruct (memcmp x y) eqn:E.
      - apply memcmp_eq in E; [exact E | congruence].
      - apply memcmp_lt_gt in E. congruence.
      - exfalso. apply F1. reflexivity. }
    f_equal. apply IH; try assumption.
    apply Permutation_cons_inv in P. exact P.
Qed.

(** X10.  [compare_items] decides the sort: among records of one width
    it reports equality only for identical records, so an array holding a
    permutation of the records in which no item compares greater than its
    successor is the one array [sort_records] returns, whatever sorting
    algorithm [qsort_arg] runs. *)
Theorem sorted_by_compare_items_is_unique (sz : nat) (l l' : list bytes) :
  uniform sz l -> Permutation l l' ->
  Sorted (fun x y => compare_items x y (Z.of_nat sz) <> Gt) l' ->
  l' = sort_records l.
Proof.
  intros U P S.
  pose proof (uniform_perm P U) as U'.
  assert (Sorted rec_le l') as S'.
  { clear P. induction S as [|x t S IH Hd]; [constructor|].
    apply Forall_cons_iff in U' as [Lx Ut].
    constructor; [apply IH; exact Ut|].
    destruct Hd as [|y t Hxy]; constructor.
    apply Forall_cons_iff in Ut as [Ly _].
    unfold rec_le. rewrite <- (compare_items_records sz x y Lx Ly). exact Hxy. }
  apply (@sorted_le_perm_unique sz); try assumption.
  - apply (sorted_le_strongly sz l' U' S').
  - apply (sort_records_sorted U).
  - apply Permutation_trans with l.
    + apply Permutation_sym. exact P.
    + apply sort_records_perm.
Qed.

(* ================================================================== *)
(** * build_array and the array final functions *)
(* ================================================================== *)

(** The Datum [build_array] makes of a record: the record in the low
    bytes of a zeroed Datum. *)
Definition datum_of_record (r : bytes) : bytes :=
  r ++ repeat x00 (Z.to_nat SIZEOF_DATUM - length r).

Lemma length_datum_of_record (r : bytes) :
  (length r <= 8)%nat -> length (datum_of_record r) = 8%nat.
Proof.
  intros H. unfold datum_of_record, SIZEOF_DATUM.
  rewrite length_app, repeat_length. lia.
Qed.

Lemma palloc0_ok (n : Z) :
  n <= MaxAllocSize -> palloc0 n = Ok (repeat x00 (Z.to_nat n)).
Proof.
  intros H. unfold palloc0.
  replace (n <=? MaxAllocSize) with true by (symmetry; apply Z.leb_le; lia).
  reflexivity.
Qed.

Lemma skipn_repeat_slot (sz m : nat) :
  (sz <= 8)%nat ->
  skipn sz (repeat x00 (8 * S m))
  = repeat x00 (8 - sz) ++ repeat x00 (8 * m).
Proof.
  intros H.
  replace (8 * S m)%nat with (sz + ((8 - sz) + 8 * m))%nat by lia.
  rewrite !repeat_app, skipn_app, repeat_length, Nat.sub_diag.
  rewrite skipn_all2 by (rewrite repeat_length; lia).
  reflexivity.
Qed.

(** The loop of [build_array] copies record [i] into Datum [i]. *)
Lemma build_array_loop (src : bytes) (sz : nat) (R : list bytes)
    (rest : bytes) (isz : Z) :
  (0 < sz <= 8)%nat -> isz = Z.of_nat sz -> uniform sz R ->
  src = concat R ++ rest ->
  Z.of_nat (length R) * isz < 4294967296 ->
  for_each (range 0 (Z.of_nat (length R)))
    (fun i d => memcpy d (i * SIZEOF_DATUM) src (wrap32 (isz * i)) isz)
    (repeat x00 (8 * length R))
  = Ok (concat (map datum_of_record R)).
Proof.
  intros Hsz -> U Hsrc Hfit.
  destruct (@for_each_range_inv _
              (fun i d =>
                 exists done todo,
                   R = done ++ todo /\ i = Z.of_nat (length done) /\
                   d = concat (map datum_of_record done)
                       ++ repeat x00 (8 * length todo))
              (fun i d => memcpy d (i * SIZEOF_DATUM) src
                                 (wrap32 (Z.of_nat sz * i)) (Z.of_nat sz))
              0 (Z.of_nat (length R)) (repeat x00 (8 * length R)))
    as (d & Hrun & done & todo & HR & Hlen & Hd).
  - lia.
  - exists [], R. repeat split.
  - intros i d Hi (done & todo & HR & Hlen & Hd).
    destruct todo as [|r todo].
    { rewrite app_nil_r in HR. subst done. lia. }
    assert (uniform sz done /\ length r = sz /\ uniform sz todo)
      as (Ud & Lr & Ut).
    { rewrite HR in U. apply Forall_app in U as [Ud U].
      apply Forall_cons_iff in U as [Lr Ut]. auto. }
    assert (Z.of_nat (length done) < Z.of_nat (length R)) as Hlt by lia.
    assert (Z.of_nat (length done) * Z.of_nat sz
            <= Z.of_nat (length R) * Z.of_nat sz) as Hmono
      by (apply Z.mul_le_mono_nonneg_r; lia).
    eexists. split.
    + apply (@memcpy_into (concat (map datum_of_record done))
                          (repeat x00 (8 * length (r :: todo)))
                          (concat done) r (concat todo ++ rest)).
      * exact Hd.
      * rewrite Hsrc, HR, concat_app. cbn [concat].
        rewrite <- !app_assoc. reflexivity.
      * rewrite Hlen.
        assert (uniform 8 (map datum_of_record done)) as U8.
        { apply Forall_map. eapply Forall_impl; [|exact Ud].
          intros x Lx. cbv beta in Lx. apply length_datum_of_record. lia. }
        rewrite (size_concat_uniform U8), length_map.
        unfold SIZEOF_DATUM. lia.
      * rewrite Hlen, (size_concat_uniform Ud), wrap32_small by lia. lia.
      * unfold size. rewrite Lr. reflexivity.
      * rewrite repeat_length, Lr. simpl length. lia.
    + exists (done ++ [r]), todo.
      split; [rewrite HR, <- app_assoc; reflexivity|].
      split; [rewrite length_app; simpl length; lia|].
      rewrite map_app, concat_app. cbn [map concat].
      rewrite app_nil_r, <- !app_assoc. f_equal.
      unfold datum_of_record. rewrite <- app_assoc. f_equal.
      rewrite Lr. cbn [length]. rewrite skipn_repeat_slot by lia.
      unfold SIZEOF_DATUM. reflexivity.
  - transitivity (Ok d); [exact Hrun|]. f_equal.
    assert (todo = []) as ->.
    { apply (f_equal (@length bytes)) in HR. rewrite length_app in HR.
      destruct todo; [reflexivity | simpl in HR; lia]. }
    rewrite app_nil_r in HR. subst done. rewrite Hd. simpl.
    rewrite app_nil_r. reflexivity.
Qed.

Lemma build_array_compacted (e : element_set_t) (ty : type_info) :
  wf e = true -> 0 < nall e -> item_size e <= 8 ->
  (forall e1, compacted e e1 -> 8 * nall e1 <= MaxAllocSize) ->
  exists e1,
    compact_set e false = Ok e1 /\ compacted e e1 /\
    build_array e ty
    = Ok (e1, construct_array (map datum_of_record (records e1))
                              (nall e1) ty).
Proof.
  intros Hwf Hpos Hw Hmem'.
  assert (MaxAllocSize = 1073741823) as HM by reflexivity.
  destruct (compact_set_false_spec e Hwf Hpos) as (e1 & Hc & Hcomp & _).
  pose proof (Hmem' e1 Hcomp) as Hmem.
  pose proof Hcomp as (Hwf1 & E1 & _ & _ & E4 & Hn & _).
  destruct (wf_facts e1 Hwf1) as (Hisz & Hns & Hcap & Hmax & Hlen & HS).
  destruct (wf_decomp e1 Hwf1)
    as (sz & rest & Hsz & Ei & Hd & Hrec & Hls & Hla & Us & Up).
  assert (pending_zone e1 = []) as Hp.
  { destruct (pending_zone e1); [reflexivity | simpl in Hla; lia]. }
  rewrite Hp, app_nil_r in Hrec. rewrite Hp in Hd. cbn [concat app] in Hd.
  rewrite <- Hrec in Hd, Us, Hls.
  set (R := records e1) in *.
  exists e1. split; [exact Hc|]. split; [exact Hcomp|].
  unfold build_array. rewrite Hc. cbn [bind].
  unfold wrap64.
  rewrite Z.mod_small by (unfold SIZEOF_DATUM; lia).
  rewrite palloc0_ok by (unfold SIZEOF_DATUM; lia). cbn [bind].
  rewrite E4.
  replace (repeat x00 (Z.to_nat (nall e1 * SIZEOF_DATUM)))
    with (repeat x00 (8 * length R))
    by (f_equal; unfold SIZEOF_DATUM; lia).
  replace (nall e1) with (Z.of_nat (length R)) by lia.
  rewrite (build_array_loop (data e1) sz R rest (item_size e1));
    [ | lia | exact Ei | exact Us | exact Hd | lia ].
  cbn [bind]. f_equal. f_equal. f_equal.
  rewrite Nat2Z.id.
  assert (uniform 8 (map datum_of_record R)) as U8.
  { apply Forall_map. eapply Forall_impl; [|exact Us].
    intros x Lx. cbv beta in Lx. apply length_datum_of_record. lia. }
  pose proof (@slots_concat [] (map datum_of_record R) [] 8 U8) as H.
  rewrite app_nil_r, length_map in H. cbn [app length] in H.
  exact H.
Qed.

Lemma build_array_spec (e : element_set_t) (ty : type_info) :
  wf e = true -> 0 < nall e -> item_size e <= 8 ->
  8 * nall e <= MaxAllocSize ->
  exists e1,
    compact_set e false = Ok e1 /\ compacted e e1 /\
    build_array e ty
    = Ok (e1, construct_array (map datum_of_record (records e1))
                              (nall e1) ty).
Proof.
  intros Hwf Hpos Hw Hmem.
  apply build_array_compacted; try assumption.
  intros e1 (_ & _ & _ & _ & _ & Hn & _). lia.
Qed.

(** X11.  The array final functions agree with the counting one.  For a
    well-formed, non-empty accumulator of a by-value width (at most 8
    bytes, and few enough records for the Datum array to be allocated),
    [array_agg_distinct_type_by_element] and
    [array_agg_distinct_type_by_array] hand [construct_array] the records
    the compaction leaves, each in the low bytes of a zeroed Datum, in
    strictly increasing [memcmp] order and as many as [count_distinct]
    counts; they are the records stored before, each once.  For a NULL
    state both return the empty array. *)
Theorem array_agg_distinct_returns_sorted_distinct (ctx : Z)
    (e : element_set_t) (ty : type_info) :
  wf e = true -> 0 < nall e -> item_size e <= 8 ->
  8 * nall e <= MaxAllocSize ->
  exists (e1 : element_set_t) (n : Z),
    count_distinct (Some ctx) (Some e) = Ok (Some e1, Some n) /\
    array_agg_distinct_type_by_element (Some ctx) ty (Some e)
    = Ok (Some e1,
          construct_array (map datum_of_record (records e1)) n ty) /\
    array_agg_distinct_type_by_array (Some ctx) ty (Some e)
    = Ok (Some e1,
          construct_array (map datum_of_record (records e1)) n ty) /\
    n = Z.of_nat (length (records e1)) /\
    adjacent_increasing (records e1) /\
    (forall x, In x (records e1) <-> In x (records e)) /\
    array_agg_distinct_type_by_element (Some ctx) ty None
    = Ok (None, construct_empty_array ty) /\
    array_agg_distinct_type_by_array (Some ctx) ty None
    = Ok (None, construct_empty_array ty).
Proof.
  intros Hwf Hpos Hw Hmem.
  destruct (build_array_spec e ty Hwf Hpos Hw Hmem)
    as (e1 & Hc & Hcomp & Hb).
  destruct (compacted_sorted e e1 Hcomp) as (HS & _).
  pose proof Hcomp as (Hwf1 & _ & _ & _ & _ & _ & Hin).
  exists e1, (nall e1).
  split.
  { unfold count_distinct. cbn [CHECK_AGG_CONTEXT bind]. rewrite Hc.
    reflexivity. }
  split.
  { unfold array_agg_distinct_type_by_element.
    cbn [CHECK_AGG_CONTEXT bind]. rewrite Hb. reflexivity. }
  split.
  { unfold array_agg_distinct_type_by_array.
    cbn [CHECK_AGG_CONTEXT bind]. rewrite Hb. reflexivity. }
  split; [apply exact_nall; exact Hwf1|].
  split; [apply StrictSorted_adjacent; exact HS|].
  split; [exact Hin|]. split; reflexivity.
Qed.

(** The distinct records of a list of values, in [memcmp] order. *)
Definition sorted_distinct (sz : nat) (values : list bytes) : list bytes :=
  sort_records (nodup bytes_eq_dec (map (firstn sz) values)).

Lemma sorted_le_nodup_strict (sz : nat) (l : list bytes) :
  uniform sz l -> StronglySorted rec_le l -> NoDup l -> StrictSorted l.
Proof.
  intros U S N. induction S as [|x l S IH F]; [constructor|].
  apply Forall_cons_iff in U as [Lx U].
  apply NoDup_cons_iff in N as [Nx N].
  constructor; [apply IH; assumption|].
  rewrite Forall_forall in *. intros y Hy.
  specialize (F y Hy). unfold rec_le in F. unfold rec_lt.
  destruct (memcmp x y) eqn:E; [|reflexivity|exfalso; apply F; reflexivity].
  apply memcmp_eq in E; [|rewrite Lx; symmetry; apply U; exact Hy].
  subst y. contradiction.
Qed.

Lemma sorted_distinct_spec (sz : nat) (values : list bytes) :
  Forall (fun v => (sz <= length v)%nat) values ->
  StrictSorted (sorted_distinct sz values) /\
  (forall x, In x (sorted_distinct sz values)
             <-> In x (map (firstn sz) values)).
Proof.
  intros Hv. unfold sorted_distinct.
  set (l := nodup bytes_eq_dec (map (firstn sz) values)).
  assert (uniform sz l) as U.
  { unfold uniform. rewrite Forall_forall. intros x Hx.
    unfold l in Hx. rewrite nodup_In, in_map_iff in Hx.
    destruct Hx as (v & <- & Hin).
    rewrite Forall_forall in Hv. specialize (Hv v Hin).
    rewrite length_firstn. lia. }
  split.
  - apply (sorted_le_nodup_strict sz).
    + apply (sort_records_uniform U).
    + apply (sort_records_sorted U).
    + apply (Permutation_NoDup (sort_records_perm l)). apply NoDup_nodup.
  - intros x. split; intros H.
    + apply (Permutation_in _ (Permutation_sym (sort_records_perm l))) in H.
      unfold l in H. rewrite nodup_In in H. exact H.
    + apply (Permutation_in _ (sort_records_perm l)).
      unfold l. rewrite nodup_In. exact H.
Qed.

(** X12.  What [array_agg_distinct] computes.  For a non-empty multiset
    of values of a by-value type, run through the transition function in
    any order, the array final function hands [construct_array] exactly
    the distinct records of the values, sorted by [memcmp] over the type's
    width and each in the low bytes of a zeroed Datum; their number is the
    count [count_distinct] returns.  The values may be repeated any number
    of times; five times the bytes of the distinct records, and the Datum
    array of 8 bytes for each of them, are within the allocation limit. *)
Theorem array_agg_distinct_of_values (ctx : Z) (ty : type_info)
    (values : list bytes) :
  0 < typlen ty <= 8 -> typbyval ty = true -> values <> [] ->
  Forall (fun v => size v = SIZEOF_DATUM) values ->
  5 * (distinct_count (Z.to_nat (typlen ty)) values * typlen ty)
  <= MaxAllocSize ->
  8 * distinct_count (Z.to_nat (typlen ty)) values <= MaxAllocSize ->
  forall order : list bytes, Permutation values order ->
  exists e e1 : element_set_t,
    append_all (Some ctx) ty None order = Ok (Some e) /\
    array_agg_distinct_type_by_element (Some ctx) ty (Some e)
    = Ok (Some e1,
          construct_array
            (map datum_of_record
                 (sorted_distinct (Z.to_nat (typlen ty)) values))
            (distinct_count (Z.to_nat (typlen ty)) values) ty) /\
    count_distinct (Some ctx) (Some e)
    = Ok (Some e1, Some (distinct_count (Z.to_nat (typlen ty)) values)).
Proof.
  intros Hty Hbv Hne Hsize Hmem Hmem8 order Hperm.
  assert (order <> []) as Hone.
  { intros ->. apply Permutation_sym, Permutation_nil in Hperm. congruence. }
  pose proof (distinct_count_perm (Z.to_nat (typlen ty)) _ _ Hperm) as ED.
  destruct (append_all_builds ctx ty order Hty Hbv Hone
              (Permutation_Forall Hperm Hsize) ltac:(rewrite <- ED; exact Hmem))
    as (e & Hrun & Hwf & Hisz & Hn & Hin & Hb).
  destruct (build_array_compacted e ty Hwf ltac:(lia) ltac:(lia))
    as (e1 & Hc & Hcomp & Hbuild).
  { intros e1 Hcomp1.
    rewrite (compacted_nall_distinct _ order e e1 Hin Hcomp1), <- ED.
    exact Hmem8. }
  destruct (compacted_sorted e e1 Hcomp) as (HS & _).
  pose proof Hcomp as (Hwf1 & _ & _ & _ & _ & _ & Hin1).
  destruct (sorted_distinct_spec (Z.to_nat (typlen ty)) values)
    as (HSd & Hind).
  { eapply Forall_impl; [|exact Hsize].
    intros v E. cbv beta in E. unfold size, SIZEOF_DATUM in E. lia. }
  assert (forall x, In x (records e1)
                    <-> In x (map (firstn (Z.to_nat (typlen ty))) values))
    as Hmem1.
  { intros x. rewrite Hin1, Hin. split; apply Permutation_in.
    - apply Permutation_map, Permutation_sym. exact Hperm.
    - apply Permutation_map. exact Hperm. }
  assert (records e1 = sorted_distinct (Z.to_nat (typlen ty)) values) as Erec.
  { apply StrictSorted_unique; [exact HS | exact HSd |].
    intros x. rewrite Hmem1, Hind. reflexivity. }
  assert (nall e1 = distinct_count (Z.to_nat (typlen ty)) values) as En.
  { rewrite (exact_nall e1 Hwf1).
    apply NoDup_distinct_count; [apply StrictSorted_NoDup; exact HS|].
    exact Hmem1. }
  exists e, e1. split; [exact Hrun|]. split.
  - unfold array_agg_distinct_type_by_element.
    cbn [CHECK_AGG_CONTEXT bind]. rewrite Hbuild. cbn [bind].
    rewrite Erec, En. reflexivity.
  - unfold count_distinct. cbn [CHECK_AGG_CONTEXT bind]. rewrite Hc.
    cbn [bind]. rewrite En. reflexivity.
Qed.

(* ================================================================== *)
(** * The transition function for arrays *)
(* ================================================================== *)

(** Whatever the state, [compact_set] and [add_element] leave the width,
    [typalign] and [aggctx] alone. *)
Lemma compact_merge_keeps_layout (e e' : element_set_t) :
  compact_merge e = Ok e' ->
  item_size e' = item_size e /\ typalign e' = typalign e /\
  aggctx e' = aggctx e.
Proof.
  unfold compact_merge. intros H.
  destruct (nsorted e <? nall e).
  - inv_bind H. inv_bind H. destruct x0 as [new ptr]. inv_bind H.
    destruct (item_size e =? 0); [discriminate|].
    injection H as <-. simpl_eset. repeat split.
  - injection H as <-. repeat split.
Qed.

Lemma compact_set_keeps_layout (e : element_set_t) (need_space : bool)
    (e' : element_set_t) :
  compact_set e need_space = Ok e' ->
  item_size e' = item_size e /\ typalign e' = typalign e /\
  aggctx e' = aggctx e.
Proof.
  rewrite compact_set_stages. intros H.
  inv_bind H. inv_bind H. inv_bind H. inv_bind H. inv_bind H.
  assert (item_size x2 = item_size e /\ typalign x2 = typalign e /\
          aggctx x2 = aggctx e) as (E1 & E2 & E3).
  { clear H. unfold compact_core in Hx2.
    destruct (nsorted e <? nall e); [|injection Hx2 as <-; repeat split].
    inv_bind Hx2. inv_bind Hx2. destruct x5 as [[d last] cnt].
    apply compact_merge_keeps_layout in Hx2.
    revert Hx2. simpl_eset.
    destruct (nsorted e =? 0); simpl_eset; intros Hk; exact Hk. }
  unfold compact_grow in H.
  destruct (need_space && free_fract_below_ARRAY_FREE_FRACT x2).
  - inv_bind H. inv_bind H. injection H as <-. simpl_eset.
    repeat split; assumption.
  - injection H as <-. repeat split; assumption.
Qed.

Lemma add_element_keeps_layout (e : element_set_t) (value : bytes)
    (e' : element_set_t) :
  add_element e value = Ok e' ->
  item_size e' = item_size e /\ typalign e' = typalign e /\
  aggctx e' = aggctx e.
Proof.
  unfold add_element. intros H.
  inv_bind H. inv_bind H. inv_bind H. injection H as <-. simpl_eset.
  destruct (wrap32 (item_size e * wrap32 (nall e + 1)) >? nbytes e).
  - apply compact_set_keeps_layout in Hx. exact Hx.
  - injection Hx as <-. repeat split.
Qed.

(** What [att_align_nominal] aligns to. *)
Definition alignment (attalign : byte) : Z :=
  if Byte.eqb attalign "i"%byte then 4
  else if Byte.eqb attalign "c"%byte then 1
  else if Byte.eqb attalign "d"%byte then 8
  else 2.

Lemma TYPEALIGN_multiple (k : Z) (x : Z) :
  0 <= k <= 3 -> 0 <= x -> x + 8 <= 18446744073709551616 ->
  x mod 2 ^ k = 0 -> TYPEALIGN (2 ^ k) x = x.
Proof.
  intros Hk Hx Hb Hm. unfold TYPEALIGN, wrap64.
  assert (0 < 2 ^ k <= 8) as Ha.
  { split; [apply Z.pow_pos_nonneg; lia|].
    change 8 with (2 ^ 3). apply Z.pow_le_mono_r; lia. }
  rewrite (Z.mod_small (x + (2 ^ k - 1))) by lia.
  change 18446744073709551616 with (2 ^ 64).
  rewrite <- (Z.land_ones (Z.lnot (2 ^ k - 1)) 64) by lia.
  rewrite (Z.land_comm (Z.lnot _)), Z.land_assoc.
  rewrite (Z.land_ones (x + (2 ^ k - 1)) 64) by lia.
  rewrite (Z.mod_small (x + (2 ^ k - 1))) by (change (2 ^ 64) with 18446744073709551616; lia).
  rewrite <- Z.ldiff_land.
  replace (2 ^ k - 1) with (Z.ones k) by (rewrite Z.ones_equiv; lia).
  rewrite Z.ldiff_ones_r by lia.
  rewrite Z.shiftr_div_pow2, Z.shiftl_mul_pow2 by lia.
  rewrite Z.ones_equiv.
  apply Z.mod_divide in Hm; [|lia]. destruct Hm as (q & ->).
  replace (q * 2 ^ k + Z.pred (2 ^ k)) with ((2 ^ k - 1) + q * 2 ^ k) by lia.
  rewrite Z.div_add by lia. rewrite Z.div_small by lia. lia.
Qed.

Lemma att_align_nominal_aligned (x : Z) (ta : byte) :
  In ta ["c"; "s"; "i"; "d"]%byte ->
  0 <= x -> x + 8 <= 18446744073709551616 -> x mod alignment ta = 0 ->
  att_align_nominal x ta = Ok x.
Proof.
  intros Hta Hx Hb Hm. unfold att_align_nominal.
  destruct Hta as [<-|[<-|[<-|[<-|[]]]]].
  - reflexivity.
  - change (alignment "s") with (2 ^ 1) in Hm.
    change (Assert true ;;; Ok (TYPEALIGN (2 ^ 1) x) = Ok x).
    rewrite Assert_ok by reflexivity. cbn [bind]. f_equal.
    apply (TYPEALIGN_multiple 1); [lia | lia | lia | exact Hm].
  - change (alignment "i") with (2 ^ 2) in Hm.
    change (Ok (TYPEALIGN (2 ^ 2) x) = Ok x). f_equal.
    apply (TYPEALIGN_multiple 2); [lia | lia | lia | exact Hm].
  - change (alignment "d") with (2 ^ 3) in Hm.
    change (Ok (TYPEALIGN (2 ^ 3) x) = Ok x). f_equal.
    apply (TYPEALIGN_multiple 3); [lia | lia | lia | exact Hm].
Qed.

(** Whether element [i] of the array is present, as the loop tests it in
    the null bitmap. *)
Definition is_present (input : ArrayType) (i : Z) : bool :=
  match arr_nullbitmap input with
  | Some null_bitmap =>
      negb (Z.land
              (decode_le
                 (firstn 1 (skipn (Z.to_nat (Z.quot i 8)) null_bitmap)))
              (Z.shiftl 1 (Z.rem i 8)) =? 0)
  | None => true
  end.

Definition present_in (input : ArrayType) (idx : list Z) : nat :=
  length (filter (is_present input) idx).

Definition present_count (input : ArrayType) : nat :=
  present_in input (range 0 (arr_nitems input)).

(** The Datums of the elements [k], ..., [k + m - 1] the array stores (it
    stores the present ones only, one after the other). *)
Definition stored_datums (input : ArrayType) (sz : Z) (k m : nat)
  : list bytes :=
  map (fun j => widen (slot (arr_data input) 0 (Z.to_nat sz) j)) (seq k m).

Definition array_elements (input : ArrayType) (sz : Z) : list bytes :=
  stored_datums input sz 0 (present_count input).

(** An array the loop can walk: the bitmap, when there is one, has a bit
    for every element, the data area holds the present elements, and it
    starts at a maximally aligned address. *)
Definition array_ok (input : ArrayType) (sz : Z) : Prop :=
  (forall bm, arr_nullbitmap input = Some bm ->
              arr_nitems input <= 8 * size bm) /\
  Z.of_nat (present_count input) * sz <= size (arr_data input) /\
  arr_addr input mod 8 = 0 /\ 0 <= arr_addr input /\
  arr_addr input + size (arr_data input) + 8 <= 18446744073709551616.

(** A width and an alignment [fetch_att] and [att_align_nominal] handle,
    the width being a multiple of the alignment. *)
Definition layout_ok (sz : Z) (ta : byte) : Prop :=
  In sz [1; 2; 4; 8] /\ In ta ["c"; "s"; "i"; "d"]%byte /\
  sz mod alignment ta = 0.

Lemma In_range (lo hi i : Z) : In i (range lo hi) -> lo <= i < hi.
Proof.
  unfold range. rewrite in_map_iff. intros (k & <- & Hk).
  apply in_seq in Hk. lia.
Qed.

Lemma widen_datum (bs : bytes) : length bs = 8%nat -> widen bs = bs.
Proof.
  intros H. unfold widen, SIZEOF_DATUM. rewrite H. simpl.
  apply app_nil_r.
Qed.

Lemma fetch_att_slot (p : bytes) (sz : Z) (k : nat) :
  In sz [1; 2; 4; 8] -> Z.of_nat (S k) * sz <= size p ->
  fetch_att p (Z.of_nat k * sz) sz
  = Ok (widen (slot p 0 (Z.to_nat sz) k)).
Proof.
  intros Hsz Hfit.
  assert (0 < sz <= 8) as Hs by (simpl in Hsz; lia).
  assert (load p (Z.of_nat k * sz) sz = Ok (slot p 0 (Z.to_nat sz) k)) as Hl.
  { unfold load, slot.
    replace ((0 <=? Z.of_nat k * sz) && (0 <=? sz)
             && (Z.of_nat k * sz + sz <=? size p)) with true
      by (symmetry; rewrite !andb_true_iff, !Z.leb_le; nia).
    do 3 f_equal. rewrite Z2Nat.inj_mul, Nat2Z.id by lia. reflexivity. }
  assert (length (slot p 0 (Z.to_nat sz) k) = Z.to_nat sz) as Ll.
  { apply load_length in Hl. unfold size in Hl. lia. }
  unfold fetch_att, SIZEOF_DATUM.
  destruct Hsz as [<-|[<-|[<-|[<-|[]]]]]; cbn [Z.eqb Pos.eqb].
  - rewrite Assert_ok by reflexivity. cbn [bind]. rewrite Hl. reflexivity.
  - rewrite Hl. reflexivity.
  - rewrite Hl. reflexivity.
  - rewrite Hl. f_equal. symmetry. apply widen_datum. exact Ll.
Qed.

Section ElementsLoop.

Variables (ctx : Z) (ty : type_info) (arg0 : option element_set_t).
Variables (input : ArrayType) (sz : Z) (ta : byte).
Hypothesis Hlayout : layout_ok sz ta.
Hypothesis Haddr : arr_addr input mod 8 = 0.
Hypothesis Haddr0 : 0 <= arr_addr input.
Hypothesis Hend :
  arr_addr input + size (arr_data input) + 8 <= 18446744073709551616.

Let covered (i : Z) : Prop :=
  0 <= i /\ forall bm, arr_nullbitmap input = Some bm -> i < 8 * size bm.

Lemma bitmap_test (i : Z) :
  covered i ->
  match arr_nullbitmap input with
  | Some null_bitmap =>
      b <- load null_bitmap (Z.quot i 8) 1 ;;
      Ok (Z.land (decode_le b) (Z.shiftl 1 (Z.rem i 8)) =? 0)
  | None => Ok false
  end = Ok (negb (is_present input i)).
Proof.
  intros (Hi & Hbm). unfold is_present.
  destruct (arr_nullbitmap input) as [bm|]; [|reflexivity].
  specialize (Hbm bm eq_refl).
  assert (0 <= Z.quot i 8 < size bm) as Hq.
  { rewrite Z.quot_div_nonneg by lia.
    split; [apply Z.div_pos; lia | apply Z.div_lt_upper_bound; lia]. }
  unfold load.
  replace ((0 <=? Z.quot i 8) && (0 <=? 1) && (Z.quot i 8 + 1 <=? size bm))
    with true by (symmetry; rewrite !andb_true_iff, !Z.leb_le; lia).
  cbn [bind]. rewrite negb_involutive. reflexivity.
Qed.

Lemma elements_body_absent (i : Z) (st : option element_set_t * Z) :
  covered i -> is_present input i = false ->
  elements_body ctx ty arg0 input i st = Ok st.
Proof.
  intros Hc Hp. unfold elements_body. destruct st as [eset off].
  rewrite (bitmap_test i Hc), Hp. reflexivity.
Qed.

Lemma aligned_offset (k : nat) :
  Z.of_nat k * sz <= size (arr_data input) ->
  att_align_nominal (wrap64 (arr_addr input + Z.of_nat k * sz)) ta
  = Ok (arr_addr input + Z.of_nat k * sz).
Proof.
  intros Hfit. destruct Hlayout as (Hsz & Hta & Hal).
  assert (0 < sz <= 8) as Hs by (simpl in Hsz; lia).
  assert (0 <= Z.of_nat k * sz) by nia.
  unfold wrap64. rewrite Z.mod_small by lia.
  apply att_align_nominal_aligned; [exact Hta | lia | lia |].
  apply Z.mod_divide in Haddr; [|lia]. destruct Haddr as (q1 & E1).
  assert (0 < alignment ta /\ (alignment ta | 8)) as (Hpos & q & E8).
  { destruct Hta as [<-|[<-|[<-|[<-|[]]]]].
    - split; [reflexivity | exists 8; reflexivity].
    - split; [reflexivity | exists 4; reflexivity].
    - split; [reflexivity | exists 2; reflexivity].
    - split; [reflexivity | exists 1; reflexivity]. }
  apply Z.mod_divide in Hal; [|lia]. destruct Hal as (q2 & E2).
  rewrite E1, E8. rewrite E2 at 1.
  replace (q1 * (q * alignment ta) + Z.of_nat k * (q2 * alignment ta))
    with ((q1 * q + Z.of_nat k * q2) * alignment ta) by ring.
  apply Z.mod_mul. lia.
Qed.

(** One turn of the loop on a present element: the element is fetched
    and added, and the pointer moves to the next stored element. *)
Lemma elements_body_present (i : Z) (e : element_set_t) (k : nat) :
  covered i -> is_present input i = true ->
  item_size e = sz -> typalign e = ta ->
  Z.of_nat (S k) * sz <= size (arr_data input) ->
  elements_body ctx ty arg0 input i (Some e, Z.of_nat k * sz)
  = (e' <- add_element e (widen (slot (arr_data input) 0 (Z.to_nat sz) k)) ;;
     Ok (Some e', Z.of_nat (S k) * sz)).
Proof.
  intros Hc Hp Ei Et Hfit.
  pose proof Hlayout as (Hsz & _ & _).
  assert (0 < sz <= 8) as Hs by (simpl in Hsz; lia).
  unfold elements_body. rewrite (bitmap_test i Hc), Hp. cbn [negb bind].
  rewrite Ei, (fetch_att_slot _ sz k Hsz Hfit). cbn [bind].
  destruct (add_element e _) as [e'| | |] eqn:Ea; cbn [bind];
    try reflexivity.
  destruct (add_element_keeps_layout _ _ _ Ea) as (Ei' & Et' & _).
  rewrite Ei', Ei, Et', Et. unfold att_addlength_pointer.
  replace (0 <? sz) with true by (symmetry; apply Z.ltb_lt; lia).
  cbn [bind].
  replace (Z.of_nat k * sz + sz) with (Z.of_nat (S k) * sz) by lia.
  rewrite (aligned_offset (S k) Hfit). cbn [bind]. do 2 f_equal. lia.
Qed.

(** The result of the call from the loop's final state. *)
Definition loop_result (r : outcome (option element_set_t * Z))
  : outcome (option element_set_t) :=
  '(eset, _) <- r ;; Ok eset.

Lemma stored_datums_S (k m : nat) :
  stored_datums input sz k (S m)
  = widen (slot (arr_data input) 0 (Z.to_nat sz) k)
    :: stored_datums input sz (S k) m.
Proof. reflexivity. Qed.

(** Once the local state is set, the rest of the loop is the plain
    transition function run over the stored elements still to come. *)
Lemma elements_loop_started (idx : list Z) :
  Forall covered idx ->
  forall (e : element_set_t) (k : nat),
    item_size e = sz -> typalign e = ta ->
    Z.of_nat (k + present_in input idx) * sz <= size (arr_data input) ->
    loop_result (for_each idx (elements_body ctx ty arg0 input)
                          (Some e, Z.of_nat k * sz))
    = append_all (Some ctx) ty (Some e)
        (stored_datums input sz k (present_in input idx)).
Proof.
  pose proof Hlayout as (Hsz & _ & _).
  assert (0 < sz <= 8) as Hs by (simpl in Hsz; lia).
  induction 1 as [|i idx Hc Hcs IH]; intros e k Ei Et Hfit.
  - reflexivity.
  - unfold present_in in *. cbn [filter for_each] in Hfit |- *.
    destruct (is_present input i) eqn:Hp.
    + cbn [length] in Hfit |- *.
      set (m := length (filter (is_present input) idx)) in *.
      assert (Z.of_nat (S k) * sz <= Z.of_nat (k + S m) * sz) as Hmono
        by (apply Z.mul_le_mono_nonneg_r; lia).
      rewrite (elements_body_present i e k Hc Hp Ei Et) by lia.
      rewrite stored_datums_S. cbn [append_all].
      unfold count_distinct_append. cbn [GET_AGG_CONTEXT bind].
      destruct (add_element e _) as [e'| | |] eqn:Ea; cbn [bind];
        try reflexivity.
      destruct (add_element_keeps_layout _ _ _ Ea) as (Ei' & Et' & _).
      apply IH; [congruence | congruence |].
      replace (S k + m)%nat with (k + S m)%nat by lia. exact Hfit.
    + rewrite (elements_body_absent i _ Hc Hp). cbn [bind].
      apply IH; assumption.
Qed.

(** The state the first present element finds: the one passed in, or a
    fresh one. *)
Definition first_state : outcome element_set_t :=
  match arg0 with
  | None =>
      if (typlen ty <? 0) || negb (typbyval ty)
      then Elog "count_distinct_elements handles only arrays of fixed-length types passed by value"
      else init_set (typlen ty) (typalign_of ty) ctx
  | Some eset => Ok eset
  end.

Lemma elements_loop (idx : list Z) (e0 : element_set_t) :
  Forall covered idx ->
  first_state = Ok e0 -> item_size e0 = sz -> typalign e0 = ta ->
  Z.of_nat (present_in input idx) * sz <= size (arr_data input) ->
  loop_result (for_each idx (elements_body ctx ty arg0 input) (None, 0))
  = match present_in input idx with
    | O => Ok None
    | S _ => append_all (Some ctx) ty (Some e0)
               (stored_datums input sz 0 (present_in input idx))
    end.
Proof.
  intros Hcov Hfirst Ei Et.
  induction Hcov as [|i idx Hc Hcs IH]; intros Hfit.
  - reflexivity.
  - destruct (is_present input i) eqn:Hp.
    + assert (elements_body ctx ty arg0 input i (None, 0)
              = elements_body ctx ty arg0 input i (Some e0, Z.of_nat 0 * sz))
        as Estart.
      { unfold elements_body. rewrite (bitmap_test i Hc), Hp.
        cbn [negb bind]. fold first_state. rewrite Hfirst. reflexivity. }
      pose proof (elements_loop_started (i :: idx) (Forall_cons _ Hc Hcs)
                    e0 0 Ei Et Hfit) as Hrun.
      cbn [for_each] in Hrun |- *. rewrite Estart.
      unfold present_in in Hrun |- *. cbn [filter] in Hrun |- *.
      rewrite Hp in Hrun |- *. exact Hrun.
    + cbn [for_each]. rewrite (elements_body_absent i _ Hc Hp). cbn [bind].
      unfold present_in in Hfit, IH |- *. cbn [filter] in Hfit |- *.
      rewrite Hp in Hfit |- *. apply IH. exact Hfit.
Qed.

End ElementsLoop.

Lemma range_covered (input : ArrayType) :
  (forall bm, arr_nullbitmap input = Some bm ->
              arr_nitems input <= 8 * size bm) ->
  Forall (fun i => 0 <= i /\
                   forall bm, arr_nullbitmap input = Some bm ->
                              i < 8 * size bm)
         (range 0 (arr_nitems input)).
Proof.
  intros Hbm. rewrite Forall_forall. intros i Hi.
  apply In_range in Hi. split; [lia|].
  intros bm E. specialize (Hbm bm E). lia.
Qed.

(** X13.  An array without a present element makes the array transition
    function return NULL, whatever state it was called with: the local
    [eset], set when the first present element is met, is still NULL
    after the loop, and the state passed in is not returned.  This is so
    for the empty array and for an array of nulls alike. *)
Theorem elements_append_without_elements_returns_null (ctx : Z)
    (ty : type_info) (arg0 : option element_set_t) (input : ArrayType) :
  (forall bm, arr_nullbitmap input = Some bm ->
              arr_nitems input <= 8 * size bm) ->
  present_count input = 0%nat ->
  count_distinct_elements_append (Some ctx) ty arg0 (Some input) = Ok None.
Proof.
  intros Hbm Hnone. unfold count_distinct_elements_append.
  cbn [GET_AGG_CONTEXT bind].
  pose proof (range_covered input Hbm) as Hcov.
  unfold present_count, present_in in Hnone.
  assert (for_each (range 0 (arr_nitems input))
                   (elements_body ctx ty arg0 input) (None, 0)
          = Ok (None, 0)) as ->; [|reflexivity].
  induction Hcov as [|i idx Hc Hcs IH]; [reflexivity|].
  cbn [filter] in Hnone.
  destruct (is_present input i) eqn:Hp; [discriminate|].
  cbn [for_each]. rewrite (elements_body_absent ctx ty arg0 input i _ Hc Hp).
  cbn [bind]. apply IH. exact Hnone.
Qed.

(** The width and the alignment the loop works with: those of the state
    passed in, or of the element type when a fresh state is made. *)
Definition state_width (ty : type_info) (arg0 : option element_set_t) : Z :=
  match arg0 with Some e => item_size e | None => typlen ty end.

Definition state_align (ty : type_info) (arg0 : option element_set_t)
  : byte :=
  match arg0 with Some e => typalign e | None => typalign_of ty end.

Lemma elements_append_spec (ctx : Z) (ty : type_info)
    (arg0 : option element_set_t) (input : ArrayType) :
  (arg0 = None -> typbyval ty = true) ->
  layout_ok (state_width ty arg0) (state_align ty arg0) ->
  array_ok input (state_width ty arg0) ->
  present_count input <> 0%nat ->
  count_distinct_elements_append (Some ctx) ty arg0 (Some input)
  = append_all (Some ctx) ty arg0
      (array_elements input (state_width ty arg0)).
Proof.
  intros Hbv Hlay (Hbm & Hfit & Haddr & Haddr0 & Hend) Hsome.
  pose proof Hlay as (Hsz & _ & _).
  assert (0 < state_width ty arg0 <= 8) as Hs by (simpl in Hsz; lia).
  assert (exists e0,
            first_state ctx ty arg0 = Ok e0 /\
            item_size e0 = state_width ty arg0 /\
            typalign e0 = state_align ty arg0 /\
            forall v vs,
              append_all (Some ctx) ty arg0 (v :: vs)
              = append_all (Some ctx) ty (Some e0) (v :: vs))
    as (e0 & Hfirst & Ei & Et & Hsame).
  { unfold first_state. destruct arg0 as [e|].
    - exists e. repeat split.
    - cbn [state_width state_align] in *. rewrite (Hbv eq_refl).
      replace (typlen ty <? 0) with false by (symmetry; apply Z.ltb_ge; lia).
      cbn [negb orb]. unfold init_set.
      rewrite palloc_ok by (unfold ARRAY_INIT_SIZE, MaxAllocSize; lia).
      cbn [bind]. eexists. split; [reflexivity|].
      split; [cbn [item_size]; apply wrap32_small; lia|].
      split; [reflexivity|].
      intros v vs. cbn [append_all]. unfold count_distinct_append.
      cbn [GET_AGG_CONTEXT bind]. rewrite (Hbv eq_refl).
      replace (typlen ty <? 0) with false by (symmetry; apply Z.ltb_ge; lia).
      cbn [negb orb]. unfold init_set.
      rewrite palloc_ok by (unfold ARRAY_INIT_SIZE, MaxAllocSize; lia).
      cbn [bind]. reflexivity. }
  unfold count_distinct_elements_append. cbn [GET_AGG_CONTEXT].
  cbn [bind].
  pose proof (elements_loop ctx ty arg0 input (state_width ty arg0)
                (state_align ty arg0) Hlay Haddr Haddr0 Hend
                (range 0 (arr_nitems input)) e0 (range_covered input Hbm)
                Hfirst Ei Et Hfit) as Hrun.
  unfold loop_result in Hrun. rewrite Hrun.
  unfold array_elements, present_count in *.
  destruct (present_in input (range 0 (arr_nitems input))) as [|m] eqn:Em;
    [congruence|].
  rewrite stored_datums_S. symmetry. apply Hsame.
Qed.

(** X14.  On an array with at least one present element the array
    transition function is the scalar one run over the elements: it ends
    as [count_distinct_append] called in turn on the Datum of each present
    element does, be it a state or an error.  The width is one
    [fetch_att] handles by value, the alignment divides it, the bitmap
    covers the elements and the data area holds them. *)
Theorem elements_append_is_append_of_elements (ctx : Z) (ty : type_info)
    (arg0 : option element_set_t) (input : ArrayType) :
  (arg0 = None -> typbyval ty = true) ->
  layout_ok (state_width ty arg0) (state_align ty arg0) ->
  array_ok input (state_width ty arg0) ->
  present_count input <> 0%nat ->
  count_distinct_elements_append (Some ctx) ty arg0 (Some input)
  = append_all (Some ctx) ty arg0
      (array_elements input (state_width ty arg0)).
Proof. exact (elements_append_spec ctx ty arg0 input). Qed.

(** The array transition function called on the arrays of a group of
    rows. *)
Fixpoint elements_all (context : option Z) (ty : type_info)
    (state : option element_set_t) (arrays : list ArrayType)
  : outcome (option element_set_t) :=
  match arrays with
  | [] => Ok state
  | a :: rest =>
      state' <- count_distinct_elements_append context ty state (Some a) ;;
      elements_all context ty state' rest
  end.

Lemma append_all_app (context : option Z) (ty : type_info)
    (l1 l2 : list bytes) (s : option element_set_t) :
  append_all context ty s (l1 ++ l2)
  = (s' <- append_all context ty s l1 ;; append_all context ty s' l2).
Proof.
  revert s. induction l1 as [|v l1 IH]; intros s; [reflexivity|].
  cbn [app append_all].
  destruct (count_distinct_append context ty s (Some v)); cbn [bind];
    try reflexivity.
  apply IH.
Qed.

Lemma append_all_keeps_layout (ctx : Z) (ty : type_info) (vs : list bytes) :
  forall (e : element_set_t) (s' : option element_set_t),
    append_all (Some ctx) ty (Some e) vs = Ok s' ->
    exists e', s' = Some e' /\ item_size e' = item_size e /\
               typalign e' = typalign e.
Proof.
  induction vs as [|v vs IH]; intros e s' H.
  - injection H as <-. exists e. repeat split.
  - cbn [append_all] in H. unfold count_distinct_append in H.
    cbn [GET_AGG_CONTEXT bind] in H.
    destruct (add_element e v) as [e1| | |] eqn:Ea; try discriminate.
    cbn [bind] in H.
    destruct (add_element_keeps_layout _ _ _ Ea) as (E1 & E2 & _).
    destruct (IH e1 s' H) as (e' & -> & E3 & E4).
    exists e'. split; [reflexivity|]. split; congruence.
Qed.

Lemma append_all_first_layout (ctx : Z) (ty : type_info) (v : bytes)
    (vs : list bytes) (s' : option element_set_t) :
  append_all (Some ctx) ty None (v :: vs) = Ok s' ->
  exists e', s' = Some e' /\ item_size e' = wrap32 (typlen ty) /\
             typalign e' = typalign_of ty.
Proof.
  cbn [append_all]. unfold count_distinct_append.
  cbn [GET_AGG_CONTEXT bind]. intros H.
  destruct ((typlen ty <? 0) || negb (typbyval ty)); [discriminate|].
  unfold init_set in H.
  destruct (palloc ARRAY_INIT_SIZE) as [d| | |]; try discriminate.
  cbn [bind] in H.
  destruct (add_element _ v) as [e1| | |] eqn:Ea; try discriminate.
  cbn [bind] in H.
  destruct (add_element_keeps_layout _ _ _ Ea) as (E1 & E2 & _).
  cbn [item_size typalign] in E1, E2.
  destruct (append_all_keeps_layout ctx ty vs e1 s' H) as (e' & -> & E3 & E4).
  exists e'. split; [reflexivity|]. split; congruence.
Qed.

Lemma elements_all_spec (ctx : Z) (ty : type_info)
    (arrays : list ArrayType) :
  typbyval ty = true -> layout_ok (typlen ty) (typalign_of ty) ->
  Forall (fun a => array_ok a (typlen ty) /\ present_count a <> 0%nat)
         arrays ->
  forall s : option element_set_t,
    state_width ty s = typlen ty -> state_align ty s = typalign_of ty ->
    elements_all (Some ctx) ty s arrays
    = append_all (Some ctx) ty s
        (flat_map (fun a => array_elements a (typlen ty)) arrays).
Proof.
  intros Hbv Hlay Harr.
  pose proof Hlay as (Hsz & _ & _).
  assert (0 < typlen ty <= 8) as Hs by (simpl in Hsz; lia).
  induction Harr as [|a rest (Hok & Hsome) Hrest IH]; intros s Ew Ea.
  - reflexivity.
  - cbn [elements_all flat_map]. rewrite append_all_app.
    rewrite (elements_append_spec ctx ty s a); rewrite ?Ew, ?Ea;
      [ | intros _; exact Hbv | exact Hlay | exact Hok | exact Hsome ].
    destruct (append_all (Some ctx) ty s (array_elements a (typlen ty)))
      as [s'| | |] eqn:Erun; cbn [bind]; try reflexivity.
    assert (exists e', s' = Some e' /\ item_size e' = typlen ty /\
                       typalign e' = typalign_of ty) as (e' & -> & E1 & E2).
    { unfold array_elements in Erun.
      destruct (present_count a) as [|m]; [congruence|].
      rewrite stored_datums_S in Erun.
      destruct s as [e|]; cbn [state_width state_align] in Ew, Ea.
      - destruct (append_all_keeps_layout ctx ty _ e s' Erun)
          as (e' & -> & E3 & E4).
        exists e'. split; [reflexivity|]. split; congruence.
      - destruct (append_all_first_layout ctx ty _ _ s' Erun)
          as (e' & -> & E3 & E4).
        exists e'. split; [reflexivity|].
        rewrite wrap32_small in E3 by lia. split; assumption. }
    apply IH; assumption.
Qed.

(** X15.  Over the arrays of a group of rows, none of them without a
    present element, the array transition function accumulates as the
    scalar one does over all their elements in order: both end in the
    same state, or in the same error. *)
Theorem elements_of_rows_are_appended (ctx : Z) (ty : type_info)
    (arrays : list ArrayType) :
  typbyval ty = true -> layout_ok (typlen ty) (typalign_of ty) ->
  Forall (fun a => array_ok a (typlen ty) /\ present_count a <> 0%nat)
         arrays ->
  elements_all (Some ctx) ty None arrays
  = append_all (Some ctx) ty None
      (flat_map (fun a => array_elements a (typlen ty)) arrays).
Proof.
  intros Hbv Hlay Harr.
  apply (elements_all_spec ctx ty arrays Hbv Hlay Harr None); reflexivity.
Qed.

Lemma length_widen (bs : bytes) :
  (length bs <= 8)%nat -> length (widen bs) = 8%nat.
Proof.
  intros H. unfold widen, SIZEOF_DATUM.
  rewrite length_app, repeat_length. lia.
Qed.

Lemma array_elements_datums (input : ArrayType) (sz : Z) :
  0 < sz <= 8 ->
  Z.of_nat (present_count input) * sz <= size (arr_data input) ->
  Forall (fun v => size v = SIZEOF_DATUM) (array_elements input sz).
Proof.
  intros Hs Hfit. unfold array_elements, stored_datums.
  apply Forall_map. rewrite Forall_forall. intros j Hj.
  unfold size, SIZEOF_DATUM. rewrite length_widen; [reflexivity|].
  unfold slot. rewrite length_firstn. lia.
Qed.

(** X16.  Counting the distinct elements of arrays.  For the arrays of a
    group of rows, each with at least one present element of a by-value
    type, the array transition function followed by [count_distinct]
    returns the number of distinct records among the elements of all the
    arrays.  The arrays may hold any number of elements; five times the
    bytes of their distinct records are within the allocation limit. *)
Theorem count_distinct_of_array_elements (ctx : Z) (ty : type_info)
    (arrays : list ArrayType) :
  typbyval ty = true -> layout_ok (typlen ty) (typalign_of ty) ->
  arrays <> [] ->
  Forall (fun a => array_ok a (typlen ty) /\ present_count a <> 0%nat)
         arrays ->
  5 * (distinct_count (Z.to_nat (typlen ty))
         (flat_map (fun a => array_elements a (typlen ty)) arrays)
       * typlen ty) <= MaxAllocSize ->
  exists e e1 : element_set_t,
    elements_all (Some ctx) ty None arrays = Ok (Some e) /\
    count_distinct (Some ctx) (Some e)
    = Ok (Some e1,
          Some (distinct_count (Z.to_nat (typlen ty))
                  (flat_map (fun a => array_elements a (typlen ty))
                            arrays))).
Proof.
  intros Hbv Hlay Hne Harr Hmem.
  pose proof Hlay as (Hsz & _ & _).
  assert (0 < typlen ty <= 8) as Hs by (simpl in Hsz; lia).
  set (values := flat_map (fun a => array_elements a (typlen ty)) arrays)
    in *.
  assert (values <> []) as Hvne.
  { destruct arrays as [|a rest]; [congruence|].
    apply Forall_inv in Harr. destruct Harr as (_ & Hsome).
    unfold values. cbn [flat_map]. unfold array_elements.
    destruct (present_count a); [congruence|].
    rewrite stored_datums_S. discriminate. }
  assert (Forall (fun v => size v = SIZEOF_DATUM) values) as Hsize.
  { unfold values. clear Hmem Hvne Hne values.
    induction Harr as [|a rest (Hok & _) _ IH]; [constructor|].
    cbn [flat_map]. apply Forall_app. split; [|exact IH].
    destruct Hok as (_ & Hfit & _).
    apply array_elements_datums; assumption. }
  destruct (append_all_builds ctx ty values Hs Hbv Hvne Hsize Hmem)
    as (e & Hrun & Hwf & Hisz & Hn & Hin & Hb).
  destruct (compact_set_false_spec e Hwf ltac:(lia))
    as (e1 & Hc & Hcomp & _).
  exists e, e1. split.
  - rewrite (elements_all_spec ctx ty arrays Hbv Hlay Harr None eq_refl
               eq_refl).
    exact Hrun.
  - unfold count_distinct. cbn [CHECK_AGG_CONTEXT bind]. rewrite Hc.
    cbn [bind]. f_equal. f_equal. f_equal.
    destruct (compacted_sorted e e1 Hcomp) as (HS & _).
    destruct Hcomp as (Hwf1 & _ & _ & _ & _ & Hn1 & Hin1).
    rewrite (exact_nall e1 Hwf1).
    apply NoDup_distinct_count; [apply StrictSorted_NoDup; exact HS|].
    intros x. rewrite Hin1. apply Hin.
Qed.

(* ================================================================== *)
(** * The final function called between transitions *)
(* ================================================================== *)

(** A window aggregate calls the final function on a state that the
    transition function goes on adding to. *)
Inductive event : Type :=
| Value (v : bytes)     (* the transition function on a non-NULL value *)
| Final.                (* the final function [count_distinct] *)

(** The state after the events, and the counts the final calls
    returned, in order. *)
Fixpoint run_events (context : option Z) (ty : type_info)
    (state : option element_set_t) (events : list event)
  : outcome (option element_set_t * list (option Z)) :=
  match events with
  | [] => Ok (state, [])
  | Value v :: rest =>
      state' <- count_distinct_append context ty state (Some v) ;;
      run_events context ty state' rest
  | Final :: rest =>
      '(state', n) <- count_distinct context state ;;
      '(state'', ns) <- run_events context ty state' rest ;;
      Ok (state'', n :: ns)
  end.

Definition values_of (events : list event) : list bytes :=
  flat_map (fun ev => match ev with Value v => [v] | Final => [] end) events.

(** The counts expected of the final calls after the values [seen]: the
    number of distinct records so far, NULL before the first value. *)
Fixpoint expected_counts (sz : nat) (seen : list bytes)
    (events : list event) : list (option Z) :=
  match events with
  | [] => []
  | Value v :: rest => expected_counts sz (seen ++ [v]) rest
  | Final :: rest =>
      match seen with
      | [] => None
      | _ => Some (distinct_count sz seen)
      end :: expected_counts sz seen rest
  end.

Lemma append_inv_compacted (ty : type_info) (seen : list bytes)
    (e e1 : element_set_t) :
  append_inv ty seen e -> compacted e e1 -> nbytes e1 = nbytes e ->
  append_inv ty seen e1.
Proof.
  intros (Hwf & Hisz & Hcap & Hn & Hin & Hb)
         (Hwf1 & E1 & _ & _ & _ & Hn1 & Hin1) En.
  unfold append_inv. rewrite En, E1.
  split; [exact Hwf1|]. split; [exact Hisz|]. split; [exact Hcap|].
  split; [lia|]. split; [|exact Hb].
  intros x. rewrite Hin1. apply Hin.
Qed.

Lemma run_events_spec (ctx : Z) (ty : type_info) (events : list event) :
  0 < typlen ty <= 8 -> typbyval ty = true ->
  forall (seen : list bytes) (state : option element_set_t),
    Forall (fun v => typlen ty <= size v) (values_of events) ->
    5 * (distinct_count (Z.to_nat (typlen ty)) (seen ++ values_of events)
         * typlen ty)
    <= MaxAllocSize ->
    match state with
    | None => seen = []
    | Some e => append_inv ty seen e /\ capacity_bound ty seen e
    end ->
    exists state',
      run_events (Some ctx) ty state events
      = Ok (state', expected_counts (Z.to_nat (typlen ty)) seen events).
Proof.
  intros Hty Hbv.
  induction events as [|ev rest IH]; intros seen state Hv Hmem Hst.
  - exists state. reflexivity.
  - destruct ev as [v|].
    + cbn [values_of flat_map app] in Hv, Hmem. fold (values_of rest) in *.
      pose proof (Forall_inv Hv) as Hv1. cbv beta in Hv1.
      pose proof (Forall_inv_tail Hv) as Hvs.
      assert (5 * (distinct_count (Z.to_nat (typlen ty)) seen * typlen ty)
              <= MaxAllocSize) as Hmem0.
      { pose proof (distinct_count_app_le (Z.to_nat (typlen ty)) seen
                      (v :: values_of rest)).
        assert (distinct_count (Z.to_nat (typlen ty)) seen * typlen ty
                <= distinct_count (Z.to_nat (typlen ty))
                     (seen ++ v :: values_of rest) * typlen ty)
          by (apply Z.mul_le_mono_nonneg_r; lia).
        lia. }
      assert (exists e', count_distinct_append (Some ctx) ty state (Some v)
                         = Ok (Some e')
                         /\ append_inv ty (seen ++ [v]) e'
                         /\ capacity_bound ty (seen ++ [v]) e')
        as (e' & Hrun & Hinv & Hcb).
      { destruct state as [e|].
        - destruct Hst as (Hinv & Hcb).
          destruct (append_step ctx ty seen e v Hty Hv1
                      (capacity_bound_room ty seen e Hmem0 Hcb) Hinv)
            as (e' & Hrun & Hinv').
          exists e'. split; [exact Hrun|]. split; [exact Hinv'|].
          exact (append_step_bound ctx ty seen e e' v Hty Hinv Hcb Hrun).
        - subst seen.
          destruct (append_first ctx ty v Hty Hbv Hv1) as (e' & Hrun & Hinv').
          exists e'. split; [exact Hrun|]. split; [exact Hinv'|].
          exact (append_first_bound ty v e' Hty Hinv'). }
      destruct (IH (seen ++ [v]) (Some e') Hvs) as (state' & Hrest);
        [rewrite <- app_assoc; exact Hmem | split; [exact Hinv | exact Hcb] |].
      exists state'. cbn [run_events expected_counts]. rewrite Hrun.
      cbn [bind]. exact Hrest.
    + cbn [values_of flat_map app] in Hv, Hmem. fold (values_of rest) in *.
      destruct state as [e|].
      * pose proof Hst as ((Hwf & Hisz & Hcap & Hn & Hin & Hb) & Hcb).
        destruct (compact_set_false_spec e Hwf ltac:(lia))
          as (e1 & Hc & Hcomp & En & _).
        destruct (IH seen (Some e1) Hv Hmem
                    (conj (append_inv_compacted ty seen e e1 (proj1 Hst)
                             Hcomp En)
                          (capacity_bound_compacted ty seen e e1 Hcb En)))
          as (state' & Hrest).
        exists state'. cbn [run_events expected_counts].
        unfold count_distinct. cbn [CHECK_AGG_CONTEXT bind]. rewrite Hc.
        cbn [bind]. rewrite Hrest. cbn [bind].
        destruct (compacted_sorted e e1 Hcomp) as (HS & _).
        destruct Hcomp as (Hwf1 & _ & _ & _ & _ & Hn1 & Hin1).
        assert (nall e1 = distinct_count (Z.to_nat (typlen ty)) seen) as ->.
        { rewrite (exact_nall e1 Hwf1).
          apply NoDup_distinct_count; [apply StrictSorted_NoDup; exact HS|].
          intros x. rewrite Hin1. apply Hin. }
        destruct seen as [|s0 seen']; [simpl in Hn; lia | reflexivity].
      * subst seen.
        destruct (IH [] None Hv Hmem eq_refl) as (state' & Hrest).
        exists state'. cbn [run_events expected_counts].
        unfold count_distinct. cbn [CHECK_AGG_CONTEXT bind].
        rewrite Hrest. reflexivity.
Qed.

(** X17.  The final function may be called at any time.  When calls of
    [count_distinct] are interleaved with the transitions, as in a window
    aggregate, every call returns the number of distinct records among
    the values added so far (NULL before the first), and the compaction
    it performs does not disturb the transitions that follow.  The
    events may be any number; five times the bytes of the distinct records
    among the values are within the allocation limit. *)
Theorem count_distinct_between_transitions (ctx : Z) (ty : type_info)
    (events : list event) :
  0 < typlen ty <= 8 -> typbyval ty = true ->
  Forall (fun v => size v = SIZEOF_DATUM) (values_of events) ->
  5 * (distinct_count (Z.to_nat (typlen ty)) (values_of events) * typlen ty)
  <= MaxAllocSize ->
  exists state',
    run_events (Some ctx) ty None events
    = Ok (state', expected_counts (Z.to_nat (typlen ty)) [] events).
Proof.
  intros Hty Hbv Hsize Hmem.
  apply (run_events_spec ctx ty events Hty Hbv [] None).
  - eapply Forall_impl; [|exact Hsize].
    intros v E. cbv beta in E. rewrite E. unfold SIZEOF_DATUM. lia.
  - exact Hmem.
  - reflexivity.
Qed.

(* ================================================================== *)
(** * Refused types, and streams taken on trust *)
(* ================================================================== *)

(** A type the accumulator cannot hold: of variable length, or passed by
    reference. *)
Definition refused_type (ty : type_info) : bool :=
  (typlen ty <? 0) || negb (typbyval ty).

(** X20.  Refused types.  With no state yet, the first non-NULL value of
    a type of negative length or passed by reference makes
    [count_distinct_append] raise its error, and the first present element
    of an array of such a type makes [count_distinct_elements_append]
    raise its own; an array without a present element is not refused. *)
Theorem refused_types_raise_at_first_value (ctx : Z) (ty : type_info)
    (value : bytes) (input : ArrayType) :
  refused_type ty = true ->
  (forall bm, arr_nullbitmap input = Some bm ->
              arr_nitems input <= 8 * size bm) ->
  count_distinct_append (Some ctx) ty None (Some value)
  = Elog "count_distinct handles only fixed-length types passed by value"
  /\ count_distinct_elements_append (Some ctx) ty None (Some input)
     = match present_count input with
       | O => Ok None
       | S _ => Elog "count_distinct_elements handles only arrays of fixed-length types passed by value"
       end.
Proof.
  intros Hbad Hbm. unfold refused_type in Hbad. split.
  - unfold count_distinct_append. cbn [GET_AGG_CONTEXT bind].
    rewrite Hbad. reflexivity.
  - unfold count_distinct_elements_append. cbn [GET_AGG_CONTEXT bind].
    pose proof (range_covered input Hbm) as Hcov.
    unfold present_count, present_in.
    induction Hcov as [|i idx Hc Hcs IH]; [reflexivity|].
    cbn [filter for_each].
    destruct (is_present input i) eqn:Hp.
    + cbn [length]. unfold elements_body at 1.
      rewrite (bitmap_test input i Hc), Hp. cbn [negb bind].
      rewrite Hbad. reflexivity.
    + rewrite (elements_body_absent ctx ty None input i _ Hc Hp).
      cbn [bind]. exact IH.
Qed.

(** X21.  Without assertion checking [count_distinct_deserial] takes the
    stream on trust.  Whatever counters the header declares (a count of 0,
    a sorted count different from the count), when the stream holds at
    least the header and the declared [nall * item_size] bytes the call
    returns an accumulator with the declared counters and those bytes as
    its array; when the stream is shorter the copy reads past its end. *)
Theorem deserial_trusts_stream_without_asserts (ctx : Z) (stream : bytes) :
  USE_ASSERT_CHECKING = false ->
  wrap32 (declared_total_count stream * declared_item_size stream)
  <= MaxAllocSize ->
  (OFFSETOF_DATA
   + wrap32 (declared_total_count stream * declared_item_size stream)
   <= size stream ->
   exists e : element_set_t,
     count_distinct_deserial (Some ctx) stream = Ok e /\
     item_size e = declared_item_size stream /\
     nsorted e = declared_sorted_count stream /\
     nall e = declared_total_count stream /\
     nbytes e
     = wrap32 (declared_total_count stream * declared_item_size stream) /\
     data e
     = firstn (Z.to_nat (wrap32 (declared_total_count stream
                                 * declared_item_size stream)))
              (skipn (Z.to_nat OFFSETOF_DATA) stream)) /\
  (size stream
   < OFFSETOF_DATA
     + wrap32 (declared_total_count stream * declared_item_size stream) ->
   count_distinct_deserial (Some ctx) stream = Fault).
Proof.
  intros Hac Hmax.
  set (n := wrap32 (declared_total_count stream * declared_item_size stream))
    in *.
  assert (0 <= n) as Hn by (unfold n, wrap32; apply Z.mod_pos_bound; lia).
  pose proof (size_nonneg stream) as H0.
  assert (forall c, Assert c = Ok tt) as HA
    by (intros c; unfold Assert; rewrite Hac; reflexivity).
  unfold count_distinct_deserial, OFFSETOF_DATA.
  cbn [CHECK_AGG_CONTEXT bind]. rewrite !HA. cbn [bind].
  destruct (Z.le_gt_cases 32 (size stream)) as [Hhead|Hshort].
  - rewrite load_prefix by lia. cbn [bind].
    change (Z.to_nat 32) with 32%nat.
    destruct (struct_of_head_declared stream) as (D1 & D2 & D3);
      [unfold size in Hhead; lia|].
    rewrite !HA. cbn [bind]. simpl_eset. rewrite D1, D3. fold n.
    rewrite palloc_ok by exact Hmax. cbn [bind].
    split.
    + intros Hfit. unfold memcpy, load.
      replace ((0 <=? 32) && (0 <=? n) && (32 + n <=? size stream)) with true
        by (symmetry; rewrite !andb_true_iff, !Z.leb_le; lia).
      cbn [bind].
      set (r := firstn (Z.to_nat n) (skipn (Z.to_nat 32) stream)).
      assert (length r = Z.to_nat n) as Lr.
      { unfold r. rewrite length_firstn, length_skipn.
        unfold size in Hfit. lia. }
      rewrite (store_in [] (map uninit (seq 0 (Z.to_nat n))) r
                 (map uninit (seq 0 (Z.to_nat n))) 0);
        [ | reflexivity | reflexivity
          | rewrite length_map, length_seq; lia ].
      cbn [bind app]. eexists. split; [reflexivity|]. simpl_eset.
      split; [reflexivity|]. split; [exact D2|]. split; [reflexivity|].
      split; [reflexivity|].
      rewrite skipn_all2 by (rewrite length_map, length_seq; lia).
      apply app_nil_r.
    + intros Hcut. unfold memcpy, load.
      replace ((0 <=? 32) && (0 <=? n) && (32 + n <=? size stream)) with false
        by (symmetry; rewrite !andb_false_iff, !Z.leb_gt; lia).
      reflexivity.
  - split; [intros Hfit; lia|]. intros _. unfold load.
    replace ((0 <=? 0) && (0 <=? 32) && (0 + 32 <=? size stream)) with false
      by (symmetry; rewrite !andb_false_iff, !Z.leb_gt; lia).
    reflexivity.
Qed.

(* ================================================================== *)
(** * The merging loop under assertion checking *)
(* ================================================================== *)

(** With assertion checking, an assertion that lets the run go on held. *)
Lemma Assert_checked (c : bool) (u : unit) :
  USE_ASSERT_CHECKING = true -> Assert c = Ok u -> c = true.
Proof.
  unfold Assert. intros ->. destruct c; [reflexivity | discriminate].
Qed.

(** The operands of the merging loop as compaction leaves them: the
    records, strictly increasing, at the start of an array that may be
    larger than they are. *)
Definition slack_operand (sz : nat) (e : element_set_t) (A : list bytes)
    (rest : bytes) : Prop :=
  item_size e = Z.of_nat sz /\ data e = concat A ++ rest /\
  size (concat A) <= nbytes e /\ uniform sz A /\ StrictSorted A.

Lemma slack_operand_of (e : element_set_t) :
  wf e = true -> nsorted e = nall e ->
  exists (sz : nat) (rest : bytes),
    (0 < sz)%nat /\ slack_operand sz e (records e) rest /\
    nall e = Z.of_nat (length (records e)).
Proof.
  intros Hwf E1.
  destruct (wf_facts e Hwf) as (Hisz & Hns & Hcap & Hmax & Hlen & HS).
  assert ((Z.to_nat (nall e) * Z.to_nat (item_size e) <= length (data e))%nat)
    as Hfit by (unfold size in Hlen; nia).
  pose proof (@slots_decomp _ _ _ Hfit) as Hdec.
  pose proof (@slots_uniform (data e) 0 _ _ Hfit) as Urec.
  fold (records e) in Hdec, Urec.
  assert (length (records e) = Z.to_nat (nall e)) as Lr
    by (unfold records; apply slots_length).
  exists (Z.to_nat (item_size e)),
    (skipn (Z.to_nat (nall e) * Z.to_nat (item_size e)) (data e)).
  split; [lia|]. split; [|lia].
  split; [lia|]. split; [exact Hdec|]. split.
  - rewrite (size_concat_uniform Urec), Lr. nia.
  - split; [exact Urec|].
    replace (records e) with (sorted_zone e); [exact HS|].
    unfold sorted_zone. apply firstn_all2. lia.
Qed.

(** The second half of a turn leaves the operand pointers as the first
    half set them. *)
Lemma combine_emit_ptrs (eset1 : element_set_t) (d : bytes) (tmp prev : Z)
    (element : bytes * Z) (p1 p2 : Z) (st' : bytes * Z * Z * Z * Z) :
  combine_emit eset1 d tmp prev element p1 p2 = Ok st' ->
  let '(_, _, q1, q2, _) := st' in q1 = p1 /\ q2 = p2.
Proof.
  destruct element as [src off]. unfold combine_emit. intros H.
  destruct (tmp =? 0).
  - inv_bind H. injection H as <-. split; reflexivity.
  - inv_bind H. destruct (negb (is_eq x)).
    + inv_bind H. inv_bind H. injection H as <-. split; reflexivity.
    + injection H as <-. split; reflexivity.
Qed.

(** The first half of a turn never moves an operand pointer back. *)
Lemma combine_pick_mono (eset1 eset2 : element_set_t) (ptr1 ptr2 : Z)
    (element : bytes * Z) (p1 p2 : Z) :
  0 <= item_size eset1 -> 0 <= item_size eset2 ->
  combine_pick eset1 eset2 ptr1 ptr2 = Ok (element, p1, p2) ->
  ptr1 <= p1 /\ ptr2 <= p2.
Proof.
  intros H1 H2. unfold combine_pick.
  destruct ((ptr1 <? nbytes eset1) && (ptr2 <? nbytes eset2)).
  - intros H. inv_bind H. destruct x; injection H as _ <- <-; lia.
  - destruct (ptr1 <? nbytes eset1).
    + intros H. injection H as _ <- <-. lia.
    + destruct (ptr2 <? nbytes eset2); [|discriminate].
      intros H. injection H as _ <- <-. lia.
Qed.

(** The choice of the first half of a turn, [A2] and [B2] being the
    records not yet consumed: the head of [A2], not above any other record
    left; or the head of [B2], likewise; or bytes from beyond the last
    record of an operand, the pointer of that operand then passing the end
    of its records. *)
Lemma combine_pick_slack (sz : nat) (eset1 eset2 : element_set_t)
    (A1 A2 B1 B2 : list bytes) (restA restB : bytes)
    (element : bytes * Z) (p1 p2 : Z) :
  (0 < sz)%nat ->
  slack_operand sz eset1 (A1 ++ A2) restA ->
  slack_operand sz eset2 (B1 ++ B2) restB ->
  A2 <> [] \/ B2 <> [] ->
  combine_pick eset1 eset2 (size (concat A1)) (size (concat B1))
  = Ok (element, p1, p2) ->
  (exists (a0 : bytes) (A2' : list bytes),
      A2 = a0 :: A2' /\ element = (data eset1, size (concat A1)) /\
      p1 = size (concat A1) + Z.of_nat sz /\ p2 = size (concat B1) /\
      (forall y, In y A2' \/ In y B2 -> rec_le a0 y))
  \/ (exists (b0 : bytes) (B2' : list bytes),
         B2 = b0 :: B2' /\ element = (data eset2, size (concat B1)) /\
         p1 = size (concat A1) /\ p2 = size (concat B1) + Z.of_nat sz /\
         (forall y, In y A2 \/ In y B2' -> rec_le b0 y))
  \/ (size (concat (A1 ++ A2)) < p1 \/ size (concat (B1 ++ B2)) < p2).
Proof.
  intros Hsz (Hi1 & Hd1 & Hn1 & UA & SA) (Hi2 & Hd2 & Hn2 & UB & SB) Hne.
  assert (size (concat (A1 ++ A2)) = size (concat A1) + size (concat A2))
    as SA' by (rewrite concat_app, size_app; reflexivity).
  assert (size (concat (B1 ++ B2)) = size (concat B1) + size (concat B2))
    as SB' by (rewrite concat_app, size_app; reflexivity).
  apply uniform_app in UA as [UA1 UA2]. apply uniform_app in UB as [UB1 UB2].
  apply StrictSorted_app_r in SA. apply StrictSorted_app_r in SB.
  unfold combine_pick. rewrite Hi1, Hi2.
  destruct A2 as [|a0 A2']; destruct B2 as [|b0 B2'].
  - destruct Hne as [Hne|Hne]; exfalso; apply Hne; reflexivity.
  - (* only the second operand has records left *)
    pose proof (size_concat_pos sz b0 B2' Hsz UB2) as Hb.
    change (size (concat [])) with 0 in SA'.
    replace (size (concat B1) <? nbytes eset2) with true
      by (symmetry; apply Z.ltb_lt; lia).
    assert (forall y, In y [] \/ In y B2' -> rec_le b0 y) as Hle.
    { intros y [[]|Hy]. apply rec_lt_le.
      apply (StrictSorted_In_lt SB). exact Hy. }
    destruct (size (concat A1) <? nbytes eset1); cbn [andb].
    + intros H. inv_bind H.
      destruct x; injection H as <- <- <-;
        [ right; right; left; lia | right; right; left; lia | ].
      right. left. exists b0, B2'. repeat split. exact Hle.
    + intros H. injection H as <- <- <-.
      right. left. exists b0, B2'. repeat split. exact Hle.
  - (* only the first operand has records left *)
    pose proof (size_concat_pos sz a0 A2' Hsz UA2) as Ha.
    change (size (concat [])) with 0 in SB'.
    replace (size (concat A1) <? nbytes eset1) with true
      by (symmetry; apply Z.ltb_lt; lia).
    assert (forall y, In y A2' \/ In y [] -> rec_le a0 y) as Hle.
    { intros y [Hy|[]]. apply rec_lt_le.
      apply (StrictSorted_In_lt SA). exact Hy. }
    destruct (size (concat B1) <? nbytes eset2); cbn [andb].
    + intros H. inv_bind H.
      destruct x; injection H as <- <- <-;
        [ | | right; right; right; lia ];
        left; exists a0, A2'; repeat split; exact Hle.
    + intros H. injection H as <- <- <-.
      left. exists a0, A2'. repeat split. exact Hle.
  - (* both have records left: the smaller head is taken *)
    pose proof (size_concat_pos sz a0 A2' Hsz UA2) as Ha.
    pose proof (size_concat_pos sz b0 B2' Hsz UB2) as Hb.
    replace (size (concat A1) <? nbytes eset1) with true
      by (symmetry; apply Z.ltb_lt; lia).
    replace (size (concat B1) <? nbytes eset2) with true
      by (symmetry; apply Z.ltb_lt; lia).
    cbn [andb].
    pose proof (Forall_inv UA2) as La0. cbv beta in La0.
    pose proof (Forall_inv UB2) as Lb0. cbv beta in Lb0.
    assert (load (data eset1) (size (concat A1)) (Z.of_nat sz) = Ok a0)
      as Hla.
    { apply (@load_in _ (concat A1) a0 (concat A2' ++ restA));
        [ rewrite Hd1, concat_app; simpl concat; rewrite <- !app_assoc;
          reflexivity | reflexivity | unfold size; lia ]. }
    assert (load (data eset2) (size (concat B1)) (Z.of_nat sz) = Ok b0)
      as Hlb.
    { apply (@load_in _ (concat B1) b0 (concat B2' ++ restB));
        [ rewrite Hd2, concat_app; simpl concat; rewrite <- !app_assoc;
          reflexivity | reflexivity | unfold size; lia ]. }
    rewrite (@memcmp_at_in _ _ _ _ _ _ _ Hla Hlb). cbn [bind].
    assert (memcmp a0 b0 <> Gt ->
            forall y, In y A2' \/ In y (b0 :: B2') -> rec_le a0 y) as Hle1.
    { intros Hle y [Hy|[<-|Hy]].
      - apply rec_lt_le. apply (StrictSorted_In_lt SA). exact Hy.
      - exact Hle.
      - apply rec_lt_le.
        apply (@rec_le_lt_trans sz a0 b0 y La0 Lb0 Hle).
        apply (StrictSorted_In_lt SB). exact Hy. }
    assert (memcmp a0 b0 = Gt ->
            forall y, In y (a0 :: A2') \/ In y B2' -> rec_le b0 y) as Hle2.
    { intros Hgt y Hy. apply memcmp_gt_lt in Hgt.
      destruct Hy as [[<-|Hy]|Hy].
      - apply rec_lt_le. exact Hgt.
      - apply rec_lt_le. eapply memcmp_lt_trans; [exact Hgt|].
        apply (StrictSorted_In_lt SA). exact Hy.
      - apply rec_lt_le. apply (StrictSorted_In_lt SB). exact Hy. }
    destruct (memcmp a0 b0) eqn:E; intros H; injection H as <- <- <-.
    + left. exists a0, A2'. repeat split. apply Hle1. discriminate.
    + left. exists a0, A2'. repeat split. apply Hle1. discriminate.
    + right. left. exists b0, B2'. repeat split. apply Hle2. reflexivity.
Qed.

(** An operand pointer is beyond the last record of its operand. *)
Definition overrun (A B : list bytes) (st : bytes * Z * Z * Z * Z) : Prop :=
  let '(_, _, ptr1, ptr2, _) := st in
  size (concat A) < ptr1 \/ size (concat B) < ptr2.

(** A turn of the merging loop on operands with slack: when it returns,
    it has consumed the next record, or an operand pointer has passed the
    last record. *)
Lemma combine_body_slack (sz : nat) (eset1 eset2 : element_set_t)
    (A B : list bytes) (restA restB : bytes) (i : Z)
    (st st' : bytes * Z * Z * Z * Z) :
  (0 < sz)%nat ->
  slack_operand sz eset1 A restA -> slack_operand sz eset2 B restB ->
  0 <= i < Z.of_nat (length A + length B) ->
  combine_inv sz A B i st ->
  combine_body eset1 eset2 i st = Ok st' ->
  combine_inv sz A B (i + 1) st' \/ overrun A B st'.
Proof.
  intros Hsz HopA HopB Hi.
  destruct st as [[[[d tmp] ptr1] ptr2] prev].
  intros (A1 & A2 & B1 & B2 & O & J & HA & HB & Ei & Hd & Htmp & Hp1 & Hp2
          & UO & SO & IO & HJ & LO & Hem) Hrun.
  rewrite combine_body_halves in Hrun.
  inv_bind Hrun. inv_bind Hrun. inv_bind Hrun.
  destruct x1 as [[element p1] p2].
  pose proof HopA as (Hi1 & Hd1 & Hn1 & UA & SA).
  pose proof HopB as (Hi2 & Hd2 & Hn2 & UB & SB).
  subst A B ptr1 ptr2 d tmp i.
  assert (A2 <> [] \/ B2 <> []) as Hne.
  { destruct A2; [|left; discriminate].
    destruct B2; [|right; discriminate].
    rewrite !length_app in Hi. simpl length in Hi. lia. }
  pose proof UA as UA'. apply uniform_app in UA' as [UA1 UA2].
  pose proof UB as UB'. apply uniform_app in UB' as [UB1 UB2].
  destruct (combine_pick_slack sz eset1 eset2 A1 A2 B1 B2 restA restB
              element p1 p2 Hsz HopA HopB Hne Hx1)
    as [(a0 & A2' & -> & -> & -> & -> & Hle)
       |[(b0 & B2' & -> & -> & -> & -> & Hle)|Hover]].
  - left.
    pose proof (Forall_inv UA2) as La0. cbv beta in La0.
    destruct (combine_step_finish sz eset1 (A1 ++ a0 :: A2') (B1 ++ B2)
                A1 (a0 :: A2') B1 B2 (A1 ++ [a0]) A2' B1 B2 O J
                (data eset1) (size (concat A1)) prev
                (size (concat A1) + Z.of_nat sz) (size (concat B1)) a0)
      as (st'' & Hrun' & Hinv'); try assumption; try reflexivity.
    + rewrite concat_app, size_app; simpl concat; rewrite app_nil_r;
        unfold size in *; lia.
    + apply Hem. left. left. reflexivity.
    + rewrite <- app_assoc. reflexivity.
    + rewrite !length_app. simpl. lia.
    + intros y. rewrite !in_app_iff. simpl. intuition congruence.
    + simpl concat. rewrite !length_app. lia.
    + apply (@load_in _ (concat A1) a0 (concat A2' ++ restA));
        [ rewrite Hd1, concat_app; simpl concat; rewrite <- !app_assoc;
          reflexivity | reflexivity | unfold size; lia ].
    + rewrite Hrun' in Hrun. injection Hrun as <-. exact Hinv'.
  - left.
    pose proof (Forall_inv UB2) as Lb0. cbv beta in Lb0.
    destruct (combine_step_finish sz eset1 (A1 ++ A2) (B1 ++ b0 :: B2')
                A1 A2 B1 (b0 :: B2') A1 A2 (B1 ++ [b0]) B2' O J
                (data eset2) (size (concat B1)) prev
                (size (concat A1)) (size (concat B1) + Z.of_nat sz) b0)
      as (st'' & Hrun' & Hinv'); try assumption; try reflexivity.
    + rewrite concat_app, size_app; simpl concat; rewrite app_nil_r;
        unfold size in *; lia.
    + apply Hem. right. left. reflexivity.
    + rewrite <- app_assoc. reflexivity.
    + rewrite !length_app. simpl. lia.
    + intros y. rewrite !in_app_iff. simpl. intuition congruence.
    + simpl concat. rewrite !length_app. lia.
    + apply (@load_in _ (concat B1) b0 (concat B2' ++ restB));
        [ rewrite Hd2, concat_app; simpl concat; rewrite <- !app_assoc;
          reflexivity | reflexivity | unfold size; lia ].
    + rewrite Hrun' in Hrun. injection Hrun as <-. exact Hinv'.
  - right. apply combine_emit_ptrs in Hrun.
    destruct st' as [[[[d' tmp'] q1] q2] prev']. destruct Hrun as [-> ->].
    exact Hover.
Qed.

(** Once an operand pointer has passed the last record it stays there. *)
Lemma combine_body_overrun (eset1 eset2 : element_set_t) (A B : list bytes)
    (i : Z) (st st' : bytes * Z * Z * Z * Z) :
  0 <= item_size eset1 -> 0 <= item_size eset2 ->
  overrun A B st -> combine_body eset1 eset2 i st = Ok st' ->
  overrun A B st'.
Proof.
  intros H1 H2. destruct st as [[[[d tmp] ptr1] ptr2] prev]. intros Hov Hrun.
  rewrite combine_body_halves in Hrun.
  inv_bind Hrun. inv_bind Hrun. inv_bind Hrun.
  destruct x1 as [[element p1] p2].
  apply combine_pick_mono in Hx1; [|exact H1|exact H2].
  apply combine_emit_ptrs in Hrun.
  destruct st' as [[[[d' tmp'] q1] q2] prev']. destruct Hrun as [-> ->].
  unfold overrun in *. lia.
Qed.

(** X22.  Assertion checking turns the defect of the merging loop into a
    stop.  With assertion checking, whenever [count_distinct_combine]
    returns for two well-formed, non-empty accumulators of one record
    width, whatever slack and whatever unsorted records they hold, the
    state returned is right: all its records are sorted, they are strictly
    increasing, and they are exactly the records of the two operands. *)
Theorem combine_checked_returns_the_union (ctx : Z) (a b r : element_set_t) :
  USE_ASSERT_CHECKING = true ->
  wf a = true -> wf b = true -> 0 < nall a -> 0 < nall b ->
  item_size a = item_size b ->
  count_distinct_combine (Some ctx) (Some a) (Some b) = Ok (Some r) ->
  item_size r = item_size a /\ nsorted r = nall r /\
  nall r = Z.of_nat (length (records r)) /\
  adjacent_increasing (records r) /\
  (forall x, In x (records r) <-> In x (records a) \/ In x (records b)).
Proof.
  intros Hac Hwfa Hwfb Hposa Hposb Hisz H.
  assert (MaxAllocSize = 1073741823) as HM by reflexivity.
  unfold count_distinct_combine in H. cbn [GET_AGG_CONTEXT bind] in H.
  inv_bind H. inv_bind H. inv_bind H. inv_bind H. inv_bind H.
  rename x0 into a1, x1 into b1, x2 into d0.
  destruct x3 as [[[[d tmp] ptr1] ptr2] prev].
  inv_bind H. inv_bind H. inv_bind H.
  apply (Assert_checked _ _ Hac) in Hx4, Hx5. apply Z.eqb_eq in Hx4, Hx5.
  destruct (compact_set_inv a false a1 Hwfa Hposa Hx0)
    as ((Hwfa1 & Eia & _ & _ & Esa & Hna1 & Ina) & _).
  destruct (compact_set_inv b false b1 Hwfb Hposb Hx1)
    as ((Hwfb1 & Eib & _ & _ & Esb & Hnb1 & Inb) & _).
  destruct (wf_facts a1 Hwfa1) as (Hia1 & _ & Hcapa & Hmaxa & _ & _).
  destruct (wf_facts b1 Hwfb1) as (Hib1 & _ & Hcapb & Hmaxb & _ & _).
  destruct (slack_operand_of a1 Hwfa1 Esa) as (sz & restA & Hsz & HopA & LA).
  destruct (slack_operand_of b1 Hwfb1 Esb) as (sz' & restB & _ & HopB & LB).
  assert (sz' = sz) as ->.
  { destruct HopA as (Ea & _). destruct HopB as (Eb & _). lia. }
  set (A := records a1) in *. set (B := records b1) in *.
  pose proof HopA as (EszA & HdA & HnA & UA & SA).
  pose proof HopB as (EszB & HdB & HnB & UB & SB).
  pose proof (size_concat_uniform UA) as SzA.
  pose proof (size_concat_uniform UB) as SzB.
  assert (nall a1 <= nall a1 * item_size a1) as Hn1 by nia.
  assert (nall b1 <= nall b1 * item_size b1) as Hn2 by nia.
  rewrite (@wrap32_small (nall a1 + nall b1)) in Hx3 by lia.
  rewrite (@wrap32_small (nbytes a1 + nbytes b1)) in Hx2 by lia.
  rewrite wrap32_small in Hx4, Hx5 by lia.
  unfold palloc in Hx2.
  destruct (nbytes a1 + nbytes b1 <=? MaxAllocSize); [|discriminate].
  injection Hx2 as <-.
  set (J0 := map uninit (seq 0 _)) in Hx3.
  assert (length J0 = Z.to_nat (nbytes a1 + nbytes b1)) as LJ0
    by (unfold J0; rewrite length_map, length_seq; reflexivity).
  assert (combine_inv sz A B (nall a1 + nall b1) (d, tmp, ptr1, ptr2, prev)
          \/ overrun A B (d, tmp, ptr1, ptr2, prev)) as [Hinv|Hov].
  { apply (for_each_range_partial _
             (fun i st => combine_inv sz A B i st \/ overrun A B st)
             (combine_body a1 b1) 0 (nall a1 + nall b1) (J0, 0, 0, 0, 0)
             (d, tmp, ptr1, ptr2, prev)); [lia | | | exact Hx3].
    - left. exists [], A, [], B, [], J0. simpl app. simpl concat.
      change (size []) with 0. simpl length.
      do 7 (split; [reflexivity|]).
      split; [constructor|]. split; [constructor|].
      split; [intros y; simpl; tauto|].
      split; [unfold size in *; lia|]. split; [lia|].
      intros y _. left. reflexivity.
    - intros i st st' Hi [Hinv|Hov] Hb.
      + apply (combine_body_slack sz a1 b1 A B restA restB i st st' Hsz
                 HopA HopB); [lia | exact Hinv | exact Hb].
      + right.
        apply (combine_body_overrun a1 b1 A B i st st'); try assumption; lia. }
  2:{ exfalso. unfold overrun in Hov. nia. }
  destruct Hinv as (A1 & A2 & B1 & B2 & O & J & HA & HB & Ei & Hd & Htmp
                    & Hp1 & Hp2 & UO & SO & IO & HJ & LO & Hem).
  destruct (app_length_eq_nil A1 A2 B1 B2) as [-> ->];
    [rewrite <- HA, <- HB; lia|].
  rewrite app_nil_r in HA, HB. subst A1 B1.
  pose proof (size_concat_uniform UO) as SzO.
  assert (Z.of_nat (length O) * Z.of_nat sz
          <= Z.of_nat (length A + length B) * Z.of_nat sz) as HOb
    by (apply Z.mul_le_mono_nonneg_r; lia).
  revert H. simpl_eset.
  destruct (Z.eqb_spec (item_size a1) 0) as [Ez|Enz]; [discriminate|].
  intros H. injection H as <-.
  set (r := mk_element_set _ _ _ _ _ _ _).
  assert (nall r = Z.of_nat (length O)) as Hnr.
  { unfold r. simpl_eset. rewrite wrap32_small by nia.
    rewrite Htmp, SzO, EszA, Z.div_mul by lia. reflexivity. }
  assert (records r = O) as Hrec.
  { apply (records_of_concat r sz O J);
      [exact EszA | exact Hnr | exact UO | exact Hd]. }
  rewrite Hrec.
  split; [exact Eia|]. split; [reflexivity|]. split; [exact Hnr|].
  split; [apply StrictSorted_adjacent; exact SO|].
  intros y. rewrite (IO y), (Ina y), (Inb y). reflexivity.
Qed.

(* ================================================================== *)
(** * The size of the array *)
(* ================================================================== *)

(** X27.  The array follows the distinct values, not the input.  The
    state the transition function builds from a non-empty list of values of
    a by-value type has an array of the initial 32 bytes, or of less than
    two and a half times the bytes of the distinct records among the
    values, however many times each value is repeated: the array grows
    only after a compaction that left less than a fifth of it free, and
    then at most doubles.  The list may be of any length; five times the
    bytes of its distinct records are within the allocation limit. *)
Theorem array_size_follows_distinct_values (ctx : Z) (ty : type_info)
    (values : list bytes) :
  0 < typlen ty <= 8 -> typbyval ty = true -> values <> [] ->
  Forall (fun v => size v = SIZEOF_DATUM) values ->
  5 * (distinct_count (Z.to_nat (typlen ty)) values * typlen ty)
  <= MaxAllocSize ->
  exists e : element_set_t,
    append_all (Some ctx) ty None values = Ok (Some e) /\
    (nbytes e = 32
     \/ 2 * nbytes e
        < 5 * (distinct_count (Z.to_nat (typlen ty)) values * typlen ty)).
Proof.
  intros Hty Hbv Hne Hsize Hmem.
  destruct (append_all_builds ctx ty values Hty Hbv Hne Hsize Hmem)
    as (e & Hrun & _ & _ & _ & _ & _ & Hb).
  exists e. split; [exact Hrun | exact Hb].
Qed.

End CountDistinct.

(* ================================================================== *)
(** * Concrete runs *)
(* ================================================================== *)

(** Fresh memory that reads as zero bytes. *)
Definition zero_fill : nat -> byte := fun _ => x00.

(** PostgreSQL's [int8]: eight bytes, passed by value, double aligned. *)
Definition int8_type : type_info := mk_type_info 8 true "d"%byte.

(** The Datum of an [int8] value. *)
Definition datum (z : Z) : bytes := encode_le 8 z.

(** The accumulator the transition function builds from a list of [int8]
    values. *)
Definition accumulate (assert_checking : bool) (values : list Z)
  : outcome (option element_set_t) :=
  append_all assert_checking zero_fill (Some 0) int8_type None
             (map datum values).

(** The count the final function returns for a state. *)
Definition final_count (assert_checking : bool)
    (state : option element_set_t) : outcome (option Z) :=
  '(_, n) <- count_distinct assert_checking zero_fill (Some 0) state ;; Ok n.

(** The records the final function leaves in a state, as numbers. *)
Definition final_records (assert_checking : bool)
    (state : option element_set_t) : outcome (list Z) :=
  '(s, _) <- count_distinct assert_checking zero_fill (Some 0) state ;;
  Ok (match s with Some e => map decode_le (records e) | None => [] end).

Definition combine (assert_checking : bool)
    (a b : option element_set_t) : outcome (option element_set_t) :=
  count_distinct_combine assert_checking zero_fill (Some 0) a b.

(** An accumulator holding the pending records 30, 10, 20. *)
Definition three_pending : element_set_t :=
  mk_element_set 8 0 3 32 "d"%byte 0
    (datum 30 ++ datum 10 ++ datum 20 ++ datum 0).

(** Two compacted accumulators without slack: records 1, 2, 3 and
    records 3, 4, 5. *)
Definition exact_123 : element_set_t :=
  mk_element_set 8 3 3 24 "d"%byte 0 (datum 1 ++ datum 2 ++ datum 3).
Definition exact_345 : element_set_t :=
  mk_element_set 8 3 3 24 "d"%byte 0 (datum 3 ++ datum 4 ++ datum 5).

(** Two accumulators of different record widths. *)
Definition width_1 : element_set_t :=
  mk_element_set 1 1 1 1 "c"%byte 0 ["005"%byte].
Definition width_2 : element_set_t :=
  mk_element_set 2 1 1 2 "s"%byte 0 ["001"%byte; "002"%byte].

(** A stream whose header declares no records. *)
Definition empty_header : bytes :=
  struct_head zero_fill (mk_element_set 8 0 0 32 "d"%byte 0 []).

(** The spec's scenario: what the transition function builds from
    5, 3, 5, 1, 3, 2 finalises to the count 4 and the records 1, 2, 3, 5. *)
Example scenario_append_finalize :
  (s <- accumulate true [5; 3; 5; 1; 3; 2] ;; final_count true s)
  = Ok (Some 4)
  /\ (s <- accumulate true [5; 3; 5; 1; 3; 2] ;; final_records true s)
     = Ok [1; 2; 3; 5].
Proof. vm_compute. split; reflexivity. Qed.

(** C2, the defect.  Two accumulators built by the transition function from
    1, 1, 2, 2 and from 3, 3, 3, 3 each fill their 32-byte array, and
    compaction leaves two and one records followed by stale copies.  The
    merging loop of [count_distinct_combine] scans each operand up to
    [nbytes], reads a stale 2 as the third element and never reaches 3:
    without assertion checking the combination finalises to the count 2
    and the records 1, 2, where one accumulator fed all eight values
    finalises to 3 and 1, 2, 3; with assertion checking the assertion
    after the loop fails.  This holds whatever fresh memory contains. *)
Theorem combine_of_appended_states_miscounts (uninit : nat -> byte) :
  let build ac values :=
    append_all ac uninit (Some 0) int8_type None (map datum values) in
  let count ac state :=
    '(s, n) <- count_distinct ac uninit (Some 0) state ;;
    Ok (n, match s with Some e => map decode_le (records e) | None => [] end)
  in
  (a <- build false [1; 1; 2; 2] ;; b <- build false [3; 3; 3; 3] ;;
   r <- count_distinct_combine false uninit (Some 0) a b ;; count false r)
  = Ok (Some 2, [1; 2])
  /\ (s <- build false [1; 1; 2; 2; 3; 3; 3; 3] ;; count false s)
     = Ok (Some 3, [1; 2; 3])
  /\ (a <- build true [1; 1; 2; 2] ;; b <- build true [3; 3; 3; 3] ;;
      count_distinct_combine true uninit (Some 0) a b)
     = Trap.
Proof. vm_compute. repeat split. Qed.

(** C6, the defect.  With three accumulators built by the transition
    function from 1, 1, 2, 2, from 3, 3, 3, 3 and from 4, 4, 4, 4, the two
    groupings of the combination finalise to different records: left to
    right gives 1, 2, 4 and right to left gives 1, 2, neither being
    1, 2, 3, 4 (without assertion checking; with it the first merge
    stops on the failed assertion). *)
Theorem combine_grouping_changes_result (uninit : nat -> byte) :
  let build ac values :=
    append_all ac uninit (Some 0) int8_type None (map datum values) in
  let comb ac a b := count_distinct_combine ac uninit (Some 0) a b in
  let recs ac state :=
    '(s, _) <- count_distinct ac uninit (Some 0) state ;;
    Ok (match s with Some e => map decode_le (records e) | None => [] end)
  in
  (a <- build false [1; 1; 2; 2] ;; b <- build false [3; 3; 3; 3] ;;
   c <- build false [4; 4; 4; 4] ;;
   ab <- comb false a b ;; r <- comb false ab c ;; recs false r)
  = Ok [1; 2; 4]
  /\ (a <- build false [1; 1; 2; 2] ;; b <- build false [3; 3; 3; 3] ;;
      c <- build false [4; 4; 4; 4] ;;
      bc <- comb false b c ;; r <- comb false a bc ;; recs false r)
     = Ok [1; 2]
  /\ (a <- build true [1; 1; 2; 2] ;; b <- build true [3; 3; 3; 3] ;;
      comb true a b)
     = Trap.
Proof. vm_compute. repeat split. Qed.

(** X19.  An absent operand.  When the second operand of the combine
    function is NULL the first is returned as it is; when the first is
    NULL and the second a well-formed accumulator, a copy of the second
    is returned, with its width, its counters and its records. *)
Lemma combine_absent_operand (ac : bool) (uninit : nat -> byte) (ctx : Z)
    (e : element_set_t) :
  wf e = true ->
  count_distinct_combine ac uninit (Some ctx) (Some e) None = Ok (Some e)
  /\ exists r,
       count_distinct_combine ac uninit (Some ctx) None (Some e) = Ok (Some r)
       /\ item_size r = item_size e /\ nsorted r = nsorted e
       /\ nall r = nall e /\ nbytes r = nbytes e
       /\ records r = records e.
Proof.
  intros Hwf.
  destruct (wf_facts e Hwf) as (Hisz & Hns & Hcap & Hmax & Hlen & HS).
  split; [reflexivity|].
  destruct (combine_absent_first ac uninit ctx e Hmax Hlen ltac:(nia))
    as (r & Hrun & E1 & E2 & E3 & E4 & E5).
  exists r. repeat split; try assumption.
  unfold records. rewrite E1, E3, E5. apply slots_firstn.
  - nia.
  - unfold size in Hlen. nia.
Qed.

(** What the merging loop does with slack: the operand built from
    1, 1, 1, 2 holds the records 1, 2 followed by stale copies of 1 and 2;
    merged with the operand built from 9, 9, 9, 9 it yields the three
    "records" 1, 2, 1, the third read from beyond the last record, and
    not the record 9. *)
Lemma combine_reads_slack_as_records :
  (a <- accumulate false [1; 1; 1; 2] ;; b <- accumulate false [9; 9; 9; 9] ;;
   r <- combine false a b ;; final_records false r)
  = Ok [1; 2; 1].
Proof. vm_compute. reflexivity. Qed.

(** C7, the defect.  The operand the transition function builds from
    1, 1, 1, 2 is compacted by [count_distinct_combine] to the records 1, 2
    followed by stale copies; merged with the operand built from
    9, 9, 9, 9, the loop reads the stale 1 as a third record.  Without
    assertion checking the state returned has [nsorted = nall = 3] and the
    sorted zone 1, 2, 1, which is not strictly increasing; with assertion
    checking the assertion [memcmp(prev, element) < 0] inside the loop
    fails.  This holds whatever fresh memory contains. *)
Theorem combine_of_slack_operand_breaks_order (uninit : nat -> byte) :
  let build ac values :=
    append_all ac uninit (Some 0) int8_type None (map datum values) in
  (a <- build false [1; 1; 1; 2] ;; b <- build false [9; 9; 9; 9] ;;
   r <- count_distinct_combine false uninit (Some 0) a b ;;
   Ok (option_map
         (fun e => (nsorted e, nall e, map decode_le (sorted_zone e),
                    strictly_increasing (sorted_zone e))) r))
  = Ok (Some (3, 3, [1; 2; 1], false))
  /\ (a <- build true [1; 1; 1; 2] ;; b <- build true [9; 9; 9; 9] ;;
      count_distinct_combine true uninit (Some 0) a b)
     = Trap.
Proof. vm_compute. split; reflexivity. Qed.

(* ================================================================== *)
(** * Instances *)
(* ================================================================== *)

(** The values 5, 3, 5, 1, 3, 2 arriving in the opposite order. *)
Lemma count_distinct_counts_distinct_witness :
  exists e e1 : element_set_t,
    append_all true zero_fill (Some 0) int8_type None
               (rev (map datum [5; 3; 5; 1; 3; 2])) = Ok (Some e) /\
    count_distinct true zero_fill (Some 0) (Some e) = Ok (Some e1, Some 4).
Proof.
  apply (count_distinct_counts_distinct true zero_fill 0 int8_type
           (map datum [5; 3; 5; 1; 3; 2])).
  - simpl. lia.
  - reflexivity.
  - discriminate.
  - repeat constructor.
  - vm_compute. discriminate.
  - apply Permutation_rev.
Defined.

(** The pending records 30, 10, 20 go through serialisation and back. *)
Lemma serial_deserial_roundtrip_witness :
  exists (e1 : element_set_t) (stream : bytes) (e2 f f2 : element_set_t)
         (n : Z),
    count_distinct_serial true zero_fill (Some 0) three_pending
    = Ok (e1, stream) /\
    count_distinct_deserial true zero_fill (Some 0) stream = Ok e2 /\
    count_distinct true zero_fill (Some 0) (Some three_pending)
    = Ok (Some f, Some n) /\
    count_distinct true zero_fill (Some 0) (Some e2) = Ok (Some f2, Some n) /\
    nall f2 = nall f /\ nsorted f2 = nsorted f /\
    records f2 = records f /\ adjacent_increasing (records f).
Proof.
  apply (serial_deserial_roundtrip true zero_fill 0 three_pending).
  - reflexivity.
  - simpl. lia.
  - vm_compute. discriminate.
Defined.

(** The stream of the accumulator holding 30, 10, 20 is 56 bytes long:
    32 bytes of header and three records; the four counters followed by the
    records would be 40. *)
Lemma serial_stream_is_not_counters_then_records :
  exists (e1 : element_set_t) (stream : bytes),
    count_distinct_serial true zero_fill (Some 0) three_pending
    = Ok (e1, stream) /\
    size stream = 56 /\ size (claimed_stream e1) = 40 /\
    stream <> claimed_stream e1.
Proof.
  match eval vm_compute in
        (count_distinct_serial true zero_fill (Some 0) three_pending) with
  | Ok (?e, ?s) => exists e, s
  end.
  split; [vm_compute; reflexivity|].
  split; [reflexivity|]. split; [reflexivity|].
  intros H. apply (f_equal (@length byte)) in H. vm_compute in H.
  discriminate H.
Qed.

Lemma serial_layout_witness :
  exists e1 : element_set_t,
    count_distinct_serial true zero_fill (Some 0) three_pending
    = Ok (e1,
          encode_le 4 (item_size e1) ++ encode_le 4 (nsorted e1)
          ++ encode_le 4 (nall e1) ++ encode_le 4 (nbytes e1)
          ++ [typalign e1] ++ map zero_fill (seq 17 7)
          ++ encode_le 8 (aggctx e1)
          ++ concat (records e1)) /\
    nsorted e1 = nall e1 /\
    size (concat (records e1)) = nall e1 * item_size e1 /\
    adjacent_increasing (records e1) /\
    (forall x, In x (records e1) <-> In x (records three_pending)).
Proof.
  apply (serial_layout true zero_fill 0 three_pending).
  - reflexivity.
  - simpl. lia.
  - vm_compute. discriminate.
Defined.



(** Without assertion checking accumulators of widths 1 and 2 are merged. *)
Lemma combine_merges_width_mismatch :
  item_size width_1 <> item_size width_2 /\
  exists r : element_set_t,
    count_distinct_combine false zero_fill (Some 0)
      (Some width_1) (Some width_2) = Ok (Some r).
Proof.
  split; [discriminate|].
  match eval vm_compute in
        (count_distinct_combine false zero_fill (Some 0)
           (Some width_1) (Some width_2)) with
  | Ok (Some ?r) => exists r
  end.
  vm_compute. reflexivity.
Qed.

Lemma combine_rejects_width_mismatch_when_asserting_witness :
  count_distinct_combine true zero_fill (Some 0) (Some width_1) (Some width_2)
  = Trap.
Proof.
  apply (combine_rejects_width_mismatch_when_asserting true zero_fill 0
           width_1 width_2).
  - reflexivity.
  - discriminate.
Defined.

Lemma compact_set_idempotent_witness :
  exists e1 e2 : element_set_t,
    compact_set true zero_fill three_pending true = Ok e1 /\
    compact_set true zero_fill e1 true = Ok e2 /\
    nsorted e2 = nsorted e1 /\ nall e2 = nall e1 /\
    records e2 = records e1.
Proof.
  apply (compact_set_idempotent true zero_fill three_pending true).
  - reflexivity.
  - simpl. lia.
  - right. vm_compute. discriminate.
Defined.

(** The accumulators holding 1, 2, 3 and 3, 4, 5 have no slack: their
    combination is returned, has none, and is strictly increasing. *)
Lemma no_slack_after_deserial_and_combine_witness :
  (forall r : element_set_t,
      count_distinct_combine true zero_fill (Some 0)
        (Some exact_123) (Some exact_345) = Ok (Some r) ->
      nsorted r = nall r /\ nbytes r = nall r * item_size r) /\
  exists r : element_set_t,
    count_distinct_combine true zero_fill (Some 0)
      (Some exact_123) (Some exact_345) = Ok (Some r) /\
    exact_capacity r = true /\
    adjacent_increasing (records r) /\
    (forall x, In x (records r)
               <-> In x (records exact_123) \/ In x (records exact_345)).
Proof.
  destruct (no_slack_after_deserial_and_combine true zero_fill 0
              exact_123 exact_345)
    as (_ & _ & Hexact & Hmerge).
  - reflexivity.
  - reflexivity.
  - simpl. lia.
  - simpl. lia.
  - reflexivity.
  - split; [exact Hexact|].
    apply Hmerge; [reflexivity | reflexivity | vm_compute; discriminate].
Defined.

(* ================================================================== *)
(** * Instances of the further properties *)
(* ================================================================== *)

(** What compaction makes of [three_pending]: the records 10, 20, 30
    sorted in place, the fourth slot of the array untouched. *)
Definition three_compacted : element_set_t :=
  mk_element_set 8 3 3 32 "d"%byte 0
    (datum 10 ++ datum 20 ++ datum 30 ++ datum 0).

(** An accumulator without slack holding 5, 6. *)
Definition exact_56 : element_set_t :=
  mk_element_set 8 2 2 16 "d"%byte 0 (datum 5 ++ datum 6).

(** An [int8] array of four elements of which the third is null: the
    bitmap has the bits 0, 1 and 3 set, and the data area holds 7, 7, 9. *)
Definition array_7_7_null_9 : ArrayType :=
  mk_array 4 (Some [x0b]) 4096 (datum 7 ++ datum 7 ++ datum 9).

(** An [int8] array without nulls holding 9, 8. *)
Definition array_9_8 : ArrayType :=
  mk_array 2 None 8192 (datum 9 ++ datum 8).

(** An array of two nulls. *)
Definition array_of_nulls : ArrayType :=
  mk_array 2 (Some [x00]) 4096 [].

Lemma sorted_zone_strictly_increasing_witness :
  exists (e1 : element_set_t) (n : Z),
    count_distinct true zero_fill (Some 0) (Some three_pending)
    = Ok (Some e1, Some n) /\
    adjacent_increasing (sorted_zone e1).
Proof.
  destruct (sorted_zone_strictly_increasing true zero_fill 0 three_pending)
    as (_ & _ & H & _).
  - reflexivity.
  - simpl. lia.
  - exact H.
Defined.

Lemma compact_set_keeps_records_witness :
  NoDup (records three_compacted) /\
  (forall x, In x (records three_compacted) <-> In x (records three_pending))
  /\ nbytes three_compacted = nbytes three_pending.
Proof.
  destruct (compact_set_keeps_records true zero_fill three_pending false
              three_compacted)
    as (_ & _ & _ & _ & _ & Hin & Hnd & _ & Hnb).
  - reflexivity.
  - simpl. lia.
  - vm_compute. reflexivity.
  - split; [exact Hnd|]. split; [exact Hin | apply Hnb; reflexivity].
Defined.

Lemma compact_set_returns_or_reports_allocation_witness :
  (exists e1, compact_set true zero_fill three_pending true = Ok e1)
  \/ (true = true /\ MaxAllocSize < 2 * nbytes three_pending /\
      compact_set true zero_fill three_pending true
      = Elog "invalid memory alloc request size").
Proof.
  apply (compact_set_returns_or_reports_allocation true zero_fill
           three_pending true).
  - reflexivity.
  - simpl. lia.
Defined.

Lemma add_element_adds_record_witness :
  exists e' : element_set_t,
    add_element true zero_fill three_pending (datum 40) = Ok e' /\
    wf e' = true /\ item_size e' = item_size three_pending /\
    capacity_ok (nbytes e') /\ 0 < nall e' <= nall three_pending + 1 /\
    (forall x, In x (records e')
               <-> In x (records three_pending)
                   \/ x = firstn (Z.to_nat (item_size three_pending))
                                 (datum 40)).
Proof.
  apply (add_element_adds_record true zero_fill three_pending (datum 40)).
  - reflexivity.
  - simpl. lia.
  - split; [simpl; lia | left; reflexivity].
  - vm_compute. discriminate.
  - vm_compute. discriminate.
Defined.

Lemma append_all_state_witness :
  exists e : element_set_t,
    append_all true zero_fill (Some 0) int8_type None
               (map datum [5; 3; 5; 1; 3; 2]) = Ok (Some e) /\
    wf e = true /\ item_size e = 8 /\ 0 < nall e <= 6 /\
    (forall x, In x (records e)
               <-> In x (map (firstn 8) (map datum [5; 3; 5; 1; 3; 2]))) /\
    (nbytes e = 32 \/ 2 * nbytes e < 5 * (6 * 8)).
Proof.
  apply (append_all_state true zero_fill 0 int8_type
           (map datum [5; 3; 5; 1; 3; 2])).
  - simpl. lia.
  - reflexivity.
  - discriminate.
  - repeat constructor.
  - vm_compute. discriminate.
Defined.

Lemma parallel_states_are_united_witness :
  exists (s1 r : element_set_t) (a2 b2 : element_set_t),
    count_distinct_combine true zero_fill (Some 0) None (Some a2)
    = Ok (Some s1) /\
    count_distinct_combine true zero_fill (Some 0) (Some s1) (Some b2)
    = Ok (Some r) /\
    count_distinct true zero_fill (Some 0) (Some r)
    = Ok (Some r, Some (union_count three_pending exact_345)) /\
    adjacent_increasing (records r).
Proof.
  destruct (parallel_states_are_united true zero_fill 0 three_pending
              exact_345)
    as (a1 & b1 & sa & sb & a2 & b2 & s1 & r & _ & _ & _ & _ & H1 & H2 & H3
        & H4 & _).
  - reflexivity.
  - reflexivity.
  - simpl. lia.
  - simpl. lia.
  - reflexivity.
  - vm_compute. discriminate.
  - exists s1, r, a2, b2. repeat split; assumption.
Defined.

Lemma parallel_count_is_distinct_count_witness :
  parallel_count true zero_fill (Some 0) int8_type
    (map datum [1; 2; 3]) (map datum [3; 4; 5])
  = Ok (Some 5).
Proof.
  apply (parallel_count_is_distinct_count true zero_fill 0 int8_type
           (map datum [1; 2; 3]) (map datum [3; 4; 5])).
  - simpl. lia.
  - reflexivity.
  - discriminate.
  - repeat constructor.
  - vm_compute. discriminate.
Defined.

Lemma combine_without_slack_commutes_and_associates_witness :
  exists ab ba bc l r : element_set_t,
    count_distinct_combine true zero_fill (Some 0)
      (Some exact_123) (Some exact_345) = Ok (Some ab) /\
    count_distinct_combine true zero_fill (Some 0)
      (Some exact_345) (Some exact_123) = Ok (Some ba) /\
    nall ab = nall ba /\ records ab = records ba /\
    count_distinct_combine true zero_fill (Some 0)
      (Some exact_345) (Some exact_56) = Ok (Some bc) /\
    count_distinct_combine true zero_fill (Some 0)
      (Some ab) (Some exact_56) = Ok (Some l) /\
    count_distinct_combine true zero_fill (Some 0)
      (Some exact_123) (Some bc) = Ok (Some r) /\
    nall l = nall r /\ records l = records r.
Proof.
  apply (combine_without_slack_commutes_and_associates true zero_fill 0
           exact_123 exact_345 exact_56);
    try reflexivity; try (simpl; lia).
  vm_compute. discriminate.
Defined.

Lemma sorted_by_compare_items_is_unique_witness :
  [[x01]; [x02]; [x03]] = sort_records [[x03]; [x01]; [x02]].
Proof.
  apply (sorted_by_compare_items_is_unique 1
           [[x03]; [x01]; [x02]] [[x01]; [x02]; [x03]]).
  - repeat constructor.
  - apply (Permutation_cons_app [[x01]; [x02]] [] [x03]).
    apply Permutation_refl.
  - repeat constructor; vm_compute; discriminate.
Defined.

Lemma array_agg_distinct_returns_sorted_distinct_witness :
  exists (e1 : element_set_t) (n : Z),
    count_distinct true zero_fill (Some 0) (Some three_pending)
    = Ok (Some e1, Some n) /\
    array_agg_distinct_type_by_element true zero_fill (Some 0) int8_type
      (Some three_pending)
    = Ok (Some e1,
          construct_array (map datum_of_record (records e1)) n int8_type) /\
    adjacent_increasing (records e1).
Proof.
  destruct (array_agg_distinct_returns_sorted_distinct true zero_fill 0
              three_pending int8_type)
    as (e1 & n & H1 & H2 & _ & _ & H3 & _).
  - reflexivity.
  - simpl. lia.
  - simpl. lia.
  - vm_compute. discriminate.
  - exists e1, n. repeat split; assumption.
Defined.

Lemma array_agg_distinct_of_values_witness :
  exists e e1 : element_set_t,
    append_all true zero_fill (Some 0) int8_type None
               (rev (map datum [5; 3; 5; 1; 3; 2])) = Ok (Some e) /\
    array_agg_distinct_type_by_element true zero_fill (Some 0) int8_type
      (Some e)
    = Ok (Some e1, construct_array (map datum [1; 2; 3; 5]) 4 int8_type) /\
    count_distinct true zero_fill (Some 0) (Some e) = Ok (Some e1, Some 4).
Proof.
  apply (array_agg_distinct_of_values true zero_fill 0 int8_type
           (map datum [5; 3; 5; 1; 3; 2])).
  - simpl. lia.
  - reflexivity.
  - discriminate.
  - repeat constructor.
  - vm_compute. discriminate.
  - vm_compute. discriminate.
  - apply Permutation_rev.
Defined.

Lemma elements_append_without_elements_returns_null_witness :
  count_distinct_elements_append true zero_fill true (Some 0) int8_type
    (Some three_pending) (Some array_of_nulls)
  = Ok None.
Proof.
  apply (elements_append_without_elements_returns_null true zero_fill true 0
           int8_type (Some three_pending) array_of_nulls).
  - intros bm E. injection E as <-. vm_compute. discriminate.
  - reflexivity.
Defined.

Lemma array_7_7_null_9_ok :
  array_ok array_7_7_null_9 8 /\ present_count array_7_7_null_9 <> 0%nat.
Proof.
  split; [|vm_compute; discriminate].
  split; [intros bm E; injection E as <-; vm_compute; discriminate|].
  split; [vm_compute; discriminate|].
  split; [reflexivity|]. split; vm_compute; discriminate.
Defined.

Lemma array_9_8_ok :
  array_ok array_9_8 8 /\ present_count array_9_8 <> 0%nat.
Proof.
  split; [|vm_compute; discriminate].
  split; [intros bm E; discriminate E|].
  split; [vm_compute; discriminate|].
  split; [reflexivity|]. split; vm_compute; discriminate.
Defined.

Lemma int8_layout_ok : layout_ok 8 "d"%byte.
Proof.
  split; [right; right; right; left; reflexivity|].
  split; [right; right; right; left; reflexivity | reflexivity].
Defined.

Lemma elements_append_is_append_of_elements_witness :
  count_distinct_elements_append true zero_fill true (Some 0) int8_type
    None (Some array_7_7_null_9)
  = append_all true zero_fill (Some 0) int8_type None
      (map datum [7; 7; 9]).
Proof.
  apply (elements_append_is_append_of_elements true zero_fill true 0
           int8_type None array_7_7_null_9).
  - intros _. reflexivity.
  - exact int8_layout_ok.
  - exact (proj1 array_7_7_null_9_ok).
  - exact (proj2 array_7_7_null_9_ok).
Defined.

Lemma elements_of_rows_are_appended_witness :
  elements_all true zero_fill true (Some 0) int8_type None
    [array_7_7_null_9; array_9_8]
  = append_all true zero_fill (Some 0) int8_type None
      (map datum [7; 7; 9; 9; 8]).
Proof.
  apply (elements_of_rows_are_appended true zero_fill true 0 int8_type
           [array_7_7_null_9; array_9_8]).
  - reflexivity.
  - exact int8_layout_ok.
  - apply Forall_cons; [exact array_7_7_null_9_ok|].
    apply Forall_cons; [exact array_9_8_ok | apply Forall_nil].
Defined.

Lemma count_distinct_of_array_elements_witness :
  exists e e1 : element_set_t,
    elements_all true zero_fill true (Some 0) int8_type None
      [array_7_7_null_9; array_9_8] = Ok (Some e) /\
    count_distinct true zero_fill (Some 0) (Some e) = Ok (Some e1, Some 3).
Proof.
  apply (count_distinct_of_array_elements true zero_fill true 0 int8_type
           [array_7_7_null_9; array_9_8]).
  - reflexivity.
  - exact int8_layout_ok.
  - discriminate.
  - apply Forall_cons; [exact array_7_7_null_9_ok|].
    apply Forall_cons; [exact array_9_8_ok | apply Forall_nil].
  - vm_compute. discriminate.
Defined.

Lemma count_distinct_between_transitions_witness :
  exists state' : option element_set_t,
    run_events true zero_fill (Some 0) int8_type None
      [Final; Value (datum 5); Value (datum 3); Final; Value (datum 5);
       Value (datum 1); Final]
    = Ok (state', [None; Some 2; Some 3]).
Proof.
  apply (count_distinct_between_transitions true zero_fill 0 int8_type
           [Final; Value (datum 5); Value (datum 3); Final; Value (datum 5);
            Value (datum 1); Final]).
  - simpl. lia.
  - reflexivity.
  - repeat constructor.
  - vm_compute. discriminate.
Defined.

(** A full array of four pending records, and what compaction with
    [need_space] makes of it: the records sorted, the array doubled. *)
Definition four_pending : element_set_t :=
  mk_element_set 8 0 4 32 "d"%byte 0
    (datum 4 ++ datum 3 ++ datum 2 ++ datum 1).

Definition four_grown : element_set_t :=
  mk_element_set 8 4 4 64 "d"%byte 0
    (datum 1 ++ datum 2 ++ datum 3 ++ datum 4 ++ repeat x00 32).

Lemma compact_set_growth_policy_witness :
  (nbytes four_grown = nbytes four_pending /\
   (true = false
    \/ nbytes four_pending
       <= 5 * (nbytes four_pending - nall four_grown * item_size four_grown)))
  \/ (true = true /\
      5 * (nbytes four_pending - nall four_grown * item_size four_grown)
      < nbytes four_pending /\
      ((nbytes four_pending < 6554 /\
        nbytes four_grown = 2 * nbytes four_pending)
       \/ (6554 <= nbytes four_pending /\
           nbytes four_grown = 5 * nbytes four_pending / 4))).
Proof.
  apply (compact_set_growth_policy true zero_fill four_pending true
           four_grown).
  - reflexivity.
  - simpl. lia.
  - vm_compute. reflexivity.
Defined.

Lemma combine_absent_operand_witness :
  count_distinct_combine true zero_fill (Some 0) (Some exact_123) None
  = Ok (Some exact_123)
  /\ exists r : element_set_t,
       count_distinct_combine true zero_fill (Some 0) None (Some exact_123)
       = Ok (Some r)
       /\ item_size r = item_size exact_123 /\ nsorted r = nsorted exact_123
       /\ nall r = nall exact_123 /\ nbytes r = nbytes exact_123
       /\ records r = records exact_123.
Proof.
  apply (combine_absent_operand true zero_fill 0 exact_123).
  reflexivity.
Defined.

(** A type of variable length, passed by reference, such as [text]. *)
Definition varlena_type : type_info := mk_type_info (-1) false "i"%byte.

Lemma refused_types_raise_at_first_value_witness :
  count_distinct_append true zero_fill (Some 0) varlena_type None
    (Some (datum 1))
  = Elog "count_distinct handles only fixed-length types passed by value"
  /\ count_distinct_elements_append true zero_fill true (Some 0)
       varlena_type None (Some array_9_8)
     = Elog "count_distinct_elements handles only arrays of fixed-length types passed by value".
Proof.
  apply (refused_types_raise_at_first_value true zero_fill true 0
           varlena_type (datum 1) array_9_8).
  - reflexivity.
  - intros bm E. discriminate E.
Defined.

Lemma deserial_trusts_stream_without_asserts_witness :
  exists e : element_set_t,
    count_distinct_deserial false zero_fill (Some 0) empty_header = Ok e /\
    nall e = 0 /\ nbytes e = 0 /\ data e = [].
Proof.
  destruct (deserial_trusts_stream_without_asserts false zero_fill 0
              empty_header)
    as (Hok & _).
  - reflexivity.
  - vm_compute. discriminate.
  - destruct Hok as (e & Hrun & _ & _ & E3 & E4 & E5).
    + vm_compute. discriminate.
    + exists e. split; [exact Hrun|]. split; [exact E3|].
      split; [exact E4 | exact E5].
Defined.

(** An accumulator with slack: the values 6, 5, 6, 5 fill its 32 bytes, and
    compaction leaves the records 5, 6 followed by stale copies. *)
Definition pending_6565 : element_set_t :=
  mk_element_set 8 0 4 32 "d"%byte 0
    (datum 6 ++ datum 5 ++ datum 6 ++ datum 5).

Lemma combine_checked_returns_the_union_witness :
  exists r : element_set_t,
    count_distinct_combine true zero_fill (Some 0)
      (Some pending_6565) (Some exact_123) = Ok (Some r) /\
    map decode_le (records r) = [1; 2; 3; 5; 6] /\
    item_size r = item_size pending_6565 /\ nsorted r = nall r /\
    nall r = Z.of_nat (length (records r)) /\
    adjacent_increasing (records r) /\
    (forall x, In x (records r)
               <-> In x (records pending_6565) \/ In x (records exact_123)).
Proof.
  destruct (count_distinct_combine true zero_fill (Some 0)
              (Some pending_6565) (Some exact_123)) as [[r|]| | |] eqn:Hrun;
    try (vm_compute in Hrun; discriminate Hrun).
  exists r. split; [reflexivity|]. split.
  - vm_compute in Hrun. injection Hrun as <-. vm_compute. reflexivity.
  - apply (combine_checked_returns_the_union true zero_fill 0 pending_6565
             exact_123 r).
    + reflexivity.
    + reflexivity.
    + reflexivity.
    + simpl. lia.
    + simpl. lia.
    + reflexivity.
    + exact Hrun.
Defined.

Lemma array_size_follows_distinct_values_witness :
  exists e : element_set_t,
    append_all true zero_fill (Some 0) int8_type None
      (map datum [1; 2; 1; 2; 1; 2; 1; 2; 1; 2; 1; 2]) = Ok (Some e) /\
    (nbytes e = 32 \/ 2 * nbytes e < 5 * (2 * 8)).
Proof.
  apply (array_size_follows_distinct_values true zero_fill 0 int8_type
           (map datum [1; 2; 1; 2; 1; 2; 1; 2; 1; 2; 1; 2])).
  - simpl. lia.
  - reflexivity.
  - discriminate.
  - repeat constructor.
  - vm_compute. discriminate.
Defined.

(* ================================================================== *)
(** * The older version of the module *)
(* ================================================================== *)

(** The source tree keeps an older [count_distinct.c] under [src/]: the
    accumulator without [typalign], the aggregate [count_distinct] and
    the aggregate [array_agg_distinct], with no partial aggregation.  Its
    functions are embedded here under their own names; the helpers that
    read no accumulator ([memcmp], [qsort_arg], the [while] loop of the
    merge, the allocator) are those of the current version. *)
Module Older.

(** [element_set_t] of the older version. *)
Record element_set_t : Type := mk_element_set {
  item_size : Z;
  nsorted : Z;
  nall : Z;
  nbytes : Z;
  aggctx : Z;
  data : bytes
}.

Definition set_nsorted (e : element_set_t) (v : Z) : element_set_t :=
  mk_element_set (item_size e) v (nall e) (nbytes e) (aggctx e) (data e).
Definition set_nall (e : element_set_t) (v : Z) : element_set_t :=
  mk_element_set (item_size e) (nsorted e) v (nbytes e) (aggctx e) (data e).
Definition set_nbytes (e : element_set_t) (v : Z) : element_set_t :=
  mk_element_set (item_size e) (nsorted e) (nall e) v (aggctx e) (data e).
Definition set_data (e : element_set_t) (v : bytes) : element_set_t :=
  mk_element_set (item_size e) (nsorted e) (nall e) (nbytes e) (aggctx e) v.

Section CountDistinct.

Variable USE_ASSERT_CHECKING : bool.
Variable uninit : nat -> byte.

(** ** init_set *)

(** Both allocations are zeroed ([palloc0]). *)
Definition init_set (item_size : Z) (ctx : Z) : outcome element_set_t :=
  d <- palloc0 ARRAY_INIT_SIZE ;;
  Ok (mk_element_set (wrap32 item_size) 0 0 ARRAY_INIT_SIZE ctx d).

(** ** compact_set *)

Definition dedup_body (eset : element_set_t) (base : Z) (i : Z)
    (st : bytes * Z * Z) : outcome (bytes * Z * Z) :=
  let '(d, last, cnt) := st in
  let curr := base + wrap32 (i * item_size eset) in
  r <- memcmp_at d last d curr (item_size eset) ;;
  if negb (is_eq r) then
    let last := last + item_size eset in
    let cnt := cnt + 1 in
    d <- (if negb (last =? curr)
          then memcpy d last d curr (item_size eset)
          else Ok d) ;;
    Ok (d, last, cnt)
  else Ok (d, last, cnt).

(** [free_fract < ARRAY_FREE_FRACT], the test of the current version. *)
Definition free_fract_below_ARRAY_FREE_FRACT (eset : element_set_t) : bool :=
  5 * wrap32 (nbytes eset - wrap32 (nall eset * item_size eset)) <? nbytes eset.

(** The older [compact_set] returns at once when nothing is pending,
    before the growth step; its merge writes into a zeroed array; a grown
    array is always twice as large. *)
Definition compact_set (eset : element_set_t) (need_space : bool)
  : outcome element_set_t :=
  let base := wrap32 (nsorted eset * item_size eset) in
  Assert USE_ASSERT_CHECKING (0 <? wrap32 (nsorted eset + nall eset)) ;;;
  Assert USE_ASSERT_CHECKING (nsorted eset <=? nall eset) ;;;
  Assert USE_ASSERT_CHECKING
    (wrap32 (nall eset * item_size eset) <=? nbytes eset) ;;;
  if nall eset =? nsorted eset then Ok eset
  else
    d <- qsort_arg (data eset) base
           (wrap32 (nall eset - nsorted eset)) (item_size eset) ;;
    '(d, _, cnt) <-
       for_each (range 1 (wrap32 (nall eset - nsorted eset)))
                (dedup_body eset base) (d, base, 1) ;;
    let eset := set_data (set_nall eset (wrap32 (nsorted eset + cnt))) d in
    let eset := if nsorted eset =? 0
                then set_nsorted eset (nall eset) else eset in
    eset <-
      (if nsorted eset <? nall eset then
         new <- palloc0 (nbytes eset) ;;
         let a_max := wrap32 (nsorted eset * item_size eset) in
         let b_max := wrap32 (nall eset * item_size eset) in
         '(new, ptr) <-
            merge_loop (Z.to_nat (nall eset)) (item_size eset) (data eset)
                       0 a_max a_max b_max new 0 ;;
         if item_size eset =? 0 then Fault
         else
           let n := wrap32 (Z.quot ptr (item_size eset)) in
           Ok (set_data (set_nall (set_nsorted eset n) n) new)
       else Ok eset) ;;
    if need_space && free_fract_below_ARRAY_FREE_FRACT eset then
      let nb := wrap32 (nbytes eset * 2) in
      d <- repalloc uninit (data eset) nb ;;
      Ok (set_data (set_nbytes eset nb) d)
    else Ok eset.

(** ** add_element *)

Definition add_element (eset : element_set_t) (value : bytes)
  : outcome element_set_t :=
  eset <- (if wrap32 (item_size eset * wrap32 (nall eset + 1)) >? nbytes eset
           then compact_set eset true else Ok eset) ;;
  Assert USE_ASSERT_CHECKING
    (nbytes eset >=? wrap32 (item_size eset * wrap32 (nall eset + 1))) ;;;
  d <- memcpy (data eset) (wrap32 (item_size eset * nall eset))
              value 0 (item_size eset) ;;
  Ok (set_data (set_nall eset (wrap32 (nall eset + 1))) d).

(** ** count_distinct_append *)

(** The transition function; only the width -1 of a varlena is refused,
    besides the types passed by reference. *)
Definition count_distinct_append (context : option Z) (ty : type_info)
    (arg0 : option element_set_t) (arg1 : option bytes)
  : outcome (option element_set_t) :=
  match arg1 with
  | None => Ok arg0
  | Some element =>
      aggcontext <- GET_AGG_CONTEXT "count_distinct_append" context ;;
      eset <- match arg0 with
              | None =>
                  if (typlen ty =? -1) || negb (typbyval ty)
                  then Elog "count_distinct handles only fixed-length types passed by value"
                  else init_set (typlen ty) aggcontext
              | Some eset => Ok eset
              end ;;
      eset <- add_element eset element ;;
      Ok (Some eset)
  end.

(** ** array_agg_distinct *)

(** The final function of [array_agg_distinct]: the state as the call
    leaves it and the array, [None] for SQL NULL. *)
Definition array_agg_distinct (context : option Z) (element_type : type_info)
    (arg0 : option element_set_t)
  : outcome (option element_set_t * option array_value) :=
  CHECK_AGG_CONTEXT "count_distinct" context ;;;
  match arg0 with
  | None => Ok (None, None)
  | Some eset =>
      eset <- compact_set eset false ;;
      array_of_datums <- palloc0 (wrap64 (nsorted eset * SIZEOF_DATUM)) ;;
      array_of_datums <-
        for_each (range 0 (nsorted eset))
          (fun i d =>
             memcpy d (i * SIZEOF_DATUM) (data eset)
                    (wrap32 (item_size eset * i)) (item_size eset))
          array_of_datums ;;
      Ok (Some eset,
          Some (construct_array
                  (slots array_of_datums 0 (Z.to_nat SIZEOF_DATUM)
                         (Z.to_nat (nsorted eset)))
                  (nsorted eset) element_type))
  end.

(** ** count_distinct *)

Definition count_distinct (context : option Z) (arg0 : option element_set_t)
  : outcome (option element_set_t * option Z) :=
  CHECK_AGG_CONTEXT "count_distinct" context ;;;
  match arg0 with
  | None => Ok (None, None)
  | Some eset =>
      eset <- compact_set eset false ;;
      Ok (Some eset, Some (nall eset))
  end.

End CountDistinct.

End Older.

Section OlderVersion.

Variable USE_ASSERT_CHECKING : bool.
Variable uninit : nat -> byte.

Ltac inv_bind H :=
  let x := fresh "x" in
  let Hx := fresh "Hx" in
  apply bind_Ok_inv in H as (x & Hx & H).

(** An accumulator of the older version read as one of the current
    version (the alignment byte, which no function of the older version
    has, set to zero), and back. *)
Definition current (e : Older.element_set_t) : element_set_t :=
  mk_element_set (Older.item_size e) (Older.nsorted e) (Older.nall e)
    (Older.nbytes e) x00 (Older.aggctx e) (Older.data e).

Definition older (e : element_set_t) : Older.element_set_t :=
  Older.mk_element_set (item_size e) (nsorted e) (nall e) (nbytes e)
    (aggctx e) (data e).

Lemma older_current (e : Older.element_set_t) : older (current e) = e.
Proof. destruct e. reflexivity. Qed.

Lemma current_older (e : element_set_t) :
  typalign e = x00 -> current (older e) = e.
Proof. destruct e. simpl. intros ->. reflexivity. Qed.

Lemma zero_fill_repeat (s n : nat) : map zero_fill (seq s n) = repeat x00 n.
Proof.
  revert s. induction n as [|n IH]; intros s; [reflexivity|].
  simpl. rewrite IH. reflexivity.
Qed.

Lemma palloc_zero_fill (n : Z) : palloc zero_fill n = palloc0 n.
Proof. unfold palloc, palloc0. rewrite zero_fill_repeat. reflexivity. Qed.

(** The last step of the older [compact_set]: the array is doubled when
    room is asked for and less than a fifth is free. *)
Definition older_grow (e : Older.element_set_t) (need_space : bool)
  : outcome Older.element_set_t :=
  if need_space && Older.free_fract_below_ARRAY_FREE_FRACT e then
    d <- repalloc uninit (Older.data e) (wrap32 (Older.nbytes e * 2)) ;;
    Ok (Older.set_data (Older.set_nbytes e (wrap32 (Older.nbytes e * 2))) d)
  else Ok e.

(** The older [compact_set] on a well-formed accumulator: nothing when
    nothing is pending; otherwise the sorting branch of the current
    version run on zeroed fresh memory, followed by the older growth
    step. *)
Lemma older_compact_set_stages (e : Older.element_set_t) (need_space : bool) :
  wf (current e) = true -> 0 < Older.nall e ->
  exists e1,
    compact_set USE_ASSERT_CHECKING zero_fill (current e) false = Ok e1 /\
    compacted (current e) e1 /\ nbytes e1 = Older.nbytes e /\
    (Older.nsorted e = Older.nall e -> e1 = current e) /\
    Older.compact_set USE_ASSERT_CHECKING uninit e need_space
    = if Older.nall e =? Older.nsorted e then Ok e
      else older_grow (older e1) need_space.
Proof.
  intros Hwf Hpos.
  assert (MaxAllocSize = 1073741823) as HM by reflexivity.
  destruct (compact_set_false_spec USE_ASSERT_CHECKING zero_fill (current e)
              Hwf Hpos) as (e1 & Hc & Hcomp & Hn & He).
  exists e1. split; [exact Hc|]. split; [exact Hcomp|].
  split; [exact Hn|]. split; [exact He|].
  destruct (wf_facts (current e) Hwf) as (Hisz & Hns & Hcap & Hmax & Hlen & HS).
  cbn [current item_size nsorted nall nbytes data] in Hisz, Hns, Hcap, Hmax,
    Hlen.
  assert (Older.nall e <= Older.nall e * Older.item_size e) as Hna by nia.
  unfold Older.compact_set.
  rewrite (@wrap32_small (Older.nsorted e + Older.nall e)) by lia.
  rewrite Assert_ok by (apply Z.ltb_lt; lia). cbn [bind].
  rewrite Assert_ok by (apply Z.leb_le; lia). cbn [bind].
  rewrite Assert_ok by (apply Z.leb_le; rewrite wrap32_small by lia; lia).
  cbn [bind].
  destruct (Z.eqb_spec (Older.nall e) (Older.nsorted e)) as [E|E];
    [reflexivity|].
  rewrite compact_set_stages in Hc.
  inv_bind Hc. inv_bind Hc. inv_bind Hc. inv_bind Hc. inv_bind Hc.
  unfold compact_grow in Hc. cbn [andb] in Hc. injection Hc as ->.
  clear Hx Hx0 Hx1 Hx3 x x0 x1 x3.
  unfold compact_core in Hx2.
  cbn [current item_size nsorted nall nbytes data] in Hx2.
  replace (Older.nsorted e <? Older.nall e) with true in Hx2
    by (symmetry; apply Z.ltb_lt; lia).
  inv_bind Hx2. rewrite Hx. cbn [bind]. clear Hx.
  inv_bind Hx2. destruct x0 as [[d last] cnt].
  change (dedup_body _) with (Older.dedup_body e) in Hx.
  rewrite Hx. cbn [bind]. clear Hx.
  unfold current, set_data, set_nall, set_nsorted in Hx2.
  cbn [item_size nsorted nall nbytes data typalign aggctx] in Hx2.
  unfold Older.set_data, Older.set_nall, Older.set_nsorted.
  cbn [Older.item_size Older.nsorted Older.nall Older.nbytes Older.data
       Older.aggctx].
  destruct (Older.nsorted e =? 0);
    unfold compact_merge in Hx2;
    cbn [item_size nsorted nall nbytes data typalign aggctx] in Hx2;
    cbn [Older.item_size Older.nsorted Older.nall Older.nbytes Older.data
         Older.aggctx];
    match type of Hx2 with
    | (if ?c then _ else _) = _ => destruct c
    end.
  all: try (injection Hx2 as <-; reflexivity).
  all: rewrite palloc_zero_fill in Hx2;
    apply bind_Ok_inv in Hx2 as (J & -> & Hx2); cbn [bind];
    apply bind_Ok_inv in Hx2 as ([new ptr] & -> & Hx2); cbn [bind];
    apply bind_Ok_inv in Hx2 as (u & _ & Hx2);
    (destruct (Older.item_size e =? 0); [discriminate|]);
    injection Hx2 as <-; reflexivity.
Qed.

(** Without a request for room the older [compact_set] does what the
    current one does on zeroed fresh memory. *)
Lemma older_compact_set_false (e : Older.element_set_t) :
  wf (current e) = true -> 0 < Older.nall e ->
  exists e1,
    compact_set USE_ASSERT_CHECKING zero_fill (current e) false = Ok e1 /\
    compacted (current e) e1 /\ nbytes e1 = Older.nbytes e /\
    current (older e1) = e1 /\
    Older.compact_set USE_ASSERT_CHECKING uninit e false = Ok (older e1).
Proof.
  intros Hwf Hpos.
  destruct (older_compact_set_stages e false Hwf Hpos)
    as (e1 & Hc & Hcomp & Hn & He & Hold).
  exists e1. split; [exact Hc|]. split; [exact Hcomp|]. split; [exact Hn|].
  split.
  - apply current_older. destruct Hcomp as (_ & _ & E & _). exact E.
  - rewrite Hold. destruct (Z.eqb_spec (Older.nall e) (Older.nsorted e)) as [E|E].
    + rewrite (He (eq_sym E)), older_current. reflexivity.
    + reflexivity.
Qed.

(** The records of an accumulator of the older version. *)
Definition older_records (e : Older.element_set_t) : list bytes :=
  records (current e).

(** X23.  The final function of the older version.  On a well-formed,
    non-empty accumulator the older [count_distinct] returns; it leaves
    every record sorted, the records strictly increasing and those stored
    before, each once, and it returns their number, which is the number of
    distinct records stored before.  The current [count_distinct] returns
    the same count and leaves the same records. *)
Theorem older_final_count_is_distinct_count (ctx : Z) (e : Older.element_set_t) :
  wf (current e) = true -> 0 < Older.nall e ->
  exists (e1 : Older.element_set_t) (e2 : element_set_t),
    Older.count_distinct USE_ASSERT_CHECKING uninit (Some ctx) (Some e)
    = Ok (Some e1, Some (Older.nall e1)) /\
    Older.nsorted e1 = Older.nall e1 /\
    Older.nall e1
    = Z.of_nat (length (nodup bytes_eq_dec (older_records e))) /\
    adjacent_increasing (older_records e1) /\
    (forall x, In x (older_records e1) <-> In x (older_records e)) /\
    count_distinct USE_ASSERT_CHECKING uninit (Some ctx) (Some (current e))
    = Ok (Some e2, Some (Older.nall e1)) /\
    records e2 = older_records e1.
Proof.
  intros Hwf Hpos.
  destruct (older_compact_set_false e Hwf Hpos)
    as (e1 & Hc & Hcomp & Hn & Hcur & Hold).
  destruct (compact_set_false_spec USE_ASSERT_CHECKING uninit (current e)
              Hwf Hpos) as (e2 & Hc2 & Hcomp2 & _).
  destruct (compacted_sorted _ _ Hcomp) as (HS1 & _).
  destruct (compacted_sorted _ _ Hcomp2) as (HS2 & _).
  pose proof Hcomp as (Hwf1 & _ & _ & _ & Es1 & Hn1 & Hin1).
  pose proof Hcomp2 as (Hwf2 & _ & _ & _ & Es2 & Hn2 & Hin2).
  assert (records e2 = records e1) as Hrec.
  { apply StrictSorted_unique; [exact HS2 | exact HS1 |].
    intros x. rewrite Hin1, Hin2. reflexivity. }
  assert (nall e2 = nall e1) as Hna.
  { pose proof (f_equal (@length bytes) Hrec) as HL.
    unfold records in HL. rewrite !slots_length in HL. lia. }
  exists (older e1), e2. unfold older_records. rewrite Hcur.
  change (Older.nall (older e1)) with (nall e1).
  change (Older.nsorted (older e1)) with (nsorted e1).
  split.
  { unfold Older.count_distinct. cbn [CHECK_AGG_CONTEXT bind].
    rewrite Hold. reflexivity. }
  split; [exact Es1|]. split.
  { assert (nall e1 = Z.of_nat (length (records e1))) as ->
      by (unfold records; rewrite slots_length; lia).
    f_equal. apply Permutation_length, NoDup_Permutation;
      [apply StrictSorted_NoDup; exact HS1 | apply NoDup_nodup |].
    intros x. rewrite nodup_In. apply Hin1. }
  split; [apply StrictSorted_adjacent; exact HS1|].
  split; [exact Hin1|]. split; [|exact Hrec].
  unfold count_distinct. cbn [CHECK_AGG_CONTEXT bind]. rewrite Hc2.
  cbn [bind]. rewrite Hna. reflexivity.
Qed.

(** ** The array as it is allocated *)

Lemma memcpy_length (dst : bytes) (doff : Z) (src : bytes) (soff n : Z)
    (d' : bytes) :
  memcpy dst doff src soff n = Ok d' -> length d' = length dst.
Proof.
  unfold memcpy. intros H. apply bind_Ok_inv in H as (s & _ & H).
  apply store_length in H. exact H.
Qed.

Lemma memcpy_beyond (dst : bytes) (doff : Z) (src : bytes) (soff n : Z) :
  size dst < doff + n -> memcpy dst doff src soff n = Fault.
Proof.
  intros H. unfold memcpy. destruct (load src soff n) as [s|m| |] eqn:E;
    try reflexivity;
    try (unfold load in E; destruct (_ && _) in E; discriminate E).
  apply load_length in E. cbn [bind]. unfold store.
  replace (doff + size s <=? size dst) with false
    by (symmetry; apply Z.leb_gt; lia).
  rewrite andb_false_r. reflexivity.
Qed.

Lemma for_each_invariant (S : Type) (P : S -> Prop) (body : Z -> S -> outcome S)
    (idx : list Z) :
  (forall i s s', P s -> body i s = Ok s' -> P s') ->
  forall s s', P s -> for_each idx body s = Ok s' -> P s'.
Proof.
  intros Hstep. induction idx as [|i idx IH]; intros s s' Hs H.
  - injection H as <-. exact Hs.
  - cbn [for_each] in H. apply bind_Ok_inv in H as (s1 & H1 & H).
    apply (IH s1 s'); [apply (Hstep i s s1 Hs H1) | exact H].
Qed.

Lemma merge_loop_length (fuel : nat) (sz : Z) (src : bytes) (a_max b_max : Z) :
  forall (a b : Z) (dst : bytes) (ptr : Z) (d' : bytes) (p' : Z),
    merge_loop fuel sz src a a_max b b_max dst ptr = Ok (d', p') ->
    length d' = length dst.
Proof.
  induction fuel as [|fuel IH]; intros a b dst ptr d' p' H; [discriminate|].
  cbn [merge_loop] in H.
  apply bind_Ok_inv in H as (r & _ & H).
  apply bind_Ok_inv in H as ([[d1 a1] b1] & Hcopy & H).
  assert (length d1 = length dst) as L1.
  { destruct r; apply bind_Ok_inv in Hcopy as (d2 & Hd2 & Hcopy);
      injection Hcopy as <- _ _; apply memcpy_length in Hd2; exact Hd2. }
  destruct ((a1 =? a_max) || (b1 =? b_max)).
  - destruct (negb (a1 =? a_max)).
    + apply bind_Ok_inv in H as (d2 & Hd2 & H). injection H as <- _.
      apply memcpy_length in Hd2. congruence.
    + destruct (negb (b1 =? b_max)).
      * apply bind_Ok_inv in H as (d2 & Hd2 & H). injection H as <- _.
        apply memcpy_length in Hd2. congruence.
      * injection H as <- _. exact L1.
  - apply IH in H. congruence.
Qed.

(** The current [compact_set], asked for no room, leaves an array of
    [nbytes] bytes when it was given one. *)
Lemma compact_set_false_size (u : nat -> byte) (e e1 : element_set_t) :
  compact_set USE_ASSERT_CHECKING u e false = Ok e1 ->
  size (data e) = nbytes e -> 0 <= nbytes e ->
  size (data e1) = nbytes e1.
Proof.
  rewrite compact_set_stages. intros H Hs Hn.
  inv_bind H. inv_bind H. inv_bind H. inv_bind H. inv_bind H.
  unfold compact_grow in H. cbn [andb] in H. injection H as ->.
  clear Hx Hx0 Hx1 Hx3 x x0 x1 x3.
  unfold compact_core in Hx2.
  destruct (nsorted e <? nall e); [|injection Hx2 as <-; exact Hs].
  apply bind_Ok_inv in Hx2 as (d0 & Hq & H).
  apply bind_Ok_inv in H as ([[d last] cnt] & Hloop & H).
  assert (length d0 = length (data e)) as L0.
  { unfold qsort_arg in Hq. apply bind_Ok_inv in Hq as (region & _ & Hq).
    apply store_length in Hq. exact Hq. }
  assert (length d = length d0) as L1.
  { refine (for_each_invariant _
              (fun st : bytes * Z * Z => length (fst (fst st)) = length d0)
              _ _ _ (d0, _, 1) (d, last, cnt) eq_refl Hloop).
    intros i [[d1 l1] c1] [[d2 l2] c2] Hst Hb. cbn [fst] in *.
    unfold dedup_body in Hb. apply bind_Ok_inv in Hb as (r & _ & Hb).
    destruct (negb (is_eq r)); [|injection Hb as <- _ _; exact Hst].
    apply bind_Ok_inv in Hb as (d3 & Hd3 & Hb). injection Hb as <- _ _.
    destruct (negb _) in Hd3.
    - apply memcpy_length in Hd3. congruence.
    - injection Hd3 as <-. exact Hst. }
  revert H. unfold set_data, set_nall, set_nsorted.
  cbn [item_size nsorted nall nbytes data typalign aggctx].
  destruct (nsorted e =? 0); unfold compact_merge;
    cbn [item_size nsorted nall nbytes data typalign aggctx];
    match goal with
    | |- (if ?c then _ else _) = _ -> _ => destruct c
    end; intros H.
  all: try (injection H as <-;
            cbn [item_size nsorted nall nbytes data typalign aggctx];
            unfold size in *; lia).
  all: apply bind_Ok_inv in H as (J & HJ & H);
    apply bind_Ok_inv in H as ([new ptr] & Hm & H);
    apply bind_Ok_inv in H as (t & _ & H);
    (destruct (item_size e =? 0); [discriminate|]);
    injection H as <-; unfold set_data, set_nall, set_nsorted;
    cbn [item_size nsorted nall nbytes data typalign aggctx];
    apply merge_loop_length in Hm; unfold palloc in HJ;
    (destruct (nbytes e <=? MaxAllocSize); [|discriminate]);
    injection HJ as <-; rewrite length_map, length_seq in Hm;
    unfold size; lia.
Qed.

(** X24.  The defect of the older version: a transition after the final
    function.  When the older [count_distinct] is called on an accumulator
    whose distinct values fill the array (as a window aggregate calls the
    final function between transitions), it leaves every record sorted and
    no room; the next [count_distinct_append] then asks the older
    [compact_set] for room, which returns at once because nothing is
    pending, and [add_element] writes the value beyond the end of the
    array.  With assertion checking the assertion of [add_element] that
    room was made fails instead.  The current [compact_set] reaches its
    growth step in this case. *)
Theorem older_transition_after_final_overruns (ctx : Z) (ty : type_info)
    (e e' : Older.element_set_t) (n : Z) (v : bytes) :
  wf (current e) = true -> 0 < Older.nall e ->
  size (Older.data e) = Older.nbytes e ->
  Older.count_distinct USE_ASSERT_CHECKING uninit (Some ctx) (Some e)
  = Ok (Some e', Some n) ->
  Older.nbytes e < Older.item_size e * (n + 1) ->
  Older.count_distinct_append USE_ASSERT_CHECKING uninit (Some ctx) ty
    (Some e') (Some v)
  = if USE_ASSERT_CHECKING then Trap else Fault.
Proof.
  intros Hwf Hpos Hs H Hfull.
  assert (MaxAllocSize = 1073741823) as HM by reflexivity.
  destruct (older_compact_set_false e Hwf Hpos)
    as (e1 & Hc & Hcomp & Hn & Hcur & Hold).
  unfold Older.count_distinct in H. cbn [CHECK_AGG_CONTEXT bind] in H.
  rewrite Hold in H. cbn [bind] in H. injection H as <- <-.
  destruct (wf_facts (current e) Hwf) as (_ & _ & _ & Hmax & _ & _).
  cbn [current nbytes] in Hmax.
  assert (size (data e1) = nbytes e1) as Hs1.
  { apply (compact_set_false_size zero_fill (current e) e1 Hc); [exact Hs|].
    cbn [current nbytes]. pose proof (size_nonneg (Older.data e)). lia. }
  destruct Hcomp as (Hwf1 & Ei & _ & _ & Es1 & Hn1 & _).
  destruct (wf_facts e1 Hwf1) as (Hisz & _ & Hcap & _ & _ & _).
  cbn [current item_size nall] in Ei, Hn1. cbn [older Older.nall] in Hfull.
  rewrite <- Ei, <- Hn in Hfull. clear Hc Hold Hcur.
  assert (nall e1 <= nall e1 * item_size e1) as Hna by nia.
  assert (item_size e1 <= nall e1 * item_size e1) as Hni by nia.
  unfold Older.count_distinct_append. cbn [GET_AGG_CONTEXT bind].
  unfold Older.add_element.
  cbn [older Older.item_size Older.nsorted Older.nall Older.nbytes
       Older.data].
  rewrite (@wrap32_small (nall e1 + 1)) by lia.
  rewrite (@wrap32_small (item_size e1 * (nall e1 + 1))) by lia.
  replace (item_size e1 * (nall e1 + 1) >? nbytes e1) with true
    by (symmetry; apply Z.gtb_lt; lia).
  unfold Older.compact_set.
  cbn [older Older.item_size Older.nsorted Older.nall Older.nbytes
       Older.data].
  rewrite Es1, Z.eqb_refl.
  rewrite (@wrap32_small (nall e1 + nall e1)) by lia.
  rewrite (@wrap32_small (nall e1 * item_size e1)) by lia.
  rewrite Assert_ok by (apply Z.ltb_lt; lia). cbn [bind].
  rewrite Assert_ok by (apply Z.leb_le; lia). cbn [bind].
  rewrite Assert_ok by (apply Z.leb_le; lia). cbn [bind].
  cbn [older Older.item_size Older.nsorted Older.nall Older.nbytes
       Older.data].
  rewrite (@wrap32_small (nall e1 + 1)) by lia.
  rewrite (@wrap32_small (item_size e1 * (nall e1 + 1))) by lia.
  unfold Assert.
  replace (nbytes e1 >=? item_size e1 * (nall e1 + 1)) with false
    by (symmetry; rewrite Z.geb_leb; apply Z.leb_gt; lia).
  cbn [negb]. rewrite andb_true_r.
  destruct USE_ASSERT_CHECKING; [reflexivity|]. cbn [bind].
  rewrite memcpy_beyond; [reflexivity|].
  rewrite wrap32_small by lia. lia.
Qed.

(** ** The transitions of the older version *)

(** When there is room, the older [add_element] copies the value as the
    current one does. *)
Lemma older_add_copy (e2 : Older.element_set_t) (v : bytes)
    (r : element_set_t) :
  wrap32 (Older.item_size e2 * wrap32 (Older.nall e2 + 1))
  <= Older.nbytes e2 ->
  add_element USE_ASSERT_CHECKING uninit (current e2) v = Ok r ->
  Older.add_element USE_ASSERT_CHECKING uninit e2 v = Ok (older r)
  /\ nall r = wrap32 (Older.nall e2 + 1)
  /\ nsorted r = Older.nsorted e2
  /\ nbytes r = Older.nbytes e2.
Proof.
  intros Hroom H. unfold add_element in H. unfold Older.add_element.
  cbn [current item_size nsorted nall nbytes data] in H.
  replace (wrap32 (Older.item_size e2 * wrap32 (Older.nall e2 + 1))
           >? Older.nbytes e2) with false in H |- *
    by (symmetry; rewrite Z.gtb_ltb; apply Z.ltb_ge; lia).
  cbn [bind] in H |- *.
  cbn [current item_size nsorted nall nbytes data] in H.
  apply bind_Ok_inv in H as (u & -> & H). cbn [bind].
  apply bind_Ok_inv in H as (d & -> & H). cbn [bind].
  injection H as <-. repeat split.
Qed.

(** The number of distinct records an accumulator of the older version
    stores. *)
Definition older_distinct (e : Older.element_set_t) : Z :=
  Z.of_nat (length (nodup bytes_eq_dec (older_records e))).

Lemma older_add_element_spec (e : Older.element_set_t) (value : bytes) :
  wf (current e) = true -> 0 < Older.item_size e <= 8 ->
  capacity_ok (Older.nbytes e) -> 2 * Older.nbytes e <= MaxAllocSize ->
  5 * (older_distinct e * Older.item_size e) <= MaxAllocSize ->
  Older.item_size e <= size value ->
  Older.nsorted e < Older.nall e
  \/ (Older.nall e + 1) * Older.item_size e <= Older.nbytes e ->
  exists e',
    Older.add_element USE_ASSERT_CHECKING uninit e value = Ok e' /\
    wf (current e') = true /\
    Older.item_size e' = Older.item_size e /\
    capacity_ok (Older.nbytes e') /\
    0 < Older.nall e' <= Older.nall e + 1 /\
    Older.nsorted e' < Older.nall e' /\
    (forall x, In x (older_records e')
               <-> In x (older_records e)
                   \/ x = firstn (Z.to_nat (Older.item_size e)) value) /\
    (Older.nbytes e' = Older.nbytes e
     \/ 2 * Older.nbytes e' < 5 * (older_distinct e * Older.item_size e)).
Proof.
  intros Hwf Hisz [Hc32 Hc8] Hmem Hmem5 Hval Hpend.
  destruct (wf_facts (current e) Hwf) as (_ & Hns & Hcap & Hmax & Hlen & HS).
  cbn [current item_size nsorted nall nbytes data] in Hns, Hcap, Hmax, Hlen.
  assert (MaxAllocSize = 1073741823) as HM by reflexivity.
  assert (0 <= Older.nall e * Older.item_size e) as Hu by nia.
  assert (Older.nall e <= Older.nall e * Older.item_size e) as Hna by nia.
  (* the state the copy starts from *)
  assert (exists e2,
            (if wrap32 (Older.item_size e * wrap32 (Older.nall e + 1))
                >? Older.nbytes e
             then Older.compact_set USE_ASSERT_CHECKING uninit e true
             else Ok e) = Ok e2
            /\ wf (current e2) = true
            /\ Older.item_size e2 = Older.item_size e
            /\ capacity_ok (Older.nbytes e2)
            /\ 0 <= Older.nall e2 <= Older.nall e
            /\ Older.nsorted e2 <= Older.nall e2
            /\ (forall x, In x (older_records e2) <-> In x (older_records e))
            /\ (Older.nall e2 + 1) * Older.item_size e2 <= Older.nbytes e2
            /\ 2 * Older.nbytes e2 <= MaxAllocSize
            /\ (Older.nbytes e2 = Older.nbytes e
                \/ 2 * Older.nbytes e2
                   < 5 * (older_distinct e * Older.item_size e)))
    as (e2 & Hrun & Hwf2 & E1 & Hc2 & Hn2 & Hs2 & Hin2 & Hroom & Hmem2
        & Hgrow).
  { rewrite (@wrap32_small (Older.nall e + 1)) by lia.
    rewrite wrap32_small by nia.
    destruct (Z.gtb_spec (Older.item_size e * (Older.nall e + 1))
                (Older.nbytes e)) as [Hfull|Hfree].
    - assert (Older.nsorted e < Older.nall e) as Hp
        by (destruct Hpend as [Hp|Hp]; [exact Hp | lia]).
      assert (0 < Older.nall e) as Hpos by lia.
      destruct (older_compact_set_stages e true Hwf Hpos)
        as (e1 & Hc & Hcomp & Hn & _ & Hold).
      rewrite Hold. clear Hold Hc.
      replace (Older.nall e =? Older.nsorted e) with false
        by (symmetry; apply Z.eqb_neq; lia).
      pose proof (compacted_nall (current e) e1 Hcomp) as En1.
      fold (older_records e) in En1. fold (older_distinct e) in En1.
      pose proof Hcomp as (Hwf1 & Ei & Eta & _ & Es1 & Hn1 & Hin1).
      cbn [current item_size nall typalign] in Ei, Hn1, Eta.
      destruct (wf_facts e1 Hwf1) as (_ & _ & Hcap1 & _ & _ & _).
      rewrite Ei, Hn in Hcap1.
      assert (0 <= nall e1 * Older.item_size e) as Hu1 by nia.
      unfold older_grow, Older.free_fract_below_ARRAY_FREE_FRACT.
      cbn [older Older.item_size Older.nsorted Older.nall Older.nbytes
           Older.data andb].
      rewrite Ei, Hn.
      rewrite (@wrap32_small (nall e1 * Older.item_size e)) by lia.
      rewrite (@wrap32_small (Older.nbytes e - nall e1 * Older.item_size e))
        by lia.
      destruct (Z.ltb_spec
                  (5 * (Older.nbytes e - nall e1 * Older.item_size e))
                  (Older.nbytes e)) as [Hg|Hk].
      + (* the array is doubled *)
        rewrite (@wrap32_small (Older.nbytes e * 2)) by lia.
        unfold repalloc.
        replace (Older.nbytes e * 2 <=? MaxAllocSize) with true
          by (symmetry; apply Z.leb_le; lia).
        cbn [bind].
        assert (compacted (current e)
                  (grown uninit e1 (Older.nbytes e * 2))) as Hcg
          by (apply compacted_grown; [exact Hcomp | lia]).
        exists (older (grown uninit e1 (Older.nbytes e * 2))).
        unfold older_records.
        rewrite current_older
          by (destruct Hcg as (_ & _ & E & _); exact E).
        destruct Hcg as (Hwfg & _ & _ & _ & Esg & _ & Hing).
        split; [reflexivity|]. split; [exact Hwfg|].
        cbn [older grown set_data set_nbytes Older.item_size Older.nsorted
             Older.nall Older.nbytes item_size nsorted nall nbytes].
        rewrite Ei. rewrite En1 in Hg, Hcap1, Hu1.
        split; [reflexivity|]. split; [split; [lia | right; lia]|].
        split; [lia|]. split; [lia|]. split; [exact Hing|].
        split; [lia|]. split; [lia | right; lia].
      + (* enough was freed: the capacity is kept *)
        exists (older e1). unfold older_records.
        rewrite current_older by exact Eta.
        split; [reflexivity|]. split; [exact Hwf1|].
        cbn [older Older.item_size Older.nsorted Older.nall Older.nbytes].
        rewrite Ei, Hn.
        split; [reflexivity|]. split; [split; assumption|].
        split; [lia|]. split; [lia|]. split; [exact Hin1|].
        split; [|split; [lia | left; reflexivity]].
        destruct Hc8 as [Hm8|H40]; [|lia].
        pose proof (Z.div_mod (Older.nbytes e) 8 ltac:(lia)) as Hdm.
        rewrite Hm8 in Hdm.
        assert (Older.item_size e = 8 \/ Older.item_size e <= 7)
          as [E8|E7] by lia; [rewrite E8 in *; lia | lia].
    - exists e. unfold capacity_ok.
      repeat split; try assumption; try lia; try tauto. }
  destruct (add_element_spec USE_ASSERT_CHECKING uninit (current e2) value
              Hwf2)
    as (r & Hadd & Hwfr & Er1 & Er2 & _ & Hcr & Hnr & Hinr & _);
    try (cbn [current item_size nbytes]; rewrite ?E1; assumption).
  assert (0 <= Older.nall e2 * Older.item_size e) as Hu2 by nia.
  assert (Older.nall e2 * Older.item_size e
          <= Older.nall e * Older.item_size e) as Hmono2
    by (apply Z.mul_le_mono_nonneg_r; lia).
  destruct (older_add_copy e2 value r) as (Hcopy & Enr & Esr & Ebr);
    [ rewrite E1, (@wrap32_small (Older.nall e2 + 1)) by lia;
      rewrite wrap32_small by lia; lia
    | exact Hadd | ].
  rewrite (@wrap32_small (Older.nall e2 + 1)) in Enr by lia.
  cbn [current item_size nsorted nall nbytes typalign] in Er1, Er2, Hnr.
  exists (older r). unfold older_records.
  rewrite current_older by exact Er2.
  cbn [older Older.item_size Older.nsorted Older.nall Older.nbytes].
  split.
  { unfold Older.add_element in Hcopy |- *. rewrite Hrun. cbn [bind].
    replace (wrap32 (Older.item_size e2 * wrap32 (Older.nall e2 + 1))
             >? Older.nbytes e2) with false in Hcopy; [exact Hcopy|].
    symmetry. rewrite Z.gtb_ltb. apply Z.ltb_ge.
    rewrite E1, (@wrap32_small (Older.nall e2 + 1)) by lia.
    rewrite wrap32_small by lia. lia. }
  split; [exact Hwfr|]. rewrite Er1, E1, Enr, Esr, Ebr.
  split; [reflexivity|]. split; [exact Hc2|].
  split; [lia|]. split; [lia|]. split; [|exact Hgrow].
  intros x. rewrite (Hinr x). unfold older_records in Hin2.
  rewrite (Hin2 x). cbn [current item_size]. rewrite E1. reflexivity.
Qed.

(** The transition phase of the older aggregate. *)
Fixpoint older_append_all (context : option Z) (ty : type_info)
    (state : option Older.element_set_t) (values : list bytes)
  : outcome (option Older.element_set_t) :=
  match values with
  | [] => Ok state
  | v :: vs =>
      state' <- Older.count_distinct_append USE_ASSERT_CHECKING uninit
                  context ty state (Some v) ;;
      older_append_all context ty state' vs
  end.

(** The invariant of the transition phase: that of the current version
    with its bound on the capacity, and a record is pending, so that a
    full array is never met with nothing to sort. *)
Definition older_append_inv (ty : type_info) (seen : list bytes)
    (e : Older.element_set_t) : Prop :=
  append_inv ty seen (current e) /\ capacity_bound ty seen (current e) /\
  Older.nsorted e < Older.nall e.

Lemma older_append_add (ty : type_info) (seen : list bytes)
    (e : Older.element_set_t) (v : bytes) :
  0 < typlen ty <= 8 -> typlen ty <= size v ->
  5 * (distinct_count (Z.to_nat (typlen ty)) seen * typlen ty)
  <= MaxAllocSize ->
  wf (current e) = true -> Older.item_size e = typlen ty ->
  capacity_ok (Older.nbytes e) ->
  0 <= Older.nall e <= Z.of_nat (length seen) ->
  (forall x, In x (older_records e)
             <-> In x (map (firstn (Z.to_nat (typlen ty))) seen)) ->
  Older.nbytes e = 32
  \/ 2 * Older.nbytes e < 5 * (Z.of_nat (length seen) * typlen ty) ->
  capacity_bound ty seen (current e) ->
  Older.nsorted e < Older.nall e
  \/ (Older.nall e + 1) * Older.item_size e <= Older.nbytes e ->
  exists e',
    Older.add_element USE_ASSERT_CHECKING uninit e v = Ok e'
    /\ older_append_inv ty (seen ++ [v]) e'.
Proof.
  intros Hty Hv Hmem Hwf Hisz Hcap Hn Hin Hb Hcb Hpend.
  assert (MaxAllocSize = 1073741823) as HM by reflexivity.
  assert (older_distinct e = distinct_count (Z.to_nat (typlen ty)) seen)
    as ED.
  { unfold older_distinct.
    apply NoDup_distinct_count; [apply NoDup_nodup|].
    intros x. rewrite nodup_In. apply Hin. }
  pose proof (distinct_count_le_length (Z.to_nat (typlen ty)) seen) as HDl.
  pose proof (distinct_count_app_le (Z.to_nat (typlen ty)) seen [v]) as HDm.
  assert (0 <= distinct_count (Z.to_nat (typlen ty)) seen) as HD0
    by (unfold distinct_count; lia).
  assert (distinct_count (Z.to_nat (typlen ty)) seen * typlen ty
          <= Z.of_nat (length seen) * typlen ty) as Hmono1
    by (apply Z.mul_le_mono_nonneg_r; lia).
  assert (distinct_count (Z.to_nat (typlen ty)) seen * typlen ty
          <= distinct_count (Z.to_nat (typlen ty)) (seen ++ [v]) * typlen ty)
    as Hmono2 by (apply Z.mul_le_mono_nonneg_r; lia).
  pose proof (capacity_bound_room ty seen (current e) Hmem Hcb) as Hroom.
  cbn [current nbytes] in Hroom.
  unfold capacity_bound in Hcb. cbn [current nbytes] in Hcb.
  destruct (older_add_element_spec e v Hwf)
    as (e' & Hrun & Hwf' & E1 & Hcap' & Hn' & Hs' & Hin' & Hb');
    try (rewrite Hisz; assumption); try assumption;
    [rewrite ED, Hisz; exact Hmem|].
  exists e'. split; [exact Hrun|].
  unfold older_append_inv, append_inv, capacity_bound.
  rewrite length_app. simpl length.
  cbn [current item_size nsorted nall nbytes].
  assert (Older.nall e' * typlen ty
          <= Z.of_nat (length seen + 1) * typlen ty) as Hmono
    by (apply Z.mul_le_mono_nonneg_r; lia).
  rewrite ED, Hisz in Hb'. rewrite E1, Hisz in *.
  fold (older_records e').
  repeat split; try assumption; try lia; try apply Hcap'.
  - rewrite Hin', Hin, map_app, in_app_iff. simpl.
    intros [H|H]; [left; exact H | right; left; symmetry; exact H].
  - rewrite Hin', Hin, map_app, in_app_iff. simpl.
    intros [H|[H|[]]]; [left; exact H | right; symmetry; exact H].
Qed.

Lemma older_append_step (ctx : Z) (ty : type_info) (seen : list bytes)
    (e : Older.element_set_t) (v : bytes) :
  0 < typlen ty <= 8 -> typlen ty <= size v ->
  5 * (distinct_count (Z.to_nat (typlen ty)) seen * typlen ty)
  <= MaxAllocSize ->
  older_append_inv ty seen e ->
  exists e',
    Older.count_distinct_append USE_ASSERT_CHECKING uninit (Some ctx) ty
      (Some e) (Some v) = Ok (Some e')
    /\ older_append_inv ty (seen ++ [v]) e'.
Proof.
  intros Hty Hv Hmem ((Hwf & Hisz & Hcap & Hn & Hin & Hb) & Hcb & Hp).
  cbn [current item_size nsorted nall nbytes] in Hisz, Hcap, Hn, Hb.
  destruct (older_append_add ty seen e v Hty Hv Hmem Hwf Hisz Hcap)
    as (e' & Hrun & Hinv);
    [lia | exact Hin | exact Hb | exact Hcb | left; exact Hp |].
  exists e'. unfold Older.count_distinct_append.
  cbn [GET_AGG_CONTEXT bind]. rewrite Hrun. split; [reflexivity | exact Hinv].
Qed.

Lemma older_append_first (ctx : Z) (ty : type_info) (v : bytes) :
  0 < typlen ty <= 8 -> typbyval ty = true -> typlen ty <= size v ->
  exists e,
    Older.count_distinct_append USE_ASSERT_CHECKING uninit (Some ctx) ty
      None (Some v) = Ok (Some e)
    /\ older_append_inv ty [v] e.
Proof.
  intros Hty Hbv Hv.
  assert (MaxAllocSize = 1073741823) as HM by reflexivity.
  unfold Older.count_distinct_append. cbn [GET_AGG_CONTEXT bind].
  replace (typlen ty =? -1) with false by (symmetry; apply Z.eqb_neq; lia).
  rewrite Hbv. cbn [negb orb]. unfold Older.init_set, palloc0.
  replace (ARRAY_INIT_SIZE <=? MaxAllocSize) with true by reflexivity.
  cbn [bind]. rewrite wrap32_small by lia.
  set (e0 := Older.mk_element_set _ _ _ _ _ _).
  assert (wf (current e0) = true) as Hwf0.
  { apply wf_intro; unfold e0;
      cbn [current item_size nsorted nall nbytes data Older.item_size
           Older.nsorted Older.nall Older.nbytes Older.data];
      unfold ARRAY_INIT_SIZE; try lia.
    - unfold size. rewrite repeat_length. lia.
    - unfold sorted_zone. simpl. constructor. }
  destruct (older_append_add ty [] e0 v Hty Hv) as (e' & Hrun & Hinv);
    try (simpl length; lia); try exact Hwf0;
    try (unfold e0; cbn [Older.item_size Older.nsorted Older.nall
                         Older.nbytes]; unfold ARRAY_INIT_SIZE; lia).
  - vm_compute. discriminate.
  - split; [unfold e0, ARRAY_INIT_SIZE; simpl; lia | left; reflexivity].
  - intros x. unfold older_records, records. simpl. tauto.
  - left. reflexivity.
  - exists e'. rewrite Hrun. split; [reflexivity | exact Hinv].
Qed.

Lemma older_append_all_spec (ctx : Z) (ty : type_info) :
  0 < typlen ty <= 8 ->
  forall (rest seen : list bytes) (e : Older.element_set_t),
    Forall (fun v => typlen ty <= size v) rest ->
    5 * (distinct_count (Z.to_nat (typlen ty)) (seen ++ rest) * typlen ty)
    <= MaxAllocSize ->
    older_append_inv ty seen e ->
    exists e',
      older_append_all (Some ctx) ty (Some e) rest = Ok (Some e')
      /\ older_append_inv ty (seen ++ rest) e'.
Proof.
  intros Hty. induction rest as [|v rest IH]; intros seen e Hv Hmem Hinv.
  - exists e. rewrite app_nil_r. split; [reflexivity | exact Hinv].
  - pose proof (Forall_inv Hv) as Hv1. cbv beta in Hv1.
    pose proof (Forall_inv_tail Hv) as Hvs.
    assert (5 * (distinct_count (Z.to_nat (typlen ty)) seen * typlen ty)
            <= MaxAllocSize) as Hmem0.
    { pose proof (distinct_count_app_le (Z.to_nat (typlen ty)) seen
                    (v :: rest)).
      assert (distinct_count (Z.to_nat (typlen ty)) seen * typlen ty
              <= distinct_count (Z.to_nat (typlen ty)) (seen ++ v :: rest)
                 * typlen ty)
        by (apply Z.mul_le_mono_nonneg_r; lia).
      lia. }
    destruct (older_append_step ctx ty seen e v Hty Hv1 Hmem0 Hinv)
      as (e1 & Hrun & Hinv1).
    destruct (IH (seen ++ [v]) e1 Hvs) as (e' & Hrun' & Hinv');
      [rewrite <- app_assoc; exact Hmem | exact Hinv1 |].
    exists e'. cbn [older_append_all]. rewrite Hrun. cbn [bind].
    rewrite <- app_assoc in Hinv'. split; [exact Hrun' | exact Hinv'].
Qed.

(** X25.  The older aggregate counts right when only transitions precede
    the final function.  For every non-empty multiset of non-null values of
    a by-value type and every order of arrival, the older
    [count_distinct_append] called on each in turn and then the older
    [count_distinct] return, and the count is the number of distinct
    records: after a transition a record is always pending, so the early
    return of the older [compact_set] is never taken on a full array.  The
    values may be repeated any number of times; five times the bytes of
    the distinct records are within the allocation limit. *)
Theorem older_count_distinct_counts_distinct (ctx : Z) (ty : type_info)
    (values : list bytes) :
  0 < typlen ty <= 8 -> typbyval ty = true -> values <> [] ->
  Forall (fun v => size v = SIZEOF_DATUM) values ->
  5 * (distinct_count (Z.to_nat (typlen ty)) values * typlen ty)
  <= MaxAllocSize ->
  forall order : list bytes, Permutation values order ->
  exists e e1 : Older.element_set_t,
    older_append_all (Some ctx) ty None order = Ok (Some e) /\
    Older.nsorted e < Older.nall e /\
    Older.count_distinct USE_ASSERT_CHECKING uninit (Some ctx) (Some e)
    = Ok (Some e1, Some (distinct_count (Z.to_nat (typlen ty)) values)).
Proof.
  intros Hty Hbv Hne Hsize Hmem order Hperm.
  rewrite (distinct_count_perm (Z.to_nat (typlen ty)) _ _ Hperm) in Hmem |- *.
  assert (Forall (fun v => typlen ty <= size v) order) as Hv.
  { apply (Permutation_Forall Hperm) in Hsize.
    eapply Forall_impl; [|exact Hsize].
    intros v E. cbv beta in E. rewrite E. unfold SIZEOF_DATUM. lia. }
  destruct order as [|v rest].
  { apply Permutation_sym, Permutation_nil in Hperm. congruence. }
  pose proof (Forall_inv Hv) as Hv1. cbv beta in Hv1.
  pose proof (Forall_inv_tail Hv) as Hvs.
  destruct (older_append_first ctx ty v Hty Hbv Hv1) as (e0 & Hrun0 & Hinv0).
  destruct (older_append_all_spec ctx ty Hty rest [v] e0 Hvs Hmem Hinv0)
    as (e & Hrun & (Hwf & Hisz & Hcap & Hn & Hin & Hb) & _ & Hp).
  cbn [current item_size nall] in Hisz, Hn.
  destruct (older_compact_set_false e Hwf ltac:(lia))
    as (e1 & _ & Hcomp & _ & _ & Hold).
  exists e, (older e1). split.
  { cbn [older_append_all]. rewrite Hrun0. cbn [bind]. exact Hrun. }
  split; [exact Hp|].
  unfold Older.count_distinct. cbn [CHECK_AGG_CONTEXT bind].
  rewrite Hold. cbn [bind older Older.nall]. do 3 f_equal.
  destruct (compacted_sorted _ _ Hcomp) as (HS & _).
  destruct Hcomp as (_ & _ & _ & _ & _ & Hn1 & Hin1).
  rewrite <- (NoDup_distinct_count _ (records e1) (v :: rest)).
  - unfold records. rewrite slots_length. lia.
  - apply StrictSorted_NoDup. exact HS.
  - intros x. rewrite Hin1. apply Hin.
Qed.

(** ** The array final function of the older version *)

(** X26.  The older [array_agg_distinct].  On a well-formed, non-empty
    accumulator of a by-value width it hands [construct_array] the records
    the compaction leaves, each in the low bytes of a zeroed Datum, in
    strictly increasing [memcmp] order and as many as the older
    [count_distinct] counts; they are the records stored before, each
    once.  For a NULL state it returns NULL, where the final functions of
    the current version return the empty array. *)
Theorem older_array_agg_distinct_returns_sorted_distinct (ctx : Z)
    (e : Older.element_set_t) (ty : type_info) :
  wf (current e) = true -> 0 < Older.nall e -> Older.item_size e <= 8 ->
  8 * Older.nall e <= MaxAllocSize ->
  exists (e1 : Older.element_set_t) (n : Z),
    Older.count_distinct USE_ASSERT_CHECKING uninit (Some ctx) (Some e)
    = Ok (Some e1, Some n) /\
    Older.array_agg_distinct USE_ASSERT_CHECKING uninit (Some ctx) ty (Some e)
    = Ok (Some e1,
          Some (construct_array (map datum_of_record (older_records e1))
                  n ty)) /\
    n = Z.of_nat (length (older_records e1)) /\
    adjacent_increasing (older_records e1) /\
    (forall x, In x (older_records e1) <-> In x (older_records e)) /\
    Older.array_agg_distinct USE_ASSERT_CHECKING uninit (Some ctx) ty None
    = Ok (None, None) /\
    array_agg_distinct_type_by_element USE_ASSERT_CHECKING uninit (Some ctx)
      ty None
    = Ok (None, construct_empty_array ty).
Proof.
  intros Hwf Hpos Hisz Hmem.
  destruct (older_compact_set_false e Hwf Hpos)
    as (e1 & Hc & Hcomp & Hn & Hcur & Hold).
  destruct (build_array_spec USE_ASSERT_CHECKING zero_fill (current e) ty
              Hwf Hpos Hisz Hmem) as (e1' & Hc' & _ & Hb).
  rewrite Hc in Hc'. injection Hc' as <-.
  destruct (compacted_sorted _ _ Hcomp) as (HS1 & _).
  pose proof Hcomp as (Hwf1 & _ & _ & _ & Es1 & Hn1 & Hin1).
  exists (older e1), (nall e1). unfold older_records. rewrite Hcur.
  split.
  { unfold Older.count_distinct. cbn [CHECK_AGG_CONTEXT bind].
    rewrite Hold. reflexivity. }
  split.
  { unfold build_array in Hb. rewrite Hc in Hb. cbn [bind] in Hb.
    apply bind_Ok_inv in Hb as (d0 & Hd0 & Hb).
    apply bind_Ok_inv in Hb as (d & Hd & Hb).
    unfold Older.array_agg_distinct. cbn [CHECK_AGG_CONTEXT bind].
    rewrite Hold. cbn [bind].
    cbn [older Older.item_size Older.nsorted Older.nall Older.nbytes
         Older.data].
    rewrite Hd0. cbn [bind]. rewrite Hd. cbn [bind]. congruence. }
  split; [unfold records; rewrite slots_length; lia|].
  split; [apply StrictSorted_adjacent; exact HS1|].
  split; [exact Hin1|]. split; reflexivity.
Qed.

End OlderVersion.

(** ** Instances for the older version *)

(** The older accumulator after the transitions on 4, 3, 2, 1: four
    pending records fill its 32 bytes; and what the older final function
    makes of it. *)
Definition older_full : Older.element_set_t :=
  Older.mk_element_set 8 0 4 32 0
    (datum 4 ++ datum 3 ++ datum 2 ++ datum 1).

Definition older_full_sorted : Older.element_set_t :=
  Older.mk_element_set 8 4 4 32 0
    (datum 1 ++ datum 2 ++ datum 3 ++ datum 4).

Lemma older_final_count_is_distinct_count_witness :
  exists (e1 : Older.element_set_t) (e2 : element_set_t),
    Older.count_distinct true zero_fill (Some 0) (Some older_full)
    = Ok (Some e1, Some (Older.nall e1)) /\
    Older.nall e1
    = Z.of_nat (length (nodup bytes_eq_dec (older_records older_full))) /\
    count_distinct true zero_fill (Some 0) (Some (current older_full))
    = Ok (Some e2, Some (Older.nall e1)) /\
    records e2 = older_records e1.
Proof.
  destruct (older_final_count_is_distinct_count true zero_fill 0 older_full)
    as (e1 & e2 & H1 & _ & H2 & _ & _ & H3 & H4).
  - reflexivity.
  - simpl. lia.
  - exists e1, e2. repeat split; assumption.
Defined.

Lemma older_transition_after_final_overruns_witness :
  older_append_all false zero_fill (Some 0) int8_type None
    (map datum [4; 3; 2; 1]) = Ok (Some older_full)
  /\ Older.count_distinct false zero_fill (Some 0) (Some older_full)
     = Ok (Some older_full_sorted, Some 4)
  /\ Older.count_distinct_append false zero_fill (Some 0) int8_type
       (Some older_full_sorted) (Some (datum 5))
     = Fault.
Proof.
  split; [vm_compute; reflexivity|]. split; [vm_compute; reflexivity|].
  apply (older_transition_after_final_overruns false zero_fill 0 int8_type
           older_full older_full_sorted 4 (datum 5)).
  - reflexivity.
  - simpl. lia.
  - reflexivity.
  - vm_compute. reflexivity.
  - simpl. lia.
Defined.

Lemma older_count_distinct_counts_distinct_witness :
  exists e e1 : Older.element_set_t,
    older_append_all true zero_fill (Some 0) int8_type None
      (rev (map datum [5; 3; 5; 1; 3; 2])) = Ok (Some e) /\
    Older.nsorted e < Older.nall e /\
    Older.count_distinct true zero_fill (Some 0) (Some e)
    = Ok (Some e1, Some 4).
Proof.
  apply (older_count_distinct_counts_distinct true zero_fill 0 int8_type
           (map datum [5; 3; 5; 1; 3; 2])).
  - simpl. lia.
  - reflexivity.
  - discriminate.
  - repeat constructor.
  - vm_compute. discriminate.
  - apply Permutation_rev.
Defined.

Lemma older_array_agg_distinct_returns_sorted_distinct_witness :
  exists (e1 : Older.element_set_t) (n : Z),
    Older.count_distinct true zero_fill (Some 0) (Some older_full)
    = Ok (Some e1, Some n) /\
    Older.array_agg_distinct true zero_fill (Some 0) int8_type
      (Some older_full)
    = Ok (Some e1,
          Some (construct_array (map datum_of_record (older_records e1))
                  n int8_type)) /\
    adjacent_increasing (older_records e1).
Proof.
  destruct (older_array_agg_distinct_returns_sorted_distinct true zero_fill
              0 older_full int8_type)
    as (e1 & n & H1 & H2 & _ & H3 & _).
  - reflexivity.
  - simpl. lia.
  - simpl. lia.
  - vm_compute. discriminate.
  - exists e1, n. repeat split; assumption.
Defined.
